(** * Two Worlds 1 PAR editor: record codec, envelope, compare and merge

    A shallow embedding of [tw1_par_editorV2_1.py]: the byte cursor
    ([ParReader], [ParWriter]), the record codec ([read_par], [write_par]),
    the zlib envelope ([decompress_par_file], [compress_par_file]), the
    compare engine ([_cmp_run_compare]) and the merge engine ([_cmp_merge]).

    Conventions of the embedding:
    - a byte buffer is a [list byte]; a Python [int] is a [Z]; positions and
      loop counters are [nat];
    - a Python [str] is the list of its code points;
    - a Python [float] held by a float32 field is carried as the IEEE-754
      binary32 bit pattern it was unpacked from; arithmetic on it is done on
      its binary64 widening ([f32_to_float]), as CPython does;
    - a raised exception is the [Raise] branch of [res]. *)

From Stdlib Require Import ZArith Floats.
From Stdlib.Strings Require Import Byte String.
From stdpp Require Import base option list gmap sorting.

Open Scope Z_scope.

(** ** Exceptions and the error monad *)

Inductive exn : Type :=
| ReadPastEnd (offset : nat)        (* ValueError: Read past end at offset *)
| UnreasonableLength (len : Z)      (* ValueError: Unreasonable string length *)
| NotAParFile                       (* ValueError: Not a PAR file *)
| UnknownDataType (dt : Z)          (* ValueError: Unknown data type *)
| StructError                       (* struct.error: argument out of range *)
| UnknownFormat                     (* ValueError: Unknown format *)
| SingleStreamNotPar                (* ValueError: Single zlib stream but not PAR *)
| Stream2NotPar                     (* ValueError: Stream 2 is not PAR *)
| ZlibError                         (* zlib.error *)
| OverflowError                     (* int(inf) *)
| NanToInt                          (* ValueError: int(nan) *)
| IndexError                        (* list index out of range *)
| AttributeError                    (* attribute access on None *)
| KeyError                          (* missing dict key *)
| ShapeMismatch.                    (* value shape differs from the type tag:
                                       the defensive coercions int(), float(),
                                       str() on such values are not embedded *)

Inductive res (A : Type) : Type :=
| OK (a : A)
| Raise (e : exn).
Arguments OK {A} a.
Arguments Raise {A} e.

Definition res_bind {A B : Type} (m : res A) (k : A → res B) : res B :=
  match m with
  | OK a => k a
  | Raise e => Raise e
  end.

Declare Scope res_scope.
Delimit Scope res_scope with res.
Notation "x <- m ;; k" := (res_bind m (λ x, k))
  (at level 100, m at next level, right associativity) : res_scope.

(** ** Bytes and [struct] packing *)

#[global] Instance byte_eq_dec : EqDecision byte := Byte.byte_eq_dec.

Definition Z_of_byte (b : byte) : Z := Z.of_N (Byte.to_N b).

Definition byte_of_Z (z : Z) : byte :=
  default x00 (Byte.of_N (Z.to_N (z mod 256))).

(** [n] little-endian bytes of [v] (two's complement for a negative [v]). *)
Fixpoint le_bytes (n : nat) (v : Z) : list byte :=
  match n with
  | O => []
  | S k => byte_of_Z v :: le_bytes k (v / 256)
  end.

Fixpoint le_value (bs : list byte) : Z :=
  match bs with
  | [] => 0
  | b :: r => Z_of_byte b + 256 * le_value r
  end.

(** The [struct] format characters the program uses, all little-endian. *)
Inductive format : Type :=
| fmt_B   (* '<B' unsigned char *)
| fmt_b   (* '<b' signed char *)
| fmt_H   (* '<H' unsigned short *)
| fmt_I   (* '<I' unsigned int *)
| fmt_i   (* '<i' signed int *)
| fmt_f   (* '<f' float, as its bit pattern *)
| fmt_Q.  (* '<Q' unsigned long long *)

Definition calcsize (f : format) : nat :=
  match f with
  | fmt_B | fmt_b => 1
  | fmt_H => 2
  | fmt_I | fmt_i | fmt_f => 4
  | fmt_Q => 8
  end%nat.

Definition fmt_signed (f : format) : bool :=
  match f with
  | fmt_b | fmt_i => true
  | _ => false
  end.

Definition fmt_modulus (f : format) : Z := 2 ^ (8 * Z.of_nat (calcsize f)).

Definition fmt_min (f : format) : Z :=
  if fmt_signed f then - (fmt_modulus f / 2) else 0.

Definition fmt_max (f : format) : Z :=
  if fmt_signed f then fmt_modulus f / 2 - 1 else fmt_modulus f - 1.

(** [struct.pack(f, v)]: raises [struct.error] outside the format's range. *)
Definition pack (f : format) (v : Z) : res (list byte) :=
  if decide (fmt_min f ≤ v ≤ fmt_max f)
  then OK (le_bytes (calcsize f) v)
  else Raise StructError.

(** [struct.unpack(f, bs)[0]] on exactly [calcsize f] bytes. *)
Definition unpack (f : format) (bs : list byte) : Z :=
  let u := le_value bs in
  if fmt_signed f && bool_decide (fmt_modulus f / 2 ≤ u)
  then u - fmt_modulus f
  else u.

(** ** Python strings and the ASCII codec with [errors='replace'] *)

Abbreviation pystr := (list Z).

Definition REPLACEMENT_CHARACTER : Z := 0xFFFD.
Definition QUESTION_MARK : Z := 0x3F.

(** [raw.decode('ascii', errors='replace')] *)
Definition decode_ascii (raw : list byte) : pystr :=
  (λ b, if decide (Z_of_byte b < 128) then Z_of_byte b
        else REPLACEMENT_CHARACTER) <$> raw.

(** [s.encode('ascii', errors='replace')] *)
Definition encode_ascii (s : pystr) : list byte :=
  (λ c, if decide (0 ≤ c < 128) then byte_of_Z c
        else byte_of_Z QUESTION_MARK) <$> s.

(** Code-point order of [str], the order [sorted] uses. *)
Fixpoint str_leb (a b : pystr) : bool :=
  match a, b with
  | [], _ => true
  | _ :: _, [] => false
  | x :: a', y :: b' =>
      if decide (x < y) then true
      else if decide (y < x) then false
      else str_leb a' b'
  end.

Definition str_le (a b : pystr) : Prop := str_leb a b = true.

(** ** float32 payloads

    [f32_to_float bits] is the Python [float] that [struct.unpack('<f', ..)]
    returns for the four bytes of [bits]: every binary32 number is a
    binary64 number, so the widening is exact. *)

Definition f32_sign (bits : Z) : bool := Z.testbit bits 31.
Definition f32_exponent (bits : Z) : Z := Z.land (Z.shiftr bits 23) 255.
Definition f32_mantissa (bits : Z) : Z := Z.land bits 8388607.

Definition f32_to_float (bits : Z) : float :=
  let e := f32_exponent bits in
  let m := f32_mantissa bits in
  let magnitude :=
    if decide (e = 255) then (if decide (m = 0) then infinity else nan)
    else if decide (e = 0) then Z.ldexp (of_uint63 (Uint63.of_Z m)) (-149)
    else Z.ldexp (of_uint63 (Uint63.of_Z (m + 8388608))) (e - 150) in
  if f32_sign bits then (- magnitude)%float else magnitude.

Definition f32_is_nan (bits : Z) : bool :=
  bool_decide (f32_exponent bits = 255) && negb (bool_decide (f32_mantissa bits = 0)).

Definition f32_is_inf (bits : Z) : bool :=
  bool_decide (f32_exponent bits = 255) && bool_decide (f32_mantissa bits = 0).

(** A finite binary32 number is [m * 2^e] for the pair returned here. *)
Definition f32_finite_parts (bits : Z) : Z * Z :=
  let e := f32_exponent bits in
  let m := f32_mantissa bits in
  let '(m, e) := if decide (e = 0) then (m, -149) else (m + 8388608, e - 150) in
  (if f32_sign bits then - m else m, e).

(** [int(v)] for a float [v]: truncation toward zero; raises on inf and nan. *)
Definition float_to_int (bits : Z) : res Z :=
  if f32_is_inf bits then Raise OverflowError
  else if f32_is_nan bits then Raise NanToInt
  else let '(m, e) := f32_finite_parts bits in
       OK (if decide (0 ≤ e) then m * 2 ^ e else Z.quot m (2 ^ (- e))).

(** [v != int(v)] for a finite float [v]: [v] is not a whole number. *)
Definition float_is_fractional (bits : Z) : bool :=
  let '(m, e) := f32_finite_parts bits in
  if decide (0 ≤ e) then false else negb (bool_decide (m mod 2 ^ (- e) = 0)).

(** ** Data structures: [ParFile], [ParList], [ParEntry], [ParField]

    A field value is an [int], a [float], a [str] or a Python list of
    these. The records are generic in the representation [V] of a field
    value: [pyval] carries list payloads inline (all the codec and the
    compare engine need); the merge engine is also run over [hval], where a
    list payload is a reference to a list object in a heap, to account for
    [copy.deepcopy]. *)

Inductive atom : Type :=
| AInt (z : Z)
| AFloat (bits : Z)
| AStr (s : pystr).

Inductive pyval : Type :=
| VAtom (a : atom)
| VList (items : list atom).

Record ParField (V : Type) : Type := mkParField {
  dtype : Z;          (* Type ID (0-7) *)
  value : V;
}.
Arguments mkParField {V} dtype value.
Arguments dtype {V} p.
Arguments value {V} p.

Record ParEntry (V : Type) : Type := mkParEntry {
  name : pystr;
  unknown_byte : Z;
  unknown_u16a : Z;
  unknown_u16b : Z;
  fields : list (ParField V);
}.
Arguments mkParEntry {V} name unknown_byte unknown_u16a unknown_u16b fields.
Arguments name {V} p.
Arguments unknown_byte {V} p.
Arguments unknown_u16a {V} p.
Arguments unknown_u16b {V} p.
Arguments fields {V} p.

Record ParList (V : Type) : Type := mkParList {
  unknown1 : Z;
  unknown2 : Z;
  entries : list (ParEntry V);
}.
Arguments mkParList {V} unknown1 unknown2 entries.
Arguments unknown1 {V} p.
Arguments unknown2 {V} p.
Arguments entries {V} p.

(** [filepath] is bookkeeping of the GUI and is left out. *)
Record ParFile (V : Type) : Type := mkParFile {
  version : Z;
  lists : list (ParList V);
  wrapper_header : option (list byte);
  was_compressed : bool;
  trailing_data : option (list byte);
}.
Arguments mkParFile {V} version lists wrapper_header was_compressed trailing_data.
Arguments version {V} p.
Arguments lists {V} p.
Arguments wrapper_header {V} p.
Arguments was_compressed {V} p.
Arguments trailing_data {V} p.

Definition PAR_MAGIC : list byte := [x50; x41; x52; x00].
Definition PAR_VERSION_TW1 : Z := 0x600.

Definition TYPE_INT32 : Z := 0.
Definition TYPE_FLOAT32 : Z := 1.
Definition TYPE_UINT32 : Z := 2.
Definition TYPE_STRING : Z := 3.
Definition TYPE_ARRAY_INT32 : Z := 4.
Definition TYPE_ARRAY_FLOAT : Z := 5.
Definition TYPE_ARRAY_UINT32 : Z := 6.
Definition TYPE_ARRAY_STR : Z := 7.

(** ** [ParReader]: the read cursor

    [self.data] is fixed and [self.size = len(self.data)]; the only state a
    method changes is [self.pos]. A method is a function of the buffer and
    the position that returns its result and the new position, or raises. *)

Definition Reader (A : Type) : Type := list byte → nat → res (A * nat).

Definition reader_ret {A : Type} (a : A) : Reader A :=
  λ _ pos, OK (a, pos).

Definition reader_bind {A B : Type} (r : Reader A) (k : A → Reader B) : Reader B :=
  λ data pos,
    match r data pos with
    | OK (a, pos') => k a data pos'
    | Raise e => Raise e
    end.

Definition reader_raise {A : Type} (e : exn) : Reader A :=
  λ _ _, Raise e.

Declare Scope reader_scope.
Delimit Scope reader_scope with reader.
Notation "x <- m ;; k" := (reader_bind m (λ x, k))
  (at level 100, m at next level, right associativity) : reader_scope.

(** [ParReader._advance] *)
Definition _advance (n : nat) : Reader nat :=
  λ data pos,
    if decide (length data < pos + n)%nat then Raise (ReadPastEnd pos)
    else OK (pos, (pos + n)%nat).

(** [struct.unpack_from(f, self.data, p)[0]] *)
Definition unpack_from (f : format) (p : nat) : Reader Z :=
  λ data pos, OK (unpack f (take (calcsize f) (drop p data)), pos).

(** [ParReader.read_bytes] *)
Definition read_bytes (n : nat) : Reader (list byte) :=
  λ data pos,
    if decide (length data < pos + n)%nat then Raise (ReadPastEnd pos)
    else OK (take n (drop pos data), (pos + n)%nat).

Section reader_methods.
Local Open Scope reader_scope.

Definition read_u8 : Reader Z := p <- _advance 1 ;; unpack_from fmt_B p.
Definition read_i8 : Reader Z := p <- _advance 1 ;; unpack_from fmt_b p.
Definition read_u16 : Reader Z := p <- _advance 2 ;; unpack_from fmt_H p.
Definition read_u32 : Reader Z := p <- _advance 4 ;; unpack_from fmt_I p.
Definition read_i32 : Reader Z := p <- _advance 4 ;; unpack_from fmt_i p.
Definition read_f32 : Reader Z := p <- _advance 4 ;; unpack_from fmt_f p.
Definition read_u64 : Reader Z := p <- _advance 8 ;; unpack_from fmt_Q p.

(** [ParReader.read_delphi_string] *)
Definition read_delphi_string : Reader pystr :=
  len <- read_u32 ;;
  if decide (len > 1000000) then reader_raise (UnreasonableLength len)
  else if decide (len = 0) then reader_ret []
  else raw <- read_bytes (Z.to_nat len) ;;
       reader_ret (decode_ascii raw).

(** [for _ in range(n): values.append(read())] *)
Fixpoint read_repeat {A : Type} (read : Reader A) (n : nat) : Reader (list A) :=
  match n with
  | O => reader_ret []
  | S k => v <- read ;; vs <- read_repeat read k ;; reader_ret (v :: vs)
  end.

(** The branch of [_read_extra_array]'s loop body chosen by [fmt_char];
    any other character appends nothing. *)
Inductive fmt_char : Type := char_i | char_f | char_I.

Definition read_array_item (c : fmt_char) : Reader atom :=
  match c with
  | char_i => v <- read_i32 ;; reader_ret (AInt v)
  | char_f => v <- read_f32 ;; reader_ret (AFloat v)
  | char_I => v <- read_u32 ;; reader_ret (AInt v)
  end.

(** [_read_extra_array]: Extra Prefixed Array<T> for numeric types. *)
Definition _read_extra_array (c : fmt_char) : Reader (list atom) :=
  check <- read_u64 ;;
  if decide (check = 0) then reader_ret []
  else len <- read_u32 ;;
       read_repeat (read_array_item c) (Z.to_nat len).

(** [_read_extra_string_array]: Extra Prefixed Array<Delphi ASCII>. *)
Definition _read_extra_string_array : Reader (list atom) :=
  check <- read_u64 ;;
  if decide (check = 0) then reader_ret []
  else len <- read_u32 ;;
       read_repeat (s <- read_delphi_string ;; reader_ret (AStr s))
                   (Z.to_nat len).

(** The dispatch on [dtype] in the "Data Entry List" loop of [read_par]. *)
Definition read_field_value (dt : Z) : Reader pyval :=
  if decide (dt = TYPE_INT32) then v <- read_i32 ;; reader_ret (VAtom (AInt v))
  else if decide (dt = TYPE_FLOAT32) then v <- read_f32 ;; reader_ret (VAtom (AFloat v))
  else if decide (dt = TYPE_UINT32) then v <- read_u32 ;; reader_ret (VAtom (AInt v))
  else if decide (dt = TYPE_STRING) then s <- read_delphi_string ;; reader_ret (VAtom (AStr s))
  else if decide (dt = TYPE_ARRAY_INT32) then l <- _read_extra_array char_i ;; reader_ret (VList l)
  else if decide (dt = TYPE_ARRAY_FLOAT) then l <- _read_extra_array char_f ;; reader_ret (VList l)
  else if decide (dt = TYPE_ARRAY_UINT32) then l <- _read_extra_array char_I ;; reader_ret (VList l)
  else if decide (dt = TYPE_ARRAY_STR) then l <- _read_extra_string_array ;; reader_ret (VList l)
  else λ data pos, Raise (UnknownDataType dt).

(** [for dtype in type_list: ... entry.fields.append(field)] *)
Fixpoint read_fields (type_list : list Z) : Reader (list (ParField pyval)) :=
  match type_list with
  | [] => reader_ret []
  | dt :: rest =>
      v <- read_field_value dt ;;
      fs <- read_fields rest ;;
      reader_ret (mkParField dt v :: fs)
  end.

(** The body of the [for ei in range(entry_count)] loop. *)
Definition read_entry : Reader (ParEntry pyval) :=
  nm <- read_delphi_string ;;
  ub <- read_i8 ;;
  data_entry_count <- read_u16 ;;
  ua <- read_u16 ;;
  ub16 <- read_u16 ;;
  type_list <- read_repeat read_u8 (Z.to_nat data_entry_count) ;;
  fs <- read_fields type_list ;;
  reader_ret (mkParEntry nm ub ua ub16 fs).

(** The body of the [for li in range(list_count)] loop. *)
Definition read_list : Reader (ParList pyval) :=
  u1 <- read_u32 ;;
  u2 <- read_u32 ;;
  entry_count <- read_u32 ;;
  es <- read_repeat read_entry (Z.to_nat entry_count) ;;
  reader_ret (mkParList u1 u2 es).

(** [read_par] as a reader; [read_par] below runs it from position 0. *)
Definition read_par_body : Reader (ParFile pyval) :=
  magic <- read_bytes 4 ;;
  if decide (magic ≠ PAR_MAGIC) then reader_raise NotAParFile
  else
    ver <- read_u32 ;;
    list_count <- read_u32 ;;
    _pad <- read_u32 ;;
    ls <- read_repeat read_list (Z.to_nat list_count) ;;
    λ data pos,
      OK (mkParFile ver ls None false
            (if decide (pos < length data)%nat then Some (drop pos data) else None),
          pos).
End reader_methods.

(** [read_par(data)]: parse a PAR binary file. *)
Definition read_par (data : list byte) : res (ParFile pyval) :=
  match read_par_body data 0%nat with
  | OK (par, _) => OK par
  | Raise e => Raise e
  end.

(** ** [ParWriter]: the write buffer

    The state is the [BytesIO] buffer; a method appends to it or raises. *)

Definition Writer : Type := list byte → res (list byte).

Definition writer_seq (w1 w2 : Writer) : Writer :=
  λ buf, match w1 buf with
         | OK buf' => w2 buf'
         | Raise e => Raise e
         end.

Declare Scope writer_scope.
Delimit Scope writer_scope with writer.
Infix ";;;" := writer_seq (at level 100, right associativity) : writer_scope.

Definition writer_skip : Writer := λ buf, OK buf.
Definition writer_raise (e : exn) : Writer := λ _, Raise e.

(** [for x in l: body(x)] *)
Fixpoint writer_for {A : Type} (body : A → Writer) (l : list A) : Writer :=
  match l with
  | [] => writer_skip
  | x :: rest => writer_seq (body x) (writer_for body rest)
  end.

(** [self.buf.write(b)] *)
Definition write_bytes (b : list byte) : Writer := λ buf, OK (buf ++ b).

(** [self.buf.write(struct.pack(f, v))] *)
Definition write_packed (f : format) (v : Z) : Writer :=
  λ buf, match pack f v with
         | OK b => OK (buf ++ b)
         | Raise e => Raise e
         end.

Definition write_u8 (v : Z) : Writer := write_packed fmt_B (Z.land v 0xFF).
Definition write_i8 (v : Z) : Writer := write_packed fmt_b v.
Definition write_u16 (v : Z) : Writer := write_packed fmt_H (Z.land v 0xFFFF).
Definition write_u32 (v : Z) : Writer := write_packed fmt_I (Z.land v 0xFFFFFFFF).
Definition write_i32 (v : Z) : Writer := write_packed fmt_i v.
Definition write_f32 (v : Z) : Writer := write_packed fmt_f v.
Definition write_u64 (v : Z) : Writer := write_packed fmt_Q v.

Section writer_methods.
Local Open Scope writer_scope.

(** [ParWriter.write_delphi_string] *)
Definition write_delphi_string (s : pystr) : Writer :=
  let encoded := encode_ascii s in
  write_u32 (Z.of_nat (length encoded)) ;;;
  write_bytes encoded.

(** [int(v)], [float(v)], [str(v)] on a value that already has the shape
    the type tag asks for; on any other shape see [ShapeMismatch]. *)
Definition as_int (a : atom) : res Z :=
  match a with AInt z => OK z | _ => Raise ShapeMismatch end.
Definition as_float (a : atom) : res Z :=
  match a with AFloat b => OK b | _ => Raise ShapeMismatch end.
Definition as_str (a : atom) : res pystr :=
  match a with AStr s => OK s | _ => Raise ShapeMismatch end.
Definition as_atom (v : pyval) : res atom :=
  match v with VAtom a => OK a | VList _ => Raise ShapeMismatch end.
Definition as_list (v : pyval) : res (list atom) :=
  match v with VList l => OK l | VAtom _ => Raise ShapeMismatch end.

Definition writer_with {A : Type} (m : res A) (k : A → Writer) : Writer :=
  match m with
  | OK a => k a
  | Raise e => writer_raise e
  end.

Definition write_array_item (c : fmt_char) (v : atom) : Writer :=
  match c with
  | char_i => writer_with (as_int v) write_i32
  | char_f => writer_with (as_float v) write_f32
  | char_I => writer_with (as_int v) write_u32
  end.

(** [_write_extra_array]: [not values] holds for the empty list. *)
Definition _write_extra_array (values : list atom) (c : fmt_char) : Writer :=
  match values with
  | [] => write_u64 0
  | _ :: _ =>
      write_u64 1 ;;;
      write_u32 (Z.of_nat (length values)) ;;;
      writer_for (write_array_item c) values
  end.

(** [_write_extra_string_array] *)
Definition _write_extra_string_array (values : list atom) : Writer :=
  match values with
  | [] => write_u64 0
  | _ :: _ =>
      write_u64 1 ;;;
      write_u32 (Z.of_nat (length values)) ;;;
      writer_for (λ v, writer_with (as_str v) write_delphi_string) values
  end.

(** The dispatch on [dtype] in the "Data Entry List" loop of [write_par];
    a tag outside 0..7 writes nothing. *)
Definition write_field_value (field : ParField pyval) : Writer :=
  let dt := dtype field in
  let val := value field in
  if decide (dt = TYPE_INT32) then
    writer_with (as_atom val) (λ a, writer_with (as_int a) write_i32)
  else if decide (dt = TYPE_FLOAT32) then
    writer_with (as_atom val) (λ a, writer_with (as_float a) write_f32)
  else if decide (dt = TYPE_UINT32) then
    writer_with (as_atom val) (λ a, writer_with (as_int a) write_u32)
  else if decide (dt = TYPE_STRING) then
    writer_with (as_atom val) (λ a, writer_with (as_str a) write_delphi_string)
  else if decide (dt = TYPE_ARRAY_INT32) then
    writer_with (as_list val) (λ l, _write_extra_array l char_i)
  else if decide (dt = TYPE_ARRAY_FLOAT) then
    writer_with (as_list val) (λ l, _write_extra_array l char_f)
  else if decide (dt = TYPE_ARRAY_UINT32) then
    writer_with (as_list val) (λ l, _write_extra_array l char_I)
  else if decide (dt = TYPE_ARRAY_STR) then
    writer_with (as_list val) _write_extra_string_array
  else writer_skip.

(** The body of [for entry in pl.entries]. *)
Definition write_entry (entry : ParEntry pyval) : Writer :=
  write_delphi_string (name entry) ;;;
  write_i8 (unknown_byte entry) ;;;
  let field_count := Z.of_nat (length (fields entry)) in
  write_u16 field_count ;;;
  write_u16 (unknown_u16a entry) ;;;
  write_u16 (unknown_u16b entry) ;;;
  writer_for (λ field, write_u8 (dtype field)) (fields entry) ;;;
  writer_for write_field_value (fields entry).

(** The body of [for pl in par.lists]. *)
Definition write_list (pl : ParList pyval) : Writer :=
  write_u32 (unknown1 pl) ;;;
  write_u32 (unknown2 pl) ;;;
  write_u32 (Z.of_nat (length (entries pl))) ;;;
  writer_for write_entry (entries pl).

Definition write_par_body (par : ParFile pyval) : Writer :=
  write_bytes PAR_MAGIC ;;;
  write_u32 (version par) ;;;
  write_u32 (Z.of_nat (length (lists par))) ;;;
  write_u32 0 ;;;
  writer_for write_list (lists par).
End writer_methods.

(** [write_par(par)]: the written buffer, then [trailing_data] if it is
    neither [None] nor empty. *)
Definition write_par (par : ParFile pyval) : res (list byte) :=
  match write_par_body par [] with
  | OK result =>
      match trailing_data par with
      | Some (b :: t) => OK (result ++ b :: t)
      | _ => OK result
      end
  | Raise e => Raise e
  end.

(** ** The zlib envelope

    zlib is an external library. Its two entry points are parameters of
    this section: [zlib_compress] is [zlib.compress], and
    [zlib_decompressobj raw] is the pair [(d.decompress(raw), d.unused_data)]
    for a fresh [d = zlib.decompressobj()], or the [zlib.error] raised. *)

Section envelope.
Variable zlib_compress : list byte → list byte.
Variable zlib_decompressobj : list byte → res (list byte * list byte).

Local Open Scope res_scope.

(** [decompress_par_file(raw_data)]:
    returns [(par_data, wrapper_bytes_or_None, was_compressed)]. *)
Definition decompress_par_file (raw_data : list byte)
  : res (list byte * option (list byte) * bool) :=
  if bool_decide (length raw_data < 4)%nat
     || negb (bool_decide (raw_data !! 0%nat = Some x78))
  then
    if decide (take 4 raw_data = PAR_MAGIC) then OK (raw_data, None, false)
    else Raise UnknownFormat
  else
    r1 <- zlib_decompressobj raw_data ;;
    let '(wrapper, remaining) := r1 in
    match remaining with
    | [] =>
        if decide (take 4 wrapper = PAR_MAGIC) then OK (wrapper, None, true)
        else Raise SingleStreamNotPar
    | _ :: _ =>
        r2 <- zlib_decompressobj remaining ;;
        let par_data := r2.1 in
        if decide (take 4 par_data ≠ PAR_MAGIC) then Raise Stream2NotPar
        else OK (par_data, Some wrapper, true)
    end.

(** [compress_par_file(par_data, wrapper=None)] *)
Definition compress_par_file (par_data : list byte)
    (wrapper : option (list byte)) : list byte :=
  match wrapper with
  | Some wrapper =>
      let stream1 := zlib_compress wrapper in
      let stream2 := zlib_compress par_data in
      stream1 ++ stream2
  | None => zlib_compress par_data
  end.
End envelope.

(** A stand-in for zlib used to show that the contract assumed of zlib
    below can be met: a two-byte zlib header, two filler bytes, each payload
    byte behind a [x01] marker, and a [x00] terminator. *)
Definition framed_compress (payload : list byte) : list byte :=
  [x78; x9c; x00; x00] ++ flat_map (λ b, [x01; b]) payload ++ [x00].

Fixpoint framed_body (fuel : nat) (raw : list byte) : res (list byte * list byte) :=
  match fuel with
  | O => Raise ZlibError
  | S fuel =>
      match raw with
      | x00 :: rest => OK ([], rest)
      | x01 :: b :: rest =>
          match framed_body fuel rest with
          | OK (out, unused) => OK (b :: out, unused)
          | Raise e => Raise e
          end
      | _ => Raise ZlibError
      end
  end.

Definition framed_decompressobj (raw : list byte) : res (list byte * list byte) :=
  match raw with
  | x78 :: x9c :: x00 :: x00 :: body => framed_body (S (length body)) body
  | _ => Raise ZlibError
  end.

(** ** The compare engine *)

Inductive diff_type : Type := changed | input_only | source_only.

#[global] Instance diff_type_eq_dec : EqDecision diff_type.
Proof. solve_decision. Defined.

(** The text of a [source_val], [input_val] or [original_val], kept as the
    formatting request that produces it: equal requests give equal text. *)
Inductive display : Type :=
| Dash                        (* '—' *)
| FieldsSummary (n : nat)     (* f'({n} fields)' *)
| Fixed4 (bits : Z)           (* f"{v:.4f}" *)
| Fixed1 (bits : Z)           (* f"{v:.1f}" *)
| ItemCount (n : nat)         (* f"[{n} items]" *)
| StrOf (v : pyval).          (* str(v) *)

(** A diff record: the dict appended to [self.cmp_diffs]. *)
Record Diff : Type := mkDiff {
  type : diff_type;
  list_idx : Z;
  entry_name : pystr;
  field_idx : Z;
  field_label : string;
  source_val : display;
  input_val : display;
  original_val : display;
  inp_li : Z;
  inp_ei : Z;
  src_li : Z;
  src_ei : Z;
}.

(** [FieldLabels.get(field_count, field_idx)] over [self.labels]. *)
Definition FieldLabels_get (labels : gmap Z (gmap Z string))
    (field_count field_idx : Z) : option string :=
  fc_labels ← labels !! field_count; fc_labels !! field_idx.

(** [_cmp_field_value_str(field)]: [int(v)] raises for an infinite or NaN
    float before any text is produced. *)
Definition _cmp_field_value_str (field : option (ParField pyval)) : res display :=
  match field with
  | None => OK Dash
  | Some field =>
      match value field with
      | VAtom (AFloat v) =>
          res_bind (float_to_int v) (λ _,
            OK (if float_is_fractional v then Fixed4 v else Fixed1 v))
      | VList v =>
          if decide (length v ≤ 4)%nat then OK (StrOf (VList v))
          else OK (ItemCount (length v))
      | v => OK (StrOf v)
      end
  end.

(** [int == float]: the float is a whole number equal to the int. *)
Definition int_float_eq (z bits : Z) : bool :=
  match float_to_int bits with
  | OK i => negb (float_is_fractional bits) && bool_decide (i = z)
  | Raise _ => false
  end.

(** [a == b] on list elements and scalar values. *)
Definition atom_eq (a b : atom) : bool :=
  match a, b with
  | AInt x, AInt y => bool_decide (x = y)
  | AFloat x, AFloat y => PrimFloat.eqb (f32_to_float x) (f32_to_float y)
  | AStr x, AStr y => bool_decide (x = y)
  | AInt x, AFloat y => int_float_eq x y
  | AFloat x, AInt y => int_float_eq y x
  | _, _ => false
  end.

Fixpoint list_eq_elementwise (l1 l2 : list atom) : bool :=
  match l1, l2 with
  | [], [] => true
  | a :: l1', b :: l2' => atom_eq a b && list_eq_elementwise l1' l2'
  | _, _ => false
  end.

(** [v1 == v2]. The identity shortcut of list comparison ([x is y]) is not
    part of the embedding; it only matters for NaN elements of one and the
    same list object. *)
Definition pyval_eq (v1 v2 : pyval) : bool :=
  match v1, v2 with
  | VAtom a, VAtom b => atom_eq a b
  | VList l1, VList l2 => list_eq_elementwise l1 l2
  | _, _ => false
  end.

(** The tolerance [1e-7], as the binary64 number the literal denotes. *)
Definition TOLERANCE : float := 0x1.ad7f29abcaf48p-24%float.

(** [_cmp_fields_equal(f1, f2)] *)
Definition _cmp_fields_equal (f1 f2 : ParField pyval) : bool :=
  if decide (dtype f1 ≠ dtype f2) then false
  else
    match value f1, value f2 with
    | VAtom (AFloat a), VAtom (AFloat b) =>
        PrimFloat.ltb (PrimFloat.abs (f32_to_float a - f32_to_float b)) TOLERANCE
    | v1, v2 => pyval_eq v1 v2
    end.

(** [for x in l: body(x)] over a state, stopping at the first exception. *)
Fixpoint res_for {A S : Type} (body : A → S → res S) (l : list A) (s : S) : res S :=
  match l with
  | [] => OK s
  | x :: rest =>
      match body x s with
      | OK s' => res_for body rest s'
      | Raise e => Raise e
      end
  end.

(** [for ei, e in enumerate(entries): by_name[e.name] = (ei, e)], counting
    from [ei]. *)
Fixpoint enumerate_by_name (ei : nat) (entries : list (ParEntry pyval))
    (by_name : gmap pystr (nat * ParEntry pyval)) : gmap pystr (nat * ParEntry pyval) :=
  match entries with
  | [] => by_name
  | e :: rest => enumerate_by_name (S ei) rest (<[name e := (ei, e)]> by_name)
  end.

#[global] Instance str_le_dec : RelDecision str_le :=
  λ a b, decide (str_leb a b = true).

(** The record of an entry found on the input side only. *)
Definition input_only_record (li : nat) (nm : pystr) (iei : nat)
    (entry : ParEntry pyval) : Diff :=
  mkDiff input_only (Z.of_nat li) nm (-1) EmptyString
         Dash (FieldsSummary (length (fields entry))) Dash
         (Z.of_nat li) (Z.of_nat iei) (-1) (-1).

(** The record of an entry found on the source side only. *)
Definition source_only_record (li : nat) (nm : pystr) (sei : nat)
    (entry : ParEntry pyval) : Diff :=
  mkDiff source_only (Z.of_nat li) nm (-1) EmptyString
         (FieldsSummary (length (fields entry))) Dash Dash
         (-1) (-1) (Z.of_nat li) (Z.of_nat sei).

(** [sf and inf_f and self._cmp_fields_equal(sf, inf_f)]: a [ParField]
    object is truthy, [None] is not. *)
Definition fields_identical (sf inf_f : option (ParField pyval)) : bool :=
  match sf, inf_f with
  | Some sf, Some inf_f => _cmp_fields_equal sf inf_f
  | _, _ => false
  end.

Section compare.
Variable field_labels : gmap Z (gmap Z string).   (* self.field_labels.labels *)

Local Open Scope res_scope.

(** The body of [for fi in range(max_fields)]. *)
Definition compare_field (field_count li : nat) (nm : pystr)
    (sei : nat) (se : ParEntry pyval) (iei : nat) (ie : ParEntry pyval)
    (oe : option (ParEntry pyval)) (fi : nat) (cmp_diffs : list Diff)
  : res (list Diff) :=
  let sf := fields se !! fi in
  let inf_f := fields ie !! fi in
  let orig_f := oe' ← oe; fields oe' !! fi in
  if fields_identical sf inf_f then OK cmp_diffs
  else
    let label :=
      default EmptyString
        (FieldLabels_get field_labels (Z.of_nat field_count) (Z.of_nat fi)) in
    sv <- _cmp_field_value_str sf ;;
    iv <- _cmp_field_value_str inf_f ;;
    ov <- match orig_f with
          | Some _ => _cmp_field_value_str orig_f
          | None => OK Dash
          end ;;
    OK (cmp_diffs ++
        [mkDiff changed (Z.of_nat li) nm (Z.of_nat fi) label sv iv ov
                (Z.of_nat li) (Z.of_nat iei) (Z.of_nat li) (Z.of_nat sei)]).

(** The body of [for name in sorted(all_names)]. *)
Definition compare_name (field_count li : nat)
    (src_by_name inp_by_name orig_by_name : gmap pystr (nat * ParEntry pyval))
    (nm : pystr) (cmp_diffs : list Diff) : res (list Diff) :=
  match src_by_name !! nm, inp_by_name !! nm with
  | Some (sei, se), None =>
      OK (cmp_diffs ++ [source_only_record li nm sei se])
  | None, Some (iei, ie) =>
      OK (cmp_diffs ++ [input_only_record li nm iei ie])
  | Some (sei, se), Some (iei, ie) =>
      let oe := snd <$> orig_by_name !! nm in
      let max_fields := (length (fields se) `max` length (fields ie))%nat in
      res_for (compare_field field_count li nm sei se iei ie oe)
              (seq 0 max_fields) cmp_diffs
  | None, None => Raise KeyError
  end.

(** The body of [for li in range(max_lists)]. *)
Definition compare_list (src inp : ParFile pyval) (orig : option (ParFile pyval))
    (li : nat) (cmp_diffs : list Diff) : res (list Diff) :=
  let src_list := lists src !! li in
  let inp_list := lists inp !! li in
  let orig_list := o ← orig; lists o !! li in
  match src_list, inp_list with
  | None, Some inp_list =>
      OK (cmp_diffs ++
          imap (λ ei entry, input_only_record li (name entry) ei entry)
               (entries inp_list))
  | Some src_list, None =>
      OK (cmp_diffs ++
          imap (λ ei entry, source_only_record li (name entry) ei entry)
               (entries src_list))
  | None, None => Raise AttributeError
  | Some src_list, Some inp_list =>
      let src_by_name := enumerate_by_name 0 (entries src_list) ∅ in
      let inp_by_name := enumerate_by_name 0 (entries inp_list) ∅ in
      let orig_by_name :=
        match orig_list with
        | Some orig_list => enumerate_by_name 0 (entries orig_list) ∅
        | None => ∅
        end in
      let field_count :=
        match entries src_list, entries inp_list with
        | e :: _, _ => length (fields e)
        | [], e :: _ => length (fields e)
        | [], [] => 0%nat
        end in
      let all_names : gset pystr := dom src_by_name ∪ dom inp_by_name in
      res_for (compare_name field_count li src_by_name inp_by_name orig_by_name)
              (merge_sort str_le (elements all_names)) cmp_diffs
  end.

(** [_cmp_run_compare] with [self.cmp_source = src], [self.cmp_input = inp]
    and [self.cmp_original = orig]: the final [self.cmp_diffs]. *)
Definition _cmp_run_compare (src inp : ParFile pyval)
    (orig : option (ParFile pyval)) : res (list Diff) :=
  let max_lists := (length (lists src) `max` length (lists inp))%nat in
  res_for (compare_list src inp orig) (seq 0 max_lists) [].
End compare.

(** [_cmp_on_tree_click] on the check column of row [idx]: the new
    [self.cmp_checks]. *)
Definition _cmp_on_tree_click (cmp_diffs : list Diff) (cmp_checks : gmap nat bool)
    (idx : nat) : res (gmap nat bool) :=
  match cmp_diffs !! idx with
  | None => Raise IndexError
  | Some d =>
      if decide (type d = source_only) then OK cmp_checks
      else OK (<[idx := negb (default false (cmp_checks !! idx))]> cmp_checks)
  end.

(** [_cmp_select_all]: the new [self.cmp_checks]. *)
Definition _cmp_select_all (cmp_diffs : list Diff) (cmp_checks : gmap nat bool)
    : gmap nat bool :=
  foldl (λ checks '(i, d),
           if decide (type d ≠ source_only) then <[i := true]> checks else checks)
        cmp_checks (imap pair cmp_diffs).

(** ** The merge engine *)

(** [l[i]] behind the guard [i >= 0 and i < len(l)]. *)
Definition guarded_lookup {A : Type} (l : list A) (i : Z) : option A :=
  if decide (0 ≤ i) then l !! Z.to_nat i else None.

(** The position a Python index denotes: a negative index counts from the
    end. *)
Definition py_index {A : Type} (l : list A) (i : Z) : Z :=
  if decide (i < 0) then i + Z.of_nat (length l) else i.

(** [l[i]] *)
Definition py_getitem {A : Type} (l : list A) (i : Z) : res A :=
  match guarded_lookup l (py_index l i) with
  | Some x => OK x
  | None => Raise IndexError
  end.

(** [l[i] = x] *)
Definition py_setitem {A : Type} (l : list A) (i : Z) (x : A) : res (list A) :=
  match guarded_lookup l (py_index l i) with
  | Some _ => OK (<[Z.to_nat (py_index l i) := x]> l)
  | None => Raise IndexError
  end.

Definition set_lists {V : Type} (par : ParFile V) (ls : list (ParList V)) : ParFile V :=
  mkParFile (version par) ls (wrapper_header par) (was_compressed par)
            (trailing_data par).

Definition set_entries {V : Type} (pl : ParList V) (es : list (ParEntry V)) : ParList V :=
  mkParList (unknown1 pl) (unknown2 pl) es.

Definition set_fields {V : Type} (e : ParEntry V) (fs : list (ParField V)) : ParEntry V :=
  mkParEntry (name e) (unknown_byte e) (unknown_u16a e) (unknown_u16b e) fs.

Section merge.
Context {V Store : Type}.
(** The [0] of [ParField(0, 0)]. *)
Variable int_zero : V.
(** [copy.deepcopy(v) if isinstance(v, list) else v], over the store of
    list objects. *)
Variable copy_value : V → Store → V * Store.

Local Open Scope res_scope.

(** What the loop of [_cmp_merge] changes: the source model, the store,
    and the two counters. *)
Record MergeState : Type := mkMergeState {
  st_src : ParFile V;
  st_heap : Store;
  changed_count : nat;
  added_count : nat;
}.

(** [for f in inp_entry.fields: new_entry.fields.append(ParField(..))] *)
Fixpoint copy_fields (fs : list (ParField V)) (h : Store)
  : list (ParField V) * Store :=
  match fs with
  | [] => ([], h)
  | f :: rest =>
      let '(v, h1) := copy_value (value f) h in
      let '(rest', h2) := copy_fields rest h1 in
      (mkParField (dtype f) v :: rest', h2)
  end.

(** The [changed] branch of the loop body. The [while] loop appends
    [ParField(0, 0)] until the list is longer than [fi]. *)
Definition merge_changed (inp : ParFile V) (d : Diff) (st : MergeState)
  : res MergeState :=
  let src := st_src st in
  let fi := field_idx d in
  match guarded_lookup (lists src) (src_li d) with
  | None => OK st
  | Some src_list =>
  match guarded_lookup (entries src_list) (src_ei d) with
  | None => OK st
  | Some src_entry =>
  match guarded_lookup (lists inp) (inp_li d) with
  | None => OK st
  | Some inp_list =>
  match guarded_lookup (entries inp_list) (inp_ei d) with
  | None => OK st
  | Some inp_entry =>
      if decide (fi < Z.of_nat (length (fields inp_entry))) then
        let padded :=
          fields src_entry ++
          replicate (Z.to_nat (fi + 1 - Z.of_nat (length (fields src_entry))))
                    (mkParField 0 int_zero) in
        inp_f <- py_getitem (fields inp_entry) fi ;;
        let '(v, h) := copy_value (value inp_f) (st_heap st) in
        new_fields <- py_setitem padded fi (mkParField (dtype inp_f) v) ;;
        let new_entries :=
          <[Z.to_nat (src_ei d) := set_fields src_entry new_fields]>
            (entries src_list) in
        let new_lists :=
          <[Z.to_nat (src_li d) := set_entries src_list new_entries]>
            (lists src) in
        OK (mkMergeState (set_lists src new_lists) h
                         (S (changed_count st)) (added_count st))
      else OK st
  end end end end.

(** The [input_only] branch of the loop body. The [while] loop appends
    [ParList()] until the list is longer than [ili]. *)
Definition merge_input_only (inp : ParFile V) (d : Diff) (st : MergeState)
  : res MergeState :=
  let src := st_src st in
  let ili := inp_li d in
  let iei := inp_ei d in
  if bool_decide (0 ≤ ili) && bool_decide (0 ≤ iei) then
    match lists inp !! Z.to_nat ili with
    | None => OK st
    | Some inp_list =>
        inp_entry <- py_getitem (entries inp_list) iei ;;
        let src_lists :=
          lists src ++
          replicate (Z.to_nat (ili + 1 - Z.of_nat (length (lists src))))
                    (mkParList 0 0 []) in
        let '(new_fields, h) := copy_fields (fields inp_entry) (st_heap st) in
        let new_entry :=
          mkParEntry (name inp_entry) (unknown_byte inp_entry)
                     (unknown_u16a inp_entry) (unknown_u16b inp_entry)
                     new_fields in
        target <- py_getitem src_lists ili ;;
        let exists_ :=
          existsb (λ e, bool_decide (name e = name new_entry)) (entries target) in
        if exists_ then
          OK (mkMergeState (set_lists src src_lists) h
                           (changed_count st) (added_count st))
        else
          let new_lists :=
            <[Z.to_nat ili := set_entries target (entries target ++ [new_entry])]>
              src_lists in
          OK (mkMergeState (set_lists src new_lists) h
                           (changed_count st) (S (added_count st)))
    end
  else OK st.

(** The body of [for _, d in selected]: a [source_only] record matches
    neither branch. *)
Definition merge_record (inp : ParFile V) (d : Diff) (st : MergeState)
  : res MergeState :=
  match type d with
  | changed => merge_changed inp d st
  | input_only => merge_input_only inp d st
  | source_only => OK st
  end.

(** [[(i, d) for i, d in enumerate(self.cmp_diffs) if self.cmp_checks.get(i, False)]] *)
Definition selected_diffs (cmp_diffs : list Diff) (cmp_checks : gmap nat bool)
  : list (nat * Diff) :=
  filter (λ p, default false (cmp_checks !! p.1) = true) (imap pair cmp_diffs).

(** [_cmp_merge] with both models loaded. [confirm] is the answer to the
    "Confirm Merge" dialog. The result is the source model, the store and
    the counts reported, if the merge ran. *)
Definition _cmp_merge (confirm : bool) (src inp : ParFile V)
    (cmp_diffs : list Diff) (cmp_checks : gmap nat bool) (h : Store)
  : res (ParFile V * Store * option (nat * nat)) :=
  let selected := selected_diffs cmp_diffs cmp_checks in
  match selected with
  | [] => OK (src, h, None)
  | _ :: _ =>
      if negb confirm then OK (src, h, None)
      else
        st <- res_for (λ p, merge_record inp p.2) selected
                      (mkMergeState src h 0 0) ;;
        OK (st_src st, st_heap st, Some (changed_count st, added_count st))
  end.
End merge.

Arguments mkMergeState {V Store} st_src st_heap changed_count added_count.
Arguments st_src {V Store} m.
Arguments st_heap {V Store} m.
Arguments changed_count {V Store} m.
Arguments added_count {V Store} m.

(** *** Merge over immutable values

    With list payloads held inline a copy is the value itself and there is
    no store. *)
Definition copy_pyval (v : pyval) (h : unit) : pyval * unit := (v, h).
Definition pyval_zero : pyval := VAtom (AInt 0).

(** *** Merge over a store of list objects

    A list payload is a reference to a list object; [copy.deepcopy] of a
    list of immutable atoms allocates a new list object with the same
    items. *)
Inductive hval : Type :=
| HAtom (a : atom)
| HRef (l : nat).

Abbreviation heap := (gmap nat (list atom)).

Definition deepcopy_if_list (v : hval) (h : heap) : hval * heap :=
  match v with
  | HAtom a => (HAtom a, h)
  | HRef l =>
      let l' := fresh (dom h) in
      (HRef l', <[l' := default [] (h !! l)]> h)
  end.

Definition hval_zero : hval := HAtom (AInt 0).

(** The value a reference-carrying value denotes in a store. *)
Definition view_value (h : heap) (v : hval) : pyval :=
  match v with
  | HAtom a => VAtom a
  | HRef l => VList (default [] (h !! l))
  end.

Definition view_field (h : heap) (f : ParField hval) : ParField pyval :=
  mkParField (dtype f) (view_value h (value f)).

Definition view_entry (h : heap) (e : ParEntry hval) : ParEntry pyval :=
  mkParEntry (name e) (unknown_byte e) (unknown_u16a e) (unknown_u16b e)
             (view_field h <$> fields e).

Definition view_list (h : heap) (pl : ParList hval) : ParList pyval :=
  mkParList (unknown1 pl) (unknown2 pl) (view_entry h <$> entries pl).

Definition view_file (h : heap) (par : ParFile hval) : ParFile pyval :=
  mkParFile (version par) (view_list h <$> lists par) (wrapper_header par)
            (was_compressed par) (trailing_data par).

(** The list objects a model refers to. *)
Definition field_refs (f : ParField hval) : list nat :=
  match value f with
  | HAtom _ => []
  | HRef l => [l]
  end.

Definition entry_refs (e : ParEntry hval) : list nat :=
  flat_map field_refs (fields e).

Definition file_refs (par : ParFile hval) : list nat :=
  flat_map (λ pl, flat_map entry_refs (entries pl)) (lists par).

(** ** Well-formed models

    The models the codec turns into bytes and back without loss: every
    integer fits the field it is written to, every value has the shape its
    type tag asks for, every string is 7-bit ASCII of at most 1000000
    characters. *)

Definition in_range (f : format) (v : Z) : bool :=
  bool_decide (fmt_min f ≤ v ≤ fmt_max f).

Definition ascii_str (s : pystr) : bool :=
  forallb (λ c, bool_decide (0 ≤ c < 128)) s.

Definition wf_str (s : pystr) : bool :=
  ascii_str s && bool_decide (Z.of_nat (length s) ≤ 1000000).

(** What [read_array_item c] can return. *)
Definition item_in_range (c : fmt_char) (a : atom) : bool :=
  match c, a with
  | char_i, AInt z => in_range fmt_i z
  | char_f, AFloat b => in_range fmt_f b
  | char_I, AInt z => in_range fmt_I z
  | _, _ => false
  end.

(** float32 payloads that are NaN are left out of the well-formed models:
    whether [struct] keeps the payload bits of a signalling NaN depends on
    the platform, which the bit-pattern embedding does not describe. *)
Definition not_nan (a : atom) : bool :=
  match a with
  | AFloat b => negb (f32_is_nan b)
  | _ => true
  end.

Definition wf_item (c : fmt_char) (a : atom) : bool :=
  item_in_range c a && not_nan a.

Definition wf_str_item (a : atom) : bool :=
  match a with
  | AStr s => wf_str s
  | _ => false
  end.

Definition wf_count (f : format) (n : nat) : bool :=
  bool_decide (Z.of_nat n ≤ fmt_max f).

Definition wf_field (f : ParField pyval) : bool :=
  match value f with
  | VAtom a =>
      (bool_decide (dtype f = TYPE_INT32) && wf_item char_i a)
      || (bool_decide (dtype f = TYPE_FLOAT32) && wf_item char_f a)
      || (bool_decide (dtype f = TYPE_UINT32) && wf_item char_I a)
      || (bool_decide (dtype f = TYPE_STRING) && wf_str_item a)
  | VList l =>
      wf_count fmt_I (length l) &&
      ((bool_decide (dtype f = TYPE_ARRAY_INT32) && forallb (wf_item char_i) l)
       || (bool_decide (dtype f = TYPE_ARRAY_FLOAT) && forallb (wf_item char_f) l)
       || (bool_decide (dtype f = TYPE_ARRAY_UINT32) && forallb (wf_item char_I) l)
       || (bool_decide (dtype f = TYPE_ARRAY_STR) && forallb wf_str_item l))
  end.

Definition wf_entry (e : ParEntry pyval) : bool :=
  wf_str (name e)
  && in_range fmt_b (unknown_byte e)
  && in_range fmt_H (unknown_u16a e)
  && in_range fmt_H (unknown_u16b e)
  && wf_count fmt_H (length (fields e))
  && forallb wf_field (fields e).

Definition wf_list (pl : ParList pyval) : bool :=
  in_range fmt_I (unknown1 pl)
  && in_range fmt_I (unknown2 pl)
  && wf_count fmt_I (length (entries pl))
  && forallb wf_entry (entries pl).

Definition wf_file (par : ParFile pyval) : bool :=
  in_range fmt_I (version par)
  && wf_count fmt_I (length (lists par))
  && forallb wf_list (lists par).

(** The model [read_par] builds from the bytes of [par]: the envelope
    attributes are the defaults of [ParFile()], and an empty tail is
    [None]. *)
Definition as_decoded (par : ParFile pyval) : ParFile pyval :=
  mkParFile (version par) (lists par) None false
            (match trailing_data par with
             | Some (b :: t) => Some (b :: t)
             | _ => None
             end).

(** [parses r bs v]: wherever the bytes [bs] sit in a buffer, the reader
    [r] started at their first byte returns [v] and stops behind them. *)
Definition parses {A : Type} (r : Reader A) (bs : list byte) (v : A) : Prop :=
  ∀ data pos rest,
    drop pos data = bs ++ rest →
    (pos ≤ length data)%nat →
    r data pos = OK (v, (pos + length bs)%nat).

(** [emits w bs]: the writer [w] appends exactly [bs]. *)
Definition emits (w : Writer) (bs : list byte) : Prop :=
  ∀ buf, w buf = OK (buf ++ bs).

(** [decode_ascii] after [encode_ascii]: what a string is after one trip
    through the codec. *)
Definition recode (s : pystr) : pystr := decode_ascii (encode_ascii s).

Definition recode_atom (a : atom) : atom :=
  match a with
  | AStr s => AStr (recode s)
  | _ => a
  end.

(** [reads_back w r v]: the reader [r] returns [v] from the bytes the
    writer [w] appends. *)
Definition reads_back {A : Type} (w : Writer) (r : Reader A) (v : A) : Prop :=
  ∃ bs, emits w bs ∧ parses r bs v.

(** The array fields of the format and the reader and writer each type tag
    dispatches to. *)
Inductive array_kind : Type :=
| NumericArray (c : fmt_char)      (* tags 4, 5, 6 *)
| StringArray.                     (* tag 7 *)

Definition read_array (k : array_kind) : Reader (list atom) :=
  match k with
  | NumericArray c => _read_extra_array c
  | StringArray => _read_extra_string_array
  end.

Definition write_array (k : array_kind) (values : list atom) : Writer :=
  match k with
  | NumericArray c => _write_extra_array values c
  | StringArray => _write_extra_string_array values
  end.

(** The presence marker the writer chooses for a list. *)
Definition presence (values : list atom) : Z :=
  match values with
  | [] => 0
  | _ :: _ => 1
  end.

(** The presence marker stored at [pos]. *)
Definition marker_at (data : list byte) (pos : nat) : Z :=
  unpack fmt_Q (take 8 (drop pos data)).

(** What the reader of an array of kind [k] can return as an item. *)
Definition item_decodable (k : array_kind) (a : atom) : bool :=
  match k with
  | NumericArray c => item_in_range c a
  | StringArray =>
      match a with
      | AStr s => bool_decide (Z.of_nat (length s) ≤ 1000000)
      | _ => false
      end
  end.

(** An int32 array field holding [7; -1]: marker 1, count 2, two items. *)
Definition sample_int_array : list byte :=
  [x01; x00; x00; x00; x00; x00; x00; x00;
   x02; x00; x00; x00;
   x07; x00; x00; x00;  xff; xff; xff; xff].

(** The minimal file: version 0x600, one list with tags (0, 0), one entry
    "Test" with byte 0 and tags (0, 0), one int32 field of value 42. *)
Definition minimal_par : ParFile pyval :=
  mkParFile PAR_VERSION_TW1
    [mkParList 0 0
       [mkParEntry [84; 101; 115; 116] 0 0 0 [mkParField TYPE_INT32 (VAtom (AInt 42))]]]
    None false None.

Definition minimal_bytes (reserved : byte) (name_byte : byte) : list byte :=
  [x50; x41; x52; x00;  x00; x06; x00; x00;  x01; x00; x00; x00;
   reserved; x00; x00; x00;
   x00; x00; x00; x00;  x00; x00; x00; x00;  x01; x00; x00; x00;
   x04; x00; x00; x00;  name_byte; x65; x73; x74;
   x00;  x01; x00;  x00; x00;  x00; x00;
   x00;
   x2a; x00; x00; x00].

(** The field list of the source entry after a [changed] record was
    applied: padded with [ParField(0, 0)] up to index [fi], then the field
    at [fi] replaced. *)
Definition pad_and_replace {V : Type} (int_zero : V) (fs : list (ParField V))
    (fi : nat) (new : ParField V) : list (ParField V) :=
  <[fi := new]> (fs ++ replicate (fi + 1 - length fs) (mkParField 0 int_zero)).

(** The source model with the field list of entry [sei] of list [sli]
    replaced, and nothing else touched. *)
Definition with_entry_fields {V : Type} (src : ParFile V) (sli sei : nat)
    (src_list : ParList V) (src_entry : ParEntry V) (fs : list (ParField V))
  : ParFile V :=
  set_lists src
    (<[sli := set_entries src_list
                (<[sei := set_fields src_entry fs]> (entries src_list))]>
       (lists src)).


(** Sample models over a store: the input entry "A" holds an int and a list
    object; the source entry "A" holds one int. *)
Definition sample_store : heap := {[ 0%nat := [AInt 1; AInt 2] ]}.

Definition sample_input_h : ParFile hval :=
  mkParFile PAR_VERSION_TW1
    [mkParList 0 0
       [mkParEntry [65] 0 0 0
          [mkParField TYPE_INT32 (HAtom (AInt 7));
           mkParField TYPE_ARRAY_INT32 (HRef 0)]]]
    None false None.

Definition sample_source_h (fs : list (ParField hval)) : ParFile hval :=
  mkParFile PAR_VERSION_TW1 [mkParList 0 0 [mkParEntry [65] 0 0 0 fs]]
    None false None.

(** A [changed] record for field [fi] of entry 0 of list 0 on both sides. *)
Definition sample_changed (fi : Z) : Diff :=
  mkDiff changed 0 [65] fi EmptyString Dash Dash Dash 0 0 0 0.

(** Sample models over immutable values: one list with the given entries. *)
Definition one_list_par (es : list (ParEntry pyval)) : ParFile pyval :=
  mkParFile PAR_VERSION_TW1 [mkParList 0 0 es] None false None.

Definition int_field (z : Z) : ParField pyval := mkParField TYPE_INT32 (VAtom (AInt z)).
Definition float_field (bits : Z) : ParField pyval :=
  mkParField TYPE_FLOAT32 (VAtom (AFloat bits)).

Definition entry_named (nm : pystr) (fs : list (ParField pyval)) : ParEntry pyval :=
  mkParEntry nm 0 0 0 fs.

(** The bit pattern of [+inf]. *)
Definition F32_INFINITY : Z := 0x7F800000.

(** ** Where a diff record comes from *)

(** [e], at index [i], is the last entry of [es] named [nm]. *)
Definition last_named (es : list (ParEntry pyval)) (nm : pystr) (i : nat)
    (e : ParEntry pyval) : Prop :=
  es !! i = Some e ∧ name e = nm ∧
  ∀ j e', es !! j = Some e' → name e' = nm → (j ≤ i)%nat.

(** No entry of [es] is named [nm]. *)
Definition unnamed (es : list (ParEntry pyval)) (nm : pystr) : Prop :=
  ∀ j e', es !! j = Some e' → name e' ≠ nm.

(** The five ways [_cmp_run_compare] appends a record [d] for a source
    and an input model: a differing field of a name found on both sides of
    a shared list, a name found on one side of a shared list, and an entry
    of a list that only one side has. *)
Inductive record_origin (src inp : ParFile pyval) (d : Diff) : Prop :=
| origin_changed (li : nat) (sl il : ParList pyval)
    (sei : nat) (se : ParEntry pyval) (iei : nat) (ie : ParEntry pyval) (fi : nat) :
    type d = changed →
    list_idx d = Z.of_nat li → field_idx d = Z.of_nat fi →
    src_li d = Z.of_nat li → src_ei d = Z.of_nat sei →
    inp_li d = Z.of_nat li → inp_ei d = Z.of_nat iei →
    lists src !! li = Some sl → lists inp !! li = Some il →
    last_named (entries sl) (entry_name d) sei se →
    last_named (entries il) (entry_name d) iei ie →
    fields_identical (fields se !! fi) (fields ie !! fi) = false →
    _cmp_field_value_str (fields se !! fi) = OK (source_val d) →
    _cmp_field_value_str (fields ie !! fi) = OK (input_val d) →
    record_origin src inp d
| origin_source_only_name (li : nat) (sl il : ParList pyval)
    (sei : nat) (se : ParEntry pyval) :
    type d = source_only →
    list_idx d = Z.of_nat li → field_idx d = -1 →
    src_li d = Z.of_nat li → src_ei d = Z.of_nat sei →
    inp_li d = -1 → inp_ei d = -1 →
    lists src !! li = Some sl → lists inp !! li = Some il →
    last_named (entries sl) (entry_name d) sei se →
    unnamed (entries il) (entry_name d) →
    record_origin src inp d
| origin_input_only_name (li : nat) (sl il : ParList pyval)
    (iei : nat) (ie : ParEntry pyval) :
    type d = input_only →
    list_idx d = Z.of_nat li → field_idx d = -1 →
    src_li d = -1 → src_ei d = -1 →
    inp_li d = Z.of_nat li → inp_ei d = Z.of_nat iei →
    lists src !! li = Some sl → lists inp !! li = Some il →
    unnamed (entries sl) (entry_name d) →
    last_named (entries il) (entry_name d) iei ie →
    record_origin src inp d
| origin_source_only_list (li : nat) (sl : ParList pyval)
    (sei : nat) (se : ParEntry pyval) :
    type d = source_only →
    list_idx d = Z.of_nat li → field_idx d = -1 →
    src_li d = Z.of_nat li → src_ei d = Z.of_nat sei →
    inp_li d = -1 → inp_ei d = -1 →
    lists src !! li = Some sl → lists inp !! li = None →
    entries sl !! sei = Some se → entry_name d = name se →
    record_origin src inp d
| origin_input_only_list (li : nat) (il : ParList pyval)
    (iei : nat) (ie : ParEntry pyval) :
    type d = input_only →
    list_idx d = Z.of_nat li → field_idx d = -1 →
    src_li d = -1 → src_ei d = -1 →
    inp_li d = Z.of_nat li → inp_ei d = Z.of_nat iei →
    lists src !! li = None → lists inp !! li = Some il →
    entries il !! iei = Some ie → entry_name d = name ie →
    record_origin src inp d.

(** Two models whose only list holds two entries named "A". *)
Definition dup_source : ParFile pyval :=
  one_list_par [entry_named [65] [int_field 1]; entry_named [65] [int_field 2]].
Definition dup_input : ParFile pyval :=
  one_list_par [entry_named [65] [int_field 9]; entry_named [65] [int_field 5]].

(** The one record of their compare: field 0 of the second "A" of each. *)
Definition dup_record : Diff :=
  mkDiff changed 0 [65] 0 EmptyString
         (StrOf (VAtom (AInt 2))) (StrOf (VAtom (AInt 5))) Dash 0 1 0 1.

(** Two records that agree on everything but the displayed baseline value. *)
Definition same_but_original (d1 d2 : Diff) : Prop :=
  type d1 = type d2 ∧ list_idx d1 = list_idx d2 ∧
  entry_name d1 = entry_name d2 ∧ field_idx d1 = field_idx d2 ∧
  field_label d1 = field_label d2 ∧
  source_val d1 = source_val d2 ∧ input_val d1 = input_val d2 ∧
  inp_li d1 = inp_li d2 ∧ inp_ei d1 = inp_ei d2 ∧
  src_li d1 = src_li d2 ∧ src_ei d1 = src_ei d2.

(** A model that differs from itself, and a baseline that aborts a compare:
    one float32 field holding [+inf]. *)
Definition inf_par : ParFile pyval :=
  one_list_par [entry_named [65] [float_field F32_INFINITY]].

(** ** Merging a selection twice *)

(** The input entry a record points at. *)
Definition input_entry (inp : ParFile pyval) (d : Diff) : option (ParEntry pyval) :=
  il ← guarded_lookup (lists inp) (inp_li d);
  guarded_lookup (entries il) (inp_ei d).

(** The input field a [changed] record brings over, if the input entry has
    a field at the record's field index. *)
Definition input_field (inp : ParFile pyval) (d : Diff) : option (ParField pyval) :=
  ie ← input_entry inp d;
  guarded_lookup (fields ie) (field_idx d).

(** The source entry a record points at. *)
Definition source_entry (src : ParFile pyval) (d : Diff) : option (ParEntry pyval) :=
  sl ← guarded_lookup (lists src) (src_li d);
  guarded_lookup (entries sl) (src_ei d).

(** A record the merge can apply to [src]: a [changed] record points at an
    entry of [src] and has a field index that is not negative; an
    [input_only] record that points at a list of the input points at an
    entry of it. *)
Definition mergeable (src inp : ParFile pyval) (d : Diff) : Prop :=
  match type d with
  | changed => is_Some (source_entry src d) ∧ 0 ≤ field_idx d
  | input_only =>
      ∀ il, 0 ≤ inp_li d → 0 ≤ inp_ei d →
            lists inp !! Z.to_nat (inp_li d) = Some il →
            is_Some (entries il !! Z.to_nat (inp_ei d))
  | source_only => True
  end.

(** Two [changed] records for the same field of the same source entry
    bring the same input field. *)
Definition agree (inp : ParFile pyval) (d1 d2 : Diff) : Prop :=
  type d1 = changed → type d2 = changed →
  src_li d1 = src_li d2 → src_ei d1 = src_ei d2 → field_idx d1 = field_idx d2 →
  input_field inp d1 = input_field inp d2.

(** The effect of a record is present in a source model. *)
Definition applied (inp : ParFile pyval) (d : Diff) (src : ParFile pyval) : Prop :=
  match type d with
  | changed =>
      ∀ inp_f, input_field inp d = Some inp_f →
               ∃ se, source_entry src d = Some se ∧
                     guarded_lookup (fields se) (field_idx d) = Some inp_f
  | input_only =>
      ∀ il ie, 0 ≤ inp_li d → 0 ≤ inp_ei d →
               lists inp !! Z.to_nat (inp_li d) = Some il →
               entries il !! Z.to_nat (inp_ei d) = Some ie →
               ∃ sl e, lists src !! Z.to_nat (inp_li d) = Some sl ∧
                       e ∈ entries sl ∧ name e = name ie
  | source_only => True
  end.

(** [src'] has every entry of [src] at the same place under the same name,
    and every list of [src]. *)
Definition grows (src src' : ParFile pyval) : Prop :=
  (length (lists src) ≤ length (lists src'))%nat ∧
  ∀ li sl, lists src !! li = Some sl →
    ∃ sl', lists src' !! li = Some sl' ∧
      ∀ ei se, entries sl !! ei = Some se →
        ∃ se', entries sl' !! ei = Some se' ∧ name se' = name se.

(** The number of [changed] records of a selection that bring an input
    field. *)
Definition effective (inp : ParFile pyval) (d : Diff) : bool :=
  bool_decide (type d = changed) && bool_decide (is_Some (input_field inp d)).

Definition count_effective (inp : ParFile pyval) (ds : list (nat * Diff)) : nat :=
  length (filter (λ p, effective inp p.2 = true) ds).

(** The loop body of [_cmp_merge] over immutable values. *)
Definition merge_step (inp : ParFile pyval) (p : nat * Diff)
    (st : MergeState (V := pyval) (Store := unit)) : res MergeState :=
  merge_record pyval_zero copy_pyval inp p.2 st.

(** A source with "A" = [10] and an input with "A" = [12] and a new "B". *)
Definition orc_source : ParFile pyval := one_list_par [entry_named [65] [int_field 10]].
Definition orc_input : ParFile pyval :=
  one_list_par [entry_named [65] [int_field 12]; entry_named [66] [int_field 1]].

(** ** The two runs of the merge engine side by side *)

(** Every list object a value, a field list or a model refers to is in the
    store. *)
Definition closed_value (h : heap) (v : hval) : Prop :=
  match v with
  | HAtom _ => True
  | HRef l => is_Some (h !! l)
  end.

Definition closed_fields (h : heap) (fs : list (ParField hval)) : Prop :=
  Forall (λ f, closed_value h (value f)) fs.

Definition closed_file (h : heap) (par : ParFile hval) : Prop :=
  Forall (λ pl, Forall (λ e, closed_fields h (fields e)) (entries pl)) (lists par).

(** [h'] holds every list object of [h] with the items it had. *)
Definition heap_kept (h h' : heap) : Prop :=
  ∀ l, is_Some (h !! l) → h' !! l = h !! l.

(** The merge state over immutable values that a merge state over the
    store denotes. *)
Definition view_state (st : MergeState (V := hval) (Store := heap))
  : MergeState (V := pyval) (Store := unit) :=
  mkMergeState (view_file (st_heap st) (st_src st)) tt
               (changed_count st) (added_count st).

(** The outcome [r] of a merge step over the store, started in store [h],
    is the outcome [r'] of the step over the values the store denotes: the
    same exception, or a state denoting the same state, in a store that
    kept the list objects of [h] and holds every list object the new
    source model refers to. *)
Definition denotes (h : heap) (r : res (MergeState (V := hval) (Store := heap)))
    (r' : res (MergeState (V := pyval) (Store := unit))) : Prop :=
  match r with
  | OK st' =>
      r' = OK (view_state st') ∧ heap_kept h (st_heap st') ∧
      closed_file (st_heap st') (st_src st')
  | Raise e => r' = Raise e
  end.

(** ** Loading and saving a file

    The [try] blocks of [_cmp_load_par_file] and [_cmp_save], between the
    file dialog and the message boxes: [raw] is what [f.read()] returned,
    and the result of [_cmp_save] is what [f.write] is given. A raised
    exception is the one the error box shows. *)
Section files.
Variable zlib_compress : list byte → list byte.
Variable zlib_decompressobj : list byte → res (list byte * list byte).

Local Open Scope res_scope.

(** [_cmp_load_par_file]; [_load_par] builds [self.par] the same way. *)
Definition _cmp_load_par_file (raw : list byte) : res (ParFile pyval) :=
  r <- decompress_par_file zlib_decompressobj raw ;;
  let '(par_data, wrapper, compressed) := r in
  par <- read_par par_data ;;
  OK (mkParFile (version par) (lists par) wrapper compressed (trailing_data par)).

(** [_cmp_save] *)
Definition _cmp_save (cmp_source : ParFile pyval) : res (list byte) :=
  par_data <- write_par cmp_source ;;
  OK (if was_compressed cmp_source
      then compress_par_file zlib_compress par_data (wrapper_header cmp_source)
      else par_data).
End files.

(** ** What a writer does to the buffer *)

(** [w] only appends: what it returns starts with the buffer it was given. *)
Definition appends (w : Writer) : Prop :=
  ∀ buf out, w buf = OK out → ∃ bs, out = buf ++ bs.

(** [w] raises whatever the buffer holds. *)
Definition always_raises (w : Writer) : Prop :=
  ∀ buf, ∃ e, w buf = Raise e.

(** ** The models [read_par] returns

    What the reader can put into a model: every value has the shape its
    type tag asks for, every integer fits the field it was unpacked from,
    every string has at most 1000000 characters. Strings need not be
    ASCII: a byte of 0x80 or more is decoded to U+FFFD. *)

Definition decodable_field (f : ParField pyval) : bool :=
  match value f with
  | VAtom a =>
      (bool_decide (dtype f = TYPE_INT32) && item_in_range char_i a)
      || (bool_decide (dtype f = TYPE_FLOAT32) && item_in_range char_f a)
      || (bool_decide (dtype f = TYPE_UINT32) && item_in_range char_I a)
      || (bool_decide (dtype f = TYPE_STRING) && item_decodable StringArray a)
  | VList l =>
      wf_count fmt_I (length l) &&
      ((bool_decide (dtype f = TYPE_ARRAY_INT32)
        && forallb (item_decodable (NumericArray char_i)) l)
       || (bool_decide (dtype f = TYPE_ARRAY_FLOAT)
           && forallb (item_decodable (NumericArray char_f)) l)
       || (bool_decide (dtype f = TYPE_ARRAY_UINT32)
           && forallb (item_decodable (NumericArray char_I)) l)
       || (bool_decide (dtype f = TYPE_ARRAY_STR)
           && forallb (item_decodable StringArray) l))
  end.

Definition decodable_entry (e : ParEntry pyval) : bool :=
  bool_decide (Z.of_nat (length (name e)) ≤ 1000000)
  && in_range fmt_b (unknown_byte e)
  && in_range fmt_H (unknown_u16a e)
  && in_range fmt_H (unknown_u16b e)
  && wf_count fmt_H (length (fields e))
  && forallb decodable_field (fields e).

Definition decodable_list (pl : ParList pyval) : bool :=
  in_range fmt_I (unknown1 pl)
  && in_range fmt_I (unknown2 pl)
  && wf_count fmt_I (length (entries pl))
  && forallb decodable_entry (entries pl).

Definition decodable_file (par : ParFile pyval) : bool :=
  in_range fmt_I (version par)
  && wf_count fmt_I (length (lists par))
  && forallb decodable_list (lists par).

(** A model after one trip through the codec: every string is [recode]d,
    which turns each character outside ASCII into a question mark. *)
Definition recode_value (v : pyval) : pyval :=
  match v with
  | VAtom a => VAtom (recode_atom a)
  | VList l => VList (recode_atom <$> l)
  end.

Definition recode_field (f : ParField pyval) : ParField pyval :=
  mkParField (dtype f) (recode_value (value f)).

Definition recode_entry (e : ParEntry pyval) : ParEntry pyval :=
  mkParEntry (recode (name e)) (unknown_byte e) (unknown_u16a e) (unknown_u16b e)
             (recode_field <$> fields e).

Definition recode_list (pl : ParList pyval) : ParList pyval :=
  mkParList (unknown1 pl) (unknown2 pl) (recode_entry <$> entries pl).

(** No float32 payload of the model is a NaN. *)
Definition nan_free_value (v : pyval) : bool :=
  match v with
  | VAtom a => not_nan a
  | VList l => forallb not_nan l
  end.

Definition nan_free_file (par : ParFile pyval) : bool :=
  forallb (λ pl, forallb (λ e, forallb (λ f, nan_free_value (value f)) (fields e))
                         (entries pl))
          (lists par).

(** ** Reading from a buffer that was cut

    [r] moves the cursor forward and keeps it inside the buffer; from a
    buffer cut at [k], behind the start of the read, it returns the same
    if the cut is behind the last byte it looked at, and raises "Read past
    end" otherwise. *)
Definition cut_safe {A : Type} (r : Reader A) : Prop :=
  ∀ data pos v pos',
    r data pos = OK (v, pos') →
    (pos ≤ pos')%nat ∧
    ((pos ≤ length data)%nat → (pos' ≤ length data)%nat) ∧
    ∀ k, (pos ≤ k)%nat →
         if decide (pos' ≤ k)%nat then r (take k data) pos = OK (v, pos')
         else ∃ p, r (take k data) pos = Raise (ReadPastEnd p).

(** ** The check marks of the compare tab *)

(** [for i in range(len(self.cmp_diffs)): self.cmp_checks[i] = False], the
    check marks [_cmp_run_compare] leaves. *)
Definition initial_checks (cmp_diffs : list Diff) : gmap nat bool :=
  foldl (λ checks i, <[i := false]> checks) ∅ (seq 0 (length cmp_diffs)).

(** [_cmp_deselect_all]: the new [self.cmp_checks]. *)
Definition _cmp_deselect_all (cmp_checks : gmap nat bool) : gmap nat bool :=
  (λ _, false) <$> cmp_checks.

(** What the user can do to the check marks: click the check column of the
    row of record [idx], press "Select All", press "Deselect All". *)
Inductive cmp_action : Type :=
| ClickCheck (idx : nat)
| SelectAll
| DeselectAll.

(** The check marks after an action; a handler that raises leaves them as
    they were. *)
Definition cmp_act (cmp_diffs : list Diff) (cmp_checks : gmap nat bool)
    (a : cmp_action) : gmap nat bool :=
  match a with
  | ClickCheck idx =>
      match _cmp_on_tree_click cmp_diffs cmp_checks idx with
      | OK checks => checks
      | Raise _ => cmp_checks
      end
  | SelectAll => _cmp_select_all cmp_diffs cmp_checks
  | DeselectAll => _cmp_deselect_all cmp_checks
  end.

(** No [source_only] record has its check mark set. *)
Definition no_source_only_checked (cmp_diffs : list Diff)
    (cmp_checks : gmap nat bool) : Prop :=
  ∀ i d, cmp_diffs !! i = Some d → type d = source_only →
         cmp_checks !! i ≠ Some true.

(** [sum(len(pl.entries) for pl in par.lists)] *)
Definition total_entries {V : Type} (par : ParFile V) : nat :=
  sum_list ((λ pl, length (entries pl)) <$> lists par).

(** ** Models that equal themselves

    The Python floats of the model that [==] and the tolerance test find
    equal to themselves: no float32 field holds an infinity or a NaN, and
    no float32 array holds a NaN. *)
Definition finite_floats (v : pyval) : bool :=
  match v with
  | VAtom (AFloat b) => PrimFloat.is_finite (f32_to_float b)
  | VAtom _ => true
  | VList l =>
      forallb (λ a, match a with
                    | AFloat b => negb (PrimFloat.is_nan (f32_to_float b))
                    | _ => true
                    end) l
  end.

Definition finite_floats_file (par : ParFile pyval) : bool :=
  forallb (λ pl, forallb (λ e, forallb (λ f, finite_floats (value f)) (fields e))
                         (entries pl))
          (lists par).

(** ** [FieldLabels]: the label store

    [self.labels] is a dict of dicts, [{field_count: {field_idx: label}}].
    [_save_user] writes it to the user file and leaves it as it is. *)

(** [FieldLabels.set(field_count, field_idx, label)]: the new [self.labels]. *)
Definition FieldLabels_set (labels : gmap Z (gmap Z string))
    (field_count field_idx : Z) (label : string) : gmap Z (gmap Z string) :=
  let labels :=
    if decide (is_Some (labels !! field_count)) then labels
    else <[field_count := ∅]> labels in
  <[field_count := <[field_idx := label]> (default ∅ (labels !! field_count))]> labels.

(** [FieldLabels.remove(field_count, field_idx)]: the new [self.labels]. *)
Definition FieldLabels_remove (labels : gmap Z (gmap Z string))
    (field_count field_idx : Z) : gmap Z (gmap Z string) :=
  match labels !! field_count with
  | Some fc_labels =>
      if decide (is_Some (fc_labels !! field_idx))
      then <[field_count := delete field_idx fc_labels]> labels
      else labels
  | None => labels
  end.

(** ** JSON export and import

    [par_to_dict] builds the document that [json.dump] writes, and
    [import_json] works on the document that [json.load] returns. A
    document is kept as the record of its keys, each one [None] when the
    key is missing; a key that is there holds a value of the JSON kind the
    export gives it. What a field holds under ["value"] is any Python
    object, of a type [V] that stays open. *)

Record json_field (V : Type) : Type := mk_json_field {
  j_label : option string;       (* "label" *)
  j_type : option string;        (* "type" *)
  j_type_id : option Z;          (* "type_id" *)
  j_value : option V;            (* "value" *)
}.
Arguments mk_json_field {V} j_label j_type j_type_id j_value.
Arguments j_label {V} j.
Arguments j_type {V} j.
Arguments j_type_id {V} j.
Arguments j_value {V} j.

Record json_entry (V : Type) : Type := mk_json_entry {
  j_name : option pystr;         (* "name" *)
  j_unknown_byte : option Z;     (* "_unknown_byte" *)
  j_unknown_u16a : option Z;     (* "_unknown_u16a" *)
  j_unknown_u16b : option Z;     (* "_unknown_u16b" *)
  j_fields : option (list (json_field V));   (* "fields" *)
}.
Arguments mk_json_entry {V} j_name j_unknown_byte j_unknown_u16a j_unknown_u16b j_fields.
Arguments j_name {V} j.
Arguments j_unknown_byte {V} j.
Arguments j_unknown_u16a {V} j.
Arguments j_unknown_u16b {V} j.
Arguments j_fields {V} j.

Record json_list (V : Type) : Type := mk_json_list {
  j_index : option Z;            (* "_index" *)
  j_unknown1 : option Z;         (* "_unknown1" *)
  j_unknown2 : option Z;         (* "_unknown2" *)
  j_entry_count : option Z;      (* "_entry_count" *)
  j_entries : option (list (json_entry V));  (* "entries" *)
}.
Arguments mk_json_list {V} j_index j_unknown1 j_unknown2 j_entry_count j_entries.
Arguments j_index {V} j.
Arguments j_unknown1 {V} j.
Arguments j_unknown2 {V} j.
Arguments j_entry_count {V} j.
Arguments j_entries {V} j.

Record json_doc (V : Type) : Type := mk_json_doc {
  j_format : option string;           (* "_format" *)
  j_version : option Z;               (* "_version" *)
  j_lists : option (list (json_list V));     (* "lists" *)
  j_trailing_data : option pystr;     (* "_trailing_data" *)
  j_wrapper_header : option pystr;    (* "_wrapper_header" *)
  j_was_compressed : option bool;     (* "_was_compressed" *)
}.
Arguments mk_json_doc {V} j_format j_version j_lists j_trailing_data
  j_wrapper_header j_was_compressed.
Arguments j_format {V} j.
Arguments j_version {V} j.
Arguments j_lists {V} j.
Arguments j_trailing_data {V} j.
Arguments j_wrapper_header {V} j.
Arguments j_was_compressed {V} j.

(** [str(n)] for an [int]. *)
Fixpoint decimal_digits (fuel : nat) (n : Z) (acc : string) : string :=
  match fuel with
  | O => acc
  | S fuel =>
      let acc := String (Ascii.ascii_of_nat (48 + Z.to_nat (n mod 10))) acc in
      if decide (n < 10) then acc else decimal_digits fuel (n / 10) acc
  end.

Definition str_of_int (n : Z) : string :=
  if decide (n < 0)
  then ("-" ++ decimal_digits (S (Z.to_nat (Z.log2 (- n)))) (- n) EmptyString)%string
  else decimal_digits (S (Z.to_nat (Z.log2 n))) n EmptyString.

Definition TYPE_NAMES : gmap Z string :=
  list_to_map [(0, "int32"); (1, "float32"); (2, "uint32"); (3, "string");
               (4, "int32[]"); (5, "float32[]"); (6, "uint32[]");
               (7, "string[]")]%string.

(** [if par.trailing_data:], [if par.wrapper_header:]: bytes that are there
    and not empty. *)
Definition truthy_bytes (b : option (list byte)) : option (list byte) :=
  match b with
  | Some (x :: t) => Some (x :: t)
  | _ => None
  end.

Section json.
Context {V : Type}.
(** [base64.b64encode(b).decode('ascii')] and [base64.b64decode(s)]. *)
Variable b64encode : list byte → pystr.
Variable b64decode : pystr → res (list byte).
(** [None], [v is None], and the built-ins [int(v)], [float(v)], [str(v)]
    on any object. *)
Variable py_none : V.
Variable is_none : V → bool.
Variable py_int : V → res V.
Variable py_float : V → res V.
Variable py_str : V → res V.

Local Open Scope res_scope.

(** The dict of one field in [par_to_dict]. *)
Definition field_to_dict (field_labels : option (gmap Z (gmap Z string)))
    (field_count fi : nat) (field : ParField V) : json_field V :=
  let label :=
    match field_labels with
    | Some labels =>
        match FieldLabels_get labels (Z.of_nat field_count) (Z.of_nat fi) with
        | Some lbl => if decide (lbl = EmptyString) then None else Some lbl
        | None => None
        end
    | None => None
    end in
  mk_json_field label
    (Some (default ("unknown(" ++ str_of_int (dtype field) ++ ")")%string
                   (TYPE_NAMES !! dtype field)))
    (Some (dtype field)) (Some (value field)).

(** [par_to_dict(par, field_labels)] *)
Definition par_to_dict (par : ParFile V)
    (field_labels : option (gmap Z (gmap Z string))) : json_doc V :=
  let lists_ :=
    imap (λ li pl,
            mk_json_list (Some (Z.of_nat li)) (Some (unknown1 pl)) (Some (unknown2 pl))
              (Some (Z.of_nat (length (entries pl))))
              (Some ((λ entry,
                        mk_json_entry (Some (name entry)) (Some (unknown_byte entry))
                          (Some (unknown_u16a entry)) (Some (unknown_u16b entry))
                          (Some (imap (field_to_dict field_labels
                                         (length (fields entry)))
                                      (fields entry))))
                     <$> entries pl)))
         (lists par) in
  mk_json_doc (Some "TW1_PAR"%string) (Some (version par)) (Some lists_)
    (b64encode <$> truthy_bytes (trailing_data par))
    (b64encode <$> truthy_bytes (wrapper_header par))
    (match truthy_bytes (wrapper_header par) with
     | Some _ => Some true
     | None => None
     end).

(** "Ensure correct Python types": the value of an imported field. *)
Definition import_value (dt : Z) (v : V) : res V :=
  if decide (dt = TYPE_INT32 ∨ dt = TYPE_UINT32) then
    if is_none v then OK v else py_int v
  else if decide (dt = TYPE_FLOAT32) then
    if is_none v then OK v else py_float v
  else if decide (dt = TYPE_STRING) then
    if is_none v then OK v else py_str v
  else OK v.

(** [for x in l: out.append(f(x))], stopping at the first exception. *)
Fixpoint res_map {A B : Type} (f : A → res B) (l : list A) : res (list B) :=
  match l with
  | [] => OK []
  | x :: rest => y <- f x ;; ys <- res_map f rest ;; OK (y :: ys)
  end.

Definition import_field (fd : json_field V) : res (ParField V) :=
  let dt := default 0 (j_type_id fd) in
  v <- import_value dt (default py_none (j_value fd)) ;;
  OK (mkParField dt v).

Definition import_entry (ed : json_entry V) : res (ParEntry V) :=
  fs <- res_map import_field (default [] (j_fields ed)) ;;
  OK (mkParEntry (default [] (j_name ed)) (default 0 (j_unknown_byte ed))
                 (default 0 (j_unknown_u16a ed)) (default 0 (j_unknown_u16b ed)) fs).

Definition import_list (list_data : json_list V) : res (ParList V) :=
  es <- res_map import_entry (default [] (j_entries list_data)) ;;
  OK (mkParList (default 0 (j_unknown1 list_data))
                (default 0 (j_unknown2 list_data)) es).

(** [import_json] on the document [data] that [json.load] returned. *)
Definition import_json (data : json_doc V) : res (ParFile V) :=
  trailing <- match j_trailing_data data with
              | Some s => b <- b64decode s ;; OK (Some b)
              | None => OK None
              end ;;
  envelope <- match j_wrapper_header data with
              | Some s =>
                  w <- b64decode s ;;
                  OK (Some w, default true (j_was_compressed data))
              | None => OK (None, false)
              end ;;
  ls <- res_map import_list (default [] (j_lists data)) ;;
  OK (mkParFile (default PAR_VERSION_TW1 (j_version data)) ls
                envelope.1 envelope.2 trailing).

(** [int()], [float()] and [str()] leave the value of the field as it is:
    the value is already of the Python type the tag of the field asks for,
    or it is [None]. *)
Definition import_neutral (f : ParField V) : Prop :=
  import_value (dtype f) (value f) = OK (value f).
End json.

(** [cli_export] up to [json.dump]: the document written for the bytes
    [raw_data] of the PAR file. *)
Definition cli_export (zlib_decompressobj : list byte → res (list byte * list byte))
    (b64encode : list byte → pystr) (raw_data : list byte)
  : res (json_doc pyval) :=
  res_bind (decompress_par_file zlib_decompressobj raw_data) (λ r,
  res_bind (read_par r.1.1) (λ par,
  OK (par_to_dict b64encode par None))).

(** Stand-ins used to show that what is assumed of [base64] and of the
    built-ins below can be met: each byte as the character of its code,
    and coercions that accept the values of the right shape only. *)
Definition plain_encode (b : list byte) : pystr := Z_of_byte <$> b.
Definition plain_decode (s : pystr) : res (list byte) := OK (byte_of_Z <$> s).
Definition int_only (v : pyval) : res pyval :=
  match v with VAtom (AInt _) => OK v | _ => Raise ShapeMismatch end.
Definition float_only (v : pyval) : res pyval :=
  match v with VAtom (AFloat _) => OK v | _ => Raise ShapeMismatch end.
Definition str_only (v : pyval) : res pyval :=
  match v with VAtom (AStr _) => OK v | _ => Raise ShapeMismatch end.

(** ** Adding an entry

    A field a new entry gets may hold [None], which no field of a model
    that was read holds: the models of this part have values of type
    [option pyval], and a model that was read is taken there by [Some]. *)

Definition map_field {V W : Type} (g : V → W) (f : ParField V) : ParField W :=
  mkParField (dtype f) (g (value f)).

Definition map_entry {V W : Type} (g : V → W) (e : ParEntry V) : ParEntry W :=
  mkParEntry (name e) (unknown_byte e) (unknown_u16a e) (unknown_u16b e)
             (map_field g <$> fields e).

Definition map_list {V W : Type} (g : V → W) (pl : ParList V) : ParList W :=
  mkParList (unknown1 pl) (unknown2 pl) (map_entry g <$> entries pl).

Definition map_file {V W : Type} (g : V → W) (par : ParFile V) : ParFile W :=
  mkParFile (version par) (map_list g <$> lists par) (wrapper_header par)
            (was_compressed par) (trailing_data par).

(** The field [_add_entry_to_list] makes for a field [f] of the template:
    [nf = ParField(f.dtype)] holds [None], and gets the zero or the empty
    value of its tag if the tag is one of the eight. *)
Definition template_field {V : Type} (f : ParField V) : ParField (option pyval) :=
  mkParField (dtype f)
    (if decide (dtype f = TYPE_INT32) then Some (VAtom (AInt 0))
     else if decide (dtype f = TYPE_FLOAT32) then Some (VAtom (AFloat 0))
     else if decide (dtype f = TYPE_UINT32) then Some (VAtom (AInt 0))
     else if decide (dtype f = TYPE_STRING) then Some (VAtom (AStr []))
     else if decide (dtype f = TYPE_ARRAY_INT32 ∨ dtype f = TYPE_ARRAY_FLOAT
                     ∨ dtype f = TYPE_ARRAY_UINT32 ∨ dtype f = TYPE_ARRAY_STR)
          then Some (VList [])
     else None).

Section entries.
(** [s.strip()] *)
Variable py_strip : pystr → pystr.

(** [_add_entry_to_list(li)] with a file loaded: the model [self.par] after
    the call, for the answer of the name dialog ([None] if it was
    cancelled). *)
Definition _add_entry_to_list (par : ParFile (option pyval)) (li : nat)
    (answer : option pystr) : ParFile (option pyval) :=
  match lists par !! li, answer with
  | Some pl, Some typed =>
      if decide (typed = [] ∨ py_strip typed = []) then par
      else
        let new_name := py_strip typed in
        let new_entry :=
          match entries pl with
          | template :: _ =>
              mkParEntry new_name (unknown_byte template) (unknown_u16a template)
                         (unknown_u16b template)
                         (template_field <$> fields template)
          | [] => mkParEntry new_name 0 0 0 []
          end in
        set_lists par (<[li := set_entries pl (entries pl ++ [new_entry])]> (lists par))
  | _, _ => par
  end.
End entries.

(** A stand-in for [strip], used to show that what is assumed below can be
    met: the spaces at both ends are taken off. *)
Fixpoint drop_spaces (s : pystr) : pystr :=
  match s with
  | c :: rest => if decide (c = 32) then drop_spaces rest else s
  | [] => []
  end.

Definition strip_spaces (s : pystr) : pystr :=
  reverse (drop_spaces (reverse (drop_spaces s))).

(** ** Array fields in the buffer

    How an array field lies in the bytes, said without the reader: the
    presence marker, behind a non-zero marker the count, and behind the
    count the items one after the other. *)

(** The bytes of [data] from position [p] up to position [q]. *)
Definition span (data : list byte) (p q : nat) : list byte :=
  take (q - p) (drop p data).

(** The count word behind the presence marker stored at [pos]. *)
Definition count_at (data : list byte) (pos : nat) : Z :=
  unpack fmt_I (take 4 (drop (pos + 8) data)).

(** [chunk] holds one item of an array of kind [k]: four bytes for a
    number; for a string the length word and as many bytes as it says. *)
Definition item_chunk (k : array_kind) (chunk : list byte) : Prop :=
  match k with
  | NumericArray _ => length chunk = 4%nat
  | StringArray =>
      (4 ≤ length chunk)%nat ∧
      unpack fmt_I (take 4 chunk) = Z.of_nat (length chunk - 4)
  end.

(** The item the bytes of [chunk] stand for. *)
Definition item_of (k : array_kind) (chunk : list byte) : atom :=
  match k with
  | NumericArray char_i => AInt (unpack fmt_i chunk)
  | NumericArray char_f => AFloat (unpack fmt_f chunk)
  | NumericArray char_I => AInt (unpack fmt_I chunk)
  | StringArray => AStr (decode_ascii (drop 4 chunk))
  end.

(** A string byte of 0x80 or more becomes ['?']. *)
Definition replace_high (b : byte) : byte :=
  if decide (Z_of_byte b < 128) then b else x3f.

(** The bytes of an item after one trip through the codec: those of a
    number as they are, those of a string with its length word as it is
    and [replace_high] on the bytes of the string. *)
Definition recoded_chunk (k : array_kind) (chunk : list byte) : list byte :=
  match k with
  | NumericArray _ => chunk
  | StringArray => take 4 chunk ++ (replace_high <$> drop 4 chunk)
  end.

(** ** Buffers the writer reproduces

    What a buffer that [read_par] decodes must be like for [write_par] to
    write it again byte for byte: the reserved word of the header is 0,
    every presence marker is the one the writer chooses, and no string
    holds a byte of 0x80 or more. *)

(** The reserved word of the header, at offset 12. *)
Definition reserved_word (data : list byte) : Z :=
  unpack fmt_I (take 4 (drop 12 data)).

(** The presence marker at [pos] is the one the writer chooses: 0, or 1
    before a count that is not 0. *)
Definition canonical_marker (data : list byte) (pos : nat) : bool :=
  bool_decide (marker_at data pos = 0)
  || (bool_decide (marker_at data pos = 1)
      && negb (bool_decide (count_at data pos = 0))).

Section marker_positions.
Local Open Scope reader_scope.

(** The positions at which [read_par] reads a presence marker: the readers
    again, keeping where each array field starts instead of its value. *)
Definition field_markers (dt : Z) : Reader (list nat) :=
  λ data pos,
    match read_field_value dt data pos with
    | OK (_, pos') =>
        OK (if bool_decide (TYPE_ARRAY_INT32 ≤ dt ≤ TYPE_ARRAY_STR) then [pos] else [],
            pos')
    | Raise e => Raise e
    end.

Fixpoint fields_markers (type_list : list Z) : Reader (list nat) :=
  match type_list with
  | [] => reader_ret []
  | dt :: rest =>
      m <- field_markers dt ;;
      ms <- fields_markers rest ;;
      reader_ret (m ++ ms)
  end.

Definition entry_markers : Reader (list nat) :=
  nm <- read_delphi_string ;;
  ub <- read_i8 ;;
  data_entry_count <- read_u16 ;;
  ua <- read_u16 ;;
  ub16 <- read_u16 ;;
  type_list <- read_repeat read_u8 (Z.to_nat data_entry_count) ;;
  fields_markers type_list.

Definition list_markers : Reader (list nat) :=
  u1 <- read_u32 ;;
  u2 <- read_u32 ;;
  entry_count <- read_u32 ;;
  ms <- read_repeat entry_markers (Z.to_nat entry_count) ;;
  reader_ret (concat ms).

Definition par_markers : Reader (list nat) :=
  magic <- read_bytes 4 ;;
  ver <- read_u32 ;;
  list_count <- read_u32 ;;
  _pad <- read_u32 ;;
  ms <- read_repeat list_markers (Z.to_nat list_count) ;;
  reader_ret (concat ms).
End marker_positions.

Definition marker_positions (data : list byte) : list nat :=
  match par_markers data 0%nat with
  | OK (ms, _) => ms
  | Raise _ => []
  end.

Definition canonical_markers (data : list byte) : bool :=
  forallb (canonical_marker data) (marker_positions data).

(** A signalling NaN: a NaN whose quiet bit is 0. *)
Definition f32_is_snan (bits : Z) : bool :=
  f32_is_nan bits && negb (Z.testbit bits 22).

(** The values whose bytes the codec keeps. A string that was decoded
    holds U+FFFD for each byte of 0x80 or more and the byte itself for any
    other: it is ASCII if and only if no byte of it was 0x80 or more. A
    float32 is not a signalling NaN: what [struct] does to the bits of one
    depends on the platform, and the bit patterns of the embedding do not
    say. *)
Definition kept_atom (a : atom) : bool :=
  match a with
  | AStr s => ascii_str s
  | AFloat b => negb (f32_is_snan b)
  | AInt _ => true
  end.

Definition kept_value (v : pyval) : bool :=
  match v with
  | VAtom a => kept_atom a
  | VList l => forallb kept_atom l
  end.

Definition kept_entry (e : ParEntry pyval) : bool :=
  ascii_str (name e) && forallb (λ f, kept_value (value f)) (fields e).

Definition kept_file (par : ParFile pyval) : bool :=
  forallb (λ pl, forallb kept_entry (entries pl)) (lists par).

(** A file with a quiet NaN, an int32 array, an absent string array and a
    tail: version 0x600, one list, one entry "A" with the fields
    float32 NaN (0x7FC00000), int32[] [7; -1] and string[] absent, and the
    trailing byte 07. *)
Definition sample_file : list byte :=
  [x50; x41; x52; x00;  x00; x06; x00; x00;  x01; x00; x00; x00;
   x00; x00; x00; x00;
   x00; x00; x00; x00;  x00; x00; x00; x00;  x01; x00; x00; x00;
   x01; x00; x00; x00;  x41;
   x00;  x03; x00;  x00; x00;  x00; x00;
   x01; x04; x07;
   x00; x00; xc0; x7f]
  ++ sample_int_array
  ++ [x00; x00; x00; x00; x00; x00; x00; x00]
  ++ [x07].

(** * Properties *)

(** ** Bytes and packing *)

Lemma Z_of_byte_range (b : byte) : 0 ≤ Z_of_byte b < 256.
Proof.
  unfold Z_of_byte. pose proof (Byte.to_N_bounded b). lia.
Qed.

Lemma byte_of_Z_of_byte (b : byte) : byte_of_Z (Z_of_byte b) = b.
Proof.
  unfold byte_of_Z. pose proof (Z_of_byte_range b) as Hr.
  rewrite Z.mod_small by lia. unfold Z_of_byte.
  rewrite N2Z.id, Byte.of_to_N. reflexivity.
Qed.

Lemma Z_of_byte_of_Z (z : Z) : Z_of_byte (byte_of_Z z) = z mod 256.
Proof.
  unfold byte_of_Z, Z_of_byte.
  pose proof (Z.mod_pos_bound z 256 ltac:(lia)) as Hr.
  destruct (Byte.of_N (Z.to_N (z mod 256))) as [b|] eqn:Hb.
  - apply Byte.to_of_N in Hb. simpl. rewrite Hb. lia.
  - apply Byte.of_N_None_iff in Hb. lia.
Qed.

Lemma length_le_bytes (n : nat) (v : Z) : length (le_bytes n v) = n.
Proof. revert v. induction n as [|n IH]; intros v; simpl; [done | by rewrite IH]. Qed.

Lemma le_value_range (bs : list byte) :
  0 ≤ le_value bs < 2 ^ (8 * Z.of_nat (length bs)).
Proof.
  induction bs as [|b bs IH]; simpl le_value; simpl length.
  - simpl. lia.
  - pose proof (Z_of_byte_range b).
    replace (8 * Z.of_nat (S (length bs))) with (8 + 8 * Z.of_nat (length bs)) by lia.
    rewrite Z.pow_add_r by lia. change (2 ^ 8) with 256. nia.
Qed.

Lemma le_value_le_bytes (n : nat) (v : Z) :
  le_value (le_bytes n v) = v mod 2 ^ (8 * Z.of_nat n).
Proof.
  revert v. induction n as [|n IH]; intros v.
  - simpl. by rewrite Z.mod_1_r.
  - simpl le_bytes. simpl le_value. rewrite IH, Z_of_byte_of_Z.
    replace (8 * Z.of_nat (S n)) with (8 + 8 * Z.of_nat n) by lia.
    rewrite Z.pow_add_r by lia. change (2 ^ 8) with 256.
    rewrite (Z.rem_mul_r v 256 (2 ^ (8 * Z.of_nat n))) by lia. lia.
Qed.

Lemma byte_of_Z_add (z k : Z) : byte_of_Z (z + 256 * k) = byte_of_Z z.
Proof.
  unfold byte_of_Z. by rewrite (Z.mul_comm 256 k), Z.mod_add by lia.
Qed.

Lemma le_bytes_le_value (bs : list byte) :
  le_bytes (length bs) (le_value bs) = bs.
Proof.
  induction bs as [|b bs IH]; [done|].
  simpl length. simpl le_value. simpl le_bytes.
  pose proof (Z_of_byte_range b) as Hb. f_equal.
  - by rewrite byte_of_Z_add, byte_of_Z_of_byte.
  - replace ((Z_of_byte b + 256 * le_value bs) / 256) with (le_value bs); [done|].
    rewrite Z.add_comm, Z.mul_comm, Z.div_add_l by lia.
    rewrite Z.div_small by lia. lia.
Qed.

Lemma fmt_modulus_pos (f : format) : 0 < fmt_modulus f / 2 ∧ fmt_modulus f = 2 * (fmt_modulus f / 2).
Proof. destruct f; vm_compute; split; reflexivity. Qed.

(** Unpacking what was packed gives the value back. *)
Lemma unpack_le_bytes (f : format) (v : Z) :
  fmt_min f ≤ v ≤ fmt_max f → unpack f (le_bytes (calcsize f) v) = v.
Proof.
  intros Hv. unfold unpack. rewrite le_value_le_bytes.
  fold (fmt_modulus f). pose proof (fmt_modulus_pos f) as [Hpos Heq].
  unfold fmt_min, fmt_max in Hv.
  destruct (fmt_signed f); simpl.
  - destruct (decide (0 ≤ v)) as [Hnn|Hneg].
    + rewrite Z.mod_small by lia. rewrite bool_decide_eq_false_2 by lia. done.
    + replace (v mod fmt_modulus f) with (v + fmt_modulus f).
      * rewrite bool_decide_eq_true_2 by lia. lia.
      * apply Z.mod_unique_pos with (q := -1); lia.
  - rewrite Z.mod_small by lia. done.
Qed.

(** Packing what was unpacked gives the bytes back. *)
Lemma unpack_in_range (f : format) (bs : list byte) :
  length bs = calcsize f → fmt_min f ≤ unpack f bs ≤ fmt_max f.
Proof.
  intros Hlen. unfold unpack, fmt_min, fmt_max.
  pose proof (le_value_range bs) as Hr. rewrite Hlen in Hr.
  fold (fmt_modulus f) in Hr. pose proof (fmt_modulus_pos f) as [Hpos Heq].
  destruct (fmt_signed f); simpl; [|lia].
  case_bool_decide; lia.
Qed.

Lemma le_bytes_unpack (f : format) (bs : list byte) :
  length bs = calcsize f → le_bytes (calcsize f) (unpack f bs) = bs.
Proof.
  intros Hlen. rewrite <- (le_bytes_le_value bs) at 2. rewrite Hlen.
  unfold unpack.
  destruct (fmt_signed f && bool_decide (fmt_modulus f / 2 ≤ le_value bs)); [|done].
  generalize (le_value bs). intros u.
  assert (Hgen : ∀ n v, le_bytes n (v - 2 ^ (8 * Z.of_nat n)) = le_bytes n v).
  { clear. induction n as [|n IH]; intros v; [done|].
    simpl le_bytes.
    replace (8 * Z.of_nat (S n)) with (8 + 8 * Z.of_nat n) by lia.
    rewrite Z.pow_add_r by lia. change (2 ^ 8) with 256.
    f_equal.
    - unfold byte_of_Z.
      replace (v - 256 * 2 ^ (8 * Z.of_nat n)) with (v + (- 2 ^ (8 * Z.of_nat n)) * 256) by lia.
      by rewrite Z.mod_add by lia.
    - replace (v - 256 * 2 ^ (8 * Z.of_nat n)) with (v + (- 2 ^ (8 * Z.of_nat n)) * 256) by lia.
      rewrite Z.div_add by lia.
      replace (v / 256 + - 2 ^ (8 * Z.of_nat n)) with (v / 256 - 2 ^ (8 * Z.of_nat n)) by lia.
      apply IH. }
  apply Hgen.
Qed.

Lemma pack_unpack (f : format) (bs : list byte) :
  length bs = calcsize f → pack f (unpack f bs) = OK bs.
Proof.
  intros Hlen. unfold pack.
  rewrite decide_True by (by apply unpack_in_range).
  by rewrite le_bytes_unpack.
Qed.

(** ** The envelope *)

Lemma framed_body_spec (payload rest : list byte) (fuel : nat) :
  (length payload < fuel)%nat →
  framed_body fuel (flat_map (λ b, [x01; b]) payload ++ x00 :: rest)
  = OK (payload, rest).
Proof.
  revert fuel. induction payload as [|b payload IH]; intros fuel Hfuel.
  - destruct fuel as [|fuel]; [simpl in Hfuel; lia|]. reflexivity.
  - destruct fuel as [|fuel]; [simpl in Hfuel; lia|].
    simpl in Hfuel. cbn [flat_map app framed_body].
    rewrite IH by lia. reflexivity.
Qed.

Lemma length_framed_payload (payload : list byte) :
  length (flat_map (λ b, [x01; b]) payload) = (2 * length payload)%nat.
Proof. induction payload as [|b payload IH]; simpl; lia. Qed.

Lemma framed_first_stream (x rest : list byte) :
  framed_decompressobj (framed_compress x ++ rest) = OK (x, rest).
Proof.
  unfold framed_compress, framed_decompressobj. cbn [app].
  rewrite <- app_assoc. cbn [app].
  apply framed_body_spec.
  rewrite length_app, length_framed_payload. simpl. lia.
Qed.

Lemma framed_stream_header (x : list byte) :
  ∃ tl, framed_compress x = x78 :: tl ∧ (3 ≤ length tl)%nat.
Proof.
  unfold framed_compress. eexists. split; [reflexivity|].
  simpl. lia.
Qed.

Section envelope_symmetry.
Variable zlib_compress : list byte → list byte.
Variable zlib_decompressobj : list byte → res (list byte * list byte).

(** A zlib stream starts with the CMF byte [0x78] and is at least four
    bytes long. *)
Hypothesis zlib_stream_header :
  ∀ x, ∃ tl, zlib_compress x = x78 :: tl ∧ (3 ≤ length tl)%nat.
(** A decompression object inflates the first stream of its input and
    leaves what follows it in [unused_data]. *)
Hypothesis zlib_first_stream :
  ∀ x rest, zlib_decompressobj (zlib_compress x ++ rest) = OK (x, rest).

(** C4. Envelope symmetry: for every container that begins with the PAR
    magic and every header, decompressing what [compress_par_file] built
    from them returns [(container, header, True)]. Nothing is asked of
    the compressed bytes beyond zlib's contract. *)
Theorem envelope_symmetry (container header : list byte) :
  take 4 container = PAR_MAGIC →
  decompress_par_file zlib_decompressobj
    (compress_par_file zlib_compress container (Some header))
  = OK (container, Some header, true).
Proof.
  intros Hmagic. unfold compress_par_file, decompress_par_file.
  destruct (zlib_stream_header header) as (tl1 & Hs1 & Hl1).
  destruct (zlib_stream_header container) as (tl2 & Hs2 & Hl2).
  rewrite zlib_first_stream.
  assert (Hlen : ¬ (length (zlib_compress header ++ zlib_compress container) < 4)%nat).
  { rewrite length_app, Hs1. simpl. lia. }
  rewrite (bool_decide_eq_false_2 _ Hlen).
  assert (Hhd : (zlib_compress header ++ zlib_compress container) !! 0%nat = Some x78).
  { by rewrite Hs1. }
  rewrite (bool_decide_eq_true_2 _ Hhd). cbn [negb orb res_bind].
  pose proof (zlib_first_stream container []) as Hsecond.
  rewrite app_nil_r in Hsecond.
  rewrite Hs2 in Hsecond |- *. rewrite Hsecond. cbn [res_bind fst].
  rewrite decide_False by (intros Hne; by apply Hne).
  reflexivity.
Qed.
End envelope_symmetry.

Lemma envelope_symmetry_witness :
  take 4 (PAR_MAGIC ++ [x00; x06; x00; x00]) = PAR_MAGIC ∧
  decompress_par_file framed_decompressobj
    (compress_par_file framed_compress (PAR_MAGIC ++ [x00; x06; x00; x00])
                       (Some [x2a; x2b]))
  = OK (PAR_MAGIC ++ [x00; x06; x00; x00], Some [x2a; x2b], true).
Proof.
  split; [reflexivity|].
  apply (envelope_symmetry framed_compress framed_decompressobj
           framed_stream_header framed_first_stream).
  reflexivity.
Defined.

(** ** The cursor: reading back what was written *)

Lemma drop_span_length (data : list byte) (pos : nat) (bs rest : list byte) :
  drop pos data = bs ++ rest → (pos ≤ length data)%nat →
  length data = (pos + length bs + length rest)%nat.
Proof.
  intros Hd Hle. apply (f_equal length) in Hd.
  rewrite length_drop, length_app in Hd. lia.
Qed.

Lemma parses_ret {A : Type} (v : A) : parses (reader_ret v) [] v.
Proof.
  intros data pos rest _ _. unfold reader_ret. simpl.
  by rewrite Nat.add_0_r.
Qed.

Lemma parses_bind {A B : Type} (r : Reader A) (k : A → Reader B)
    (bs1 bs2 : list byte) (a : A) (b : B) :
  parses r bs1 a → parses (k a) bs2 b → parses (reader_bind r k) (bs1 ++ bs2) b.
Proof.
  intros Hr Hk data pos rest Hd Hle. unfold reader_bind.
  rewrite <- app_assoc in Hd.
  rewrite (Hr data pos (bs2 ++ rest) Hd Hle).
  pose proof (drop_span_length _ _ _ _ Hd Hle) as Hlen.
  rewrite length_app in Hlen |- *.
  rewrite (Hk data (pos + length bs1)%nat rest).
  - f_equal. f_equal. lia.
  - rewrite <- drop_drop, Hd. by rewrite drop_app_length.
  - lia.
Qed.

Lemma parses_packed (f : format) (v : Z) :
  in_range f v = true →
  parses (reader_bind (_advance (calcsize f)) (unpack_from f))
         (le_bytes (calcsize f) v) v.
Proof.
  intros Hv%bool_decide_eq_true data pos rest Hd Hle.
  pose proof (drop_span_length _ _ _ _ Hd Hle) as Hlen.
  rewrite length_le_bytes in Hlen |- *.
  unfold reader_bind, _advance, unpack_from.
  rewrite decide_False by lia.
  rewrite Hd, take_app_length' by (by rewrite length_le_bytes).
  by rewrite unpack_le_bytes.
Qed.

Lemma parses_bytes (bs : list byte) : parses (read_bytes (length bs)) bs bs.
Proof.
  intros data pos rest Hd Hle.
  pose proof (drop_span_length _ _ _ _ Hd Hle) as Hlen.
  unfold read_bytes. rewrite decide_False by lia.
  by rewrite Hd, take_app_length.
Qed.

Lemma emits_skip : emits writer_skip [].
Proof. intros buf. unfold writer_skip. by rewrite app_nil_r. Qed.

Lemma emits_seq (w1 w2 : Writer) (b1 b2 : list byte) :
  emits w1 b1 → emits w2 b2 → emits (writer_seq w1 w2) (b1 ++ b2).
Proof.
  intros H1 H2 buf. unfold writer_seq. rewrite H1, H2. by rewrite app_assoc.
Qed.

Lemma emits_bytes (b : list byte) : emits (write_bytes b) b.
Proof. by intros buf. Qed.

Lemma emits_packed (f : format) (v : Z) :
  in_range f v = true → emits (write_packed f v) (le_bytes (calcsize f) v).
Proof.
  intros Hv%bool_decide_eq_true buf. unfold write_packed, pack.
  by rewrite decide_True.
Qed.

Lemma land_mask_small (v : Z) (n : Z) :
  0 ≤ n → 0 ≤ v ≤ 2 ^ n - 1 → Z.land v (2 ^ n - 1) = v.
Proof.
  intros Hn Hv. replace (2 ^ n - 1) with (Z.ones n).
  - rewrite Z.land_ones by done. apply Z.mod_small. lia.
  - rewrite Z.ones_equiv. lia.
Qed.

Lemma in_range_unsigned (f : format) (v : Z) :
  fmt_signed f = false → in_range f v = true →
  0 ≤ v ≤ 2 ^ (8 * Z.of_nat (calcsize f)) - 1.
Proof.
  intros Hs Hv%bool_decide_eq_true. unfold fmt_min, fmt_max in Hv.
  rewrite Hs in Hv. exact Hv.
Qed.

Lemma emits_u8 (v : Z) : in_range fmt_B v = true → emits (write_u8 v) (le_bytes 1 v).
Proof.
  intros Hv. unfold write_u8. change 255 with (2 ^ 8 - 1).
  rewrite (land_mask_small v 8);
    [by apply (emits_packed fmt_B) | done | by apply (in_range_unsigned fmt_B)].
Qed.

Lemma emits_u16 (v : Z) : in_range fmt_H v = true → emits (write_u16 v) (le_bytes 2 v).
Proof.
  intros Hv. unfold write_u16. change 65535 with (2 ^ 16 - 1).
  rewrite (land_mask_small v 16);
    [by apply (emits_packed fmt_H) | done | by apply (in_range_unsigned fmt_H)].
Qed.

Lemma emits_u32 (v : Z) : in_range fmt_I v = true → emits (write_u32 v) (le_bytes 4 v).
Proof.
  intros Hv. unfold write_u32. change 4294967295 with (2 ^ 32 - 1).
  rewrite (land_mask_small v 32);
    [by apply (emits_packed fmt_I) | done | by apply (in_range_unsigned fmt_I)].
Qed.

Lemma reads_back_bind {A B : Type} (w1 w2 : Writer) (r : Reader A)
    (k : A → Reader B) (a : A) (b : B) :
  reads_back w1 r a → reads_back w2 (k a) b →
  reads_back (writer_seq w1 w2) (reader_bind r k) b.
Proof.
  intros (b1 & He1 & Hp1) (b2 & He2 & Hp2). exists (b1 ++ b2).
  split; [by apply emits_seq | by eapply parses_bind].
Qed.

Lemma reads_back_ret {A : Type} (v : A) : reads_back writer_skip (reader_ret v) v.
Proof. exists []. split; [apply emits_skip | apply parses_ret]. Qed.

(** A reader that ends in [reader_ret], against a writer with nothing left
    to write. *)
Lemma reads_back_bind_ret {A B : Type} (w : Writer) (r : Reader A)
    (g : A → B) (a : A) :
  reads_back w r a → reads_back w (reader_bind r (λ x, reader_ret (g x))) (g a).
Proof.
  intros (bs & He & Hp). exists bs. split; [done|].
  rewrite <- (app_nil_r bs). eapply parses_bind; [done | apply parses_ret].
Qed.

Lemma reads_back_u8 (v : Z) : in_range fmt_B v = true → reads_back (write_u8 v) read_u8 v.
Proof. intros Hv. eexists. split; [by apply emits_u8 | by apply (parses_packed fmt_B)]. Qed.

Lemma reads_back_i8 (v : Z) : in_range fmt_b v = true → reads_back (write_i8 v) read_i8 v.
Proof. intros Hv. eexists. split; [by apply (emits_packed fmt_b) | by apply (parses_packed fmt_b)]. Qed.

Lemma reads_back_u16 (v : Z) : in_range fmt_H v = true → reads_back (write_u16 v) read_u16 v.
Proof. intros Hv. eexists. split; [by apply emits_u16 | by apply (parses_packed fmt_H)]. Qed.

Lemma reads_back_u32 (v : Z) : in_range fmt_I v = true → reads_back (write_u32 v) read_u32 v.
Proof. intros Hv. eexists. split; [by apply emits_u32 | by apply (parses_packed fmt_I)]. Qed.

Lemma reads_back_i32 (v : Z) : in_range fmt_i v = true → reads_back (write_i32 v) read_i32 v.
Proof. intros Hv. eexists. split; [by apply (emits_packed fmt_i) | by apply (parses_packed fmt_i)]. Qed.

Lemma reads_back_f32 (v : Z) : in_range fmt_f v = true → reads_back (write_f32 v) read_f32 v.
Proof. intros Hv. eexists. split; [by apply (emits_packed fmt_f) | by apply (parses_packed fmt_f)]. Qed.

Lemma reads_back_u64 (v : Z) : in_range fmt_Q v = true → reads_back (write_u64 v) read_u64 v.
Proof. intros Hv. eexists. split; [by apply (emits_packed fmt_Q) | by apply (parses_packed fmt_Q)]. Qed.

Lemma length_encode_ascii (s : pystr) : length (encode_ascii s) = length s.
Proof. unfold encode_ascii. by rewrite length_fmap. Qed.

Lemma recode_cons (c : Z) (s : pystr) :
  recode (c :: s) =
  decode_ascii [if decide (0 ≤ c < 128) then byte_of_Z c else byte_of_Z QUESTION_MARK]
  ++ recode s.
Proof. reflexivity. Qed.

Lemma recode_ascii (s : pystr) : ascii_str s = true → recode s = s.
Proof.
  induction s as [|c s IH]; [done|].
  change (ascii_str (c :: s)) with (bool_decide (0 ≤ c < 128) && ascii_str s).
  intros [Hc%bool_decide_eq_true Hs]%andb_prop.
  rewrite recode_cons, IH by done.
  rewrite (decide_True (P := 0 ≤ c < 128)) by done.
  unfold decode_ascii. cbn [fmap list_fmap app].
  rewrite Z_of_byte_of_Z, Z.mod_small by lia.
  by rewrite decide_True by lia.
Qed.

Lemma in_range_length (n : nat) :
  Z.of_nat n ≤ 1000000 → in_range fmt_I (Z.of_nat n) = true.
Proof.
  intros Hlen. apply bool_decide_eq_true.
  change (fmt_min fmt_I) with 0. change (fmt_max fmt_I) with 4294967295. lia.
Qed.

Lemma reads_back_delphi_string (s : pystr) :
  Z.of_nat (length s) ≤ 1000000 →
  reads_back (write_delphi_string s) read_delphi_string (recode s).
Proof.
  intros Hlen. exists (le_bytes 4 (Z.of_nat (length s)) ++ encode_ascii s). split.
  - unfold write_delphi_string. rewrite length_encode_ascii.
    apply emits_seq; [|apply emits_bytes].
    by apply emits_u32, in_range_length.
  - unfold read_delphi_string. eapply parses_bind.
    + by apply (parses_packed fmt_I), in_range_length.
    + cbv beta. rewrite decide_False by lia.
      destruct (decide (Z.of_nat (length s) = 0)) as [Hz|Hnz].
      * destruct s; [|simpl in Hz; lia]. apply parses_ret.
      * rewrite Nat2Z.id. rewrite <- (app_nil_r (encode_ascii s)).
        eapply parses_bind; [|apply parses_ret].
        rewrite <- (length_encode_ascii s). apply parses_bytes.
Qed.

Lemma reads_back_repeat {A B : Type} (w : B → Writer) (r : Reader A)
    (g : B → A) (l : list B) :
  Forall (λ x, reads_back (w x) r (g x)) l →
  reads_back (writer_for w l) (read_repeat r (length l)) (g <$> l).
Proof.
  induction 1 as [|x l Hx Hl IH]; simpl.
  - apply reads_back_ret.
  - eapply reads_back_bind; [exact Hx|].
    by apply (reads_back_bind_ret _ _ (λ vs, g x :: vs)).
Qed.

Lemma reads_back_array_item (c : fmt_char) (a : atom) :
  item_in_range c a = true →
  reads_back (write_array_item c a) (read_array_item c) a.
Proof.
  destruct c, a as [z|b|s]; simpl; try done; intros Hr.
  - by apply (reads_back_bind_ret _ _ AInt), reads_back_i32.
  - by apply (reads_back_bind_ret _ _ AFloat), reads_back_f32.
  - by apply (reads_back_bind_ret _ _ AInt), reads_back_u32.
Qed.

Lemma in_range_count (n : nat) : wf_count fmt_I n = true → in_range fmt_I (Z.of_nat n) = true.
Proof.
  intros H%bool_decide_eq_true. apply bool_decide_eq_true.
  split; [change (fmt_min fmt_I) with 0; lia | done].
Qed.

(** An array read back from what its writer wrote, with the marker bytes
    in view. Strings come back after one trip through the ASCII codec;
    numbers come back as they are. *)
Lemma recode_numeric (c : fmt_char) (l : list atom) :
  forallb (item_in_range c) l = true → recode_atom <$> l = l.
Proof.
  induction l as [|a l IH]; [done|]. intros Hal. simpl in Hal.
  apply andb_prop in Hal as [Ha Hl]. rewrite fmap_cons, IH by done.
  destruct c, a; simpl in Ha; done.
Qed.

Lemma reads_back_item (k : array_kind) (a : atom) :
  item_decodable k a = true →
  match k with
  | NumericArray c => reads_back (write_array_item c a) (read_array_item c) (recode_atom a)
  | StringArray =>
      reads_back (writer_with (as_str a) write_delphi_string)
                 (reader_bind read_delphi_string (λ s, reader_ret (AStr s)))
                 (recode_atom a)
  end.
Proof.
  destruct k as [c|]; simpl; intros Ha.
  - replace (recode_atom a) with a by (destruct c, a; simpl in Ha; done).
    by apply reads_back_array_item.
  - destruct a as [| |s]; try done. apply bool_decide_eq_true in Ha. simpl.
    by apply (reads_back_bind_ret _ _ AStr), reads_back_delphi_string.
Qed.

Lemma array_encoding (k : array_kind) (l : list atom) :
  wf_count fmt_I (length l) = true → forallb (item_decodable k) l = true →
  ∃ tail,
    emits (write_array k l) (le_bytes 8 (presence l) ++ tail) ∧
    parses (read_array k) (le_bytes 8 (presence l) ++ tail) (recode_atom <$> l).
Proof.
  intros Hn Hl.
  destruct l as [|a l'].
  - exists []. destruct k; (split; [by apply (emits_packed fmt_Q)|]).
    all: eapply parses_bind; [by apply (parses_packed fmt_Q)|]; apply parses_ret.
  - set (l := a :: l') in *.
    assert (Hitems : ∀ x, x ∈ l → item_decodable k x = true).
    { intros x Hx. rewrite forallb_forall in Hl. by apply Hl, list_elem_of_In. }
    assert (Hcount : reads_back (write_u32 (Z.of_nat (length l))) read_u32 (Z.of_nat (length l))).
    { by apply reads_back_u32, in_range_count. }
    destruct k as [c|].
    + destruct (reads_back_bind (write_u32 (Z.of_nat (length l)))
                  (writer_for (write_array_item c) l) read_u32
                  (λ len, read_repeat (read_array_item c) (Z.to_nat len))
                  (Z.of_nat (length l)) (recode_atom <$> l) Hcount) as (tail & He & Hp).
      { cbv beta. rewrite Nat2Z.id. apply (reads_back_repeat _ _ recode_atom).
        apply Forall_forall. intros x Hx.
        apply (reads_back_item (NumericArray c)). by apply Hitems. }
      exists tail. split.
      * apply emits_seq; [by apply (emits_packed fmt_Q) | exact He].
      * unfold read_array, _read_extra_array.
        eapply parses_bind; [by apply (parses_packed fmt_Q)|].
        cbv beta. rewrite decide_False by done. exact Hp.
    + destruct (reads_back_bind (write_u32 (Z.of_nat (length l)))
                  (writer_for (λ v, writer_with (as_str v) write_delphi_string) l)
                  read_u32
                  (λ len, read_repeat (reader_bind read_delphi_string
                                         (λ s, reader_ret (AStr s))) (Z.to_nat len))
                  (Z.of_nat (length l)) (recode_atom <$> l) Hcount) as (tail & He & Hp).
      { cbv beta. rewrite Nat2Z.id. apply (reads_back_repeat _ _ recode_atom).
        apply Forall_forall. intros x Hx.
        apply (reads_back_item StringArray). by apply Hitems. }
      exists tail. split.
      * apply emits_seq; [by apply (emits_packed fmt_Q) | exact He].
      * unfold read_array, _read_extra_string_array.
        eapply parses_bind; [by apply (parses_packed fmt_Q)|].
        cbv beta. rewrite decide_False by done. exact Hp.
Qed.

(** ** The cursor: what a successful read tells *)

Lemma packed_read_inv (f : format) (data : list byte) (pos : nat) (v : Z) (pos' : nat) :
  reader_bind (_advance (calcsize f)) (unpack_from f) data pos = OK (v, pos') →
  pos' = (pos + calcsize f)%nat ∧ (pos' ≤ length data)%nat ∧
  v = unpack f (take (calcsize f) (drop pos data)) ∧
  length (take (calcsize f) (drop pos data)) = calcsize f.
Proof.
  unfold reader_bind, _advance, unpack_from.
  destruct (decide (length data < pos + calcsize f)%nat) as [|Hok]; [done|].
  intros [= <- <-]. repeat split; [lia|].
  rewrite length_take, length_drop. lia.
Qed.

Lemma packed_read_ok (f : format) (data : list byte) (pos : nat) :
  (pos + calcsize f ≤ length data)%nat →
  reader_bind (_advance (calcsize f)) (unpack_from f) data pos
  = OK (unpack f (take (calcsize f) (drop pos data)), (pos + calcsize f)%nat).
Proof.
  intros Hle. unfold reader_bind, _advance, unpack_from.
  by rewrite decide_False by lia.
Qed.

Lemma packed_read_in_range (f : format) (data : list byte) (pos : nat) (v : Z) (pos' : nat) :
  reader_bind (_advance (calcsize f)) (unpack_from f) data pos = OK (v, pos') →
  in_range f v = true.
Proof.
  intros (_ & _ & -> & Hlen)%packed_read_inv.
  by apply bool_decide_eq_true, unpack_in_range.
Qed.

Lemma reader_bind_inv {A B : Type} (r : Reader A) (k : A → Reader B)
    (data : list byte) (pos : nat) (b : B) (pos' : nat) :
  reader_bind r k data pos = OK (b, pos') →
  ∃ a mid, r data pos = OK (a, mid) ∧ k a data mid = OK (b, pos').
Proof.
  unfold reader_bind. destruct (r data pos) as [[a mid]|e]; [|done].
  intros Hk. by exists a, mid.
Qed.

Lemma read_repeat_inv {A : Type} (r : Reader A) (P : A → Prop) (data : list byte)
    (n : nat) (pos : nat) (vs : list A) (pos' : nat) :
  (∀ p v p', r data p = OK (v, p') → P v) →
  read_repeat r n data pos = OK (vs, pos') →
  length vs = n ∧ Forall P vs.
Proof.
  intros HP. revert pos vs pos'. induction n as [|n IH]; intros pos vs pos'; simpl.
  - intros [= <- <-]. by split.
  - intros (v & mid & Hv & Hrest)%reader_bind_inv.
    apply reader_bind_inv in Hrest as (vs' & mid' & Hvs & Hret).
    injection Hret as <- <-. apply IH in Hvs as [Hlen Hall].
    split; [simpl; by f_equal | constructor; eauto].
Qed.

Lemma length_decode_ascii (raw : list byte) : length (decode_ascii raw) = length raw.
Proof. unfold decode_ascii. by rewrite length_fmap. Qed.

Lemma read_delphi_string_inv (data : list byte) (pos : nat) (s : pystr) (pos' : nat) :
  read_delphi_string data pos = OK (s, pos') → Z.of_nat (length s) ≤ 1000000.
Proof.
  unfold read_delphi_string.
  intros (len & mid & Hlen & Hk)%reader_bind_inv.
  destruct (decide (len > 1000000)) as [|Hsmall]; [done|].
  destruct (decide (len = 0)) as [|Hnz].
  - injection Hk as <- <-. simpl. lia.
  - apply reader_bind_inv in Hk as (raw & mid' & Hraw & Hret).
    injection Hret as <- <-. rewrite length_decode_ascii.
    unfold read_bytes in Hraw.
    destruct (decide (length data < mid + Z.to_nat len)%nat); [done|].
    injection Hraw as <- <-. rewrite length_take. lia.
Qed.

Lemma read_array_item_inv (k : array_kind) (data : list byte) (p : nat) (a : atom) (p' : nat) :
  match k with
  | NumericArray c => read_array_item c
  | StringArray => reader_bind read_delphi_string (λ s, reader_ret (AStr s))
  end data p = OK (a, p') →
  item_decodable k a = true.
Proof.
  destruct k as [c|]; [destruct c|]; simpl;
    intros (v & mid & Hv & Hret)%reader_bind_inv; injection Hret as <- <-; simpl.
  - by apply (packed_read_in_range fmt_i) in Hv.
  - by apply (packed_read_in_range fmt_f) in Hv.
  - by apply (packed_read_in_range fmt_I) in Hv.
  - apply bool_decide_eq_true. by eapply read_delphi_string_inv.
Qed.

(** What a successful array read tells: the marker was in the buffer; a
    zero marker gives the empty list and stops behind the marker; any list
    returned has a count that fits 32 bits and items of the array's kind. *)
Lemma read_array_inv (k : array_kind) (data : list byte) (pos : nat)
    (vals : list atom) (pos' : nat) :
  read_array k data pos = OK (vals, pos') →
  (pos + 8 ≤ length data)%nat ∧
  (marker_at data pos = 0 → vals = [] ∧ pos' = (pos + 8)%nat) ∧
  wf_count fmt_I (length vals) = true ∧
  forallb (item_decodable k) vals = true.
Proof.
  intros Hread.
  assert (Hshape : ∃ item : Reader atom,
    (∀ p a p', item data p = OK (a, p') → item_decodable k a = true) ∧
    reader_bind read_u64 (λ check,
      if decide (check = 0) then reader_ret []
      else reader_bind read_u32 (λ len, read_repeat item (Z.to_nat len)))
      data pos = OK (vals, pos')).
  { destruct k as [c|].
    - exists (read_array_item c). split; [|exact Hread].
      intros p a p'. apply (read_array_item_inv (NumericArray c)).
    - exists (reader_bind read_delphi_string (λ s, reader_ret (AStr s))).
      split; [|exact Hread]. intros p a p'. apply (read_array_item_inv StringArray). }
  clear Hread. destruct Hshape as (item & Hitem & Hread).
  apply reader_bind_inv in Hread as (check & mid & Hcheck & Hk).
  apply (packed_read_inv fmt_Q) in Hcheck as (-> & Hle & -> & _).
  change (unpack fmt_Q (take (calcsize fmt_Q) (drop pos data)))
    with (marker_at data pos) in Hk.
  split; [exact Hle|].
  destruct (decide (marker_at data pos = 0)) as [Hz|Hnz].
  - unfold reader_ret in Hk. injection Hk as <- <-. done.
  - split; [done|].
    apply reader_bind_inv in Hk as (len & mid & Hlen & Hrep).
    pose proof (packed_read_in_range fmt_I _ _ _ _ Hlen) as Hrange.
    apply (read_repeat_inv _ (λ a, item_decodable k a = true)) in Hrep
      as [Hcount Hall]; [|exact Hitem].
    split.
    + apply bool_decide_eq_true. rewrite Hcount.
      apply bool_decide_eq_true in Hrange.
      change (fmt_min fmt_I) with 0 in Hrange. lia.
    + apply forallb_forall. intros x Hx. rewrite Forall_forall in Hall.
      by apply Hall, list_elem_of_In.
Qed.


(** ** The cursor: where the bytes of a value lie *)

Lemma span_length (data : list byte) (p q : nat) :
  (q ≤ length data)%nat → length (span data p q) = (q - p)%nat.
Proof. intros Hq. unfold span. rewrite length_take, length_drop. lia. Qed.

Lemma span_join (data : list byte) (p q r : nat) :
  (p ≤ q)%nat → (q ≤ r)%nat →
  span data p q ++ span data q r = span data p r.
Proof.
  intros Hpq Hqr. unfold span.
  replace (drop q data) with (drop (q - p) (drop p data))
    by (rewrite drop_drop; f_equal; lia).
  rewrite take_take_drop. f_equal. lia.
Qed.

Lemma span_nil (data : list byte) (p : nat) : span data p p = [].
Proof. unfold span. by rewrite Nat.sub_diag. Qed.

Lemma span_take (data : list byte) (p n : nat) :
  span data p (p + n) = take n (drop p data).
Proof. unfold span. f_equal. lia. Qed.

Lemma take_span (data : list byte) (p q n : nat) :
  (p + n ≤ q)%nat → take n (span data p q) = span data p (p + n).
Proof. intros Hle. unfold span. rewrite take_take. f_equal. lia. Qed.

Lemma drop_span (data : list byte) (p q n : nat) :
  drop n (span data p q) = span data (p + n) q.
Proof. unfold span. rewrite skipn_firstn_comm, drop_drop. f_equal. lia. Qed.

Lemma span_all (data : list byte) (q : nat) :
  span data 0 q ++ drop q data = data.
Proof. unfold span. rewrite Nat.sub_0_r, drop_0. apply take_drop. Qed.

Lemma packed_read_span (f : format) (data : list byte) (pos : nat) (v : Z) (pos' : nat) :
  reader_bind (_advance (calcsize f)) (unpack_from f) data pos = OK (v, pos') →
  pos' = (pos + calcsize f)%nat ∧ (pos' ≤ length data)%nat ∧
  v = unpack f (span data pos pos') ∧ length (span data pos pos') = calcsize f.
Proof.
  intros (-> & Hle & -> & Hlen)%packed_read_inv. by rewrite span_take.
Qed.

Lemma read_delphi_string_span (data : list byte) (pos : nat) (s : pystr) (pos' : nat) :
  read_delphi_string data pos = OK (s, pos') →
  (pos + 4 ≤ pos')%nat ∧ (pos' ≤ length data)%nat ∧
  unpack fmt_I (span data pos (pos + 4)) = Z.of_nat (pos' - (pos + 4)) ∧
  s = decode_ascii (span data (pos + 4) pos').
Proof.
  unfold read_delphi_string. intros (len & mid & Hlen & Hk)%reader_bind_inv.
  apply (packed_read_span fmt_I) in Hlen as (-> & Hle & -> & Hlen4).
  change (calcsize fmt_I) with 4%nat in *.
  pose proof (unpack_in_range fmt_I _ Hlen4) as [Hnn _].
  change (fmt_min fmt_I) with 0 in Hnn.
  destruct (decide (unpack fmt_I (span data pos (pos + 4)) > 1000000)); [done|].
  destruct (decide (unpack fmt_I (span data pos (pos + 4)) = 0)) as [Hz|Hnz].
  - injection Hk as <- <-. rewrite Hz, span_nil.
    split; [lia|]. split; [done|]. split; [lia | reflexivity].
  - apply reader_bind_inv in Hk as (raw & mid' & Hraw & Hret).
    injection Hret as <- <-. unfold read_bytes in Hraw.
    destruct (decide (length data < pos + 4 + Z.to_nat (unpack fmt_I (span data pos (pos + 4))))%nat);
      [done|].
    injection Hraw as <- <-.
    split; [lia|]. split; [lia|]. split; [lia|]. by rewrite (span_take data (pos + 4)).
Qed.

(** An item read from the buffer: where its bytes end, and that it is the
    item its bytes stand for. *)
Lemma read_item_chunk (k : array_kind) (data : list byte) (p : nat) (a : atom) (p' : nat) :
  match k with
  | NumericArray c => read_array_item c
  | StringArray => reader_bind read_delphi_string (λ s, reader_ret (AStr s))
  end data p = OK (a, p') →
  (p ≤ p')%nat ∧ (p' ≤ length data)%nat ∧
  item_chunk k (span data p p') ∧ a = item_of k (span data p p').
Proof.
  destruct k as [c|]; [destruct c|]; cbn [read_array_item];
    intros (v & mid & Hv & Hret)%reader_bind_inv; injection Hret as <- <-.
  - apply (packed_read_span fmt_i) in Hv as (-> & Hle & -> & Hlen).
    cbn [item_chunk item_of]. change (calcsize fmt_i) with 4%nat in *.
    split; [lia|]. by split.
  - apply (packed_read_span fmt_f) in Hv as (-> & Hle & -> & Hlen).
    cbn [item_chunk item_of]. change (calcsize fmt_f) with 4%nat in *.
    split; [lia|]. by split.
  - apply (packed_read_span fmt_I) in Hv as (-> & Hle & -> & Hlen).
    cbn [item_chunk item_of]. change (calcsize fmt_I) with 4%nat in *.
    split; [lia|]. by split.
  - apply read_delphi_string_span in Hv as (H4 & Hle & Hlen & ->).
    cbn [item_chunk item_of]. rewrite span_length by done.
    rewrite take_span by done. rewrite drop_span.
    split; [lia|]. split; [done|]. split; [|done]. split; [lia|].
    rewrite Hlen. f_equal. lia.
Qed.

(** A loop of reads: the bytes it went over are those of its items, one
    after the other. *)
Lemma read_repeat_chunks {A : Type} (r : Reader A) (P : list byte → A → Prop)
    (data : list byte) :
  (∀ p v p', r data p = OK (v, p') →
             (p ≤ p')%nat ∧ (p' ≤ length data)%nat ∧ P (span data p p') v) →
  ∀ n pos vs pos',
    (pos ≤ length data)%nat →
    read_repeat r n data pos = OK (vs, pos') →
    (pos ≤ pos')%nat ∧ (pos' ≤ length data)%nat ∧
    ∃ chunks, length chunks = n ∧ span data pos pos' = concat chunks ∧
              Forall2 P chunks vs.
Proof.
  intros Hitem. induction n as [|n IH]; intros pos vs pos' Hpos; cbn [read_repeat].
  - intros [= <- <-]. split; [done|]. split; [done|].
    exists []. by rewrite span_nil.
  - intros (v & mid & Hv & Hrest)%reader_bind_inv.
    apply reader_bind_inv in Hrest as (vs' & mid' & Hvs & Hret).
    injection Hret as <- <-.
    apply Hitem in Hv as (Hle1 & Hmid & HP).
    apply IH in Hvs as (Hle2 & Hend & chunks & Hlen & Hspan & Hall); [|done].
    split; [lia|]. split; [done|].
    exists (span data pos mid :: chunks). split; [by rewrite <- Hlen|]. split.
    + cbn [concat]. rewrite <- Hspan. by rewrite span_join.
    + by constructor.
Qed.

Lemma Forall2_fmap_eq {A B : Type} (Q : A → Prop) (f : A → B) (l : list A) (l' : list B) :
  Forall2 (λ x y, Q x ∧ y = f x) l l' → Forall Q l ∧ l' = f <$> l.
Proof.
  induction 1 as [|x y l l' [HQ ->] _ [IH1 ->]]; [done|].
  split; [by constructor | done].
Qed.

Lemma read_u64_marker (data : list byte) (pos : nat) :
  (pos + 8 ≤ length data)%nat →
  read_u64 data pos = OK (marker_at data pos, (pos + 8)%nat).
Proof. intros Hle. unfold read_u64. by rewrite (packed_read_ok fmt_Q). Qed.

Lemma read_u32_count (data : list byte) (pos : nat) :
  (pos + 12 ≤ length data)%nat →
  read_u32 data (pos + 8)%nat = OK (count_at data pos, (pos + 12)%nat).
Proof.
  intros Hle. unfold read_u32.
  rewrite (packed_read_ok fmt_I) by (change (calcsize fmt_I) with 4%nat; lia).
  unfold count_at. do 2 f_equal. change (calcsize fmt_I) with 4%nat. lia.
Qed.

(** An absent array: marker 0. *)
Lemma read_array_absent (k : array_kind) (data : list byte) (pos : nat) :
  (pos + 8 ≤ length data)%nat → marker_at data pos = 0 →
  read_array k data pos = OK ([], (pos + 8)%nat).
Proof.
  intros Hle Hz.
  destruct k; unfold read_array, _read_extra_array, _read_extra_string_array;
    unfold reader_bind at 1; rewrite read_u64_marker by done;
    by rewrite decide_True.
Qed.

(** A present but empty array: a marker that is not 0, and count 0. *)
Lemma read_array_present_empty (k : array_kind) (data : list byte) (pos : nat) :
  (pos + 12 ≤ length data)%nat → marker_at data pos ≠ 0 → count_at data pos = 0 →
  read_array k data pos = OK ([], (pos + 12)%nat).
Proof.
  intros Hle Hnz Hc.
  destruct k; unfold read_array, _read_extra_array, _read_extra_string_array;
    unfold reader_bind at 1; rewrite read_u64_marker by lia;
    rewrite decide_False by done;
    unfold reader_bind at 1; rewrite read_u32_count by done;
    by rewrite Hc.
Qed.

(** What a successful array read tells about the bytes: behind a marker
    that is not 0 lie the count and as many items as it says, and the list
    returned holds the item of each of them, in their order. *)
Lemma read_array_layout (k : array_kind) (data : list byte) (pos : nat)
    (vals : list atom) (pos' : nat) :
  read_array k data pos = OK (vals, pos') →
  (pos + 8 ≤ length data)%nat ∧
  if decide (marker_at data pos = 0) then vals = [] ∧ pos' = (pos + 8)%nat
  else
    (pos + 12 ≤ pos')%nat ∧ (pos' ≤ length data)%nat ∧
    ∃ chunks,
      span data (pos + 12) pos' = concat chunks ∧
      Forall (item_chunk k) chunks ∧
      count_at data pos = Z.of_nat (length chunks) ∧
      vals = item_of k <$> chunks.
Proof.
  intros Hread.
  assert (Hshape :
    reader_bind read_u64 (λ check,
      if decide (check = 0) then reader_ret []
      else reader_bind read_u32 (λ len,
             read_repeat
               match k with
               | NumericArray c => read_array_item c
               | StringArray => reader_bind read_delphi_string (λ s, reader_ret (AStr s))
               end (Z.to_nat len)))
      data pos = OK (vals, pos')).
  { by destruct k. }
  clear Hread. apply reader_bind_inv in Hshape as (check & mid & Hcheck & Hk).
  apply (packed_read_inv fmt_Q) in Hcheck as (-> & Hle & -> & _).
  change (unpack fmt_Q (take (calcsize fmt_Q) (drop pos data)))
    with (marker_at data pos) in Hk.
  change (calcsize fmt_Q) with 8%nat in *.
  split; [exact Hle|].
  destruct (decide (marker_at data pos = 0)) as [Hz|Hnz].
  { unfold reader_ret in Hk. by injection Hk as <- <-. }
  apply reader_bind_inv in Hk as (len & mid & Hlen & Hrep).
  apply (packed_read_inv fmt_I) in Hlen as (-> & Hle' & -> & Hlen4).
  change (calcsize fmt_I) with 4%nat in *.
  change (unpack fmt_I (take 4 (drop (pos + 8) data))) with (count_at data pos) in Hrep.
  assert (Hnn : 0 ≤ count_at data pos).
  { pose proof (unpack_in_range fmt_I _ Hlen4) as [Hnn _]. exact Hnn. }
  apply (read_repeat_chunks _ (λ chunk a, item_chunk k chunk ∧ a = item_of k chunk))
    in Hrep as (Hle1 & Hle2 & chunks & Hn & Hspan & Hall); [| |done].
  - apply Forall2_fmap_eq in Hall as [Hchunks ->].
    replace (pos + 8 + 4)%nat with (pos + 12)%nat in * by lia.
    split; [done|]. split; [done|]. exists chunks.
    split; [done|]. split; [done|]. split; [lia | done].
  - intros p v p' Hv. apply read_item_chunk in Hv as (? & ? & ? & ?). done.
Qed.

(** ** The writer on the bytes of an item *)

Lemma encode_decode_ascii (raw : list byte) :
  encode_ascii (decode_ascii raw) = replace_high <$> raw.
Proof.
  unfold encode_ascii, decode_ascii. rewrite <- list_fmap_compose.
  apply list_fmap_ext. intros i b _. cbn [compose]. unfold replace_high.
  pose proof (Z_of_byte_range b) as Hb.
  destruct (decide (Z_of_byte b < 128)) as [Hlow|Hhigh].
  - rewrite decide_True by lia. apply byte_of_Z_of_byte.
  - rewrite decide_False by (unfold REPLACEMENT_CHARACTER; lia). reflexivity.
Qed.

Lemma emits_item (k : array_kind) (chunk : list byte) :
  item_chunk k chunk →
  emits (match k with
         | NumericArray c => write_array_item c
         | StringArray => λ v, writer_with (as_str v) write_delphi_string
         end (item_of k chunk))
        (recoded_chunk k chunk).
Proof.
  destruct k as [c|]; cbn [item_chunk item_of recoded_chunk].
  - intros Hlen. destruct c; cbn [write_array_item writer_with as_int as_float].
    + rewrite <- (le_bytes_unpack fmt_i chunk Hlen) at 2.
      apply (emits_packed fmt_i), bool_decide_eq_true. by apply unpack_in_range.
    + rewrite <- (le_bytes_unpack fmt_f chunk Hlen) at 2.
      apply (emits_packed fmt_f), bool_decide_eq_true. by apply unpack_in_range.
    + rewrite <- (le_bytes_unpack fmt_I chunk Hlen) at 2.
      apply emits_u32, bool_decide_eq_true. by apply unpack_in_range.
  - intros [H4 Hlen]. cbn [writer_with as_str]. unfold write_delphi_string. cbv zeta.
    rewrite length_encode_ascii, length_decode_ascii, length_drop, <- Hlen.
    rewrite encode_decode_ascii.
    assert (Hl4 : length (take 4 chunk) = calcsize fmt_I).
    { rewrite length_take. change (calcsize fmt_I) with 4%nat. lia. }
    apply emits_seq; [|apply emits_bytes].
    rewrite <- (le_bytes_unpack fmt_I (take 4 chunk) Hl4) at 2.
    apply emits_u32, bool_decide_eq_true. by apply unpack_in_range.
Qed.

Lemma emits_for_fmap {A B : Type} (w : B → Writer) (g : A → B) (f : A → list byte)
    (l : list A) :
  Forall (λ x, emits (w (g x)) (f x)) l →
  emits (writer_for w (g <$> l)) (concat (f <$> l)).
Proof.
  induction 1 as [|x l Hx _ IH]; [apply emits_skip|].
  rewrite !fmap_cons. cbn [writer_for concat]. by apply emits_seq.
Qed.

(** The bytes the writer appends for the items of a non-empty array. *)
Lemma emits_array (k : array_kind) (chunks : list (list byte)) :
  chunks ≠ [] → Forall (item_chunk k) chunks →
  in_range fmt_I (Z.of_nat (length chunks)) = true →
  emits (write_array k (item_of k <$> chunks))
        (le_bytes 8 1 ++ le_bytes 4 (Z.of_nat (length chunks))
         ++ concat (recoded_chunk k <$> chunks)).
Proof.
  intros Hne Hall Hrange.
  assert (Hbody : ∀ w : atom → Writer,
            Forall (λ c, emits (w (item_of k c)) (recoded_chunk k c)) chunks →
            emits (match item_of k <$> chunks with
                   | [] => write_u64 0
                   | _ :: _ =>
                       writer_seq (write_u64 1)
                         (writer_seq (write_u32 (Z.of_nat (length (item_of k <$> chunks))))
                            (writer_for w (item_of k <$> chunks)))
                   end)
                  (le_bytes 8 1 ++ le_bytes 4 (Z.of_nat (length chunks))
                   ++ concat (recoded_chunk k <$> chunks))).
  { intros w Hw. destruct chunks as [|c0 chunks']; [done|].
    rewrite fmap_cons. rewrite <- fmap_cons. rewrite length_fmap.
    apply emits_seq; [by apply (emits_packed fmt_Q)|].
    apply emits_seq; [by apply emits_u32|].
    by apply emits_for_fmap. }
  destruct k as [c|].
  - apply (Hbody (write_array_item c)).
    eapply Forall_impl; [exact Hall|]. intros x Hx. by apply (emits_item (NumericArray c)).
  - apply (Hbody (λ v, writer_with (as_str v) write_delphi_string)).
    eapply Forall_impl; [exact Hall|]. intros x Hx. by apply (emits_item StringArray).
Qed.

(** ** Array fields and their presence marker *)

Lemma marker_bytes (data : list byte) (pos : nat) (m : Z) :
  (pos + 8 ≤ length data)%nat → in_range fmt_Q m = true →
  le_bytes 8 m = take 8 (drop pos data) ↔ m = marker_at data pos.
Proof.
  intros Hle Hm%bool_decide_eq_true.
  assert (Hlen : length (take 8 (drop pos data)) = calcsize fmt_Q).
  { change (calcsize fmt_Q) with 8%nat. rewrite length_take, length_drop. lia. }
  unfold marker_at. split.
  - intros <-. symmetry. by apply (unpack_le_bytes fmt_Q).
  - intros ->. by apply (le_bytes_unpack fmt_Q).
Qed.

Lemma written_array (k : array_kind) (vals : list atom) :
  wf_count fmt_I (length vals) = true → forallb (item_decodable k) vals = true →
  ∃ out,
    write_array k vals [] = OK out ∧
    take 8 out = le_bytes 8 (presence vals) ∧
    read_array k out 0%nat = OK (recode_atom <$> vals, length out).
Proof.
  intros Hn Hl. destruct (array_encoding k vals Hn Hl) as (tail & He & Hp).
  exists (le_bytes 8 (presence vals) ++ tail). split; [apply (He [])|]. split.
  - by rewrite take_app_length' by (by rewrite length_le_bytes).
  - apply (Hp _ 0%nat []); [by rewrite app_nil_r | lia].
Qed.

(** C2, as amended. Decoding does not keep an absent array (marker 0) and
    a present-but-empty one (a marker that is not 0, count 0) apart: the
    decoder accepts both and returns the empty list for both. For every
    array field the decoder accepts, the list it returns is empty for
    marker 0 and has as many items as the count word says otherwise;
    re-encoding succeeds and writes marker 0 for an empty list and marker 1
    for any other; and these are the original marker bytes exactly when
    the original marker was 0, or was 1 with a count that is not 0. *)
Theorem presence_marker_reencoding (k : array_kind) :
  (∀ data pos, (pos + 8 ≤ length data)%nat → marker_at data pos = 0 →
     read_array k data pos = OK ([], (pos + 8)%nat)) ∧
  (∀ data pos, (pos + 12 ≤ length data)%nat →
     marker_at data pos ≠ 0 → count_at data pos = 0 →
     read_array k data pos = OK ([], (pos + 12)%nat)) ∧
  (∀ data pos vals pos',
     read_array k data pos = OK (vals, pos') →
     (marker_at data pos = 0 → vals = []) ∧
     (marker_at data pos ≠ 0 → Z.of_nat (length vals) = count_at data pos) ∧
     ∃ out,
       write_array k vals [] = OK out ∧
       take 8 out = le_bytes 8 (presence vals) ∧
       (take 8 out = take 8 (drop pos data)
        ↔ marker_at data pos = 0
          ∨ (marker_at data pos = 1 ∧ count_at data pos ≠ 0))).
Proof.
  split; [|split].
  - intros data pos. apply read_array_absent.
  - intros data pos. apply read_array_present_empty.
  - intros data pos vals pos' Hread.
    pose proof (read_array_inv _ _ _ _ _ Hread) as (Hle & _ & Hn & Hl).
    apply read_array_layout in Hread as [_ Hlayout].
    destruct (written_array k vals Hn Hl) as (out & Hw & Hm & _).
    destruct (decide (marker_at data pos = 0)) as [Hz|Hnz].
    + destruct Hlayout as [-> ->]. split; [done|]. split; [done|].
      exists out. split; [done|]. split; [done|]. rewrite Hm. cbn [presence].
      rewrite (marker_bytes data pos 0) by done. split; [by left | done].
    + destruct Hlayout as (_ & _ & chunks & _ & _ & Hcount & ->).
      split; [done|]. split; [intros _; by rewrite length_fmap|].
      exists out. split; [done|]. split; [done|]. rewrite Hm.
      destruct chunks as [|c chunks]; cbn [fmap list_fmap presence length] in *.
      * rewrite (marker_bytes data pos 0) by done. split; [done|].
        intros [Hz|[_ Hc]]; [done|]. by rewrite Hcount in Hc.
      * rewrite (marker_bytes data pos 1) by done. split.
        -- intros <-. right. split; [done|]. lia.
        -- by intros [Hz|[H1 _]].
Qed.

(** An int32 array of two items, and an array with marker 2 and count 0. *)
Lemma presence_marker_reencoding_witness :
  let data := sample_int_array in
  let empty := [x02; x00; x00; x00; x00; x00; x00; x00;  x00; x00; x00; x00] in
  read_array (NumericArray char_i) empty 0%nat = OK ([], 12%nat) ∧
  read_array (NumericArray char_i) data 0%nat = OK ([AInt 7; AInt (-1)], 20%nat) ∧
  Z.of_nat (length [AInt 7; AInt (-1)]) = count_at data 0 ∧
  ∃ out,
    write_array (NumericArray char_i) [AInt 7; AInt (-1)] [] = OK out ∧
    take 8 out = le_bytes 8 (presence [AInt 7; AInt (-1)]) ∧
    (take 8 out = take 8 (drop 0 data)
     ↔ marker_at data 0 = 0 ∨ (marker_at data 0 = 1 ∧ count_at data 0 ≠ 0)).
Proof.
  intros data empty.
  destruct (presence_marker_reencoding (NumericArray char_i)) as (_ & Hempty & Hany).
  split.
  { apply (Hempty empty 0%nat); [vm_compute; lia | discriminate | reflexivity]. }
  assert (Hread : read_array (NumericArray char_i) data 0%nat
                  = OK ([AInt 7; AInt (-1)], 20%nat)) by reflexivity.
  split; [exact Hread|].
  destruct (Hany data 0%nat _ 20%nat Hread) as (_ & Hcount & Hout).
  split; [apply Hcount; discriminate | exact Hout].
Defined.

(** C2 as stated fails: a present-but-empty array (marker 1, count 0) is
    accepted, decodes to the empty list, and is re-encoded with marker 0. *)
Lemma present_but_empty_marker_lost :
  let data := [x01; x00; x00; x00; x00; x00; x00; x00;  x00; x00; x00; x00] in
  read_array (NumericArray char_i) data 0%nat = OK ([], 12%nat) ∧
  write_array (NumericArray char_i) [] []
    = OK [x00; x00; x00; x00; x00; x00; x00; x00] ∧
  take 8 data ≠ [x00; x00; x00; x00; x00; x00; x00; x00].
Proof. repeat split. discriminate. Qed.



(** ** The record codec: reading back a well-formed model *)

Lemma wf_item_in_range (c : fmt_char) (a : atom) :
  wf_item c a = true → item_in_range c a = true.
Proof. by intros [H _]%andb_prop. Qed.

Lemma reads_back_wf_string (s : pystr) :
  wf_str s = true → reads_back (write_delphi_string s) read_delphi_string s.
Proof.
  intros [Hascii Hlen%bool_decide_eq_true]%andb_prop.
  rewrite <- (recode_ascii s Hascii) at 2. by apply reads_back_delphi_string.
Qed.

Lemma wf_items_decodable (c : fmt_char) (l : list atom) :
  forallb (wf_item c) l = true → forallb (item_decodable (NumericArray c)) l = true.
Proof.
  rewrite !forallb_forall. intros H x Hx. by apply wf_item_in_range, H.
Qed.

Lemma wf_str_items_decodable (l : list atom) :
  forallb wf_str_item l = true →
  forallb (item_decodable StringArray) l = true ∧ recode_atom <$> l = l.
Proof.
  induction l as [|a l IH]; [done|]. intros Hal. simpl in Hal.
  apply andb_prop in Hal as [Ha Hl]. destruct (IH Hl) as [IH1 IH2].
  destruct a as [| |s]; try done. simpl in Ha.
  apply andb_prop in Ha as [Hascii Hlen]. split.
  - simpl. by rewrite Hlen, IH1.
  - rewrite fmap_cons, IH2. simpl. by rewrite recode_ascii.
Qed.

Lemma reads_back_wf_array (k : array_kind) (l : list atom) :
  wf_count fmt_I (length l) = true →
  forallb (item_decodable k) l = true → recode_atom <$> l = l →
  reads_back (write_array k l) (reader_bind (read_array k) (λ l, reader_ret (VList l)))
             (VList l).
Proof.
  intros Hn Hl Hid. destruct (array_encoding k l Hn Hl) as (tail & He & Hp).
  rewrite Hid in Hp. apply (reads_back_bind_ret _ _ VList). by eexists.
Qed.

Lemma reads_back_field_value (f : ParField pyval) :
  wf_field f = true →
  reads_back (write_field_value f) (read_field_value (dtype f)) (value f).
Proof.
  destruct f as [dt v]. unfold wf_field, write_field_value, read_field_value.
  cbn [dtype value].
  destruct v as [a|l].
  - intros Hwf. repeat (apply orb_prop in Hwf as [Hwf|Hwf]);
      apply andb_prop in Hwf as [->%bool_decide_eq_true Hitem];
      repeat (case_decide; try done).
    + apply wf_item_in_range in Hitem. destruct a as [z| |]; try done.
      cbn [writer_with as_atom as_int as_float as_str].
      by apply (reads_back_bind_ret _ _ (λ v, VAtom (AInt v))), reads_back_i32.
    + apply wf_item_in_range in Hitem. destruct a as [|b|]; try done.
      cbn [writer_with as_atom as_int as_float as_str].
      by apply (reads_back_bind_ret _ _ (λ v, VAtom (AFloat v))), reads_back_f32.
    + apply wf_item_in_range in Hitem. destruct a as [z| |]; try done.
      cbn [writer_with as_atom as_int as_float as_str].
      by apply (reads_back_bind_ret _ _ (λ v, VAtom (AInt v))), reads_back_u32.
    + destruct a as [| |s]; try done.
      cbn [writer_with as_atom as_int as_float as_str].
      by apply (reads_back_bind_ret _ _ (λ v, VAtom (AStr v))), reads_back_wf_string.
  - intros [Hn Hwf]%andb_prop. repeat (apply orb_prop in Hwf as [Hwf|Hwf]);
      apply andb_prop in Hwf as [->%bool_decide_eq_true Hitems];
      repeat (case_decide; try done).
    + apply wf_items_decodable in Hitems.
      apply (reads_back_wf_array (NumericArray char_i)); [done..|].
      by apply (recode_numeric char_i).
    + apply wf_items_decodable in Hitems.
      apply (reads_back_wf_array (NumericArray char_f)); [done..|].
      by apply (recode_numeric char_f).
    + apply wf_items_decodable in Hitems.
      apply (reads_back_wf_array (NumericArray char_I)); [done..|].
      by apply (recode_numeric char_I).
    + apply wf_str_items_decodable in Hitems as [Hdec Hid].
      by apply (reads_back_wf_array StringArray).
Qed.

Lemma wf_field_dtype (f : ParField pyval) :
  wf_field f = true → in_range fmt_B (dtype f) = true.
Proof.
  unfold wf_field. destruct (value f).
  - intros Hwf. repeat (apply orb_prop in Hwf as [Hwf|Hwf]);
      apply andb_prop in Hwf as [->%bool_decide_eq_true _]; done.
  - intros [_ Hwf]%andb_prop. repeat (apply orb_prop in Hwf as [Hwf|Hwf]);
      apply andb_prop in Hwf as [->%bool_decide_eq_true _]; done.
Qed.

Lemma forallb_Forall {A : Type} (p : A → bool) (l : list A) :
  forallb p l = true → Forall (λ x, p x = true) l.
Proof.
  rewrite forallb_forall, Forall_forall. intros H x Hx. by apply H, list_elem_of_In.
Qed.

Lemma reads_back_type_list (fs : list (ParField pyval)) :
  forallb wf_field fs = true →
  reads_back (writer_for (λ field, write_u8 (dtype field)) fs)
             (read_repeat read_u8 (length fs)) (dtype <$> fs).
Proof.
  intros Hwf%forallb_Forall. apply (reads_back_repeat _ _ dtype).
  eapply Forall_impl; [exact Hwf|]. intros f Hf. cbv beta.
  by apply reads_back_u8, wf_field_dtype.
Qed.

Lemma reads_back_fields (fs : list (ParField pyval)) :
  forallb wf_field fs = true →
  reads_back (writer_for write_field_value fs) (read_fields (dtype <$> fs)) fs.
Proof.
  induction fs as [|f fs IH]; [intros _; apply reads_back_ret|].
  intros Hwf. simpl in Hwf. apply andb_prop in Hwf as [Hf Hfs].
  rewrite fmap_cons. cbn [writer_for read_fields].
  eapply reads_back_bind; [by apply reads_back_field_value|].
  destruct f as [dt v]. cbn [dtype value].
  by apply (reads_back_bind_ret _ _ (λ fs', mkParField dt v :: fs')), IH.
Qed.

Lemma in_range_count_H (n : nat) :
  wf_count fmt_H n = true → in_range fmt_H (Z.of_nat n) = true.
Proof.
  intros H%bool_decide_eq_true. apply bool_decide_eq_true.
  split; [change (fmt_min fmt_H) with 0; lia | done].
Qed.

Lemma reads_back_entry (e : ParEntry pyval) :
  wf_entry e = true → reads_back (write_entry e) read_entry e.
Proof.
  destruct e as [nm ub ua ub16 fs]. unfold wf_entry, write_entry, read_entry.
  cbn [name unknown_byte unknown_u16a unknown_u16b fields].
  intros [[[[[Hnm Hub]%andb_prop Hua]%andb_prop Hub16]%andb_prop Hcnt]%andb_prop
            Hfs]%andb_prop.
  eapply reads_back_bind; [by apply reads_back_wf_string|].
  eapply reads_back_bind; [by apply reads_back_i8|].
  eapply reads_back_bind; [by apply reads_back_u16, in_range_count_H|].
  eapply reads_back_bind; [by apply reads_back_u16|].
  eapply reads_back_bind; [by apply reads_back_u16|].
  cbv beta. rewrite Nat2Z.id.
  eapply reads_back_bind; [by apply reads_back_type_list|].
  by apply (reads_back_bind_ret _ _ (mkParEntry nm ub ua ub16)), reads_back_fields.
Qed.

Lemma reads_back_list (pl : ParList pyval) :
  wf_list pl = true → reads_back (write_list pl) read_list pl.
Proof.
  destruct pl as [u1 u2 es]. unfold wf_list, write_list, read_list.
  cbn [unknown1 unknown2 entries].
  intros [[[Hu1 Hu2]%andb_prop Hcnt]%andb_prop Hes]%andb_prop.
  eapply reads_back_bind; [by apply reads_back_u32|].
  eapply reads_back_bind; [by apply reads_back_u32|].
  eapply reads_back_bind; [by apply reads_back_u32, in_range_count|].
  cbv beta. rewrite Nat2Z.id.
  apply (reads_back_bind_ret _ _ (mkParList u1 u2)).
  rewrite <- (list_fmap_id es) at 3. apply (reads_back_repeat _ _ id).
  eapply Forall_impl; [by apply forallb_Forall|].
  intros e He. by apply reads_back_entry.
Qed.

Lemma parses_step {A B : Type} (r : Reader A) (k : A → Reader B)
    (bs : list byte) (a : A) (data : list byte) (pos : nat) (rest : list byte) :
  parses r bs a → drop pos data = bs ++ rest → (pos ≤ length data)%nat →
  reader_bind r k data pos = k a data (pos + length bs)%nat ∧
  drop (pos + length bs) data = rest ∧
  (pos + length bs ≤ length data)%nat.
Proof.
  intros Hp Hd Hle. unfold reader_bind. rewrite (Hp data pos rest Hd Hle).
  pose proof (drop_span_length _ _ _ _ Hd Hle) as Hlen.
  split; [done|]. split; [|lia].
  by rewrite <- drop_drop, Hd, drop_app_length.
Qed.

(** One step of a reader run over bytes known to parse. *)
Ltac read_step Hp Hd Hle Hd' Hle' :=
  match goal with
  | |- reader_bind ?r ?k ?data ?pos = _ =>
      let Hs := fresh "Hs" in
      destruct (parses_step r k _ _ data pos _ Hp Hd Hle) as (Hs & Hd' & Hle');
      rewrite Hs; clear Hs
  end.

(** The bytes [write_par_body] appends for a well-formed model, and what
    [read_par_body] makes of them with any tail behind. *)
Lemma read_written_body (par : ParFile pyval) :
  wf_file par = true →
  ∃ bs,
    emits (write_par_body par) bs ∧
    ∀ tail,
      read_par_body (bs ++ tail) 0%nat
      = OK (mkParFile (version par) (lists par) None false
              (match tail with [] => None | _ :: _ => Some tail end),
            length bs).
Proof.
  destruct par as [ver ls wh wc td]. unfold wf_file, write_par_body.
  cbn [version lists].
  intros [[Hver Hcnt]%andb_prop Hls]%andb_prop.
  destruct (reads_back_u32 ver Hver) as (bver & Hever & Hpver).
  destruct (reads_back_u32 _ (in_range_count _ Hcnt)) as (bcnt & Hecnt & Hpcnt).
  destruct (reads_back_u32 0 eq_refl) as (bpad & Hepad & Hppad).
  assert (Hlists : reads_back (writer_for write_list ls)
                     (read_repeat read_list (length ls)) ls).
  { rewrite <- (list_fmap_id ls) at 3. apply (reads_back_repeat _ _ id).
    eapply Forall_impl; [by apply forallb_Forall|].
    intros pl Hpl. by apply reads_back_list. }
  destruct Hlists as (bls & Hels & Hpls).
  exists (PAR_MAGIC ++ bver ++ bcnt ++ bpad ++ bls). split.
  { repeat (apply emits_seq; [done || apply emits_bytes|]). done. }
  intros tail. unfold read_par_body.
  remember ((PAR_MAGIC ++ bver ++ bcnt ++ bpad ++ bls) ++ tail) as data eqn:Hdata.
  assert (Hd0 : drop 0 data = PAR_MAGIC ++ (bver ++ bcnt ++ bpad ++ bls ++ tail)).
  { rewrite Hdata. by rewrite !(assoc_L (++)). }
  read_step (parses_bytes PAR_MAGIC) Hd0 (Nat.le_0_l (length data)) Hd1 Hle1.
  rewrite decide_False by (intros Hne; by apply Hne).
  read_step Hpver Hd1 Hle1 Hd2 Hle2.
  read_step Hpcnt Hd2 Hle2 Hd3 Hle3.
  read_step Hppad Hd3 Hle3 Hd4 Hle4.
  rewrite Nat2Z.id.
  read_step Hpls Hd4 Hle4 Hd5 Hle5.
  assert (Hpos : (0 + length PAR_MAGIC + length bver + length bcnt + length bpad
                  + length bls)%nat
                 = length (PAR_MAGIC ++ bver ++ bcnt ++ bpad ++ bls)).
  { rewrite !length_app. lia. }
  rewrite Hpos in Hd5 |- *. rewrite Hd5.
  assert (Hlen : length data
                 = (length (PAR_MAGIC ++ bver ++ bcnt ++ bpad ++ bls) + length tail)%nat).
  { by rewrite Hdata, length_app. }
  rewrite Hlen. generalize (length (PAR_MAGIC ++ bver ++ bcnt ++ bpad ++ bls)).
  intros n. destruct tail as [|b t].
  - rewrite decide_False by (simpl; lia). done.
  - rewrite decide_True by (simpl; lia). done.
Qed.

(** What [write_par] wrote for a well-formed model: [read_par] decodes it
    to that model (with the envelope attributes at their defaults and an
    empty tail as [None]), and [write_par] of the decoded model returns the
    same bytes. *)
Lemma written_buffer_round_trip (par0 : ParFile pyval) :
  wf_file par0 = true →
  ∃ data,
    write_par par0 = OK data ∧
    read_par data = OK (as_decoded par0) ∧
    write_par (as_decoded par0) = OK data.
Proof.
  intros Hwf. destruct (read_written_body par0 Hwf) as (bs & He & Hread).
  assert (Hbody : ∀ par, version par = version par0 → lists par = lists par0 →
                         write_par_body par [] = OK bs).
  { intros par Hv Hl. unfold write_par_body. rewrite Hv, Hl. apply (He []). }
  unfold write_par, read_par.
  rewrite (Hbody par0 eq_refl eq_refl), (Hbody (as_decoded par0) eq_refl eq_refl).
  unfold as_decoded at 2. cbn [trailing_data].
  destruct (trailing_data par0) as [[|b t]|] eqn:Htd.
  - exists bs. split; [done|]. rewrite <- (app_nil_r bs) at 1. rewrite Hread.
    unfold as_decoded. by rewrite Htd.
  - exists (bs ++ b :: t). split; [done|]. rewrite Hread.
    unfold as_decoded. by rewrite Htd.
  - exists bs. split; [done|]. rewrite <- (app_nil_r bs) at 1. rewrite Hread.
    unfold as_decoded. by rewrite Htd.
Qed.

(** ** The record codec: writing back what was read *)

Lemma emits_ext (w : Writer) (b1 b2 : list byte) : b1 = b2 → emits w b1 → emits w b2.
Proof. by intros ->. Qed.

Lemma packed_restored (f : format) (data : list byte) (pos : nat) (v : Z) (pos' : nat) :
  reader_bind (_advance (calcsize f)) (unpack_from f) data pos = OK (v, pos') →
  (pos ≤ pos')%nat ∧ (pos' ≤ length data)%nat ∧
  in_range f v = true ∧ le_bytes (calcsize f) v = span data pos pos'.
Proof.
  intros (-> & Hle & -> & Hlen)%packed_read_span.
  split; [lia|]. split; [done|]. split.
  - apply bool_decide_eq_true. by apply unpack_in_range.
  - by apply le_bytes_unpack.
Qed.

Lemma read_u8_restored (data : list byte) (pos : nat) (v : Z) (pos' : nat) :
  read_u8 data pos = OK (v, pos') →
  (pos ≤ pos')%nat ∧ (pos' ≤ length data)%nat ∧ in_range fmt_B v = true ∧
  emits (write_u8 v) (span data pos pos').
Proof.
  intros (? & ? & Hr & <-)%(packed_restored fmt_B). repeat (split; [done|]).
  by apply emits_u8.
Qed.

Lemma read_i8_restored (data : list byte) (pos : nat) (v : Z) (pos' : nat) :
  read_i8 data pos = OK (v, pos') →
  (pos ≤ pos')%nat ∧ (pos' ≤ length data)%nat ∧
  emits (write_i8 v) (span data pos pos').
Proof.
  intros (? & ? & Hr & <-)%(packed_restored fmt_b). repeat (split; [done|]).
  by apply (emits_packed fmt_b).
Qed.

Lemma read_u16_restored (data : list byte) (pos : nat) (v : Z) (pos' : nat) :
  read_u16 data pos = OK (v, pos') →
  (pos ≤ pos')%nat ∧ (pos' ≤ length data)%nat ∧ in_range fmt_H v = true ∧
  emits (write_u16 v) (span data pos pos').
Proof.
  intros (? & ? & Hr & <-)%(packed_restored fmt_H). repeat (split; [done|]).
  by apply emits_u16.
Qed.

Lemma read_u32_restored (data : list byte) (pos : nat) (v : Z) (pos' : nat) :
  read_u32 data pos = OK (v, pos') →
  (pos ≤ pos')%nat ∧ (pos' ≤ length data)%nat ∧ in_range fmt_I v = true ∧
  emits (write_u32 v) (span data pos pos').
Proof.
  intros (? & ? & Hr & <-)%(packed_restored fmt_I). repeat (split; [done|]).
  by apply emits_u32.
Qed.

Lemma read_i32_restored (data : list byte) (pos : nat) (v : Z) (pos' : nat) :
  read_i32 data pos = OK (v, pos') →
  (pos ≤ pos')%nat ∧ (pos' ≤ length data)%nat ∧
  emits (write_i32 v) (span data pos pos').
Proof.
  intros (? & ? & Hr & <-)%(packed_restored fmt_i). repeat (split; [done|]).
  by apply (emits_packed fmt_i).
Qed.

Lemma read_f32_restored (data : list byte) (pos : nat) (v : Z) (pos' : nat) :
  read_f32 data pos = OK (v, pos') →
  (pos ≤ pos')%nat ∧ (pos' ≤ length data)%nat ∧
  emits (write_f32 v) (span data pos pos').
Proof.
  intros (? & ? & Hr & <-)%(packed_restored fmt_f). repeat (split; [done|]).
  by apply (emits_packed fmt_f).
Qed.

(** A decoded string is ASCII exactly when none of its bytes was 0x80 or
    more. *)
Lemma decoded_ascii_bytes (raw : list byte) :
  ascii_str (decode_ascii raw) = true ↔ Forall (λ b, Z_of_byte b < 128) raw.
Proof.
  unfold ascii_str, decode_ascii. rewrite forallb_forall, Forall_forall. split.
  - intros Hall b Hb. pose proof (Z_of_byte_range b) as Hr.
    specialize (Hall (if decide (Z_of_byte b < 128) then Z_of_byte b
                      else REPLACEMENT_CHARACTER)).
    destruct (decide (Z_of_byte b < 128)) as [|Hhigh]; [done|].
    exfalso. assert (Hin : In REPLACEMENT_CHARACTER
                             ((λ b, if decide (Z_of_byte b < 128) then Z_of_byte b
                                    else REPLACEMENT_CHARACTER) <$> raw)).
    { apply list_elem_of_In, list_elem_of_fmap. exists b. split; [|done].
      by rewrite decide_False. }
    apply Hall, bool_decide_eq_true in Hin. unfold REPLACEMENT_CHARACTER in Hin. lia.
  - intros Hall c [b [-> Hb]]%list_elem_of_In%list_elem_of_fmap.
    pose proof (Z_of_byte_range b) as Hr. specialize (Hall b Hb).
    rewrite decide_True by done. apply bool_decide_eq_true. lia.
Qed.

Lemma replace_high_ascii (raw : list byte) :
  ascii_str (decode_ascii raw) = true → replace_high <$> raw = raw.
Proof.
  intros Hall%decoded_ascii_bytes. rewrite <- (list_fmap_id raw) at 2.
  apply list_fmap_ext. intros i b Hb. unfold replace_high.
  rewrite Forall_forall in Hall. rewrite decide_True; [done|].
  apply Hall. by eapply list_elem_of_lookup_2.
Qed.

Lemma recoded_chunk_kept (k : array_kind) (chunk : list byte) :
  kept_atom (item_of k chunk) = true → recoded_chunk k chunk = chunk.
Proof.
  destruct k as [c|]; [done|]. cbn [item_of kept_atom recoded_chunk].
  intros Hascii. rewrite replace_high_ascii by done. apply take_drop.
Qed.

Lemma read_delphi_string_restored (data : list byte) (pos : nat) (s : pystr) (pos' : nat) :
  read_delphi_string data pos = OK (s, pos') →
  (pos ≤ pos')%nat ∧ (pos' ≤ length data)%nat ∧
  (ascii_str s = true → emits (write_delphi_string s) (span data pos pos')).
Proof.
  intros Hread.
  assert (Hitem : reader_bind read_delphi_string (λ s, reader_ret (AStr s)) data pos
                  = OK (AStr s, pos')).
  { unfold reader_bind. by rewrite Hread. }
  apply (read_item_chunk StringArray) in Hitem as (Hle & Hend & Hchunk & Hs).
  split; [done|]. split; [done|]. intros Hascii.
  pose proof (emits_item StringArray _ Hchunk) as He.
  rewrite <- Hs in He. cbn [writer_with as_str] in He.
  rewrite recoded_chunk_kept in He; [done|]. by rewrite <- Hs.
Qed.

Lemma canonical_marker_nonzero (data : list byte) (pos : nat) :
  canonical_marker data pos = true → marker_at data pos ≠ 0 →
  marker_at data pos = 1 ∧ count_at data pos ≠ 0.
Proof.
  unfold canonical_marker. intros [Hz|[H1 Hc]%andb_prop]%orb_prop Hnz.
  - by apply bool_decide_eq_true in Hz.
  - apply bool_decide_eq_true in H1. apply negb_true_iff, bool_decide_eq_false in Hc.
    done.
Qed.

(** An array field is written back as it was if its marker is the one the
    writer chooses and none of its strings held a byte of 0x80 or more. *)
Lemma read_array_restored (k : array_kind) (data : list byte) (pos : nat)
    (vals : list atom) (pos' : nat) :
  read_array k data pos = OK (vals, pos') →
  (pos ≤ pos')%nat ∧ (pos' ≤ length data)%nat ∧
  (canonical_marker data pos = true → forallb kept_atom vals = true →
   emits (write_array k vals) (span data pos pos')).
Proof.
  intros Hread.
  pose proof (read_array_layout _ _ _ _ _ Hread) as [Hle Hlayout].
  destruct (decide (marker_at data pos = 0)) as [Hz|Hnz].
  - destruct Hlayout as [-> ->]. split; [lia|]. split; [done|]. intros _ _.
    rewrite span_take. apply (emits_ext _ (le_bytes 8 0)).
    + by apply (marker_bytes data pos 0).
    + destruct k; by apply (emits_packed fmt_Q).
  - destruct Hlayout as (Hle12 & Hend & chunks & Hspan & Hchunks & Hcount & ->).
    split; [lia|]. split; [done|]. intros Hcanon Hkept.
    destruct (canonical_marker_nonzero _ _ Hcanon Hnz) as [H1 Hcnz].
    assert (Hne : chunks ≠ []) by (intros ->; by apply Hcnz).
    assert (Hrange : in_range fmt_I (Z.of_nat (length chunks)) = true).
    { rewrite <- Hcount. unfold count_at. apply bool_decide_eq_true.
      apply unpack_in_range. rewrite length_take, length_drop.
      change (calcsize fmt_I) with 4%nat. lia. }
    eapply emits_ext; [|by apply emits_array].
    rewrite <- (span_join data pos (pos + 8) pos') by lia.
    rewrite <- (span_join data (pos + 8) (pos + 12) pos') by lia.
    f_equal; [|f_equal].
    + rewrite span_take. by apply (marker_bytes data pos 1).
    + rewrite <- Hcount. unfold count_at.
      replace (pos + 12)%nat with (pos + 8 + 4)%nat by lia. rewrite span_take.
      apply (le_bytes_unpack fmt_I). rewrite length_take, length_drop.
      change (calcsize fmt_I) with 4%nat. lia.
    + rewrite Hspan. f_equal. rewrite <- (list_fmap_id chunks) at 2.
      apply list_fmap_ext. intros i c Hc. apply recoded_chunk_kept.
      rewrite forallb_forall in Hkept. apply Hkept, list_elem_of_In.
      apply list_elem_of_fmap. exists c. split; [done|].
      by eapply list_elem_of_lookup_2.
Qed.

Lemma read_field_value_restored (dt : Z) (data : list byte) (pos : nat)
    (v : pyval) (pos' : nat) :
  read_field_value dt data pos = OK (v, pos') →
  (pos ≤ pos')%nat ∧ (pos' ≤ length data)%nat ∧
  (forallb (canonical_marker data)
     (if bool_decide (TYPE_ARRAY_INT32 ≤ dt ≤ TYPE_ARRAY_STR) then [pos] else []) = true →
   kept_value v = true →
   emits (write_field_value (mkParField dt v)) (span data pos pos')).
Proof.
  unfold read_field_value, write_field_value. cbn [dtype value].
  unfold TYPE_INT32, TYPE_FLOAT32, TYPE_UINT32, TYPE_STRING, TYPE_ARRAY_INT32,
    TYPE_ARRAY_FLOAT, TYPE_ARRAY_UINT32, TYPE_ARRAY_STR.
  repeat (destruct (decide (dt = _)) as [->|?]).
  - intros (x & mid & Hx & Hret)%reader_bind_inv. injection Hret as <- <-.
    apply read_i32_restored in Hx as (? & ? & He). by repeat split.
  - intros (x & mid & Hx & Hret)%reader_bind_inv. injection Hret as <- <-.
    apply read_f32_restored in Hx as (? & ? & He). by repeat split.
  - intros (x & mid & Hx & Hret)%reader_bind_inv. injection Hret as <- <-.
    apply read_u32_restored in Hx as (? & ? & ? & He). by repeat split.
  - intros (x & mid & Hx & Hret)%reader_bind_inv. injection Hret as <- <-.
    apply read_delphi_string_restored in Hx as (? & ? & He).
    split; [done|]. split; [done|]. intros _. exact He.
  - intros (x & mid & Hx & Hret)%reader_bind_inv. injection Hret as <- <-.
    apply (read_array_restored (NumericArray char_i)) in Hx as (? & ? & He).
    split; [done|]. split; [done|]. cbn [bool_decide forallb].
    intros [Hc _]%andb_prop. by apply He.
  - intros (x & mid & Hx & Hret)%reader_bind_inv. injection Hret as <- <-.
    apply (read_array_restored (NumericArray char_f)) in Hx as (? & ? & He).
    split; [done|]. split; [done|]. cbn [bool_decide forallb].
    intros [Hc _]%andb_prop. by apply He.
  - intros (x & mid & Hx & Hret)%reader_bind_inv. injection Hret as <- <-.
    apply (read_array_restored (NumericArray char_I)) in Hx as (? & ? & He).
    split; [done|]. split; [done|]. cbn [bool_decide forallb].
    intros [Hc _]%andb_prop. by apply He.
  - intros (x & mid & Hx & Hret)%reader_bind_inv. injection Hret as <- <-.
    apply (read_array_restored StringArray) in Hx as (? & ? & He).
    split; [done|]. split; [done|]. cbn [bool_decide forallb].
    intros [Hc _]%andb_prop. by apply He.
  - done.
Qed.

Lemma read_fields_restored (type_list : list Z) (data : list byte) (pos : nat)
    (fs : list (ParField pyval)) (pos' : nat) :
  (pos ≤ length data)%nat →
  read_fields type_list data pos = OK (fs, pos') →
  (pos ≤ pos')%nat ∧ (pos' ≤ length data)%nat ∧ dtype <$> fs = type_list ∧
  ∃ ms, fields_markers type_list data pos = OK (ms, pos') ∧
        (forallb (canonical_marker data) ms = true →
         forallb (λ f, kept_value (value f)) fs = true →
         emits (writer_for write_field_value fs) (span data pos pos')).
Proof.
  revert pos fs. induction type_list as [|dt rest IH]; intros pos fs Hpos;
    cbn [read_fields fields_markers].
  - intros [= <- <-]. split; [done|]. split; [done|]. split; [done|].
    exists []. split; [done|]. intros _ _. rewrite span_nil. apply emits_skip.
  - intros (v & mid & Hv & Hrest)%reader_bind_inv.
    apply reader_bind_inv in Hrest as (fs' & mid' & Hfs & Hret).
    injection Hret as <- ->.
    pose proof (read_field_value_restored _ _ _ _ _ Hv) as (Hle1 & Hmid & Hev).
    apply IH in Hfs as (Hle2 & Hend & Hdts & ms & Htr & Hefs); [|done].
    split; [lia|]. split; [done|]. split; [by rewrite fmap_cons, Hdts|].
    eexists. split.
    + unfold reader_bind, field_markers. rewrite Hv, Htr. reflexivity.
    + rewrite forallb_app. intros [Hm Hms]%andb_prop. cbn [forallb value].
      intros [Hkv Hkfs]%andb_prop. cbn [writer_for].
      rewrite <- (span_join data pos mid pos') by done.
      apply emits_seq; [by apply Hev | by apply Hefs].
Qed.

Lemma emits_for_Forall2 {A : Type} (w : A → Writer) (l : list A)
    (chunks : list (list byte)) :
  Forall2 (λ c x, emits (w x) c) chunks l → emits (writer_for w l) (concat chunks).
Proof.
  induction 1 as [|c x chunks l Hx _ IH]; [apply emits_skip|].
  cbn [writer_for concat]. by apply emits_seq.
Qed.

Lemma writer_for_fmap {A B : Type} (w : B → Writer) (g : A → B) (l : list A) :
  writer_for w (g <$> l) = writer_for (λ x, w (g x)) l.
Proof. induction l as [|x l IH]; [done|]. rewrite fmap_cons. cbn [writer_for]. by rewrite IH. Qed.

(** The type tags of an entry. *)
Lemma read_type_list_restored (n : nat) (data : list byte) (pos : nat)
    (type_list : list Z) (pos' : nat) :
  (pos ≤ length data)%nat →
  read_repeat read_u8 n data pos = OK (type_list, pos') →
  (pos ≤ pos')%nat ∧ (pos' ≤ length data)%nat ∧ length type_list = n ∧
  ∀ fs : list (ParField pyval), dtype <$> fs = type_list →
    emits (writer_for (λ field, write_u8 (dtype field)) fs) (span data pos pos').
Proof.
  intros Hpos Hread.
  pose proof (read_repeat_inv read_u8 (λ _, True) _ _ _ _ _ (λ _ _ _ _, I) Hread)
    as [Hlen _].
  apply (read_repeat_chunks _ (λ c v, emits (write_u8 v) c)) in Hread
    as (Hle & Hend & chunks & _ & Hspan & Hall); [| |done].
  - split; [done|]. split; [done|]. split; [done|]. intros fs <-.
    rewrite <- writer_for_fmap, Hspan. by apply emits_for_Forall2.
  - intros p v p' (? & ? & _ & He)%read_u8_restored. done.
Qed.

Lemma read_entry_restored (data : list byte) (pos : nat) (e : ParEntry pyval)
    (pos' : nat) :
  (pos ≤ length data)%nat →
  read_entry data pos = OK (e, pos') →
  (pos ≤ pos')%nat ∧ (pos' ≤ length data)%nat ∧
  ∃ ms, entry_markers data pos = OK (ms, pos') ∧
        (forallb (canonical_marker data) ms = true → kept_entry e = true →
         emits (write_entry e) (span data pos pos')).
Proof.
  intros Hpos. unfold read_entry, entry_markers.
  intros (nm & p1 & Hnm & Hk)%reader_bind_inv.
  apply reader_bind_inv in Hk as (ub & p2 & Hub & Hk).
  apply reader_bind_inv in Hk as (cnt & p3 & Hcnt & Hk).
  apply reader_bind_inv in Hk as (ua & p4 & Hua & Hk).
  apply reader_bind_inv in Hk as (ub16 & p5 & Hub16 & Hk).
  apply reader_bind_inv in Hk as (type_list & p6 & Htl & Hk).
  apply reader_bind_inv in Hk as (fs & p7 & Hfs & Hret).
  injection Hret as <- <-.
  unfold reader_bind at 1. rewrite Hnm.
  unfold reader_bind at 1. rewrite Hub.
  unfold reader_bind at 1. rewrite Hcnt.
  unfold reader_bind at 1. rewrite Hua.
  unfold reader_bind at 1. rewrite Hub16.
  unfold reader_bind at 1. rewrite Htl.
  apply read_delphi_string_restored in Hnm as (H01 & H1 & Henm).
  apply read_i8_restored in Hub as (H12 & H2 & Heub).
  apply read_u16_restored in Hcnt as (H23 & H3 & Hrcnt & Hecnt).
  apply read_u16_restored in Hua as (H34 & H4 & _ & Heua).
  apply read_u16_restored in Hub16 as (H45 & H5 & _ & Heub16).
  apply read_type_list_restored in Htl as (H56 & H6 & Hltl & Hetl); [|done].
  apply read_fields_restored in Hfs as (H67 & H7 & Hdts & ms & Htr & Hefs); [|done].
  split; [lia|]. split; [done|]. exists ms. split; [done|].
  intros Hcanon [Hname Hkept]%andb_prop. cbn [name fields] in Hname, Hkept.
  unfold write_entry. cbn [name unknown_byte unknown_u16a unknown_u16b fields].
  cbv zeta.
  assert (Hcount : Z.of_nat (length fs) = cnt).
  { rewrite <- (length_fmap dtype fs), Hdts, Hltl.
    apply bool_decide_eq_true in Hrcnt. change (fmt_min fmt_H) with 0 in Hrcnt. lia. }
  rewrite Hcount.
  rewrite <- (span_join data pos p1 p7) by lia.
  rewrite <- (span_join data p1 p2 p7) by lia.
  rewrite <- (span_join data p2 p3 p7) by lia.
  rewrite <- (span_join data p3 p4 p7) by lia.
  rewrite <- (span_join data p4 p5 p7) by lia.
  rewrite <- (span_join data p5 p6 p7) by lia.
  repeat (apply emits_seq; [done || by auto|]).
  by apply Hefs.
Qed.

(** A loop of reads against the loop of writes, with the marker positions
    of each round. *)
Lemma read_repeat_restored {A : Type} (r : Reader A) (tr : Reader (list nat))
    (w : A → Writer) (good : A → bool) (data : list byte) :
  (∀ p v p', (p ≤ length data)%nat → r data p = OK (v, p') →
     (p ≤ p')%nat ∧ (p' ≤ length data)%nat ∧
     ∃ ms, tr data p = OK (ms, p') ∧
           (forallb (canonical_marker data) ms = true → good v = true →
            emits (w v) (span data p p'))) →
  ∀ n pos vs pos',
    (pos ≤ length data)%nat →
    read_repeat r n data pos = OK (vs, pos') →
    (pos ≤ pos')%nat ∧ (pos' ≤ length data)%nat ∧ length vs = n ∧
    ∃ mss, read_repeat tr n data pos = OK (mss, pos') ∧
           (forallb (canonical_marker data) (concat mss) = true →
            forallb good vs = true →
            emits (writer_for w vs) (span data pos pos')).
Proof.
  intros Hitem. induction n as [|n IH]; intros pos vs pos' Hpos; cbn [read_repeat].
  - intros [= <- <-]. split; [done|]. split; [done|]. split; [done|].
    exists []. split; [done|]. intros _ _. rewrite span_nil. apply emits_skip.
  - intros (v & mid & Hv & Hrest)%reader_bind_inv.
    apply reader_bind_inv in Hrest as (vs' & mid' & Hvs & Hret).
    injection Hret as <- ->.
    apply Hitem in Hv as (Hle1 & Hmid & ms & Htr & Hev); [|done].
    apply IH in Hvs as (Hle2 & Hend & Hlen & mss & Htrs & Hevs); [|done].
    split; [lia|]. split; [done|]. split; [by rewrite <- Hlen|].
    exists (ms :: mss). split.
    + unfold reader_bind. by rewrite Htr, Htrs.
    + cbn [concat forallb writer_for]. rewrite forallb_app.
      intros [Hm Hms]%andb_prop [Hg Hgs]%andb_prop.
      rewrite <- (span_join data pos mid pos') by done.
      apply emits_seq; [by apply Hev | by apply Hevs].
Qed.

Lemma read_list_restored (data : list byte) (pos : nat) (pl : ParList pyval)
    (pos' : nat) :
  (pos ≤ length data)%nat →
  read_list data pos = OK (pl, pos') →
  (pos ≤ pos')%nat ∧ (pos' ≤ length data)%nat ∧
  ∃ ms, list_markers data pos = OK (ms, pos') ∧
        (forallb (canonical_marker data) ms = true →
         forallb kept_entry (entries pl) = true →
         emits (write_list pl) (span data pos pos')).
Proof.
  intros Hpos. unfold read_list, list_markers.
  intros (u1 & p1 & Hu1 & Hk)%reader_bind_inv.
  apply reader_bind_inv in Hk as (u2 & p2 & Hu2 & Hk).
  apply reader_bind_inv in Hk as (cnt & p3 & Hcnt & Hk).
  apply reader_bind_inv in Hk as (es & p4 & Hes & Hret).
  injection Hret as <- <-.
  unfold reader_bind at 1. rewrite Hu1.
  unfold reader_bind at 1. rewrite Hu2.
  unfold reader_bind at 1. rewrite Hcnt.
  apply read_u32_restored in Hu1 as (H01 & H1 & _ & Heu1).
  apply read_u32_restored in Hu2 as (H12 & H2 & _ & Heu2).
  apply read_u32_restored in Hcnt as (H23 & H3 & Hrcnt & Hecnt).
  apply (read_repeat_restored _ entry_markers write_entry kept_entry) in Hes
    as (H34 & H4 & Hlen & mss & Htr & Hees); [| |lia].
  - split; [lia|]. split; [done|]. exists (concat mss). split.
    { unfold reader_bind. by rewrite Htr. }
    intros Hcanon Hkept. unfold write_list. cbn [unknown1 unknown2 entries].
    assert (Hcount : Z.of_nat (length es) = cnt).
    { rewrite Hlen. apply bool_decide_eq_true in Hrcnt.
      change (fmt_min fmt_I) with 0 in Hrcnt. lia. }
    rewrite Hcount.
    rewrite <- (span_join data pos p1 p4) by lia.
    rewrite <- (span_join data p1 p2 p4) by lia.
    rewrite <- (span_join data p2 p3 p4) by lia.
    repeat (apply emits_seq; [done|]). by apply Hees.
  - intros p v p' Hp. by apply read_entry_restored.
Qed.

(** The body of the file: what [read_par_body] went over is what
    [write_par_body] appends. *)
Lemma read_par_body_restored (data : list byte) (par : ParFile pyval) (pos' : nat) :
  read_par_body data 0%nat = OK (par, pos') →
  (pos' ≤ length data)%nat ∧
  trailing_data par = (if decide (pos' < length data)%nat
                       then Some (drop pos' data) else None) ∧
  (reserved_word data = 0 → canonical_markers data = true → kept_file par = true →
   emits (write_par_body par) (span data 0 pos')).
Proof.
  unfold read_par_body, canonical_markers, marker_positions, par_markers.
  intros (magic & p1 & Hmagic & Hk)%reader_bind_inv.
  destruct (decide (magic ≠ PAR_MAGIC)) as [|Hm]; [done|]. apply dec_stable in Hm.
  apply reader_bind_inv in Hk as (ver & p2 & Hver & Hk).
  apply reader_bind_inv in Hk as (cnt & p3 & Hcnt & Hk).
  apply reader_bind_inv in Hk as (pad & p4 & Hpad & Hk).
  apply reader_bind_inv in Hk as (ls & p5 & Hls & Hret).
  injection Hret as <- <-.
  unfold reader_bind at 1. rewrite Hmagic.
  unfold reader_bind at 1. rewrite Hver.
  unfold reader_bind at 1. rewrite Hcnt.
  unfold reader_bind at 1. rewrite Hpad.
  unfold read_bytes in Hmagic.
  destruct (decide (length data < 0 + 4)%nat) as [|Hlen4]; [done|].
  injection Hmagic as <- <-. rewrite drop_0 in Hm.
  pose proof (packed_read_span fmt_I _ _ _ _ Hver) as (Hp2 & _).
  pose proof (packed_read_span fmt_I _ _ _ _ Hcnt) as (Hp3 & _).
  pose proof (packed_read_span fmt_I _ _ _ _ Hpad) as (Hp4 & _ & Hpadv & _).
  change (calcsize fmt_I) with 4%nat in *. cbn [Nat.add] in Hp2. subst p2 p3 p4.
  change (4 + 4)%nat with 8%nat in *. change (8 + 4)%nat with 12%nat in *.
  change (12 + 4)%nat with 16%nat in *.
  assert (Hpad0 : pad = reserved_word data).
  { rewrite Hpadv. unfold reserved_word, span. done. }
  apply read_u32_restored in Hver as (_ & _ & _ & Hever).
  apply read_u32_restored in Hcnt as (_ & _ & Hrcnt & Hecnt).
  apply read_u32_restored in Hpad as (_ & H4 & _ & Hepad).
  apply (read_repeat_restored _ list_markers write_list
           (λ pl, forallb kept_entry (entries pl))) in Hls
    as (H45 & H5 & Hlen & mss & Htr & Hels); [| |lia].
  - split; [done|]. split; [done|].
    unfold reader_bind. rewrite Htr. cbn [reader_ret].
    intros Hres Hcanon Hkept. unfold write_par_body. cbn [version lists].
    assert (Hcount : Z.of_nat (length ls) = cnt).
    { rewrite Hlen. apply bool_decide_eq_true in Hrcnt.
      change (fmt_min fmt_I) with 0 in Hrcnt. lia. }
    rewrite Hcount. rewrite Hpad0, Hres in Hepad.
    rewrite <- (span_join data 0 4 p5) by lia.
    rewrite <- (span_join data 4 8 p5) by lia.
    rewrite <- (span_join data 8 12 p5) by lia.
    rewrite <- (span_join data 12 16 p5) by lia.
    apply emits_seq.
    { unfold span. rewrite Nat.sub_0_r, drop_0, Hm. apply emits_bytes. }
    repeat (apply emits_seq; [done|]). by apply Hels.
  - intros p v p' Hp. by apply read_list_restored.
Qed.

(** C1, as amended. For every buffer that [read_par] decodes, with the
    reserved word of the header 0, every presence marker the one the
    writer chooses (0, or 1 before a count that is not 0), no string byte
    of 0x80 or more, and no float32 a signalling NaN, [write_par] of the
    decoded model returns the buffer byte for byte, trailing bytes
    included. *)
Theorem canonical_round_trip (data : list byte) (par : ParFile pyval) :
  read_par data = OK par →
  reserved_word data = 0 →
  canonical_markers data = true →
  kept_file par = true →
  write_par par = OK data.
Proof.
  unfold read_par.
  destruct (read_par_body data 0%nat) as [[par' pos']|e] eqn:Hbody; [|done].
  intros [= ->] Hres Hcanon Hkept.
  apply read_par_body_restored in Hbody as (Hend & Htail & Hemits).
  unfold write_par. rewrite (Hemits Hres Hcanon Hkept []). cbn [app]. rewrite Htail.
  destruct (decide (pos' < length data)%nat) as [Hlt|Hge].
  - destruct (drop pos' data) as [|b t] eqn:Hdrop.
    { apply (f_equal length) in Hdrop. rewrite length_drop in Hdrop.
      cbn [length] in Hdrop. lia. }
    rewrite <- Hdrop. by rewrite span_all.
  - f_equal. rewrite <- (span_all data pos') at 2.
    rewrite drop_ge by lia. by rewrite app_nil_r.
Qed.

(** A file with a quiet NaN, an int32 array, an absent string array and a
    trailing byte. *)
Lemma canonical_round_trip_witness :
  (∃ par, read_par sample_file = OK par ∧ trailing_data par = Some [x07]) ∧
  reserved_word sample_file = 0 ∧
  marker_positions sample_file = [47%nat; 67%nat] ∧
  ∃ par, read_par sample_file = OK par ∧ write_par par = OK sample_file.
Proof.
  split; [by eexists|]. split; [reflexivity|]. split; [reflexivity|].
  destruct (read_par sample_file) as [par|e] eqn:Hread; [|by vm_compute in Hread].
  exists par. split; [done|].
  apply (canonical_round_trip sample_file par Hread); [reflexivity|reflexivity|].
  vm_compute in Hread. injection Hread as <-. reflexivity.
Defined.

(** The minimal file of the specification is a canonical encoding. *)
Lemma minimal_file_round_trip :
  read_par (minimal_bytes x00 x54) = OK minimal_par ∧
  write_par minimal_par = OK (minimal_bytes x00 x54).
Proof. split; reflexivity. Qed.

(** The reserved header word is read and dropped, and written back as 0. *)
Lemma reserved_word_not_preserved :
  read_par (minimal_bytes x01 x54) = OK minimal_par ∧
  write_par minimal_par = OK (minimal_bytes x00 x54) ∧
  minimal_bytes x00 x54 ≠ minimal_bytes x01 x54.
Proof. repeat split. discriminate. Qed.

(** C1 as stated fails, with the reserved word 0 as well: a string byte of
    0x80 or more decodes to U+FFFD and is written back as '?'. *)
Lemma non_ascii_byte_not_preserved :
  ∃ par,
    read_par (minimal_bytes x00 xe9) = OK par ∧
    write_par par = OK (minimal_bytes x00 x3f) ∧
    minimal_bytes x00 x3f ≠ minimal_bytes x00 xe9.
Proof. eexists. repeat split. discriminate. Qed.

(** ** The merge engine: one record at a time *)

Lemma guarded_lookup_nat {A : Type} (l : list A) (i : nat) :
  guarded_lookup l (Z.of_nat i) = l !! i.
Proof.
  unfold guarded_lookup. rewrite decide_True by lia. by rewrite Nat2Z.id.
Qed.

Lemma guarded_lookup_Some {A : Type} (l : list A) (i : Z) (x : A) :
  guarded_lookup l i = Some x ↔ 0 ≤ i ∧ l !! Z.to_nat i = Some x.
Proof.
  unfold guarded_lookup.
  destruct (decide (0 ≤ i)) as [Hi|Hi]; split; try done.
  - by intros [_ ?].
  - by intros [? _].
Qed.

Lemma py_getitem_nat {A : Type} (l : list A) (i : nat) (x : A) :
  l !! i = Some x → py_getitem l (Z.of_nat i) = OK x.
Proof.
  intros Hx. unfold py_getitem, py_index. rewrite decide_False by lia.
  by rewrite guarded_lookup_nat, Hx.
Qed.

Lemma py_setitem_nat {A : Type} (l : list A) (i : nat) (x : A) :
  (i < length l)%nat → py_setitem l (Z.of_nat i) x = OK (<[i := x]> l).
Proof.
  intros Hi. unfold py_setitem, py_index. rewrite decide_False by lia.
  rewrite guarded_lookup_nat, Nat2Z.id.
  destruct (lookup_lt_is_Some_2 l i Hi) as [y ->]. done.
Qed.

Lemma set_fields_id {V : Type} (e : ParEntry V) : set_fields e (fields e) = e.
Proof. by destruct e. Qed.

Lemma set_entries_id {V : Type} (pl : ParList V) : set_entries pl (entries pl) = pl.
Proof. by destruct pl. Qed.

Lemma set_lists_id {V : Type} (par : ParFile V) : set_lists par (lists par) = par.
Proof. by destruct par. Qed.

Section merge_record_facts.
Context {V Store : Type}.
Variable int_zero : V.
Variable copy_value : V → Store → V * Store.

(** The effect of a [changed] record whose coordinates resolve and whose
    field index names a field of the input entry. *)
Lemma merge_changed_effect (inp : ParFile V) (d : Diff) (st : MergeState)
    (sli sei ili iei fi : nat) (sl : ParList V) (se : ParEntry V)
    (il : ParList V) (ie : ParEntry V) (inp_f : ParField V) :
  src_li d = Z.of_nat sli → src_ei d = Z.of_nat sei →
  inp_li d = Z.of_nat ili → inp_ei d = Z.of_nat iei →
  field_idx d = Z.of_nat fi →
  lists (st_src st) !! sli = Some sl → entries sl !! sei = Some se →
  lists inp !! ili = Some il → entries il !! iei = Some ie →
  fields ie !! fi = Some inp_f →
  merge_changed int_zero copy_value inp d st
  = OK (mkMergeState
          (with_entry_fields (st_src st) sli sei sl se
             (pad_and_replace int_zero (fields se) fi
                (mkParField (dtype inp_f)
                            (copy_value (value inp_f) (st_heap st)).1)))
          (copy_value (value inp_f) (st_heap st)).2
          (S (changed_count st)) (added_count st)).
Proof.
  intros Hsli Hsei Hili Hiei Hfi Hsl Hse Hil Hie Hf.
  unfold merge_changed. rewrite Hsli, Hsei, Hili, Hiei, Hfi.
  rewrite guarded_lookup_nat, Hsl. rewrite guarded_lookup_nat, Hse.
  rewrite guarded_lookup_nat, Hil. rewrite guarded_lookup_nat, Hie.
  pose proof (lookup_lt_Some _ _ _ Hf) as Hlt.
  rewrite decide_True by lia.
  rewrite (py_getitem_nat _ _ _ Hf). cbn [res_bind].
  destruct (copy_value (value inp_f) (st_heap st)) as [v h] eqn:Hcopy.
  replace (Z.to_nat (Z.of_nat fi + 1 - Z.of_nat (length (fields se))))
    with (fi + 1 - length (fields se))%nat by lia.
  rewrite py_setitem_nat by (rewrite length_app, length_replicate; lia).
  cbn [res_bind]. rewrite !Nat2Z.id. reflexivity.
Qed.

(** A [changed] record whose field index is not a position of the input
    entry's field list is skipped. *)
Lemma merge_changed_no_input_field (inp : ParFile V) (d : Diff) (st : MergeState)
    (ili iei : nat) (il : ParList V) (ie : ParEntry V) :
  inp_li d = Z.of_nat ili → inp_ei d = Z.of_nat iei →
  lists inp !! ili = Some il → entries il !! iei = Some ie →
  Z.of_nat (length (fields ie)) ≤ field_idx d →
  merge_changed int_zero copy_value inp d st = OK st.
Proof.
  intros Hili Hiei Hil Hie Hfi. unfold merge_changed.
  rewrite Hili, Hiei.
  destruct (guarded_lookup (lists (st_src st)) (src_li d)) as [sl|]; [|done].
  destruct (guarded_lookup (entries sl) (src_ei d)) as [se|]; [|done].
  rewrite guarded_lookup_nat, Hil. rewrite guarded_lookup_nat, Hie.
  by rewrite decide_False by lia.
Qed.

(** A [source_only] record matches no branch of the loop body. *)
Lemma merge_source_only (inp : ParFile V) (d : Diff) (st : MergeState) :
  type d = source_only → merge_record int_zero copy_value inp d st = OK st.
Proof. intros Ht. unfold merge_record. by rewrite Ht. Qed.

Lemma res_for_app {A S : Type} (body : A → S → res S) (l1 l2 : list A) (s : S) :
  res_for body (l1 ++ l2) s
  = match res_for body l1 s with
    | OK s' => res_for body l2 s'
    | Raise e => Raise e
    end.
Proof.
  revert s. induction l1 as [|x l1 IH]; intros s; [done|].
  simpl. destruct (body x s); [apply IH | done].
Qed.
End merge_record_facts.

(** ** C7: the effect of a selected [changed] record *)

Lemma deepcopy_fresh (v : hval) (h : heap) :
  view_value (deepcopy_if_list v h).2 (deepcopy_if_list v h).1 = view_value h v ∧
  (∀ l, (deepcopy_if_list v h).1 = HRef l → h !! l = None) ∧
  (∀ l, is_Some (h !! l) → (deepcopy_if_list v h).2 !! l = h !! l).
Proof.
  destruct v as [a|l]; simpl.
  - done.
  - pose proof (is_fresh (dom h)) as Hfresh. apply not_elem_of_dom in Hfresh.
    split; [|split].
    + by rewrite lookup_insert_eq.
    + by intros l' [= <-].
    + intros l' [x Hl']. rewrite lookup_insert_ne; [done|].
      intros <-. by rewrite Hfresh in Hl'.
Qed.

Lemma pad_and_replace_lookup {V : Type} (zero : V) (fs : list (ParField V))
    (fi : nat) (new : ParField V) (i : nat) :
  pad_and_replace zero fs fi new !! i =
  if decide (i = fi) then Some new
  else if decide (i < length fs)%nat then fs !! i
  else if decide (i < fi)%nat then Some (mkParField 0 zero)
  else None.
Proof.
  unfold pad_and_replace. destruct (decide (i = fi)) as [->|Hne].
  - apply list_lookup_insert_eq. rewrite length_app, length_replicate. lia.
  - rewrite list_lookup_insert_ne by done.
    destruct (decide (i < length fs)%nat) as [Hlt|Hge].
    + by rewrite lookup_app_l.
    + rewrite lookup_app_r by lia.
      destruct (decide (i < fi)%nat) as [Hpad|Hout].
      * apply lookup_replicate_2. lia.
      * apply lookup_replicate_None. lia.
Qed.

(** C7, as amended. A selected [changed] record whose coordinates resolve
    to an entry of the source and an entry of the input, and whose field
    index is a position of the input entry's field list, is applied as
    follows: the source entry's field list is padded with [ParField(0, 0)]
    while it is not longer than the field index, then the field at that
    index becomes a new field with the input field's type tag and a copy
    of its value. A list payload is copied into a new list object: it has
    the same items, it is none of the input model's list objects, and no
    existing list object is changed, so no later change to a list object
    of the input shows in the source (the list objects of the input are
    taken to be in the store). Every other field of the entry,
    every other entry of the list and every other list of the source is
    left as it was, and the changed counter goes up by one. *)
Theorem changed_record_effect (inp : ParFile hval) (d : Diff)
    (st : MergeState (V := hval) (Store := heap))
    (sli sei ili iei fi : nat) (sl : ParList hval) (se : ParEntry hval)
    (il : ParList hval) (ie : ParEntry hval) (inp_f : ParField hval) :
  type d = changed →
  src_li d = Z.of_nat sli → src_ei d = Z.of_nat sei →
  inp_li d = Z.of_nat ili → inp_ei d = Z.of_nat iei →
  field_idx d = Z.of_nat fi →
  lists (st_src st) !! sli = Some sl → entries sl !! sei = Some se →
  lists inp !! ili = Some il → entries il !! iei = Some ie →
  fields ie !! fi = Some inp_f →
  Forall (λ l, is_Some (st_heap st !! l)) (file_refs inp) →
  ∃ (v' : hval) (h' : heap) (fs' : list (ParField hval)),
    merge_record hval_zero deepcopy_if_list inp d st
    = OK (mkMergeState (with_entry_fields (st_src st) sli sei sl se fs') h'
                       (S (changed_count st)) (added_count st)) ∧
    (* the field list: replaced at [fi], padded below it, kept elsewhere *)
    fs' !! fi = Some (mkParField (dtype inp_f) v') ∧
    (∀ i, (i < length (fields se))%nat → i ≠ fi → fs' !! i = fields se !! i) ∧
    (∀ i, (length (fields se) ≤ i < fi)%nat → fs' !! i = Some (mkParField 0 hval_zero)) ∧
    length fs' = (length (fields se) `max` (fi + 1))%nat ∧
    (* the value is a copy that shares no list object with the input *)
    view_value h' v' = view_value (st_heap st) (value inp_f) ∧
    (∀ l, v' = HRef l → (l ∉ file_refs inp) ∧ st_heap st !! l = None) ∧
    (∀ l, is_Some (st_heap st !! l) → h' !! l = st_heap st !! l) ∧
    (∀ h'', (∀ l, l ∉ file_refs inp → h'' !! l = h' !! l) →
            view_value h'' v' = view_value h' v') ∧
    (* the rest of the source model *)
    (∀ li, li ≠ sli →
       lists (with_entry_fields (st_src st) sli sei sl se fs') !! li
       = lists (st_src st) !! li) ∧
    (∃ sl', lists (with_entry_fields (st_src st) sli sei sl se fs') !! sli = Some sl' ∧
            unknown1 sl' = unknown1 sl ∧ unknown2 sl' = unknown2 sl ∧
            (∀ ei, ei ≠ sei → entries sl' !! ei = entries sl !! ei) ∧
            entries sl' !! sei = Some (set_fields se fs')) ∧
    version (with_entry_fields (st_src st) sli sei sl se fs') = version (st_src st) ∧
    trailing_data (with_entry_fields (st_src st) sli sei sl se fs')
    = trailing_data (st_src st).
Proof.
  intros Ht Hsli Hsei Hili Hiei Hfi Hsl Hse Hil Hie Hf Hclosed.
  destruct (deepcopy_fresh (value inp_f) (st_heap st)) as (Hview & Hnew & Hold).
  set (v' := (deepcopy_if_list (value inp_f) (st_heap st)).1) in *.
  set (h' := (deepcopy_if_list (value inp_f) (st_heap st)).2) in *.
  exists v', h', (pad_and_replace hval_zero (fields se) fi (mkParField (dtype inp_f) v')).
  split.
  { unfold merge_record. rewrite Ht.
    by apply (merge_changed_effect hval_zero deepcopy_if_list inp d st
                sli sei ili iei fi sl se il ie inp_f). }
  split. { rewrite pad_and_replace_lookup. by rewrite decide_True. }
  split. { intros i Hi Hne. rewrite pad_and_replace_lookup.
           rewrite decide_False by done. by rewrite decide_True. }
  split. { intros i Hi. rewrite pad_and_replace_lookup.
           rewrite decide_False by lia. rewrite decide_False by lia.
           by rewrite decide_True by lia. }
  split. { unfold pad_and_replace.
           rewrite length_insert, length_app, length_replicate. lia. }
  split; [exact Hview|].
  assert (Hfresh : ∀ l, v' = HRef l → (l ∉ file_refs inp) ∧ st_heap st !! l = None).
  { intros l Hl. split; [|by apply Hnew]. intros Hin.
    rewrite Forall_forall in Hclosed. destruct (Hclosed l Hin) as [x Hx].
    by rewrite (Hnew l Hl) in Hx. }
  split; [exact Hfresh|]. split; [exact Hold|].
  split. { intros h'' Hsame. destruct v' as [a|l] eqn:Hv'; [done|]. simpl.
           rewrite Hsame; [done|]. by apply Hfresh. }
  unfold with_entry_fields. cbn [lists set_lists version trailing_data].
  split. { intros li Hne. by rewrite list_lookup_insert_ne. }
  split; [|done].
  eexists. split.
  { apply list_lookup_insert_eq. by eapply lookup_lt_Some. }
  cbn [set_entries unknown1 unknown2 entries]. split; [done|]. split; [done|].
  split.
  - intros ei Hne. by rewrite list_lookup_insert_ne.
  - apply list_lookup_insert_eq. by eapply lookup_lt_Some.
Qed.

Lemma changed_record_effect_witness :
  let st := mkMergeState (sample_source_h []) sample_store 0 0 in
  ∃ (v' : hval) (h' : heap) (fs' : list (ParField hval)),
    merge_record hval_zero deepcopy_if_list sample_input_h (sample_changed 1) st
    = OK (mkMergeState
            (with_entry_fields (sample_source_h []) 0 0
               (mkParList 0 0 [mkParEntry [65] 0 0 0 []])
               (mkParEntry [65] 0 0 0 []) fs')
            h' 1 0) ∧
    fs' !! 1%nat = Some (mkParField TYPE_ARRAY_INT32 v') ∧
    fs' !! 0%nat = Some (mkParField 0 hval_zero) ∧
    view_value h' v' = VList [AInt 1; AInt 2] ∧
    (∀ l, v' = HRef l → (l ∉ file_refs sample_input_h) ∧ sample_store !! l = None).
Proof.
  intros st.
  destruct (changed_record_effect sample_input_h (sample_changed 1) st
              0 0 0 0 1
              (mkParList 0 0 [mkParEntry [65] 0 0 0 []])
              (mkParEntry [65] 0 0 0 [])
              (mkParList 0 0
                 [mkParEntry [65] 0 0 0
                    [mkParField TYPE_INT32 (HAtom (AInt 7));
                     mkParField TYPE_ARRAY_INT32 (HRef 0)]])
              (mkParEntry [65] 0 0 0
                 [mkParField TYPE_INT32 (HAtom (AInt 7));
                  mkParField TYPE_ARRAY_INT32 (HRef 0)])
              (mkParField TYPE_ARRAY_INT32 (HRef 0)))
    as (v' & h' & fs' & Hrun & Hfi & _ & Hpad & _ & Hview & Hfresh & _);
    try reflexivity.
  { repeat constructor. by eexists. }
  exists v', h', fs'. split; [exact Hrun|]. split; [exact Hfi|].
  split; [apply Hpad; simpl; lia|]. split; [exact Hview|]. exact Hfresh.
Defined.

(** C7 as stated fails: the record for a field the source has and the
    input lacks resolves to entries on both sides, and is skipped. *)
Lemma changed_record_without_input_field_skipped :
  let src := sample_source_h [mkParField TYPE_INT32 (HAtom (AInt 1));
                              mkParField TYPE_INT32 (HAtom (AInt 2));
                              mkParField TYPE_INT32 (HAtom (AInt 3))] in
  let st := mkMergeState src sample_store 0 0 in
  (∃ sl se il ie,
     lists src !! 0%nat = Some sl ∧ entries sl !! 0%nat = Some se ∧
     lists sample_input_h !! 0%nat = Some il ∧ entries il !! 0%nat = Some ie ∧
     fields ie !! 2%nat = None) ∧
  merge_record hval_zero deepcopy_if_list sample_input_h (sample_changed 2) st
  = OK st.
Proof. split; [by repeat eexists | reflexivity]. Qed.

(** ** C9: [source_only] records and the merge *)

Lemma select_all_skips_source_only (l : list Diff) (k idx : nat)
    (checks : gmap nat bool) :
  (∀ d, (k ≤ idx)%nat → l !! (idx - k)%nat = Some d → type d = source_only) →
  foldl (λ checks '(i, d),
           if decide (type d ≠ source_only) then <[i := true]> checks else checks)
        checks (imap (λ i, pair (k + i)%nat) l) !! idx
  = checks !! idx.
Proof.
  revert k checks. induction l as [|d l IH]; intros k checks Hso; [done|].
  rewrite imap_cons. cbn [foldl].
  rewrite (imap_ext _ (λ i, pair (S k + i)%nat))
    by (intros i x _; simpl; f_equal; lia).
  rewrite (IH (S k)).
  - rewrite Nat.add_0_r. case_decide as Hty; [|done].
    destruct (decide (k = idx)) as [->|Hne]; [|by rewrite lookup_insert_ne].
    exfalso. apply Hty, Hso; [lia|]. by rewrite Nat.sub_diag.
  - intros d' Hle Hd'. apply Hso; [lia|].
    replace (idx - k)%nat with (S (idx - S k)) by lia. done.
Qed.

Lemma filter_ext_elem {A : Type} (P Q : A → Prop) `{!∀ x, Decision (P x)}
    `{!∀ x, Decision (Q x)} (l : list A) :
  (∀ x, x ∈ l → (P x ↔ Q x)) → filter P l = filter Q l.
Proof.
  induction l as [|x l IH]; intros Hext; [done|].
  rewrite !filter_cons. rewrite IH by (intros y Hy; apply Hext; by right).
  pose proof (Hext x (list_elem_of_here x l)) as Hx.
  destruct (decide (P x)) as [HP|HP], (decide (Q x)) as [HQ|HQ]; try done;
    exfalso; tauto.
Qed.

(** Taking the check mark off one selected record takes that record out of
    the selection and leaves the others in their order. *)
Lemma selected_diffs_uncheck (cmp_diffs : list Diff) (cmp_checks : gmap nat bool)
    (idx : nat) (d : Diff) :
  cmp_diffs !! idx = Some d → cmp_checks !! idx = Some true →
  ∃ before after,
    selected_diffs cmp_diffs cmp_checks = before ++ (idx, d) :: after ∧
    selected_diffs cmp_diffs (<[idx := false]> cmp_checks) = before ++ after.
Proof.
  intros Hd Hc.
  pose proof (take_drop_middle cmp_diffs idx d Hd) as Hsplit.
  assert (Hlen : length (take idx cmp_diffs) = idx).
  { rewrite length_take. apply lookup_lt_Some in Hd. lia. }
  revert Hsplit Hlen. generalize (take idx cmp_diffs) (drop (S idx) cmp_diffs).
  intros l1 l2 Hsplit Hlen. subst cmp_diffs idx. clear Hd.
  unfold selected_diffs.
  rewrite !imap_app, !imap_cons, !filter_app, !filter_cons.
  rewrite Nat.add_0_r. cbn [fst].
  rewrite (decide_True (P := default false (cmp_checks !! length l1) = true))
    by (by rewrite Hc).
  rewrite (decide_False
             (P := default false (<[length l1 := false]> cmp_checks !! length l1) = true))
    by (by rewrite lookup_insert_eq).
  eexists _, _. split; [reflexivity|]. f_equal.
  - apply filter_ext_elem. intros p Hp.
    apply elem_of_lookup_imap in Hp as (i & x & -> & Hx). cbn [fst].
    apply lookup_lt_Some in Hx.
    rewrite lookup_insert_ne by lia. done.
  - apply filter_ext_elem. intros p Hp.
    apply elem_of_lookup_imap in Hp as (i & x & -> & Hx). cbn [fst compose].
    rewrite lookup_insert_ne by lia. done.
Qed.

(** C9, as amended. A [source_only] record is kept out of the selection
    where the selection is made and is not rejected by the merge: a click
    on its check box leaves the check marks as they are, and so does
    "select all" for its check mark. If it is selected all the same,
    [_cmp_merge] ends as it does for the same selection without the record
    (the same exception, or the same model, store and report), unless no
    other record is selected: then it asks for confirmation and, if
    confirmed, reports 0 fields updated and 0 entries added with the model
    as it was, where the selection without the record is answered with
    "No entries selected". *)
Theorem source_only_not_merged {V Store : Type} (int_zero : V)
    (copy_value : V → Store → V * Store) (d : Diff) :
  type d = source_only →
  (∀ cmp_diffs cmp_checks idx,
     cmp_diffs !! idx = Some d →
     _cmp_on_tree_click cmp_diffs cmp_checks idx = OK cmp_checks ∧
     _cmp_select_all cmp_diffs cmp_checks !! idx = cmp_checks !! idx) ∧
  (∀ (confirm : bool) (src inp : ParFile V) cmp_diffs cmp_checks idx (h : Store),
     cmp_diffs !! idx = Some d →
     cmp_checks !! idx = Some true →
     let without := <[idx := false]> cmp_checks in
     if decide (selected_diffs cmp_diffs without = [])
     then
       _cmp_merge int_zero copy_value confirm src inp cmp_diffs cmp_checks h
       = OK (src, h, if confirm then Some (0%nat, 0%nat) else None) ∧
       _cmp_merge int_zero copy_value confirm src inp cmp_diffs without h
       = OK (src, h, None)
     else
       _cmp_merge int_zero copy_value confirm src inp cmp_diffs cmp_checks h
       = _cmp_merge int_zero copy_value confirm src inp cmp_diffs without h).
Proof.
  intros Ht. split.
  - intros cmp_diffs cmp_checks idx Hd. split.
    + unfold _cmp_on_tree_click. rewrite Hd. by rewrite decide_True.
    + unfold _cmp_select_all.
      rewrite (imap_ext pair (λ i, pair (0 + i)%nat)) by done.
      apply select_all_skips_source_only.
      intros d' _. rewrite Nat.sub_0_r, Hd. by intros [= <-].
  - intros confirm src inp cmp_diffs cmp_checks idx h Hd Hc. cbv zeta.
    destruct (selected_diffs_uncheck cmp_diffs cmp_checks idx d Hd Hc)
      as (before & after & Hwith & Hwithout).
    unfold _cmp_merge. rewrite Hwith, Hwithout.
    assert (Hloop : ∀ st : MergeState,
              res_for (λ p, merge_record int_zero copy_value inp p.2)
                      (before ++ (idx, d) :: after) st
              = res_for (λ p, merge_record int_zero copy_value inp p.2)
                        (before ++ after) st).
    { intros st. rewrite !res_for_app.
      destruct (res_for _ before st) as [st'|e]; [|done].
      cbn [res_for snd]. by rewrite merge_source_only. }
    destruct (decide (before ++ after = [])) as [Hnil|Hsome].
    + apply app_eq_nil in Hnil as [-> ->]. cbn [app].
      destruct confirm; cbn [negb]; [|done].
      cbn [res_for snd]. rewrite merge_source_only by done. done.
    + destruct before as [|p before']; [destruct after as [|q after']; [done|]|].
      all: cbn [app] in Hloop |- *; destruct (negb confirm); [done|].
      all: by rewrite Hloop.
Qed.

(** The record alone, and the record behind an [input_only] record. *)
Lemma source_only_not_merged_witness :
  let src := one_list_par [entry_named [65] [int_field 1]] in
  let inp := one_list_par [entry_named [66] [int_field 3]] in
  let d := source_only_record 0 [65] 0 (entry_named [65] [int_field 1]) in
  let d1 := input_only_record 0 [66] 0 (entry_named [66] [int_field 3]) in
  _cmp_on_tree_click [d1; d] ∅ 1 = OK ∅ ∧
  _cmp_merge pyval_zero copy_pyval true src inp [d1; d] {[ 1%nat := true ]} tt
  = OK (src, tt, Some (0%nat, 0%nat)) ∧
  _cmp_merge pyval_zero copy_pyval true src inp [d1; d]
    (<[1%nat := false]> {[ 1%nat := true ]}) tt
  = OK (src, tt, None) ∧
  _cmp_merge pyval_zero copy_pyval true src inp [d1; d]
    {[ 0%nat := true; 1%nat := true ]} tt
  = _cmp_merge pyval_zero copy_pyval true src inp [d1; d]
      (<[1%nat := false]> {[ 0%nat := true; 1%nat := true ]}) tt.
Proof.
  intros src inp d d1.
  destruct (source_only_not_merged pyval_zero copy_pyval d eq_refl) as [Hgate Hmerge].
  split; [by apply (Hgate [d1; d] ∅ 1%nat)|].
  pose proof (Hmerge true src inp [d1; d] {[ 1%nat := true ]} 1%nat tt
                eq_refl eq_refl) as Halone.
  pose proof (Hmerge true src inp [d1; d] {[ 0%nat := true; 1%nat := true ]} 1%nat tt
                eq_refl eq_refl) as Hboth.
  cbv zeta in Halone, Hboth.
  rewrite decide_True in Halone by (by vm_compute).
  rewrite decide_False in Hboth by (by vm_compute).
  destruct Halone as [H1 H2]. by rewrite H1, H2, Hboth.
Defined.

(** C9 as stated fails: a selected [source_only] record is not rejected.
    The merge completes and reports "0 fields updated, 0 entries added". *)
Lemma selected_source_only_not_rejected :
  let src := one_list_par [entry_named [65] [int_field 1]] in
  let inp := one_list_par [] in
  ∃ d,
    _cmp_run_compare ∅ src inp None = OK [d] ∧ type d = source_only ∧
    _cmp_merge pyval_zero copy_pyval true src inp [d] {[ 0%nat := true ]} tt
    = OK (src, tt, Some (0%nat, 0%nat)).
Proof. eexists. repeat split. Qed.

(** ** The compare engine: where its records come from *)

Lemma enumerate_by_name_lookup (es : list (ParEntry pyval)) (k : nat)
    (m : gmap pystr (nat * ParEntry pyval)) (nm : pystr) :
  match enumerate_by_name k es m !! nm with
  | Some (i, e) =>
      (∃ j, i = (k + j)%nat ∧ last_named es nm j e) ∨
      (m !! nm = Some (i, e) ∧ unnamed es nm)
  | None => m !! nm = None ∧ unnamed es nm
  end.
Proof.
  revert k m. induction es as [|e0 es IH]; intros k m; simpl.
  - destruct (m !! nm) as [[i e]|] eqn:Hm.
    + right. split; [done|]. by intros j e' Hj.
    + split; [done|]. by intros j e' Hj.
  - specialize (IH (S k) (<[name e0 := (k, e0)]> m)).
    destruct (enumerate_by_name (S k) es (<[name e0 := (k, e0)]> m) !! nm)
      as [[i e]|].
    + destruct IH as [(j & -> & Hj & Hnm & Hlast)|[Hm Hun]].
      * left. exists (S j). split; [lia|]. split; [done|]. split; [done|].
        intros [|j'] e' Hj' He'; [lia|]. simpl in Hj'.
        specialize (Hlast j' e' Hj' He'). lia.
      * destruct (decide (name e0 = nm)) as [Heq|Hne].
        -- rewrite Heq, lookup_insert_eq in Hm. injection Hm as <- <-.
           left. exists 0%nat. split; [lia|]. split; [done|]. split; [done|].
           intros [|j'] e' Hj' He'; [lia|]. simpl in Hj'. by destruct (Hun j' e' Hj').
        -- rewrite lookup_insert_ne in Hm by done. right. split; [done|].
           intros [|j'] e' Hj'; simpl in Hj'; [by injection Hj' as <-|].
           by apply (Hun j' e').
    + destruct IH as [Hm Hun].
      destruct (decide (name e0 = nm)) as [Heq|Hne].
      * by rewrite Heq, lookup_insert_eq in Hm.
      * rewrite lookup_insert_ne in Hm by done. split; [done|].
        intros [|j'] e' Hj'; simpl in Hj'; [by injection Hj' as <-|].
        by apply (Hun j' e').
Qed.

(** The dict of a list's entries by name holds, for a name, the last entry
    of that name and its index. *)
Lemma by_name_lookup (es : list (ParEntry pyval)) (nm : pystr) :
  match enumerate_by_name 0 es ∅ !! nm with
  | Some (i, e) => last_named es nm i e
  | None => unnamed es nm
  end.
Proof.
  pose proof (enumerate_by_name_lookup es 0 ∅ nm) as H0.
  destruct (enumerate_by_name 0 es ∅ !! nm) as [[i e]|].
  - destruct H0 as [(j & -> & Hj)|[Hm _]]; [done | by rewrite lookup_empty in Hm].
  - by destruct H0.
Qed.

(** A loop that only appends records satisfying [Q] appends only such. *)
Lemma res_for_appends {A : Type} (Q : Diff → Prop)
    (body : A → list Diff → res (list Diff)) (l : list A) (acc out : list Diff) :
  (∀ x acc out, x ∈ l → body x acc = OK out →
                ∃ new, out = acc ++ new ∧ Forall Q new) →
  res_for body l acc = OK out →
  ∃ new, out = acc ++ new ∧ Forall Q new.
Proof.
  revert acc. induction l as [|x l IH]; intros acc Hbody; simpl.
  - intros [= <-]. exists []. by rewrite app_nil_r.
  - destruct (body x acc) as [mid|e] eqn:Hx; [|done]. intros Hrest.
    destruct (Hbody x acc mid) as (new1 & -> & HQ1); [by left | done |].
    destruct (IH (acc ++ new1)) as (new2 & -> & HQ2).
    + intros y acc' out' Hy. apply Hbody. by right.
    + done.
    + exists (new1 ++ new2). split; [by rewrite app_assoc | by apply Forall_app].
Qed.

Section compare_origin.
Variable field_labels : gmap Z (gmap Z string).
Variables src inp : ParFile pyval.
Variable orig : option (ParFile pyval).

Lemma res_bind_OK {A B : Type} (m : res A) (k : A → res B) (b : B) :
  res_bind m k = OK b → ∃ a, m = OK a ∧ k a = OK b.
Proof. destruct m as [a|e]; [by exists a | done]. Qed.

Lemma compare_field_origin (field_count li : nat) (sl il : ParList pyval)
    (nm : pystr) (sei : nat) (se : ParEntry pyval) (iei : nat) (ie : ParEntry pyval)
    (oe : option (ParEntry pyval)) (fi : nat) (acc out : list Diff) :
  lists src !! li = Some sl → lists inp !! li = Some il →
  last_named (entries sl) nm sei se → last_named (entries il) nm iei ie →
  compare_field field_labels field_count li nm sei se iei ie oe fi acc = OK out →
  ∃ new, out = acc ++ new ∧ Forall (record_origin src inp) new.
Proof.
  intros Hsl Hil Hse Hie. unfold compare_field.
  destruct (fields_identical (fields se !! fi) (fields ie !! fi)) eqn:Hid.
  - intros [= <-]. exists []. by rewrite app_nil_r.
  - intros (sv & Hsv & Hrest)%res_bind_OK.
    apply res_bind_OK in Hrest as (iv & Hiv & Hrest).
    apply res_bind_OK in Hrest as (ov & Hov & Hout).
    injection Hout as <-. eexists. split; [done|].
    apply Forall_singleton.
    by eapply (origin_changed src inp _ li sl il sei se iei ie fi).
Qed.

Lemma compare_name_origin (field_count li : nat) (sl il : ParList pyval)
    (orig_by_name : gmap pystr (nat * ParEntry pyval))
    (nm : pystr) (acc out : list Diff) :
  lists src !! li = Some sl → lists inp !! li = Some il →
  compare_name field_labels field_count li
    (enumerate_by_name 0 (entries sl) ∅) (enumerate_by_name 0 (entries il) ∅)
    orig_by_name nm acc = OK out →
  ∃ new, out = acc ++ new ∧ Forall (record_origin src inp) new.
Proof.
  intros Hsl Hil. unfold compare_name.
  pose proof (by_name_lookup (entries sl) nm) as Hs.
  pose proof (by_name_lookup (entries il) nm) as Hi.
  destruct (enumerate_by_name 0 (entries sl) ∅ !! nm) as [[sei se]|];
    destruct (enumerate_by_name 0 (entries il) ∅ !! nm) as [[iei ie]|];
    [| | |done].
  - apply res_for_appends. intros fi acc' out' _.
    by apply (compare_field_origin _ li sl il).
  - intros [= <-]. eexists. split; [done|]. apply Forall_singleton.
    by eapply (origin_source_only_name src inp _ li sl il sei se).
  - intros [= <-]. eexists. split; [done|]. apply Forall_singleton.
    by eapply (origin_input_only_name src inp _ li sl il iei ie).
Qed.

Lemma compare_list_origin (li : nat) (acc out : list Diff) :
  compare_list field_labels src inp orig li acc = OK out →
  ∃ new, out = acc ++ new ∧ Forall (record_origin src inp) new.
Proof.
  unfold compare_list.
  destruct (lists src !! li) as [sl|] eqn:Hsl;
    destruct (lists inp !! li) as [il|] eqn:Hil; [| | |done].
  - apply res_for_appends. intros nm acc' out' _.
    by apply (compare_name_origin _ li sl il).
  - intros [= <-]. eexists. split; [done|].
    apply Forall_forall. intros d (sei & se & -> & Hse)%elem_of_lookup_imap.
    by eapply (origin_source_only_list src inp _ li sl sei se).
  - intros [= <-]. eexists. split; [done|].
    apply Forall_forall. intros d (iei & ie & -> & Hie)%elem_of_lookup_imap.
    by eapply (origin_input_only_list src inp _ li il iei ie).
Qed.

(** Every record of a compare that completed has one of the five origins. *)
Lemma compare_records_origin (diffs : list Diff) :
  _cmp_run_compare field_labels src inp orig = OK diffs →
  Forall (record_origin src inp) diffs.
Proof.
  unfold _cmp_run_compare. intros Hrun.
  apply (res_for_appends (record_origin src inp)) in Hrun as (new & -> & Hnew).
  - done.
  - intros li acc out _. apply compare_list_origin.
Qed.
End compare_origin.

(** C10. Duplicate names: in a list both models have, name-keyed matching
    uses the last entry of a name on each side. For every record of a
    completed compare at such a list index, the entry coordinates it stores
    are those of the last entry bearing the record's name on that side, the
    fields compared and displayed by a [changed] record are fields of those
    two entries, and no record points at an entry that has a later entry of
    the same name: earlier duplicates get no record of their own. *)
Theorem duplicate_names_last_wins (field_labels : gmap Z (gmap Z string))
    (src inp : ParFile pyval) (orig : option (ParFile pyval))
    (diffs : list Diff) (d : Diff) (li : nat) (sl il : ParList pyval) :
  _cmp_run_compare field_labels src inp orig = OK diffs →
  d ∈ diffs → list_idx d = Z.of_nat li →
  lists src !! li = Some sl → lists inp !! li = Some il →
  match type d with
  | changed =>
      ∃ sei se iei ie fi,
        src_ei d = Z.of_nat sei ∧ inp_ei d = Z.of_nat iei ∧
        field_idx d = Z.of_nat fi ∧
        last_named (entries sl) (entry_name d) sei se ∧
        last_named (entries il) (entry_name d) iei ie ∧
        fields_identical (fields se !! fi) (fields ie !! fi) = false ∧
        _cmp_field_value_str (fields se !! fi) = OK (source_val d) ∧
        _cmp_field_value_str (fields ie !! fi) = OK (input_val d)
  | source_only =>
      ∃ sei se,
        src_ei d = Z.of_nat sei ∧ inp_ei d = -1 ∧
        last_named (entries sl) (entry_name d) sei se ∧
        unnamed (entries il) (entry_name d)
  | input_only =>
      ∃ iei ie,
        inp_ei d = Z.of_nat iei ∧ src_ei d = -1 ∧
        last_named (entries il) (entry_name d) iei ie ∧
        unnamed (entries sl) (entry_name d)
  end ∧
  (∀ j e j' e', entries sl !! j = Some e → entries sl !! j' = Some e' →
                name e' = name e → (j < j')%nat → src_ei d ≠ Z.of_nat j) ∧
  (∀ j e j' e', entries il !! j = Some e → entries il !! j' = Some e' →
                name e' = name e → (j < j')%nat → inp_ei d ≠ Z.of_nat j).
Proof.
  intros Hrun Hd Hli Hsl Hil.
  apply compare_records_origin in Hrun. rewrite Forall_forall in Hrun.
  assert (Hlater : ∀ es nm i e0 j e j' e',
            last_named es nm i e0 → es !! j = Some e → es !! j' = Some e' →
            name e' = name e → (j < j')%nat → Z.of_nat i ≠ Z.of_nat j).
  { intros es nm i e0 j e j' e' (Hi & Hnm & Hlast) Hj Hj' Hname Hlt Heq.
    apply Nat2Z.inj in Heq as ->. rewrite Hi in Hj. injection Hj as <-.
    specialize (Hlast j' e' Hj'). rewrite Hnm in Hname.
    specialize (Hlast Hname). lia. }
  destruct (Hrun d Hd)
    as [li' sl' il' sei se iei ie fi Ht Hl Hf Hs1 Hs2 Hi1 Hi2 Hsl' Hil' Hse Hie Hid Hsv Hiv
       |li' sl' il' sei se Ht Hl Hf Hs1 Hs2 Hi1 Hi2 Hsl' Hil' Hse Hun
       |li' sl' il' iei ie Ht Hl Hf Hs1 Hs2 Hi1 Hi2 Hsl' Hil' Hun Hie
       |li' sl' sei se Ht Hl Hf Hs1 Hs2 Hi1 Hi2 Hsl' Hil' Hse Hnm
       |li' il' iei ie Ht Hl Hf Hs1 Hs2 Hi1 Hi2 Hsl' Hil' Hie Hnm];
    rewrite Hl in Hli; apply Nat2Z.inj in Hli as ->;
    rewrite Hsl' in Hsl; rewrite Hil' in Hil; try done;
    injection Hsl as <-; injection Hil as <-; rewrite Ht.
  - split; [by exists sei, se, iei, ie, fi|]. rewrite Hs2, Hi2. split.
    + intros j e j' e'. by apply (Hlater _ _ _ _ _ _ _ _ Hse).
    + intros j e j' e'. by apply (Hlater _ _ _ _ _ _ _ _ Hie).
  - split; [by exists sei, se|]. rewrite Hs2, Hi2. split.
    + intros j e j' e'. by apply (Hlater _ _ _ _ _ _ _ _ Hse).
    + intros. lia.
  - split; [by exists iei, ie|]. rewrite Hs2, Hi2. split.
    + intros. lia.
    + intros j e j' e'. by apply (Hlater _ _ _ _ _ _ _ _ Hie).
Qed.

Lemma duplicate_names_last_wins_witness :
  _cmp_run_compare ∅ dup_source dup_input None = OK [dup_record] ∧
  ∃ sei se iei ie fi,
    src_ei dup_record = Z.of_nat sei ∧ inp_ei dup_record = Z.of_nat iei ∧
    field_idx dup_record = Z.of_nat fi ∧
    last_named [entry_named [65] [int_field 1]; entry_named [65] [int_field 2]]
               [65] sei se ∧
    last_named [entry_named [65] [int_field 9]; entry_named [65] [int_field 5]]
               [65] iei ie ∧
    fields_identical (fields se !! fi) (fields ie !! fi) = false ∧
    _cmp_field_value_str (fields se !! fi) = OK (StrOf (VAtom (AInt 2))) ∧
    _cmp_field_value_str (fields ie !! fi) = OK (StrOf (VAtom (AInt 5))).
Proof.
  split; [reflexivity|].
  destruct (duplicate_names_last_wins ∅ dup_source dup_input None [dup_record]
              dup_record 0
              (mkParList 0 0 [entry_named [65] [int_field 1];
                              entry_named [65] [int_field 2]])
              (mkParList 0 0 [entry_named [65] [int_field 9];
                              entry_named [65] [int_field 5]]))
    as [Hlast _]; try reflexivity.
  - apply list_elem_of_here.
  - exact Hlast.
Defined.

(** ** The compare engine and the baseline *)

Lemma res_for_lockstep {A : Type} (R : list Diff → list Diff → Prop)
    (body1 body2 : A → list Diff → res (list Diff)) (l : list A)
    (acc1 acc2 out1 out2 : list Diff) :
  (∀ x a1 a2 o1 o2, R a1 a2 → body1 x a1 = OK o1 → body2 x a2 = OK o2 → R o1 o2) →
  R acc1 acc2 →
  res_for body1 l acc1 = OK out1 → res_for body2 l acc2 = OK out2 →
  R out1 out2.
Proof.
  intros Hstep. revert acc1 acc2. induction l as [|x l IH]; intros acc1 acc2 HR; simpl.
  - by intros [= <-] [= <-].
  - destruct (body1 x acc1) as [m1|] eqn:H1; [|done].
    destruct (body2 x acc2) as [m2|] eqn:H2; [|done].
    apply IH. by eapply Hstep.
Qed.

Lemma same_but_original_refl (d : Diff) : same_but_original d d.
Proof. by repeat split. Qed.

(** When the compare completes under two baselines, the two record lists
    agree record by record on everything but [original_val]. *)
Lemma baseline_only_in_original_val (field_labels : gmap Z (gmap Z string))
    (src inp : ParFile pyval) (orig1 orig2 : option (ParFile pyval))
    (diffs1 diffs2 : list Diff) :
  _cmp_run_compare field_labels src inp orig1 = OK diffs1 →
  _cmp_run_compare field_labels src inp orig2 = OK diffs2 →
  Forall2 same_but_original diffs1 diffs2.
Proof.
  unfold _cmp_run_compare.
  apply (res_for_lockstep (Forall2 same_but_original)); [|constructor].
  intros li a1 a2 o1 o2 HR. unfold compare_list.
  destruct (lists src !! li) as [sl|]; destruct (lists inp !! li) as [il|];
    [| | |done].
  - apply (res_for_lockstep (Forall2 same_but_original)); [|done].
    clear a1 a2 o1 o2 HR. intros nm a1 a2 o1 o2 HR. unfold compare_name.
    destruct (enumerate_by_name 0 (entries sl) ∅ !! nm) as [[sei se]|];
      destruct (enumerate_by_name 0 (entries il) ∅ !! nm) as [[iei ie]|];
      [| | |done].
    + apply (res_for_lockstep (Forall2 same_but_original)); [|done].
      clear a1 a2 o1 o2 HR. intros fi a1 a2 o1 o2 HR. unfold compare_field.
      destruct (fields_identical (fields se !! fi) (fields ie !! fi)).
      * by intros [= <-] [= <-].
      * destruct (_cmp_field_value_str (fields se !! fi)) as [sv|]; [|done].
        destruct (_cmp_field_value_str (fields ie !! fi)) as [iv|]; [|done].
        cbn [res_bind].
        intros (ov1 & _ & [= <-])%res_bind_OK (ov2 & _ & [= <-])%res_bind_OK.
        apply Forall2_app; [done|]. by repeat constructor.
    + intros [= <-] [= <-]. apply Forall2_app; [done|].
      repeat constructor; apply same_but_original_refl.
    + intros [= <-] [= <-]. apply Forall2_app; [done|].
      repeat constructor; apply same_but_original_refl.
  - intros [= <-] [= <-]. apply Forall2_app; [done|].
    apply Forall_Forall2_diag, Forall_forall. intros d _.
    apply same_but_original_refl.
  - intros [= <-] [= <-]. apply Forall2_app; [done|].
    apply Forall_Forall2_diag, Forall_forall. intros d _.
    apply same_but_original_refl.
Qed.

(** C8, the failing input. With no baseline the compare of field 0 = 10
    against field 0 = 12 yields one [changed] record; with a baseline whose
    field 0 is the float32 [+inf] the same compare raises [OverflowError]
    from [int(v)] in [_cmp_field_value_str] while it formats the baseline
    value, and yields no record list. *)
Theorem baseline_infinity_aborts_compare :
  let src := one_list_par [entry_named [65] [int_field 10]] in
  let inp := one_list_par [entry_named [65] [int_field 12]] in
  (∃ d, _cmp_run_compare ∅ src inp None = OK [d] ∧ type d = changed ∧
        source_val d = StrOf (VAtom (AInt 10)) ∧
        input_val d = StrOf (VAtom (AInt 12))) ∧
  _cmp_run_compare ∅ src inp (Some inf_par) = Raise OverflowError.
Proof. split; [by eexists | reflexivity]. Qed.

(** ** The compare engine on one model *)

Lemma res_for_skip {A S : Type} (body : A → S → res S) (l : list A) (s : S) :
  (∀ x, x ∈ l → body x s = OK s) → res_for body l s = OK s.
Proof.
  induction l as [|x l IH]; intros Hbody; [done|]. simpl.
  rewrite Hbody by left. apply IH. intros y Hy. apply Hbody. by right.
Qed.

(** A model whose fields all equal themselves under [_cmp_fields_equal]
    has no difference with itself. *)
Lemma compare_self_no_records (field_labels : gmap Z (gmap Z string))
    (par : ParFile pyval) (orig : option (ParFile pyval)) :
  (∀ pl e f, pl ∈ lists par → e ∈ entries pl → f ∈ fields e →
             _cmp_fields_equal f f = true) →
  _cmp_run_compare field_labels par par orig = OK [].
Proof.
  intros Hself. unfold _cmp_run_compare. apply res_for_skip.
  intros li [_ Hli]%elem_of_seq. rewrite Nat.max_id in Hli. simpl in Hli.
  destruct (lookup_lt_is_Some_2 (lists par) li Hli) as [pl Hpl].
  unfold compare_list. rewrite Hpl. apply res_for_skip. intros nm Hin.
  rewrite merge_sort_Permutation in Hin.
  apply elem_of_elements, elem_of_union in Hin.
  assert (Hkey : is_Some (enumerate_by_name 0 (entries pl) ∅ !! nm)).
  { apply elem_of_dom. by destruct Hin. }
  unfold compare_name.
  pose proof (by_name_lookup (entries pl) nm) as Hnm.
  destruct Hkey as [[ei e] Hlook]. rewrite Hlook in Hnm |- *.
  apply res_for_skip. intros fi [_ Hfi]%elem_of_seq.
  rewrite Nat.max_id in Hfi. simpl in Hfi.
  destruct (lookup_lt_is_Some_2 (fields e) fi Hfi) as [f Hf].
  unfold compare_field. rewrite Hf. cbn [fields_identical].
  destruct Hnm as (He & _ & _). rewrite (Hself pl e f); [done|..].
  - by eapply list_elem_of_lookup_2.
  - by eapply list_elem_of_lookup_2.
  - by eapply list_elem_of_lookup_2.
Qed.

(** C5, the failing input. A float32 field holding [+inf] is not equal to
    itself under [_cmp_fields_equal] ([abs(inf - inf)] is NaN, and
    [NaN < 1e-7] is false), so the compare of such a model with itself
    does not skip the field; it goes on to format the values for a
    [changed] record, where [int(v)] raises [OverflowError]. *)
Theorem infinite_float_differs_from_itself :
  _cmp_fields_equal (float_field F32_INFINITY) (float_field F32_INFINITY) = false ∧
  _cmp_run_compare ∅ inf_par inf_par None = Raise OverflowError.
Proof. split; reflexivity. Qed.

(** ** Merging twice: the records one at a time *)

Lemma guarded_lookup_inv {A : Type} (l : list A) (i : Z) (x : A) :
  guarded_lookup l i = Some x → ∃ n, i = Z.of_nat n ∧ l !! n = Some x.
Proof.
  intros [Hi Hx]%guarded_lookup_Some. exists (Z.to_nat i). split; [lia | done].
Qed.

Lemma source_entry_inv (src : ParFile pyval) (d : Diff) (se : ParEntry pyval) :
  source_entry src d = Some se →
  ∃ sli sei sl, src_li d = Z.of_nat sli ∧ src_ei d = Z.of_nat sei ∧
                lists src !! sli = Some sl ∧ entries sl !! sei = Some se.
Proof.
  unfold source_entry.
  destruct (guarded_lookup (lists src) (src_li d)) as [sl|] eqn:Hsl; [|done].
  simpl. intros Hse.
  apply guarded_lookup_inv in Hsl as (sli & Hsli & Hsl).
  apply guarded_lookup_inv in Hse as (sei & Hsei & Hse).
  by exists sli, sei, sl.
Qed.

Lemma source_entry_nat (src : ParFile pyval) (d : Diff) (sli sei : nat)
    (sl : ParList pyval) :
  src_li d = Z.of_nat sli → src_ei d = Z.of_nat sei → lists src !! sli = Some sl →
  source_entry src d = entries sl !! sei.
Proof.
  intros Hsli Hsei Hsl. unfold source_entry.
  rewrite Hsli, Hsei, guarded_lookup_nat, Hsl. simpl.
  by rewrite guarded_lookup_nat.
Qed.

Lemma input_field_inv (inp : ParFile pyval) (d : Diff) (inp_f : ParField pyval) :
  input_field inp d = Some inp_f →
  ∃ ili iei fi il ie,
    inp_li d = Z.of_nat ili ∧ inp_ei d = Z.of_nat iei ∧ field_idx d = Z.of_nat fi ∧
    lists inp !! ili = Some il ∧ entries il !! iei = Some ie ∧
    fields ie !! fi = Some inp_f.
Proof.
  unfold input_field, input_entry.
  destruct (guarded_lookup (lists inp) (inp_li d)) as [il|] eqn:Hil; [|done]. simpl.
  destruct (guarded_lookup (entries il) (inp_ei d)) as [ie|] eqn:Hie; [|done]. simpl.
  intros Hf.
  apply guarded_lookup_inv in Hil as (ili & Hili & Hil).
  apply guarded_lookup_inv in Hie as (iei & Hiei & Hie).
  apply guarded_lookup_inv in Hf as (fi & Hfi & Hf).
  by exists ili, iei, fi, il, ie.
Qed.

Lemma field_copy_eta (f : ParField pyval) :
  mkParField (dtype f) (copy_pyval (value f) tt).1 = f.
Proof. by destruct f. Qed.

Lemma copy_fields_pure (fs : list (ParField pyval)) :
  copy_fields copy_pyval fs tt = (fs, tt).
Proof.
  induction fs as [|f fs IH]; [done|]. simpl. rewrite IH. by destruct f.
Qed.

Lemma pad_and_replace_id {V : Type} (zero : V) (fs : list (ParField V)) (fi : nat)
    (f : ParField V) :
  fs !! fi = Some f → pad_and_replace zero fs fi f = fs.
Proof.
  intros Hf. unfold pad_and_replace. pose proof (lookup_lt_Some _ _ _ Hf).
  replace (fi + 1 - length fs)%nat with 0%nat by lia.
  simpl. rewrite app_nil_r. by apply list_insert_id.
Qed.

Lemma with_entry_fields_id (src : ParFile pyval) (sli sei : nat)
    (sl : ParList pyval) (se : ParEntry pyval) :
  lists src !! sli = Some sl → entries sl !! sei = Some se →
  with_entry_fields src sli sei sl se (fields se) = src.
Proof.
  intros Hsl Hse. unfold with_entry_fields.
  rewrite set_fields_id, (list_insert_id _ _ _ Hse), set_entries_id.
  by rewrite (list_insert_id _ _ _ Hsl), set_lists_id.
Qed.

(** The entry a record points at in a model whose entry [(sli, sei)] got a
    new field list. *)
Lemma source_entry_with_entry_fields (src : ParFile pyval) (sli sei : nat)
    (sl : ParList pyval) (se : ParEntry pyval) (fs : list (ParField pyval))
    (d : Diff) :
  lists src !! sli = Some sl → entries sl !! sei = Some se →
  source_entry (with_entry_fields src sli sei sl se fs) d =
  if decide (src_li d = Z.of_nat sli ∧ src_ei d = Z.of_nat sei)
  then Some (set_fields se fs)
  else source_entry src d.
Proof.
  intros Hsl Hse. unfold source_entry, with_entry_fields. cbn [lists set_lists].
  pose proof (lookup_lt_Some _ _ _ Hsl) as Hlt1.
  pose proof (lookup_lt_Some _ _ _ Hse) as Hlt2.
  case_decide as Hd.
  - destruct Hd as [-> ->]. rewrite guarded_lookup_nat.
    rewrite list_lookup_insert_eq by done. simpl.
    rewrite guarded_lookup_nat. by rewrite list_lookup_insert_eq.
  - unfold guarded_lookup.
    destruct (decide (0 ≤ src_li d)) as [H1|]; [|done].
    destruct (decide (Z.to_nat (src_li d) = sli)) as [Heq|Hne].
    + rewrite Heq, list_lookup_insert_eq, Hsl by done. simpl.
      destruct (decide (0 ≤ src_ei d)) as [H2|]; [|done].
      rewrite list_lookup_insert_ne; [done|].
      intros Heq2. apply Hd. lia.
    + by rewrite list_lookup_insert_ne.
Qed.

Lemma grows_refl (src : ParFile pyval) : grows src src.
Proof. split; [done|]. intros li sl Hsl. exists sl. split; [done|]. eauto. Qed.

Lemma grows_trans (s1 s2 s3 : ParFile pyval) : grows s1 s2 → grows s2 s3 → grows s1 s3.
Proof.
  intros [Hl12 H12] [Hl23 H23]. split; [lia|]. intros li sl Hsl.
  destruct (H12 li sl Hsl) as (sl2 & Hsl2 & He2).
  destruct (H23 li sl2 Hsl2) as (sl3 & Hsl3 & He3).
  exists sl3. split; [done|]. intros ei se Hse.
  destruct (He2 ei se Hse) as (se2 & Hse2 & Hn2).
  destruct (He3 ei se2 Hse2) as (se3 & Hse3 & Hn3).
  exists se3. split; [done | congruence].
Qed.

Lemma grows_with_entry_fields (src : ParFile pyval) (sli sei : nat)
    (sl : ParList pyval) (se : ParEntry pyval) (fs : list (ParField pyval)) :
  lists src !! sli = Some sl → entries sl !! sei = Some se →
  grows src (with_entry_fields src sli sei sl se fs).
Proof.
  intros Hsl Hse. unfold with_entry_fields. split.
  { cbn [lists set_lists]. by rewrite length_insert. }
  intros li sl0 Hsl0. cbn [lists set_lists].
  pose proof (lookup_lt_Some _ _ _ Hsl) as Hlt1.
  pose proof (lookup_lt_Some _ _ _ Hse) as Hlt2.
  destruct (decide (li = sli)) as [->|Hne].
  - rewrite Hsl in Hsl0. injection Hsl0 as <-.
    eexists. split; [by apply list_lookup_insert_eq|].
    intros ei se0 Hse0. cbn [entries set_entries].
    destruct (decide (ei = sei)) as [->|Hne].
    + rewrite Hse in Hse0. injection Hse0 as <-.
      eexists. split; [by apply list_lookup_insert_eq | done].
    + exists se0. by rewrite list_lookup_insert_ne.
  - exists sl0. rewrite list_lookup_insert_ne by done. split; [done|]. eauto.
Qed.

Lemma grows_source_entry (src src' : ParFile pyval) (d : Diff) :
  grows src src' → is_Some (source_entry src d) → is_Some (source_entry src' d).
Proof.
  intros [_ Hg] [se (sli & sei & sl & Hsli & Hsei & Hsl & Hse)%source_entry_inv].
  destruct (Hg sli sl Hsl) as (sl' & Hsl' & He).
  destruct (He sei se Hse) as (se' & Hse' & _).
  exists se'. by rewrite (source_entry_nat src' d sli sei sl').
Qed.

Lemma grows_mergeable (src src' inp : ParFile pyval) (d : Diff) :
  grows src src' → mergeable src inp d → mergeable src' inp d.
Proof.
  intros Hg. unfold mergeable. destruct (type d); [|done..].
  intros [Hse Hfi]. split; [by eapply grows_source_entry | done].
Qed.

Lemma grows_applied_input_only (src src' inp : ParFile pyval) (d : Diff) :
  type d = input_only → grows src src' → applied inp d src → applied inp d src'.
Proof.
  intros Ht [_ Hg]. unfold applied. rewrite Ht.
  intros Happ il ie H1 H2 Hil Hie.
  destruct (Happ il ie H1 H2 Hil Hie) as (sl & e & Hsl & He & Hname).
  destruct (Hg _ sl Hsl) as (sl' & Hsl' & Hent).
  apply list_elem_of_lookup in He as [ei He].
  destruct (Hent ei e He) as (e' & He' & Hn').
  exists sl', e'. split; [done|]. split; [by eapply list_elem_of_lookup_2 | congruence].
Qed.

(** A [changed] record that brings an input field: what its merge does to
    the effects already present. *)
Lemma changed_step (src inp : ParFile pyval) (d : Diff) (c a : nat)
    (se : ParEntry pyval) (inp_f : ParField pyval) :
  type d = changed → source_entry src d = Some se →
  input_field inp d = Some inp_f →
  ∃ src',
    merge_record pyval_zero copy_pyval inp d (mkMergeState src tt c a)
    = OK (mkMergeState src' tt (S c) a) ∧
    grows src src' ∧ applied inp d src' ∧
    (∀ d0, agree inp d0 d → applied inp d0 src → applied inp d0 src').
Proof.
  intros Ht Hsrc Hinp.
  destruct (source_entry_inv _ _ _ Hsrc) as (sli & sei & sl & Hsli & Hsei & Hsl & Hse).
  destruct (input_field_inv _ _ _ Hinp)
    as (ili & iei & fi & il & ie & Hili & Hiei & Hfi & Hil & Hie & Hf).
  set (fs' := pad_and_replace pyval_zero (fields se) fi inp_f).
  exists (with_entry_fields src sli sei sl se fs').
  assert (Hfs' : fs' !! fi = Some inp_f).
  { unfold fs'. rewrite pad_and_replace_lookup. by rewrite decide_True. }
  split; [|split; [|split]].
  - unfold merge_record. rewrite Ht.
    rewrite (merge_changed_effect pyval_zero copy_pyval inp d _
               sli sei ili iei fi sl se il ie inp_f) by done.
    cbn [st_src st_heap changed_count added_count]. by rewrite field_copy_eta.
  - by apply grows_with_entry_fields.
  - unfold applied. rewrite Ht. intros f. rewrite Hinp. intros [= <-].
    exists (set_fields se fs'). split.
    + rewrite source_entry_with_entry_fields by done. by rewrite decide_True.
    + cbn [fields set_fields]. by rewrite Hfi, guarded_lookup_nat.
  - intros d0 Hagree Happ0. destruct (type d0) eqn:Ht0.
    + unfold applied in *. rewrite Ht0 in *. intros f0 Hf0.
      destruct (Happ0 f0 Hf0) as (se0 & Hse0 & Hfld0).
      rewrite source_entry_with_entry_fields by done.
      case_decide as Hsame; [|by exists se0].
      destruct Hsame as [Hc1 Hc2].
      rewrite (source_entry_nat src d0 sli sei sl) in Hse0 by done.
      rewrite Hse in Hse0. injection Hse0 as <-.
      exists (set_fields se fs'). split; [done|]. cbn [fields set_fields].
      apply guarded_lookup_inv in Hfld0 as (fi0 & Hfi0 & Hfld0).
      rewrite Hfi0, guarded_lookup_nat. unfold fs'. rewrite pad_and_replace_lookup.
      case_decide as Hfi_eq.
      * subst fi0. rewrite <- Hinp, <- Hf0. symmetry.
        apply Hagree; [done | done | congruence | congruence | congruence].
      * rewrite decide_True; [done|]. by eapply lookup_lt_Some.
    + apply (grows_applied_input_only src); [done | | done].
      by apply grows_with_entry_fields.
    + unfold applied. by rewrite Ht0.
Qed.

(** A [changed] record that brings no input field is skipped. *)
Lemma changed_step_skip (src inp : ParFile pyval) (d : Diff)
    (st : MergeState (V := pyval) (Store := unit)) :
  type d = changed → 0 ≤ field_idx d → input_field inp d = None →
  merge_record pyval_zero copy_pyval inp d st = OK st.
Proof.
  intros Ht Hfi. unfold merge_record, merge_changed, input_field, input_entry.
  rewrite Ht.
  destruct (guarded_lookup (lists (st_src st)) (src_li d)) as [sl|]; [|done].
  destruct (guarded_lookup (entries sl) (src_ei d)) as [se|]; [|done].
  destruct (guarded_lookup (lists inp) (inp_li d)) as [il|]; [|done]. simpl.
  destruct (guarded_lookup (entries il) (inp_ei d)) as [ie|]; [|done]. simpl.
  intros Hnone. case_decide as Hlt; [|done]. exfalso.
  unfold guarded_lookup in Hnone. rewrite decide_True in Hnone by done.
  apply lookup_ge_None in Hnone. lia.
Qed.

Lemma entry_copy_eta (e : ParEntry pyval) :
  mkParEntry (name e) (unknown_byte e) (unknown_u16a e) (unknown_u16b e) (fields e) = e.
Proof. by destruct e. Qed.

Lemma py_getitem_nonneg {A : Type} (l : list A) (i : Z) (x : A) :
  0 ≤ i → l !! Z.to_nat i = Some x → py_getitem l i = OK x.
Proof.
  intros Hi Hx. rewrite <- (Z2Nat.id i) by done. by apply py_getitem_nat.
Qed.

(** An [input_only] record: its merge keeps every entry of the source where
    it is, and afterwards the target list has an entry of the name. *)
Lemma input_only_step (src inp : ParFile pyval) (d : Diff) (c a : nat) :
  type d = input_only → mergeable src inp d →
  ∃ src' a',
    merge_record pyval_zero copy_pyval inp d (mkMergeState src tt c a)
    = OK (mkMergeState src' tt c a') ∧
    (length (lists src) ≤ length (lists src'))%nat ∧
    (∀ li sl, lists src !! li = Some sl →
       ∃ sl', lists src' !! li = Some sl' ∧
              ∀ ei se, entries sl !! ei = Some se → entries sl' !! ei = Some se) ∧
    applied inp d src'.
Proof.
  intros Ht Hm. unfold mergeable in Hm. rewrite Ht in Hm.
  unfold merge_record, merge_input_only, applied. rewrite Ht.
  cbn [st_src st_heap changed_count added_count].
  assert (Hkeep : ∀ li sl, lists src !! li = Some sl →
            ∃ sl', lists src !! li = Some sl' ∧
                   ∀ ei se, entries sl !! ei = Some se → entries sl' !! ei = Some se)
    by (intros li sl Hsl; by exists sl).
  destruct (decide (0 ≤ inp_li d ∧ 0 ≤ inp_ei d)) as [[H1 H2]|Hguard].
  2:{ replace (bool_decide (0 ≤ inp_li d) && bool_decide (0 ≤ inp_ei d)) with false.
      - exists src, a. repeat split; [done | done |]. intros il ie ? ?. tauto.
      - symmetry. apply andb_false_iff.
        destruct (decide (0 ≤ inp_li d));
          [right | left]; apply bool_decide_eq_false_2; tauto. }
  rewrite !bool_decide_eq_true_2 by done. cbn [andb].
  destruct (lists inp !! Z.to_nat (inp_li d)) as [il|] eqn:Hil.
  2:{ exists src, a. repeat split; [done | done |]. by intros il ie _ _ ?. }
  destruct (Hm il H1 H2 eq_refl) as [ie Hie].
  rewrite (py_getitem_nonneg _ _ _ H2 Hie). cbn [res_bind].
  rewrite copy_fields_pure, entry_copy_eta.
  set (n := Z.to_nat (inp_li d)) in *.
  replace (Z.to_nat (inp_li d + 1 - Z.of_nat (length (lists src))))
    with (n + 1 - length (lists src))%nat by lia.
  set (src_lists := lists src ++ replicate (n + 1 - length (lists src)) (mkParList 0 0 [])).
  assert (Hlen : (n < length src_lists)%nat).
  { unfold src_lists. rewrite length_app, length_replicate. lia. }
  destruct (lookup_lt_is_Some_2 src_lists n Hlen) as [target Htarget].
  fold n in Htarget.
  rewrite (py_getitem_nonneg _ _ _ H1 Htarget). cbn [res_bind].
  assert (Hold : ∀ li sl, lists src !! li = Some sl → src_lists !! li = Some sl).
  { intros li sl Hsl. unfold src_lists. by apply lookup_app_l_Some. }
  assert (Hlen' : (length (lists src) ≤ length src_lists)%nat).
  { unfold src_lists. rewrite length_app. lia. }
  destruct (existsb _ (entries target)) eqn:Hex.
  - exists (set_lists src src_lists), a. cbn [lists set_lists].
    split; [done|]. split; [done|]. split.
    + intros li sl Hsl. exists sl. split; [by apply Hold | done].
    + intros il' ie' _ _ [= <-] Hie'. rewrite Hie in Hie'. injection Hie' as <-.
      apply existsb_exists in Hex as (e & He & Hname%bool_decide_eq_true).
      exists target, e. split; [done|]. split; [by apply list_elem_of_In | done].
  - eexists (set_lists src _), (S a). cbn [lists set_lists].
    split; [done|]. split; [by rewrite length_insert|]. split.
    + intros li sl Hsl. apply Hold in Hsl.
      destruct (decide (li = n)) as [->|Hne].
      * rewrite Htarget in Hsl. injection Hsl as <-.
        eexists. split; [by apply list_lookup_insert_eq|].
        intros ei se Hse. cbn [entries set_entries]. by apply lookup_app_l_Some.
      * exists sl. by rewrite list_lookup_insert_ne.
    + intros il' ie' _ _ [= <-] Hie'. rewrite Hie in Hie'. injection Hie' as <-.
      eexists _, ie. split; [by apply list_lookup_insert_eq|].
      cbn [entries set_entries]. split; [|done].
      apply elem_of_app. right. by apply list_elem_of_singleton.
Qed.

Lemma kept_entries_grow (src src' : ParFile pyval) :
  (length (lists src) ≤ length (lists src'))%nat →
  (∀ li sl, lists src !! li = Some sl →
     ∃ sl', lists src' !! li = Some sl' ∧
            ∀ ei se, entries sl !! ei = Some se → entries sl' !! ei = Some se) →
  grows src src'.
Proof.
  intros Hlen Hkeep. split; [done|]. intros li sl Hsl.
  destruct (Hkeep li sl Hsl) as (sl' & Hsl' & He). exists sl'. split; [done|].
  intros ei se Hse. exists se. split; [by apply He | done].
Qed.

Lemma kept_entries_applied (src src' inp : ParFile pyval) (d0 : Diff) :
  (length (lists src) ≤ length (lists src'))%nat →
  (∀ li sl, lists src !! li = Some sl →
     ∃ sl', lists src' !! li = Some sl' ∧
            ∀ ei se, entries sl !! ei = Some se → entries sl' !! ei = Some se) →
  applied inp d0 src → applied inp d0 src'.
Proof.
  intros Hlen Hkeep Happ. destruct (type d0) eqn:Ht0.
  - unfold applied in *. rewrite Ht0 in *. intros f0 Hf0.
    destruct (Happ f0 Hf0) as (se0 & Hse0 & Hfld0). exists se0. split; [|done].
    destruct (source_entry_inv _ _ _ Hse0) as (sli & sei & sl & Hsli & Hsei & Hsl & Hse).
    destruct (Hkeep sli sl Hsl) as (sl' & Hsl' & He).
    rewrite (source_entry_nat src' d0 sli sei sl') by done. by apply He.
  - apply (grows_applied_input_only src); [done | | done].
    by apply kept_entries_grow.
  - unfold applied. by rewrite Ht0.
Qed.

(** One record of a selection: its merge succeeds, counts an effective
    [changed] record, grows the source, leaves the record's effect in it,
    and keeps the effect of every record that agrees with it. *)
Lemma merge_step_applies (src inp : ParFile pyval) (p : nat * Diff) (c a : nat) :
  mergeable src inp p.2 →
  ∃ src' a',
    merge_step inp p (mkMergeState src tt c a)
    = OK (mkMergeState src' tt
            (if effective inp p.2 then S c else c) a') ∧
    grows src src' ∧ applied inp p.2 src' ∧
    (∀ d0, agree inp d0 p.2 → applied inp d0 src → applied inp d0 src').
Proof.
  destruct p as [i d]. cbn [snd]. unfold merge_step, effective. cbn [snd].
  intros Hm. destruct (type d) eqn:Ht.
  - unfold mergeable in Hm. rewrite Ht in Hm. destruct Hm as [[se Hse] Hfi].
    rewrite bool_decide_eq_true_2 by done. cbn [andb].
    destruct (input_field inp d) as [inp_f|] eqn:Hinp.
    + rewrite bool_decide_eq_true_2 by done.
      destruct (changed_step src inp d c a se inp_f Ht Hse Hinp)
        as (src' & Hrun & Hg & Happ & Hpres).
      by exists src', a.
    + rewrite bool_decide_eq_false_2 by (by intros [? ?]).
      exists src, a. split; [by apply changed_step_skip|].
      split; [apply grows_refl|]. split; [|done].
      unfold applied. rewrite Ht. intros f. by rewrite Hinp.
  - rewrite bool_decide_eq_false_2 by done. cbn [andb].
    destruct (input_only_step src inp d c a Ht Hm)
      as (src' & a' & Hrun & Hlen & Hkeep & Happ).
    exists src', a'. split; [done|].
    split; [by apply kept_entries_grow|]. split; [done|].
    intros d0 _. by apply kept_entries_applied.
  - rewrite bool_decide_eq_false_2 by done. cbn [andb].
    exists src, a. split; [by apply merge_source_only|].
    split; [apply grows_refl|]. split; [|done].
    unfold applied. by rewrite Ht.
Qed.

(** A record whose effect is present changes nothing when merged again;
    an effective [changed] record is counted again. *)
Lemma merge_step_again (src inp : ParFile pyval) (p : nat * Diff) (c a : nat) :
  mergeable src inp p.2 → applied inp p.2 src →
  merge_step inp p (mkMergeState src tt c a)
  = OK (mkMergeState src tt (if effective inp p.2 then S c else c) a).
Proof.
  destruct p as [i d]. cbn [snd]. unfold merge_step, effective. cbn [snd].
  intros Hm Happ. destruct (type d) eqn:Ht.
  - unfold mergeable in Hm. unfold applied in Happ. rewrite Ht in Hm, Happ.
    destruct Hm as [_ Hfi]. rewrite bool_decide_eq_true_2 by done. cbn [andb].
    destruct (input_field inp d) as [inp_f|] eqn:Hinp.
    + rewrite bool_decide_eq_true_2 by done.
      destruct (Happ inp_f eq_refl) as (se & Hse & Hfld).
      destruct (source_entry_inv _ _ _ Hse)
        as (sli & sei & sl & Hsli & Hsei & Hsl & Hse').
      destruct (input_field_inv _ _ _ Hinp)
        as (ili & iei & fi & il & ie & Hili & Hiei & Hfi' & Hil & Hie & Hf).
      rewrite Hfi', guarded_lookup_nat in Hfld.
      unfold merge_record. rewrite Ht.
      rewrite (merge_changed_effect pyval_zero copy_pyval inp d _
                 sli sei ili iei fi sl se il ie inp_f) by done.
      cbn [st_src st_heap changed_count added_count].
      rewrite field_copy_eta, (pad_and_replace_id _ _ _ _ Hfld).
      by rewrite with_entry_fields_id.
    + rewrite bool_decide_eq_false_2 by (by intros [? ?]).
      by apply changed_step_skip.
  - rewrite bool_decide_eq_false_2 by done. cbn [andb].
    unfold mergeable in Hm. unfold applied in Happ. rewrite Ht in Hm, Happ.
    unfold merge_record, merge_input_only. rewrite Ht.
    cbn [st_src st_heap changed_count added_count].
    destruct (decide (0 ≤ inp_li d ∧ 0 ≤ inp_ei d)) as [[H1 H2]|Hguard].
    2:{ replace (bool_decide (0 ≤ inp_li d) && bool_decide (0 ≤ inp_ei d)) with false;
          [done|].
        symmetry. apply andb_false_iff.
        destruct (decide (0 ≤ inp_li d));
          [right | left]; apply bool_decide_eq_false_2; tauto. }
    rewrite !bool_decide_eq_true_2 by done. cbn [andb].
    destruct (lists inp !! Z.to_nat (inp_li d)) as [il|] eqn:Hil; [|done].
    destruct (Hm il H1 H2 eq_refl) as [ie Hie].
    rewrite (py_getitem_nonneg _ _ _ H2 Hie). cbn [res_bind].
    rewrite copy_fields_pure, entry_copy_eta.
    destruct (Happ il ie H1 H2 eq_refl Hie) as (sl & e & Hsl & He & Hname).
    pose proof (lookup_lt_Some _ _ _ Hsl) as Hlt.
    replace (Z.to_nat (inp_li d + 1 - Z.of_nat (length (lists src)))) with 0%nat by lia.
    cbn [replicate]. rewrite app_nil_r.
    rewrite (py_getitem_nonneg _ _ _ H1 Hsl). cbn [res_bind].
    replace (existsb _ (entries sl)) with true; [by rewrite set_lists_id|].
    symmetry. apply existsb_exists. exists e.
    split; [by apply list_elem_of_In | by apply bool_decide_eq_true].
  - rewrite bool_decide_eq_false_2 by done. by apply merge_source_only.
Qed.

(** ** Merging twice: a whole selection *)

Lemma count_effective_cons (inp : ParFile pyval) (p : nat * Diff)
    (ds : list (nat * Diff)) (c : nat) :
  ((if effective inp p.2 then S c else c) + count_effective inp ds)%nat
  = (c + count_effective inp (p :: ds))%nat.
Proof.
  unfold count_effective. rewrite filter_cons.
  case_decide as He.
  - rewrite He. simpl. lia.
  - destruct (effective inp p.2); [done|]. lia.
Qed.

Lemma merge_selection_applies (inp : ParFile pyval) (ds : list (nat * Diff))
    (src : ParFile pyval) (c a : nat) :
  Forall (λ p, mergeable src inp p.2) ds →
  (∀ p q, p ∈ ds → q ∈ ds → agree inp p.2 q.2) →
  ∃ src1 a1,
    res_for (merge_step inp) ds (mkMergeState src tt c a)
    = OK (mkMergeState src1 tt (c + count_effective inp ds) a1) ∧
    grows src src1 ∧
    Forall (λ p, applied inp p.2 src1) ds ∧
    (∀ d0, (∀ q, q ∈ ds → agree inp d0 q.2) →
           applied inp d0 src → applied inp d0 src1).
Proof.
  revert src c a. induction ds as [|p ds IH]; intros src c a Hm Hagree.
  - exists src, a. cbn [res_for]. unfold count_effective. simpl.
    rewrite Nat.add_0_r. split; [done|]. split; [apply grows_refl|]. by split.
  - apply Forall_cons in Hm as [Hp Hds].
    destruct (merge_step_applies src inp p c a Hp)
      as (src' & a' & Hrun & Hg & Happ & Hpres).
    destruct (IH src' (if effective inp p.2 then S c else c) a') as
      (src1 & a1 & Hrest & Hg1 & Hall & Hpres1).
    { eapply Forall_impl; [exact Hds|]. intros q. by apply grows_mergeable. }
    { intros q1 q2 H1 H2. apply Hagree; by right. }
    exists src1, a1. cbn [res_for]. rewrite Hrun, Hrest.
    rewrite count_effective_cons. split; [done|].
    split; [by eapply grows_trans|]. split.
    + apply Forall_cons. split; [|done]. apply Hpres1; [|done].
      intros q Hq. apply Hagree; [by left | by right].
    + intros d0 Hd0 Happ0. apply Hpres1.
      * intros q Hq. apply Hd0. by right.
      * apply Hpres; [|done]. apply Hd0. by left.
Qed.

Lemma merge_selection_again (inp : ParFile pyval) (ds : list (nat * Diff))
    (src1 : ParFile pyval) (c a : nat) :
  Forall (λ p, mergeable src1 inp p.2 ∧ applied inp p.2 src1) ds →
  res_for (merge_step inp) ds (mkMergeState src1 tt c a)
  = OK (mkMergeState src1 tt (c + count_effective inp ds) a).
Proof.
  revert c. induction ds as [|p ds IH]; intros c Hall.
  - cbn [res_for]. unfold count_effective. simpl. by rewrite Nat.add_0_r.
  - apply Forall_cons in Hall as [[Hm Happ] Hds]. cbn [res_for].
    rewrite (merge_step_again src1 inp p c a Hm Happ), (IH _ Hds).
    by rewrite count_effective_cons.
Qed.

(** ** Merging twice: the records of a compare *)

Lemma last_named_unique (es : list (ParEntry pyval)) (nm : pystr)
    (i i' : nat) (e e' : ParEntry pyval) :
  last_named es nm i e → last_named es nm i' e' → i = i' ∧ e = e'.
Proof.
  intros (Hi & Hn & Hlast) (Hi' & Hn' & Hlast').
  specialize (Hlast i' e' Hi' Hn'). specialize (Hlast' i e Hi Hn).
  assert (i = i') as -> by lia. split; [done | congruence].
Qed.

Lemma input_field_nat (inp : ParFile pyval) (d : Diff) (ili iei fi : nat)
    (il : ParList pyval) (ie : ParEntry pyval) :
  inp_li d = Z.of_nat ili → inp_ei d = Z.of_nat iei → field_idx d = Z.of_nat fi →
  lists inp !! ili = Some il → entries il !! iei = Some ie →
  input_field inp d = fields ie !! fi.
Proof.
  intros Hili Hiei Hfi Hil Hie. unfold input_field, input_entry.
  rewrite Hili, Hiei, Hfi, guarded_lookup_nat, Hil. simpl.
  rewrite guarded_lookup_nat, Hie. simpl. by rewrite guarded_lookup_nat.
Qed.

Lemma origin_mergeable (src inp : ParFile pyval) (d : Diff) :
  record_origin src inp d → mergeable src inp d.
Proof.
  intros [li sl il sei se iei ie fi Ht Hl Hf Hs1 Hs2 Hi1 Hi2 Hsl Hil Hse Hie Hid Hsv Hiv
         |li sl il sei se Ht Hl Hf Hs1 Hs2 Hi1 Hi2 Hsl Hil Hse Hun
         |li sl il iei ie Ht Hl Hf Hs1 Hs2 Hi1 Hi2 Hsl Hil Hun Hie
         |li sl sei se Ht Hl Hf Hs1 Hs2 Hi1 Hi2 Hsl Hil Hse Hnm
         |li il iei ie Ht Hl Hf Hs1 Hs2 Hi1 Hi2 Hsl Hil Hie Hnm];
    unfold mergeable; rewrite Ht; try done.
  - split; [|lia]. destruct Hse as (Hse & _).
    exists se. by rewrite (source_entry_nat src d li sei sl).
  - intros il0 _ _. rewrite Hi1, Hi2, !Nat2Z.id, Hil. intros [= <-].
    destruct Hie as (Hie & _). by exists ie.
  - intros il0 _ _. rewrite Hi1, Hi2, !Nat2Z.id, Hil. intros [= <-]. by exists ie.
Qed.

Lemma origin_agree (src inp : ParFile pyval) (d1 d2 : Diff) :
  record_origin src inp d1 → record_origin src inp d2 → agree inp d1 d2.
Proof.
  intros [li sl il sei se iei ie fi Ht Hl Hf Hs1 Hs2 Hi1 Hi2 Hsl Hil Hse Hie Hid Hsv Hiv
         | | | |]; [|unfold agree; congruence..].
  intros [li' sl' il' sei' se' iei' ie' fi' Ht' Hl' Hf' Hs1' Hs2' Hi1' Hi2' Hsl' Hil'
            Hse' Hie' Hid' Hsv' Hiv'
         | | | |]; [|unfold agree; congruence..].
  intros _ _ Hli Hei Hfi.
  assert (li' = li) as -> by (apply Nat2Z.inj; congruence).
  assert (sei' = sei) as -> by (apply Nat2Z.inj; congruence).
  assert (fi' = fi) as -> by (apply Nat2Z.inj; congruence).
  rewrite Hsl in Hsl'. injection Hsl' as <-.
  rewrite Hil in Hil'. injection Hil' as <-.
  assert (entry_name d2 = entry_name d1) as Hname.
  { destruct Hse as (Hse1 & Hn1 & _), Hse' as (Hse2 & Hn2 & _). congruence. }
  rewrite Hname in Hie'.
  destruct (last_named_unique _ _ _ _ _ _ Hie Hie') as [<- <-].
  destruct Hie as (Hie & _).
  rewrite (input_field_nat inp d1 li iei fi il ie) by done.
  by rewrite (input_field_nat inp d2 li iei fi il ie).
Qed.

Lemma selected_diffs_elem (cmp_diffs : list Diff) (cmp_checks : gmap nat bool)
    (p : nat * Diff) :
  p ∈ selected_diffs cmp_diffs cmp_checks → p.2 ∈ cmp_diffs.
Proof.
  unfold selected_diffs. intros [_ Hp]%list_elem_of_filter.
  apply elem_of_lookup_imap in Hp as (i & d & -> & Hd).
  by eapply list_elem_of_lookup_2.
Qed.

(** C6, as amended. Merge idempotence, for the model. For every source and
    input model and every selection among the records of their compare,
    the merge succeeds, and merging the same selection into the merged
    model succeeds and leaves that model as it is: nothing is appended a
    second time (an [input_only] record finds the name in the target
    list). The second report counts no entry as added, but it counts again
    every field the first one counted: the counters start at 0 in each
    call, and the fields are overwritten again with equal values. *)
Theorem merge_twice_same_model (field_labels : gmap Z (gmap Z string))
    (src inp : ParFile pyval) (orig : option (ParFile pyval))
    (cmp_diffs : list Diff) (cmp_checks : gmap nat bool) :
  _cmp_run_compare field_labels src inp orig = OK cmp_diffs →
  ∃ src1 report1 report2,
    _cmp_merge pyval_zero copy_pyval true src inp cmp_diffs cmp_checks tt
    = OK (src1, tt, report1) ∧
    _cmp_merge pyval_zero copy_pyval true src1 inp cmp_diffs cmp_checks tt
    = OK (src1, tt, report2) ∧
    match report1, report2 with
    | Some (changed1, added1), Some (changed2, added2) =>
        changed2 = changed1 ∧ added2 = 0%nat
    | None, None => src1 = src
    | _, _ => False
    end.
Proof.
  intros Hrun. apply compare_records_origin in Hrun.
  rewrite Forall_forall in Hrun. unfold _cmp_merge.
  pose proof (selected_diffs_elem cmp_diffs cmp_checks) as Hsel.
  destruct (selected_diffs cmp_diffs cmp_checks) as [|p0 sel] eqn:Hselected.
  { by exists src, None, None. }
  cbn [negb].
  change (λ p : nat * Diff, merge_record pyval_zero copy_pyval inp p.2)
    with (merge_step inp).
  destruct (merge_selection_applies inp (p0 :: sel) src 0 0)
    as (src1 & a1 & Hfirst & Hg & Happ & _).
  { apply Forall_forall. intros p Hp. by apply origin_mergeable, Hrun, Hsel. }
  { intros p q Hp Hq. apply (origin_agree src); by apply Hrun, Hsel. }
  exists src1, (Some (count_effective inp (p0 :: sel), a1)),
         (Some (count_effective inp (p0 :: sel), 0%nat)).
  rewrite Hfirst. cbn [res_bind st_src st_heap changed_count added_count].
  split; [done|]. split; [|done].
  rewrite (merge_selection_again inp (p0 :: sel) src1 0 0); [done|].
  apply Forall_forall. intros p Hp. split.
  - apply (grows_mergeable src); [done|]. by apply origin_mergeable, Hrun, Hsel.
  - rewrite Forall_forall in Happ. by apply Happ.
Qed.

Lemma merge_twice_same_model_witness :
  (∃ d1 d2, _cmp_run_compare ∅ orc_source orc_input None = OK [d1; d2]) ∧
  ∃ src1 report1 report2,
    _cmp_merge pyval_zero copy_pyval true orc_source orc_input
      (match _cmp_run_compare ∅ orc_source orc_input None with
       | OK ds => ds | Raise _ => [] end)
      {[ 0%nat := true; 1%nat := true ]} tt
    = OK (src1, tt, report1) ∧
    _cmp_merge pyval_zero copy_pyval true src1 orc_input
      (match _cmp_run_compare ∅ orc_source orc_input None with
       | OK ds => ds | Raise _ => [] end)
      {[ 0%nat := true; 1%nat := true ]} tt
    = OK (src1, tt, report2) ∧
    match report1, report2 with
    | Some (changed1, added1), Some (changed2, added2) =>
        changed2 = changed1 ∧ added2 = 0%nat
    | None, None => src1 = orc_source
    | _, _ => False
    end.
Proof.
  split; [by eexists _, _|].
  apply (merge_twice_same_model ∅ orc_source orc_input None). reflexivity.
Defined.

(** C6 as stated fails for the reported counts: the second application
    changes nothing in the model and still reports one field updated. *)
Lemma second_merge_reports_again :
  ∃ cmp_diffs src1,
    _cmp_run_compare ∅ orc_source orc_input None = OK cmp_diffs ∧
    _cmp_merge pyval_zero copy_pyval true orc_source orc_input cmp_diffs
      {[ 0%nat := true; 1%nat := true ]} tt
    = OK (src1, tt, Some (1%nat, 1%nat)) ∧
    _cmp_merge pyval_zero copy_pyval true src1 orc_input cmp_diffs
      {[ 0%nat := true; 1%nat := true ]} tt
    = OK (src1, tt, Some (1%nat, 0%nat)).
Proof. eexists _, _. repeat split. Qed.

(** The records have to be those of the compare of the two models. With a
    [changed] record that points at an entry the source does not have yet,
    the first merge skips it and appends "B"; the second merge finds "B"
    at that place and overwrites its field: the model changes again. *)
Lemma stale_records_merged_twice :
  let cmp_diffs :=
    [mkDiff changed 0 [66] 0 EmptyString Dash Dash Dash 0 0 0 1;
     input_only_record 0 [66] 1 (entry_named [66] [int_field 1])] in
  let cmp_checks : gmap nat bool := {[ 0%nat := true; 1%nat := true ]} in
  ∃ src1 src2,
    _cmp_merge pyval_zero copy_pyval true orc_source orc_input cmp_diffs cmp_checks tt
    = OK (src1, tt, Some (0%nat, 1%nat)) ∧
    _cmp_merge pyval_zero copy_pyval true src1 orc_input cmp_diffs cmp_checks tt
    = OK (src2, tt, Some (1%nat, 0%nat)) ∧
    src2 ≠ src1.
Proof. eexists _, _. repeat split. discriminate. Qed.

(** ** The merge over the store denotes the merge over immutable values *)

Lemma heap_kept_refl (h : heap) : heap_kept h h.
Proof. by intros l _. Qed.

Lemma heap_kept_trans (h1 h2 h3 : heap) :
  heap_kept h1 h2 → heap_kept h2 h3 → heap_kept h1 h3.
Proof.
  intros H12 H23 l Hl. rewrite <- (H12 l Hl). apply H23. by rewrite (H12 l Hl).
Qed.

Lemma view_value_kept (h h' : heap) (v : hval) :
  heap_kept h h' → closed_value h v → view_value h' v = view_value h v.
Proof. intros Hk. destruct v as [a|l]; simpl; [done|]. intros Hl. by rewrite Hk. Qed.

Lemma closed_value_kept (h h' : heap) (v : hval) :
  heap_kept h h' → closed_value h v → closed_value h' v.
Proof. intros Hk. destruct v as [a|l]; simpl; [done|]. intros Hl. by rewrite Hk. Qed.

Lemma view_fields_kept (h h' : heap) (fs : list (ParField hval)) :
  heap_kept h h' → closed_fields h fs →
  view_field h' <$> fs = view_field h <$> fs ∧ closed_fields h' fs.
Proof.
  intros Hk Hc. split.
  - apply Forall_fmap_ext_1. eapply Forall_impl; [exact Hc|].
    intros f Hf. unfold view_field. by rewrite (view_value_kept h h').
  - eapply Forall_impl; [exact Hc|]. intros f. by apply closed_value_kept.
Qed.

Lemma view_entry_kept (h h' : heap) (e : ParEntry hval) :
  heap_kept h h' → closed_fields h (fields e) → view_entry h' e = view_entry h e.
Proof.
  intros Hk Hc. unfold view_entry. by rewrite (proj1 (view_fields_kept h h' _ Hk Hc)).
Qed.

Lemma view_list_kept (h h' : heap) (pl : ParList hval) :
  heap_kept h h' → Forall (λ e, closed_fields h (fields e)) (entries pl) →
  view_list h' pl = view_list h pl.
Proof.
  intros Hk Hc. unfold view_list. f_equal.
  apply Forall_fmap_ext_1. eapply Forall_impl; [exact Hc|].
  intros e. by apply view_entry_kept.
Qed.

Lemma view_lists_kept (h h' : heap) (ls : list (ParList hval)) :
  heap_kept h h' →
  Forall (λ pl, Forall (λ e, closed_fields h (fields e)) (entries pl)) ls →
  view_list h' <$> ls = view_list h <$> ls.
Proof.
  intros Hk Hc. apply Forall_fmap_ext_1. eapply Forall_impl; [exact Hc|].
  intros pl. by apply view_list_kept.
Qed.

Lemma view_file_kept (h h' : heap) (par : ParFile hval) :
  heap_kept h h' → closed_file h par → view_file h' par = view_file h par.
Proof.
  intros Hk Hc. unfold view_file. by rewrite (view_lists_kept h h').
Qed.

Lemma closed_file_kept (h h' : heap) (par : ParFile hval) :
  heap_kept h h' → closed_file h par → closed_file h' par.
Proof.
  intros Hk Hc. unfold closed_file in *.
  eapply Forall_impl; [exact Hc|]. intros pl Hpl.
  eapply Forall_impl; [exact Hpl|]. intros e He.
  by apply (view_fields_kept h h').
Qed.

Lemma deepcopy_view (v : hval) (h : heap) :
  closed_value h v →
  heap_kept h (deepcopy_if_list v h).2 ∧
  closed_value (deepcopy_if_list v h).2 (deepcopy_if_list v h).1 ∧
  view_value (deepcopy_if_list v h).2 (deepcopy_if_list v h).1 = view_value h v.
Proof.
  intros Hc. destruct (deepcopy_fresh v h) as (Hview & Hnew & Hold).
  split; [exact Hold|]. split; [|exact Hview].
  destruct v as [a|l]; simpl; [done|]. by rewrite lookup_insert_eq.
Qed.

Lemma copy_fields_view (fs : list (ParField hval)) (h : heap) :
  closed_fields h fs →
  heap_kept h (copy_fields deepcopy_if_list fs h).2 ∧
  closed_fields (copy_fields deepcopy_if_list fs h).2
                (copy_fields deepcopy_if_list fs h).1 ∧
  view_field (copy_fields deepcopy_if_list fs h).2
    <$> (copy_fields deepcopy_if_list fs h).1
  = view_field h <$> fs.
Proof.
  revert h. induction fs as [|f fs IH]; intros h Hc.
  - simpl. split; [apply heap_kept_refl|]. by split.
  - apply Forall_cons in Hc as [Hf Hfs]. cbn [copy_fields].
    destruct (deepcopy_view (value f) h Hf) as (Hk1 & Hc1 & Hv1).
    destruct (deepcopy_if_list (value f) h) as [v1 h1]. cbn [fst snd] in *.
    destruct (IH h1) as (Hk2 & Hc2 & Hv2).
    { by apply (view_fields_kept h h1). }
    destruct (copy_fields deepcopy_if_list fs h1) as [fs2 h2]. cbn [fst snd] in *.
    split; [by eapply heap_kept_trans|]. split.
    + apply Forall_cons. split; [|done]. cbn [value]. by eapply closed_value_kept.
    + rewrite !fmap_cons. f_equal.
      * unfold view_field. cbn [dtype value].
        by rewrite (view_value_kept h1 h2), Hv1.
      * rewrite Hv2. by apply (view_fields_kept h h1).
Qed.

Lemma guarded_lookup_fmap {A B : Type} (f : A → B) (l : list A) (i : Z) :
  guarded_lookup (f <$> l) i = f <$> guarded_lookup l i.
Proof.
  unfold guarded_lookup. destruct (decide (0 ≤ i)); [|done]. by rewrite list_lookup_fmap.
Qed.

Lemma py_getitem_fmap {A B : Type} (f : A → B) (l : list A) (i : Z) :
  py_getitem (f <$> l) i =
  match py_getitem l i with
  | OK x => OK (f x)
  | Raise e => Raise e
  end.
Proof.
  unfold py_getitem, py_index. rewrite length_fmap, guarded_lookup_fmap.
  by destruct (guarded_lookup l _).
Qed.

Lemma py_setitem_fmap {A B : Type} (f : A → B) (l : list A) (i : Z) (x : A) :
  py_setitem (f <$> l) i (f x) =
  match py_setitem l i x with
  | OK l' => OK (f <$> l')
  | Raise e => Raise e
  end.
Proof.
  unfold py_setitem, py_index. rewrite length_fmap, guarded_lookup_fmap.
  destruct (guarded_lookup l _); simpl; [|done]. by rewrite list_fmap_insert.
Qed.

Lemma py_getitem_elem {A : Type} (l : list A) (i : Z) (x : A) :
  py_getitem l i = OK x → x ∈ l.
Proof.
  unfold py_getitem.
  destruct (guarded_lookup l (py_index l i)) as [y|] eqn:Hy; [|done].
  intros [= <-]. apply guarded_lookup_Some in Hy as [_ Hy].
  by eapply list_elem_of_lookup_2.
Qed.

Lemma py_setitem_Forall {A : Type} (P : A → Prop) (l l' : list A) (i : Z) (x : A) :
  py_setitem l i x = OK l' → Forall P l → P x → Forall P l'.
Proof.
  unfold py_setitem. destruct (guarded_lookup l (py_index l i)); [|done].
  intros [= <-] Hl Hx. by apply Forall_insert.
Qed.

Lemma closed_file_lookup (h : heap) (par : ParFile hval) (li ei : nat)
    (pl : ParList hval) (e : ParEntry hval) :
  closed_file h par → lists par !! li = Some pl → entries pl !! ei = Some e →
  closed_fields h (fields e).
Proof.
  intros Hc Hpl He. unfold closed_file in Hc.
  rewrite Forall_lookup in Hc. specialize (Hc li pl Hpl).
  rewrite Forall_lookup in Hc. by apply (Hc ei e).
Qed.

Lemma view_with_entry_fields (h h' : heap) (src : ParFile hval) (sli sei : nat)
    (sl : ParList hval) (se : ParEntry hval) (fs' : list (ParField hval)) :
  heap_kept h h' → closed_file h src → lists src !! sli = Some sl →
  view_file h' (with_entry_fields src sli sei sl se fs')
  = with_entry_fields (view_file h src) sli sei (view_list h sl) (view_entry h se)
                      (view_field h' <$> fs').
Proof.
  intros Hk Hc Hsl. unfold with_entry_fields, view_file, set_lists.
  cbn [version lists wrapper_header was_compressed trailing_data].
  f_equal. rewrite list_fmap_insert. rewrite (view_lists_kept h h') by done.
  f_equal. unfold view_list, set_entries. cbn [unknown1 unknown2 entries].
  f_equal. rewrite list_fmap_insert. f_equal.
  apply Forall_fmap_ext_1. unfold closed_file in Hc. rewrite Forall_lookup in Hc.
  eapply Forall_impl; [exact (Hc sli sl Hsl)|].
  intros e. by apply view_entry_kept.
Qed.

Lemma closed_with_entry_fields (h h' : heap) (src : ParFile hval) (sli sei : nat)
    (sl : ParList hval) (se : ParEntry hval) (fs' : list (ParField hval)) :
  heap_kept h h' → closed_file h src → lists src !! sli = Some sl →
  closed_fields h' fs' →
  closed_file h' (with_entry_fields src sli sei sl se fs').
Proof.
  intros Hk Hc Hsl Hfs'. pose proof (closed_file_kept h h' src Hk Hc) as Hc'.
  unfold closed_file, with_entry_fields in *. cbn [lists set_lists].
  apply Forall_insert; [done|]. cbn [entries set_entries].
  rewrite Forall_lookup in Hc'. apply Forall_insert; [by apply (Hc' sli)|done].
Qed.

(** ** The merge over a store and the merge over values *)

Lemma denotes_skip (st : MergeState (V := hval) (Store := heap)) :
  closed_file (st_heap st) (st_src st) →
  denotes (st_heap st) (OK st) (OK (view_state st)).
Proof.
  intros Hc. split; [done|]. split; [apply heap_kept_refl | done].
Qed.

Lemma merge_changed_view (inp : ParFile hval) (d : Diff)
    (st : MergeState (V := hval) (Store := heap)) :
  closed_file (st_heap st) (st_src st) → closed_file (st_heap st) inp →
  denotes (st_heap st)
    (merge_changed hval_zero deepcopy_if_list inp d st)
    (merge_changed pyval_zero copy_pyval (view_file (st_heap st) inp) d (view_state st)).
Proof.
  destruct st as [src h c a]. cbn [st_src st_heap]. intros Hcs Hci.
  unfold merge_changed, view_state.
  cbn [st_src st_heap changed_count added_count].
  unfold view_file at 1 2. cbn [lists]. rewrite !guarded_lookup_fmap.
  destruct (guarded_lookup (lists src) (src_li d)) as [sl|] eqn:Hsl; cbn [fmap option_fmap option_map];
    [|exact (denotes_skip (mkMergeState src h c a) Hcs)].
  unfold view_list at 1 2. cbn [entries].
  rewrite guarded_lookup_fmap.
  destruct (guarded_lookup (entries sl) (src_ei d)) as [se|] eqn:Hse; cbn [fmap option_fmap option_map];
    [|exact (denotes_skip (mkMergeState src h c a) Hcs)].
  destruct (guarded_lookup (lists inp) (inp_li d)) as [il|] eqn:Hil; cbn [fmap option_fmap option_map];
    [|exact (denotes_skip (mkMergeState src h c a) Hcs)].
  unfold view_list at 1 2. cbn [entries].
  rewrite guarded_lookup_fmap.
  destruct (guarded_lookup (entries il) (inp_ei d)) as [ie|] eqn:Hie; cbn [fmap option_fmap option_map];
    [|exact (denotes_skip (mkMergeState src h c a) Hcs)].
  cbn [view_entry fields]. rewrite !length_fmap.
  case_decide as Hfi; [|exact (denotes_skip (mkMergeState src h c a) Hcs)].
  apply guarded_lookup_Some in Hsl as [Hsli Hsl].
  apply guarded_lookup_Some in Hse as [Hsei Hse].
  apply guarded_lookup_Some in Hil as [Hili Hil].
  apply guarded_lookup_Some in Hie as [Hiei Hie].
  pose proof (closed_file_lookup _ _ _ _ _ _ Hcs Hsl Hse) as Hcse.
  pose proof (closed_file_lookup _ _ _ _ _ _ Hci Hil Hie) as Hcie.
  rewrite py_getitem_fmap.
  destruct (py_getitem (fields ie) (field_idx d)) as [inp_f|e] eqn:Hget; [|done].
  cbn [res_bind].
  assert (Hcf : closed_value h (value inp_f)).
  { apply py_getitem_elem in Hget. unfold closed_fields in Hcie.
    rewrite Forall_forall in Hcie. by apply Hcie. }
  destruct (deepcopy_view (value inp_f) h Hcf) as (Hk & Hcv & Hview).
  destruct (deepcopy_if_list (value inp_f) h) as [v' h'] eqn:Hcopy.
  cbn [fst snd] in Hk, Hcv, Hview.
  cbn [view_field dtype value copy_pyval].
  set (n := Z.to_nat (field_idx d + 1 - Z.of_nat (length (fields se)))).
  set (padded := fields se ++ replicate n (mkParField 0 hval_zero)).
  assert (Hpadded : closed_fields h padded).
  { apply Forall_app. split; [done|]. by apply Forall_replicate. }
  replace (mkParField (dtype inp_f) (view_value h (value inp_f)))
    with (view_field h' (mkParField (dtype inp_f) v'))
    by (unfold view_field; cbn [dtype value]; by rewrite Hview).
  replace ((view_field h <$> fields se) ++ replicate n (mkParField 0 pyval_zero))
    with (view_field h' <$> padded).
  2:{ rewrite (proj1 (view_fields_kept h h' padded Hk Hpadded)).
      unfold padded. by rewrite fmap_app, fmap_replicate. }
  rewrite py_setitem_fmap.
  destruct (py_setitem padded (field_idx d) (mkParField (dtype inp_f) v'))
    as [new_fields|e] eqn:Hset; [|done].
  cbn [res_bind denotes st_src st_heap changed_count added_count].
  split; [|split; [done|]].
  - unfold view_state. cbn [st_src st_heap changed_count added_count].
    f_equal. f_equal.
    exact (eq_sym (view_with_entry_fields h h' src (Z.to_nat (src_li d))
               (Z.to_nat (src_ei d)) sl se new_fields Hk Hcs Hsl)).
  - apply (closed_with_entry_fields h h' src _ _ sl se new_fields); [done..|].
    apply (py_setitem_Forall _ _ _ _ _ Hset).
    + by apply (view_fields_kept h h').
    + done.
Qed.

Lemma existsb_fmap {A B : Type} (f : A → B) (p : B → bool) (l : list A) :
  existsb p (f <$> l) = existsb (λ x, p (f x)) l.
Proof. induction l as [|x l IH]; [done|]. rewrite fmap_cons. cbn [existsb]. by rewrite IH. Qed.

Lemma merge_input_only_view (inp : ParFile hval) (d : Diff)
    (st : MergeState (V := hval) (Store := heap)) :
  closed_file (st_heap st) (st_src st) → closed_file (st_heap st) inp →
  denotes (st_heap st)
    (merge_input_only deepcopy_if_list inp d st)
    (merge_input_only copy_pyval (view_file (st_heap st) inp) d (view_state st)).
Proof.
  destruct st as [src h c a]. cbn [st_src st_heap]. intros Hcs Hci.
  unfold merge_input_only, view_state.
  cbn [st_src st_heap changed_count added_count].
  destruct (bool_decide (0 ≤ inp_li d) && bool_decide (0 ≤ inp_ei d));
    [|exact (denotes_skip (mkMergeState src h c a) Hcs)].
  unfold view_file at 1 2. cbn [lists]. rewrite list_lookup_fmap.
  destruct (lists inp !! Z.to_nat (inp_li d)) as [il|] eqn:Hil;
    cbn [fmap option_fmap option_map]; [|exact (denotes_skip (mkMergeState src h c a) Hcs)].
  unfold view_list at 1. cbn [entries]. rewrite py_getitem_fmap.
  destruct (py_getitem (entries il) (inp_ei d)) as [ie|e] eqn:Hie; [|done].
  cbn [res_bind view_entry fields name unknown_byte unknown_u16a unknown_u16b].
  rewrite copy_fields_pure.
  assert (Hcie : closed_fields h (fields ie)).
  { apply py_getitem_elem in Hie. apply list_elem_of_lookup in Hie as [ei Hei].
    exact (closed_file_lookup h inp _ ei il ie Hci Hil Hei). }
  destruct (copy_fields_view (fields ie) h Hcie) as (Hk & Hcn & Hvn).
  destruct (copy_fields deepcopy_if_list (fields ie) h) as [nf h'].
  cbn [fst snd] in Hk, Hcn, Hvn.
  change (lists (view_file h src)) with (view_list h <$> lists src).
  rewrite length_fmap.
  set (n := Z.to_nat (inp_li d + 1 - Z.of_nat (length (lists src)))).
  set (src_lists := lists src ++ replicate n (mkParList 0 0 [])).
  assert (Hcl : closed_file h' (set_lists src src_lists)).
  { unfold closed_file, set_lists. cbn [lists]. apply Forall_app. split.
    - by apply (closed_file_kept h h').
    - apply Forall_replicate. cbn [entries]. constructor. }
  replace ((view_list h <$> lists src) ++ replicate n (mkParList 0 0 []))
    with (view_list h' <$> src_lists).
  2:{ unfold src_lists. rewrite fmap_app, fmap_replicate.
      by rewrite (view_lists_kept h h'). }
  rewrite py_getitem_fmap.
  destruct (py_getitem src_lists (inp_li d)) as [target|e] eqn:Htarget; [|done].
  cbn [res_bind]. unfold view_list at 1. cbn [entries].
  rewrite existsb_fmap. cbn [view_entry name].
  destruct (existsb _ (entries target)).
  - split; [done|]. by split.
  - split; [|split; [done|]].
    + unfold view_state, view_file, set_lists.
      cbn [st_src st_heap changed_count added_count version lists wrapper_header
           was_compressed trailing_data].
      do 2 f_equal. rewrite list_fmap_insert. f_equal.
      unfold view_list, set_entries. cbn [unknown1 unknown2 entries].
      f_equal. rewrite fmap_app, <- Hvn. reflexivity.
    + unfold closed_file, set_lists in *. cbn [lists] in *.
      apply Forall_insert; [done|]. cbn [set_entries entries].
      apply Forall_app. split.
      * apply py_getitem_elem in Htarget. rewrite Forall_forall in Hcl.
        by apply Hcl.
      * by repeat constructor.
Qed.

Lemma merge_record_view (inp : ParFile hval) (d : Diff)
    (st : MergeState (V := hval) (Store := heap)) :
  closed_file (st_heap st) (st_src st) → closed_file (st_heap st) inp →
  denotes (st_heap st)
    (merge_record hval_zero deepcopy_if_list inp d st)
    (merge_record pyval_zero copy_pyval (view_file (st_heap st) inp) d (view_state st)).
Proof.
  intros Hcs Hci. unfold merge_record.
  destruct (type d);
    [by apply merge_changed_view | by apply merge_input_only_view
    | by apply denotes_skip].
Qed.

Lemma merge_loop_view (inp : ParFile hval) (selected : list (nat * Diff))
    (st : MergeState (V := hval) (Store := heap)) :
  closed_file (st_heap st) (st_src st) → closed_file (st_heap st) inp →
  denotes (st_heap st)
    (res_for (λ p, merge_record hval_zero deepcopy_if_list inp p.2) selected st)
    (res_for (λ p, merge_record pyval_zero copy_pyval (view_file (st_heap st) inp) p.2)
             selected (view_state st)).
Proof.
  revert st. induction selected as [|[i d] rest IH]; intros st Hcs Hci.
  - by apply denotes_skip.
  - cbn [res_for snd].
    pose proof (merge_record_view inp d st Hcs Hci) as Hstep.
    destruct (merge_record hval_zero deepcopy_if_list inp d st) as [st1|e];
      cbn [denotes] in Hstep; [|by rewrite Hstep].
    destruct Hstep as (-> & Hk & Hcs1).
    pose proof (IH st1 Hcs1 (closed_file_kept _ _ _ Hk Hci)) as Hrest.
    rewrite (view_file_kept _ _ inp Hk Hci) in Hrest.
    destruct (res_for _ rest st1) as [st2|e]; cbn [denotes] in *; [|done].
    destruct Hrest as (-> & Hk2 & Hcs2). split; [done|]. split; [|done].
    by eapply heap_kept_trans.
Qed.

(** The merge over a store of list objects is the merge over the values
    the store denotes: the same exception, or the same report and a source
    model denoting the same model, and the input model denotes what it
    denoted before. *)
Theorem merge_over_store (confirm : bool) (src inp : ParFile hval)
    (cmp_diffs : list Diff) (cmp_checks : gmap nat bool) (h : heap) :
  closed_file h src → closed_file h inp →
  match _cmp_merge hval_zero deepcopy_if_list confirm src inp cmp_diffs cmp_checks h with
  | OK (src', h', report) =>
      _cmp_merge pyval_zero copy_pyval confirm (view_file h src) (view_file h inp)
                 cmp_diffs cmp_checks tt
      = OK (view_file h' src', tt, report) ∧
      view_file h' inp = view_file h inp
  | Raise e =>
      _cmp_merge pyval_zero copy_pyval confirm (view_file h src) (view_file h inp)
                 cmp_diffs cmp_checks tt
      = Raise e
  end.
Proof.
  intros Hcs Hci. unfold _cmp_merge.
  destruct (selected_diffs cmp_diffs cmp_checks) as [|p rest]; [done|].
  destruct confirm; cbn [negb]; [|done].
  pose proof (merge_loop_view inp (p :: rest) (mkMergeState src h 0 0) Hcs Hci) as Hloop.
  cbn [st_heap st_src] in Hloop. unfold view_state in Hloop at 1.
  cbn [st_heap st_src changed_count added_count] in Hloop.
  destruct (res_for _ (p :: rest) (mkMergeState src h 0%nat 0%nat)) as [st|e];
    cbn [denotes] in Hloop.
  - destruct Hloop as (Hloop & Hk & Hcs'). cbn [res_bind].
    rewrite Hloop. cbn [res_bind view_state st_src st_heap changed_count added_count].
    split; [done|]. by apply view_file_kept.
  - cbn [res_bind]. by rewrite Hloop.
Qed.

Lemma sample_models_closed :
  closed_file sample_store (sample_source_h []) ∧ closed_file sample_store sample_input_h.
Proof.
  split.
  - by repeat constructor.
  - repeat constructor. cbn [value closed_value]. unfold sample_store.
    rewrite lookup_singleton_eq. by eexists.
Qed.

Lemma merge_over_store_sample :
  match _cmp_merge hval_zero deepcopy_if_list true (sample_source_h []) sample_input_h
                   [sample_changed 1] {[ 0%nat := true ]} sample_store with
  | OK (src', h', report) =>
      _cmp_merge pyval_zero copy_pyval true
                 (view_file sample_store (sample_source_h []))
                 (view_file sample_store sample_input_h)
                 [sample_changed 1] {[ 0%nat := true ]} tt
      = OK (view_file h' src', tt, report) ∧
      view_file h' sample_input_h = view_file sample_store sample_input_h
  | Raise e =>
      _cmp_merge pyval_zero copy_pyval true
                 (view_file sample_store (sample_source_h []))
                 (view_file sample_store sample_input_h)
                 [sample_changed 1] {[ 0%nat := true ]} tt
      = Raise e
  end.
Proof.
  apply merge_over_store; apply sample_models_closed.
Defined.

(** * Further properties of the code *)

(** ** The envelope on its own *)

Lemma decompress_raw_par
    (zlib_decompressobj : list byte → res (list byte * list byte))
    (raw_data : list byte) :
  take 4 raw_data = PAR_MAGIC →
  decompress_par_file zlib_decompressobj raw_data = OK (raw_data, None, false).
Proof.
  intros Hmagic. unfold decompress_par_file.
  assert (Hhd : raw_data !! 0%nat ≠ Some x78).
  { intros Hx. destruct raw_data as [|b raw]; [done|].
    simpl in Hx, Hmagic. by simplify_eq. }
  rewrite (bool_decide_eq_false_2 _ Hhd). rewrite orb_true_r.
  by rewrite decide_True.
Qed.

(** A buffer that starts with the PAR magic is never taken for a zlib
    stream: [decompress_par_file] returns it as it is, with no wrapper and
    marked as not compressed, whatever zlib would do with it. *)
Theorem raw_par_passes_through
    (zlib_decompressobj : list byte → res (list byte * list byte))
    (raw_data : list byte) :
  take 4 raw_data = PAR_MAGIC →
  decompress_par_file zlib_decompressobj raw_data = OK (raw_data, None, false).
Proof. apply decompress_raw_par. Qed.

Lemma raw_par_passes_through_witness :
  take 4 (PAR_MAGIC ++ [x00; x06; x00; x00]) = PAR_MAGIC ∧
  decompress_par_file framed_decompressobj (PAR_MAGIC ++ [x00; x06; x00; x00])
  = OK (PAR_MAGIC ++ [x00; x06; x00; x00], None, false).
Proof.
  split; [reflexivity|]. apply raw_par_passes_through. reflexivity.
Defined.

(** Whatever [decompress_par_file] returns starts with the PAR magic, for
    any behaviour of zlib. A result marked as not compressed is the input
    itself without a wrapper; a result marked as compressed came from an
    input whose first byte is [0x78]. *)
Theorem decompressed_data_is_par
    (zlib_decompressobj : list byte → res (list byte * list byte))
    (raw_data par_data : list byte) (wrapper : option (list byte))
    (compressed : bool) :
  decompress_par_file zlib_decompressobj raw_data = OK (par_data, wrapper, compressed) →
  take 4 par_data = PAR_MAGIC ∧
  if compressed then raw_data !! 0%nat = Some x78 ∧ (4 ≤ length raw_data)%nat
  else par_data = raw_data ∧ wrapper = None.
Proof.
  unfold decompress_par_file.
  destruct (bool_decide (length raw_data < 4)%nat) eqn:Hlen; cbn [orb].
  { destruct (decide (take 4 raw_data = PAR_MAGIC)); [|done].
    intros Heq. by simplify_eq. }
  destruct (bool_decide (raw_data !! 0%nat = Some x78)) eqn:Hhd; cbn [negb].
  2:{ destruct (decide (take 4 raw_data = PAR_MAGIC)); [|done].
      intros Heq. by simplify_eq. }
  apply bool_decide_eq_false in Hlen. apply bool_decide_eq_true in Hhd.
  destruct (zlib_decompressobj raw_data) as [[w remaining]|e]; [|done].
  cbn [res_bind]. destruct remaining as [|b remaining].
  - destruct (decide (take 4 w = PAR_MAGIC)); [|done].
    intros Heq. simplify_eq. split; [done|]. split; [done|lia].
  - destruct (zlib_decompressobj (b :: remaining)) as [[d unused]|e]; [|done].
    cbn [res_bind fst]. destruct (decide (take 4 d ≠ PAR_MAGIC)) as [|Hd]; [done|].
    intros Heq. simplify_eq. split; [by apply dec_stable|]. split; [done|lia].
Qed.

Lemma decompressed_data_is_par_witness :
  decompress_par_file framed_decompressobj
    (framed_compress [x2a] ++ framed_compress PAR_MAGIC)
  = OK (PAR_MAGIC, Some [x2a], true) ∧
  take 4 PAR_MAGIC = PAR_MAGIC ∧
  (framed_compress [x2a] ++ framed_compress PAR_MAGIC) !! 0%nat = Some x78 ∧
  (4 ≤ length (framed_compress [x2a] ++ framed_compress PAR_MAGIC))%nat.
Proof.
  split; [reflexivity|].
  apply (decompressed_data_is_par framed_decompressobj
           (framed_compress [x2a] ++ framed_compress PAR_MAGIC)
           PAR_MAGIC (Some [x2a]) true).
  reflexivity.
Defined.

Section single_stream.
Variable zlib_compress : list byte → list byte.
Variable zlib_decompressobj : list byte → res (list byte * list byte).

Hypothesis zlib_stream_header :
  ∀ x, ∃ tl, zlib_compress x = x78 :: tl ∧ (3 ≤ length tl)%nat.
Hypothesis zlib_first_stream :
  ∀ x rest, zlib_decompressobj (zlib_compress x ++ rest) = OK (x, rest).

Lemma decompress_single_stream (container : list byte) :
  take 4 container = PAR_MAGIC →
  decompress_par_file zlib_decompressobj
    (compress_par_file zlib_compress container None)
  = OK (container, None, true).
Proof.
  intros Hmagic. unfold compress_par_file, decompress_par_file.
  destruct (zlib_stream_header container) as (tl & Hs & Hl).
  pose proof (zlib_first_stream container []) as Hfirst.
  rewrite app_nil_r in Hfirst. rewrite Hfirst. rewrite Hs.
  rewrite bool_decide_eq_false_2 by (simpl; lia).
  rewrite bool_decide_eq_true_2 by done.
  cbn [negb orb res_bind]. by rewrite decide_True.
Qed.

Lemma decompress_dual_stream (container header : list byte) :
  take 4 container = PAR_MAGIC →
  decompress_par_file zlib_decompressobj
    (compress_par_file zlib_compress container (Some header))
  = OK (container, Some header, true).
Proof.
  intros Hmagic. unfold compress_par_file, decompress_par_file.
  destruct (zlib_stream_header header) as (tl1 & Hs1 & Hl1).
  destruct (zlib_stream_header container) as (tl2 & Hs2 & Hl2).
  rewrite zlib_first_stream.
  rewrite bool_decide_eq_false_2 by (rewrite length_app, Hs1; simpl; lia).
  rewrite bool_decide_eq_true_2 by (by rewrite Hs1).
  cbn [negb orb res_bind].
  pose proof (zlib_first_stream container []) as Hsecond.
  rewrite app_nil_r in Hsecond.
  rewrite Hs2 in Hsecond |- *. rewrite Hsecond. cbn [res_bind fst].
  by rewrite decide_False by (intros Hne; by apply Hne).
Qed.

(** Without a wrapper [compress_par_file] writes a single zlib stream, and
    [decompress_par_file] returns its content with no wrapper, marked as
    compressed. *)
Theorem single_stream_symmetry (container : list byte) :
  take 4 container = PAR_MAGIC →
  decompress_par_file zlib_decompressobj
    (compress_par_file zlib_compress container None)
  = OK (container, None, true).
Proof. apply decompress_single_stream. Qed.

Lemma write_then_read (par : ParFile pyval) :
  wf_file par = true →
  ∃ data, write_par par = OK data ∧ read_par data = OK (as_decoded par) ∧
          take 4 data = PAR_MAGIC.
Proof.
  intros Hwf. destruct (read_written_body par Hwf) as (bs & He & Hread).
  assert (Hmagic : take 4 bs = PAR_MAGIC).
  { specialize (Hread []). unfold read_par_body, reader_bind, read_bytes in Hread.
    case_decide; [done|].
    destruct (decide (take 4 (drop 0 (bs ++ [])) ≠ PAR_MAGIC)) as [|Hm]; [done|].
    apply dec_stable in Hm. by rewrite app_nil_r in Hm. }
  unfold write_par, read_par. rewrite (He []). cbn [app].
  destruct (trailing_data par) as [[|b t]|] eqn:Htd.
  - exists bs. split; [done|]. rewrite <- (app_nil_r bs) at 1. rewrite Hread.
    unfold as_decoded. by rewrite Htd.
  - exists (bs ++ b :: t). split; [done|]. rewrite Hread.
    unfold as_decoded. rewrite Htd. split; [done|].
    rewrite take_app_le; [done|].
    apply (f_equal length) in Hmagic. rewrite length_take in Hmagic.
    change (length PAR_MAGIC) with 4%nat in Hmagic. lia.
  - exists bs. split; [done|]. rewrite <- (app_nil_r bs) at 1. rewrite Hread.
    unfold as_decoded. by rewrite Htd.
Qed.

(** Saving and loading again. A well-formed model whose envelope
    attributes are as a load leaves them (a wrapper only on a compressed
    file) is written by [_cmp_save] to bytes that [_cmp_load_par_file]
    turns into the same model, wrapper and compression mark included; an
    empty tail comes back as [None]. The file may be raw, a single zlib
    stream, or a wrapper stream followed by the PAR stream. *)
Theorem save_then_load (par : ParFile pyval) :
  wf_file par = true →
  (was_compressed par = false → wrapper_header par = None) →
  ∃ raw,
    _cmp_save zlib_compress par = OK raw ∧
    _cmp_load_par_file zlib_decompressobj raw
    = OK (mkParFile (version par) (lists par) (wrapper_header par)
            (was_compressed par) (trailing_data (as_decoded par))).
Proof.
  intros Hwf Henv. destruct (write_then_read par Hwf) as (data & Hw & Hr & Hmagic).
  unfold _cmp_save, _cmp_load_par_file. rewrite Hw. cbn [res_bind].
  eexists. split; [reflexivity|].
  destruct (was_compressed par) eqn:Hc.
  - destruct (wrapper_header par) as [w|] eqn:Hwh.
    + rewrite (decompress_dual_stream data w Hmagic). cbn [res_bind].
      by rewrite Hr.
    + rewrite (decompress_single_stream data Hmagic). cbn [res_bind].
      by rewrite Hr.
  - rewrite (Henv eq_refl).
    rewrite (decompress_raw_par zlib_decompressobj data Hmagic). cbn [res_bind].
    by rewrite Hr.
Qed.
End single_stream.

(** The minimal file, marked as compressed behind the wrapper [2a]. *)
Lemma save_then_load_witness :
  let par := mkParFile (version minimal_par) (lists minimal_par) (Some [x2a]) true None in
  wf_file par = true ∧
  (was_compressed par = false → wrapper_header par = None) ∧
  ∃ raw,
    _cmp_save framed_compress par = OK raw ∧
    _cmp_load_par_file framed_decompressobj raw
    = OK (mkParFile (version par) (lists par) (wrapper_header par)
            (was_compressed par) (trailing_data (as_decoded par))).
Proof.
  intros par. split; [reflexivity|]. split; [done|].
  apply (save_then_load framed_compress framed_decompressobj
           framed_stream_header (λ x rest, framed_first_stream x rest) par);
    [reflexivity | done].
Defined.

Lemma single_stream_symmetry_witness :
  take 4 (PAR_MAGIC ++ [x00; x06; x00; x00]) = PAR_MAGIC ∧
  decompress_par_file framed_decompressobj
    (compress_par_file framed_compress (PAR_MAGIC ++ [x00; x06; x00; x00]) None)
  = OK (PAR_MAGIC ++ [x00; x06; x00; x00], None, true).
Proof.
  split; [reflexivity|].
  apply (single_stream_symmetry framed_compress framed_decompressobj
           framed_stream_header (λ x rest, framed_first_stream x rest)).
  reflexivity.
Defined.

(** ** The writer: masks, ranges and the header *)

Lemma land_ones_mod (v : Z) (n : Z) : 0 ≤ n → Z.land v (2 ^ n - 1) = v mod 2 ^ n.
Proof.
  intros Hn. rewrite <- Z.land_ones by done. f_equal. rewrite Z.ones_equiv. lia.
Qed.

Lemma emits_masked (f : format) (v : Z) :
  fmt_signed f = false →
  emits (write_packed f (Z.land v (fmt_modulus f - 1)))
        (le_bytes (calcsize f) (v mod fmt_modulus f)).
Proof.
  intros Hs. unfold fmt_modulus. rewrite land_ones_mod by lia.
  apply emits_packed. apply bool_decide_eq_true.
  unfold fmt_min, fmt_max. rewrite Hs. fold (fmt_modulus f).
  pose proof (Z.mod_pos_bound v (fmt_modulus f)) as Hb.
  destruct (fmt_modulus_pos f) as [Hpos Heq]. lia.
Qed.

Lemma emits_u32_any (v : Z) : emits (write_u32 v) (le_bytes 4 (v mod 2 ^ 32)).
Proof. exact (emits_masked fmt_I v eq_refl). Qed.

Lemma emits_u16_any (v : Z) : emits (write_u16 v) (le_bytes 2 (v mod 2 ^ 16)).
Proof. exact (emits_masked fmt_H v eq_refl). Qed.

Lemma emits_u8_any (v : Z) : emits (write_u8 v) (le_bytes 1 (v mod 2 ^ 8)).
Proof. exact (emits_masked fmt_B v eq_refl). Qed.

Lemma mod_in_range_I (v : Z) : in_range fmt_I (v mod 2 ^ 32) = true.
Proof.
  apply bool_decide_eq_true. pose proof (Z.mod_pos_bound v (2 ^ 32)).
  change (fmt_min fmt_I) with 0. change (fmt_max fmt_I) with (2 ^ 32 - 1). lia.
Qed.

(** A uint32 field takes any integer: [write_u32] masks it to 32 bits, so
    what is read back is the value modulo 2^32. Nothing is raised for a
    negative or an over-large value. *)
Theorem uint32_field_wraps (z : Z) :
  reads_back (write_field_value (mkParField TYPE_UINT32 (VAtom (AInt z))))
             (read_field_value TYPE_UINT32)
             (VAtom (AInt (z mod 2 ^ 32))).
Proof.
  unfold write_field_value, read_field_value. cbn [dtype value].
  repeat (case_decide; try done).
  cbn [writer_with as_atom as_int].
  apply (reads_back_bind_ret _ _ (λ v, VAtom (AInt v))).
  exists (le_bytes 4 (z mod 2 ^ 32)). split; [apply emits_u32_any|].
  apply (parses_packed fmt_I), mod_in_range_I.
Qed.

Lemma appends_seq (w1 w2 : Writer) : appends w1 → appends w2 → appends (writer_seq w1 w2).
Proof.
  intros H1 H2 buf out. unfold writer_seq.
  destruct (w1 buf) as [mid|e] eqn:Hw1; [|done]. intros Hw2.
  destruct (H1 _ _ Hw1) as (b1 & ->). destruct (H2 _ _ Hw2) as (b2 & ->).
  exists (b1 ++ b2). by rewrite (assoc_L (++)).
Qed.

Lemma appends_for {A : Type} (body : A → Writer) (l : list A) :
  (∀ x, appends (body x)) → appends (writer_for body l).
Proof.
  intros Hbody. induction l as [|x l IH]; cbn [writer_for].
  - intros buf out [= <-]. exists []. by rewrite app_nil_r.
  - by apply appends_seq.
Qed.

Lemma appends_packed (f : format) (v : Z) : appends (write_packed f v).
Proof.
  intros buf out. unfold write_packed. destruct (pack f v); [|done].
  intros [= <-]. by eexists.
Qed.

Lemma appends_bytes (b : list byte) : appends (write_bytes b).
Proof. intros buf out [= <-]. by eexists. Qed.

Lemma appends_with {A : Type} (m : res A) (k : A → Writer) :
  (∀ a, appends (k a)) → appends (writer_with m k).
Proof. intros Hk. destruct m; [apply Hk | done]. Qed.

Lemma appends_skip : appends writer_skip.
Proof. intros buf out [= <-]. exists []. by rewrite app_nil_r. Qed.

Lemma appends_delphi_string (s : pystr) : appends (write_delphi_string s).
Proof. apply appends_seq; [apply appends_packed | apply appends_bytes]. Qed.

Lemma appends_array_item (c : fmt_char) (a : atom) : appends (write_array_item c a).
Proof. destruct c; apply appends_with; intros v; apply appends_packed. Qed.

Lemma appends_array (k : array_kind) (values : list atom) :
  appends (write_array k values).
Proof.
  destruct k as [c|]; destruct values as [|v values];
    try apply appends_packed; cbn [write_array _write_extra_array
                                   _write_extra_string_array];
    repeat (apply appends_seq; [apply appends_packed|]); apply appends_for.
  - apply appends_array_item.
  - intros a. apply appends_with. apply appends_delphi_string.
Qed.

Lemma appends_field_value (f : ParField pyval) : appends (write_field_value f).
Proof.
  unfold write_field_value.
  repeat case_decide;
    try (apply appends_with; intros a; apply appends_with; intros x;
         first [apply appends_packed | apply appends_delphi_string]).
  - apply appends_with. intros l. apply (appends_array (NumericArray char_i)).
  - apply appends_with. intros l. apply (appends_array (NumericArray char_f)).
  - apply appends_with. intros l. apply (appends_array (NumericArray char_I)).
  - apply appends_with. intros l. apply (appends_array StringArray).
  - apply appends_skip.
Qed.

Lemma appends_entry (e : ParEntry pyval) : appends (write_entry e).
Proof.
  unfold write_entry. apply appends_seq; [apply appends_delphi_string|].
  repeat (apply appends_seq; [apply appends_packed|]).
  apply appends_seq; apply appends_for; intros f;
    [apply appends_packed | apply appends_field_value].
Qed.

Lemma appends_list (pl : ParList pyval) : appends (write_list pl).
Proof.
  unfold write_list. repeat (apply appends_seq; [apply appends_packed|]).
  apply appends_for, appends_entry.
Qed.

(** What [write_par] returns always starts with the 16 bytes of the
    header: the magic, the version and the number of lists, each reduced
    modulo 2^32, and a zero reserved word. Writing the header never
    raises. *)
Theorem written_file_header (par : ParFile pyval) (data : list byte) :
  write_par par = OK data →
  ∃ body,
    data = PAR_MAGIC ++ le_bytes 4 (version par mod 2 ^ 32)
           ++ le_bytes 4 (Z.of_nat (length (lists par)) mod 2 ^ 32)
           ++ [x00; x00; x00; x00] ++ body.
Proof.
  unfold write_par, write_par_body, writer_seq, write_bytes. cbn [app].
  rewrite (emits_u32_any (version par)), (emits_u32_any (Z.of_nat (length (lists par)))).
  rewrite (emits_u32_any 0).
  destruct (writer_for write_list (lists par) _) as [out|e] eqn:Hls; [|done].
  destruct (appends_for write_list (lists par) appends_list _ _ Hls) as (bs & ->).
  change (le_bytes 4 (0 mod 2 ^ 32)) with [x00; x00; x00; x00].
  destruct (trailing_data par) as [[|b t]|]; intros [= <-].
  - by exists bs.
  - by exists (bs ++ b :: t).
  - by exists bs.
Qed.

Lemma written_file_header_witness :
  write_par minimal_par = OK (minimal_bytes x00 x54) ∧
  ∃ body,
    minimal_bytes x00 x54
    = PAR_MAGIC ++ le_bytes 4 (version minimal_par mod 2 ^ 32)
      ++ le_bytes 4 (Z.of_nat (length (lists minimal_par)) mod 2 ^ 32)
      ++ [x00; x00; x00; x00] ++ body.
Proof.
  split; [reflexivity|]. apply (written_file_header minimal_par). reflexivity.
Defined.

Lemma always_raises_first (w1 w2 : Writer) :
  always_raises w1 → always_raises (writer_seq w1 w2).
Proof.
  intros H1 buf. unfold writer_seq. destruct (H1 buf) as (e & ->). by exists e.
Qed.

Lemma always_raises_second (w1 w2 : Writer) :
  always_raises w2 → always_raises (writer_seq w1 w2).
Proof.
  intros H2 buf. unfold writer_seq. destruct (w1 buf) as [mid|e]; [apply H2|by exists e].
Qed.

Lemma always_raises_for {A : Type} (body : A → Writer) (l : list A) (x : A) :
  x ∈ l → always_raises (body x) → always_raises (writer_for body l).
Proof.
  intros Hx Hbody. induction l as [|y l IH]; [by apply elem_of_nil in Hx|].
  cbn [writer_for]. apply elem_of_cons in Hx as [<-|Hx].
  - by apply always_raises_first.
  - by apply always_raises_second, IH.
Qed.

Lemma int32_out_of_range_raises (z : Z) :
  ¬ (- 2 ^ 31 ≤ z ≤ 2 ^ 31 - 1) →
  always_raises (write_field_value (mkParField TYPE_INT32 (VAtom (AInt z)))).
Proof.
  intros Hz buf. exists StructError.
  unfold write_field_value. cbn [dtype value]. rewrite decide_True by done.
  cbn [writer_with as_atom as_int]. unfold write_i32, write_packed, pack.
  rewrite decide_False; [done|].
  change (fmt_min fmt_i) with (- 2 ^ 31). change (fmt_max fmt_i) with (2 ^ 31 - 1).
  done.
Qed.

(** A file cannot be saved while an int32 field holds a value outside
    [-2^31, 2^31 - 1]: [write_par] raises and returns no bytes, wherever
    in the model the field is. (A uint32 field in the same situation is
    written modulo 2^32.) *)
Theorem int32_out_of_range_not_saved (par : ParFile pyval) (li ei fi : nat)
    (pl : ParList pyval) (e : ParEntry pyval) (z : Z) :
  lists par !! li = Some pl → entries pl !! ei = Some e →
  fields e !! fi = Some (mkParField TYPE_INT32 (VAtom (AInt z))) →
  ¬ (- 2 ^ 31 ≤ z ≤ 2 ^ 31 - 1) →
  ∃ ex, write_par par = Raise ex.
Proof.
  intros Hpl He Hf Hz.
  assert (Hraise : always_raises (write_par_body par)).
  { unfold write_par_body. do 4 apply always_raises_second.
    apply (always_raises_for _ _ pl); [by eapply list_elem_of_lookup_2|].
    unfold write_list. do 3 apply always_raises_second.
    apply (always_raises_for _ _ e); [by eapply list_elem_of_lookup_2|].
    unfold write_entry. do 6 apply always_raises_second.
    apply (always_raises_for _ _ (mkParField TYPE_INT32 (VAtom (AInt z))));
      [by eapply list_elem_of_lookup_2|].
    by apply int32_out_of_range_raises. }
  unfold write_par. destruct (Hraise []) as (ex & ->). by exists ex.
Qed.

Lemma int32_out_of_range_not_saved_witness :
  let par := one_list_par [entry_named [65] [int_field (2 ^ 31)]] in
  ∃ ex, write_par par = Raise ex.
Proof.
  intros par.
  apply (int32_out_of_range_not_saved par 0 0 0
           (mkParList 0 0 [entry_named [65] [int_field (2 ^ 31)]])
           (entry_named [65] [int_field (2 ^ 31)]) (2 ^ 31));
    [reflexivity | reflexivity | reflexivity | lia].
Defined.

(** ** The reader: foreign data, the header, long strings *)

(** [read_par] accepts nothing that does not start with the four bytes of
    the PAR magic: fewer than four bytes raise "Read past end at offset 0",
    four other bytes raise "Not a PAR file". *)
Theorem foreign_data_rejected (data : list byte) :
  take 4 data ≠ PAR_MAGIC →
  read_par data
  = Raise (if decide (length data < 4)%nat then ReadPastEnd 0 else NotAParFile).
Proof.
  intros Hmagic. unfold read_par, read_par_body, reader_bind, read_bytes.
  cbn [Nat.add]. destruct (decide (length data < 4)%nat); [done|].
  cbn [drop]. by rewrite decide_True.
Qed.

Lemma foreign_data_rejected_witness :
  read_par [x78; x9c; x00; x00; x00] = Raise NotAParFile ∧
  read_par [x50; x41] = Raise (ReadPastEnd 0).
Proof.
  split.
  - apply (foreign_data_rejected [x78; x9c; x00; x00; x00]). done.
  - apply (foreign_data_rejected [x50; x41]). done.
Defined.

(** When [read_par] returns a model, the buffer starts with the magic and
    holds the 16 bytes of the header; the model's version is the word at
    offset 4 and the model has exactly as many lists as the word at
    offset 8 says. *)
Theorem read_par_header (data : list byte) (par : ParFile pyval) :
  read_par data = OK par →
  take 4 data = PAR_MAGIC ∧ (16 ≤ length data)%nat ∧
  version par = le_value (take 4 (drop 4 data)) ∧
  Z.of_nat (length (lists par)) = le_value (take 4 (drop 8 data)).
Proof.
  unfold read_par. destruct (read_par_body data 0%nat) as [[par' end_pos]|e] eqn:Hbody; [|done].
  intros [= ->]. unfold read_par_body in Hbody.
  apply reader_bind_inv in Hbody as (magic & p1 & Hmagic & Hbody).
  unfold read_bytes in Hmagic.
  destruct (decide (length data < 0 + 4)%nat) as [|Hlen]; [done|].
  injection Hmagic as <- <-.
  destruct (decide (take 4 (drop 0 data) ≠ PAR_MAGIC)) as [|Hm]; [done|].
  apply dec_stable in Hm. cbn [drop] in Hm.
  apply reader_bind_inv in Hbody as (ver & p2 & Hver & Hbody).
  apply (packed_read_inv fmt_I) in Hver as (-> & Hle2 & -> & _).
  apply reader_bind_inv in Hbody as (cnt & p3 & Hcnt & Hbody).
  pose proof (packed_read_in_range fmt_I _ _ _ _ Hcnt) as Hcr.
  apply (packed_read_inv fmt_I) in Hcnt as (-> & Hle3 & -> & _).
  apply reader_bind_inv in Hbody as (pad & p4 & Hpad & Hbody).
  apply (packed_read_inv fmt_I) in Hpad as (-> & Hle4 & -> & _).
  apply reader_bind_inv in Hbody as (ls & p5 & Hls & Hbody).
  apply (read_repeat_inv _ (λ _, True)) in Hls as [Hlen5 _]; [|done].
  injection Hbody as <- <-. cbn [version lists].
  change (calcsize fmt_I) with 4%nat in *. cbn [Nat.add] in *.
  split; [done|]. split; [lia|]. split; [done|].
  rewrite Hlen5. rewrite Z2Nat.id; [done|].
  apply bool_decide_eq_true in Hcr. change (fmt_min fmt_I) with 0 in Hcr. lia.
Qed.

Lemma read_par_header_witness :
  read_par (minimal_bytes x00 x54) = OK minimal_par ∧
  take 4 (minimal_bytes x00 x54) = PAR_MAGIC ∧
  (16 ≤ length (minimal_bytes x00 x54))%nat ∧
  version minimal_par = le_value (take 4 (drop 4 (minimal_bytes x00 x54))) ∧
  Z.of_nat (length (lists minimal_par))
  = le_value (take 4 (drop 8 (minimal_bytes x00 x54))).
Proof.
  split; [reflexivity|].
  apply (read_par_header (minimal_bytes x00 x54) minimal_par). reflexivity.
Defined.

(** A string of more than 1000000 characters is written without
    complaint, and what was written cannot be read: [read_delphi_string]
    raises "Unreasonable string length" on the length prefix. *)
Theorem long_string_written_not_read (s : pystr) (buf : list byte) :
  1000000 < Z.of_nat (length s) < 2 ^ 32 →
  ∃ out,
    write_delphi_string s buf = OK out ∧
    read_delphi_string out (length buf)
    = Raise (UnreasonableLength (Z.of_nat (length s))).
Proof.
  intros Hlen. set (n := Z.of_nat (length s)) in *.
  assert (Hn : in_range fmt_I n = true).
  { apply bool_decide_eq_true. change (fmt_min fmt_I) with 0.
    change (fmt_max fmt_I) with (2 ^ 32 - 1). lia. }
  exists (buf ++ le_bytes 4 n ++ encode_ascii s). split.
  - unfold write_delphi_string. rewrite length_encode_ascii. fold n.
    apply (emits_seq _ _ _ _ (emits_u32 n Hn) (emits_bytes (encode_ascii s))).
  - unfold read_delphi_string.
    destruct (parses_step read_u32
                (λ len, if decide (len > 1000000)
                        then reader_raise (UnreasonableLength len)
                        else if decide (len = 0) then reader_ret []
                        else reader_bind (read_bytes (Z.to_nat len))
                               (λ raw, reader_ret (decode_ascii raw)))
                (le_bytes 4 n) n (buf ++ le_bytes 4 n ++ encode_ascii s)
                (length buf) (encode_ascii s)) as (Hstep & _ & _).
    + apply (parses_packed fmt_I n Hn).
    + by rewrite drop_app_length.
    + rewrite length_app. lia.
    + rewrite Hstep. by rewrite decide_True by lia.
Qed.

Lemma long_string_written_not_read_witness :
  let s := replicate (Z.to_nat 1000001) 65 in
  ∃ out,
    write_delphi_string s [] = OK out ∧
    read_delphi_string out (length (@nil byte))
    = Raise (UnreasonableLength (Z.of_nat (length s))).
Proof.
  intros s. apply (long_string_written_not_read s []).
  unfold s. rewrite length_replicate, Z2Nat.id by lia. lia.
Defined.

(** ** What the reader returns, the writer accepts *)

Lemma read_field_value_decodable (dt : Z) (data : list byte) (pos : nat)
    (v : pyval) (pos' : nat) :
  read_field_value dt data pos = OK (v, pos') →
  decodable_field (mkParField dt v) = true.
Proof.
  unfold read_field_value, decodable_field. cbn [dtype value].
  repeat (match goal with
          | |- context [decide (dt = ?c)] => destruct (decide (dt = c)) as [->|?]
          end); try done; intros Hread;
    apply reader_bind_inv in Hread as (x & mid & Hx & Hret);
    injection Hret as <- <-.
  - apply (packed_read_in_range fmt_i) in Hx. cbn [item_in_range]. by rewrite Hx.
  - apply (packed_read_in_range fmt_f) in Hx. cbn [item_in_range]. by rewrite Hx.
  - apply (packed_read_in_range fmt_I) in Hx. cbn [item_in_range]. by rewrite Hx.
  - apply read_delphi_string_inv in Hx. cbn [item_decodable].
    by rewrite (bool_decide_eq_true_2 _ Hx).
  - apply (read_array_inv (NumericArray char_i)) in Hx as (_ & _ & -> & ->). done.
  - apply (read_array_inv (NumericArray char_f)) in Hx as (_ & _ & -> & ->). done.
  - apply (read_array_inv (NumericArray char_I)) in Hx as (_ & _ & -> & ->). done.
  - apply (read_array_inv StringArray) in Hx as (_ & _ & -> & ->). done.
Qed.

Lemma read_fields_decodable (type_list : list Z) (data : list byte) (pos : nat)
    (fs : list (ParField pyval)) (pos' : nat) :
  read_fields type_list data pos = OK (fs, pos') →
  length fs = length type_list ∧ forallb decodable_field fs = true.
Proof.
  revert pos fs. induction type_list as [|dt rest IH]; intros pos fs.
  - intros [= <- <-]. done.
  - cbn [read_fields]. intros Hread.
    apply reader_bind_inv in Hread as (v & p1 & Hv & Hread).
    apply reader_bind_inv in Hread as (fs' & p2 & Hfs & Hret).
    injection Hret as <- <-. apply IH in Hfs as [Hlen Hdec].
    apply read_field_value_decodable in Hv.
    cbn [length forallb]. rewrite Hv, Hdec, Hlen. done.
Qed.

Lemma read_entry_decodable (data : list byte) (pos : nat) (e : ParEntry pyval)
    (pos' : nat) :
  read_entry data pos = OK (e, pos') → decodable_entry e = true.
Proof.
  unfold read_entry. intros Hread.
  apply reader_bind_inv in Hread as (nm & p1 & Hnm & Hread).
  apply reader_bind_inv in Hread as (ub & p2 & Hub & Hread).
  apply reader_bind_inv in Hread as (cnt & p3 & Hcnt & Hread).
  apply reader_bind_inv in Hread as (ua & p4 & Hua & Hread).
  apply reader_bind_inv in Hread as (ub16 & p5 & Hub16 & Hread).
  apply reader_bind_inv in Hread as (tl & p6 & Htl & Hread).
  apply reader_bind_inv in Hread as (fs & p7 & Hfs & Hret).
  injection Hret as <- <-.
  apply read_delphi_string_inv in Hnm.
  apply (packed_read_in_range fmt_b) in Hub.
  apply (packed_read_in_range fmt_H) in Hcnt, Hua, Hub16.
  apply (read_repeat_inv _ (λ _, True)) in Htl as [Htl _]; [|done].
  apply read_fields_decodable in Hfs as [Hlen Hdec].
  unfold decodable_entry. cbn [name unknown_byte unknown_u16a unknown_u16b fields].
  rewrite (bool_decide_eq_true_2 _ Hnm), Hub, Hua, Hub16, Hdec. cbn [andb].
  rewrite andb_true_r. apply bool_decide_eq_true.
  rewrite Hlen, Htl. apply bool_decide_eq_true in Hcnt.
  change (fmt_min fmt_H) with 0 in Hcnt. lia.
Qed.

Lemma read_list_decodable (data : list byte) (pos : nat) (pl : ParList pyval)
    (pos' : nat) :
  read_list data pos = OK (pl, pos') → decodable_list pl = true.
Proof.
  unfold read_list. intros Hread.
  apply reader_bind_inv in Hread as (u1 & p1 & Hu1 & Hread).
  apply reader_bind_inv in Hread as (u2 & p2 & Hu2 & Hread).
  apply reader_bind_inv in Hread as (cnt & p3 & Hcnt & Hread).
  apply reader_bind_inv in Hread as (es & p4 & Hes & Hret).
  injection Hret as <- <-.
  apply (packed_read_in_range fmt_I) in Hu1, Hu2, Hcnt.
  apply (read_repeat_inv _ (λ e, decodable_entry e = true)) in Hes as [Hlen Hdec].
  2:{ intros p e p'. apply read_entry_decodable. }
  unfold decodable_list. cbn [unknown1 unknown2 entries].
  rewrite Hu1, Hu2. cbn [andb]. apply andb_true_intro. split.
  - apply bool_decide_eq_true. rewrite Hlen. apply bool_decide_eq_true in Hcnt.
    change (fmt_min fmt_I) with 0 in Hcnt. lia.
  - apply forallb_forall. intros e He%list_elem_of_In.
    rewrite Forall_forall in Hdec. by apply Hdec.
Qed.

Lemma read_par_decodable (data : list byte) (par : ParFile pyval) :
  read_par data = OK par → decodable_file par = true.
Proof.
  unfold read_par.
  destruct (read_par_body data 0%nat) as [[par' end_pos]|e] eqn:Hbody; [|done].
  intros [= ->]. unfold read_par_body in Hbody.
  apply reader_bind_inv in Hbody as (magic & p1 & _ & Hbody).
  destruct (decide (magic ≠ PAR_MAGIC)); [done|].
  apply reader_bind_inv in Hbody as (ver & p2 & Hver & Hbody).
  apply reader_bind_inv in Hbody as (cnt & p3 & Hcnt & Hbody).
  apply reader_bind_inv in Hbody as (pad & p4 & _ & Hbody).
  apply reader_bind_inv in Hbody as (ls & p5 & Hls & Hret).
  injection Hret as <- <-.
  apply (packed_read_in_range fmt_I) in Hver, Hcnt.
  apply (read_repeat_inv _ (λ pl, decodable_list pl = true)) in Hls as [Hlen Hdec].
  2:{ intros p pl p'. apply read_list_decodable. }
  unfold decodable_file. cbn [version lists]. rewrite Hver. cbn [andb].
  apply andb_true_intro. split.
  - apply bool_decide_eq_true. rewrite Hlen. apply bool_decide_eq_true in Hcnt.
    change (fmt_min fmt_I) with 0 in Hcnt. lia.
  - apply forallb_forall. intros pl Hpl%list_elem_of_In.
    rewrite Forall_forall in Hdec. by apply Hdec.
Qed.

Lemma reads_back_array (k : array_kind) (l : list atom) :
  wf_count fmt_I (length l) = true → forallb (item_decodable k) l = true →
  reads_back (write_array k l) (reader_bind (read_array k) (λ l, reader_ret (VList l)))
             (VList (recode_atom <$> l)).
Proof.
  intros Hn Hl. destruct (array_encoding k l Hn Hl) as (tail & He & Hp).
  apply (reads_back_bind_ret _ _ VList). by eexists.
Qed.

Lemma reads_back_decodable_field (f : ParField pyval) :
  decodable_field f = true →
  reads_back (write_field_value f) (read_field_value (dtype f))
             (recode_value (value f)).
Proof.
  destruct f as [dt v]. unfold decodable_field, write_field_value, read_field_value.
  cbn [dtype value].
  destruct v as [a|l].
  - intros Hwf. repeat (apply orb_prop in Hwf as [Hwf|Hwf]);
      apply andb_prop in Hwf as [->%bool_decide_eq_true Hitem];
      repeat (case_decide; try done).
    + destruct a as [z| |]; try done.
      cbn [writer_with as_atom as_int as_float as_str].
      by apply (reads_back_bind_ret _ _ (λ v, VAtom (AInt v))), reads_back_i32.
    + destruct a as [|b|]; try done.
      cbn [writer_with as_atom as_int as_float as_str].
      by apply (reads_back_bind_ret _ _ (λ v, VAtom (AFloat v))), reads_back_f32.
    + destruct a as [z| |]; try done.
      cbn [writer_with as_atom as_int as_float as_str].
      by apply (reads_back_bind_ret _ _ (λ v, VAtom (AInt v))), reads_back_u32.
    + destruct a as [| |s]; try done.
      cbn [writer_with as_atom as_int as_float as_str recode_value recode_atom].
      apply (reads_back_bind_ret _ _ (λ v, VAtom (AStr v))), reads_back_delphi_string.
      by apply bool_decide_eq_true in Hitem.
  - intros [Hn Hwf]%andb_prop. repeat (apply orb_prop in Hwf as [Hwf|Hwf]);
      apply andb_prop in Hwf as [->%bool_decide_eq_true Hitems];
      repeat (case_decide; try done); cbn [writer_with as_list recode_value].
    + by apply (reads_back_array (NumericArray char_i)).
    + by apply (reads_back_array (NumericArray char_f)).
    + by apply (reads_back_array (NumericArray char_I)).
    + by apply (reads_back_array StringArray).
Qed.

Lemma decodable_field_dtype (f : ParField pyval) :
  decodable_field f = true → in_range fmt_B (dtype f) = true.
Proof.
  unfold decodable_field. destruct (value f).
  - intros Hwf. repeat (apply orb_prop in Hwf as [Hwf|Hwf]);
      apply andb_prop in Hwf as [->%bool_decide_eq_true _]; done.
  - intros [_ Hwf]%andb_prop. repeat (apply orb_prop in Hwf as [Hwf|Hwf]);
      apply andb_prop in Hwf as [->%bool_decide_eq_true _]; done.
Qed.

Lemma reads_back_decodable_fields (fs : list (ParField pyval)) :
  forallb decodable_field fs = true →
  reads_back (writer_for write_field_value fs) (read_fields (dtype <$> fs))
             (recode_field <$> fs).
Proof.
  induction fs as [|f fs IH]; [intros _; apply reads_back_ret|].
  intros Hwf. simpl in Hwf. apply andb_prop in Hwf as [Hf Hfs].
  rewrite !fmap_cons. cbn [writer_for read_fields].
  eapply reads_back_bind; [by apply reads_back_decodable_field|].
  unfold recode_field at 1.
  by apply (reads_back_bind_ret _ _ (λ fs', mkParField _ _ :: fs')), IH.
Qed.

Lemma reads_back_decodable_entry (e : ParEntry pyval) :
  decodable_entry e = true → reads_back (write_entry e) read_entry (recode_entry e).
Proof.
  destruct e as [nm ub ua ub16 fs].
  unfold decodable_entry, write_entry, read_entry, recode_entry.
  cbn [name unknown_byte unknown_u16a unknown_u16b fields].
  intros [[[[[Hnm Hub]%andb_prop Hua]%andb_prop Hub16]%andb_prop Hcnt]%andb_prop
            Hfs]%andb_prop.
  apply bool_decide_eq_true in Hnm.
  eapply reads_back_bind; [by apply reads_back_delphi_string|].
  eapply reads_back_bind; [by apply reads_back_i8|].
  eapply reads_back_bind; [by apply reads_back_u16, in_range_count_H|].
  eapply reads_back_bind; [by apply reads_back_u16|].
  eapply reads_back_bind; [by apply reads_back_u16|].
  cbv beta. rewrite Nat2Z.id.
  eapply reads_back_bind.
  { apply (reads_back_repeat _ _ dtype).
    eapply Forall_impl; [by apply forallb_Forall|]. intros f Hf. cbv beta.
    by apply reads_back_u8, decodable_field_dtype. }
  by apply (reads_back_bind_ret _ _ (mkParEntry (recode nm) ub ua ub16)),
           reads_back_decodable_fields.
Qed.

Lemma reads_back_decodable_list (pl : ParList pyval) :
  decodable_list pl = true → reads_back (write_list pl) read_list (recode_list pl).
Proof.
  destruct pl as [u1 u2 es]. unfold decodable_list, write_list, read_list, recode_list.
  cbn [unknown1 unknown2 entries].
  intros [[[Hu1 Hu2]%andb_prop Hcnt]%andb_prop Hes]%andb_prop.
  eapply reads_back_bind; [by apply reads_back_u32|].
  eapply reads_back_bind; [by apply reads_back_u32|].
  eapply reads_back_bind; [by apply reads_back_u32, in_range_count|].
  cbv beta. rewrite Nat2Z.id.
  apply (reads_back_bind_ret _ _ (mkParList u1 u2)).
  apply (reads_back_repeat _ _ recode_entry).
  eapply Forall_impl; [by apply forallb_Forall|].
  intros e He. by apply reads_back_decodable_entry.
Qed.

(** The bytes [write_par_body] appends for a model the reader could have
    returned, and what [read_par_body] makes of them with any tail behind. *)
Lemma read_written_decodable_body (par : ParFile pyval) :
  decodable_file par = true →
  ∃ bs,
    emits (write_par_body par) bs ∧
    ∀ tail,
      read_par_body (bs ++ tail) 0%nat
      = OK (mkParFile (version par) (recode_list <$> lists par) None false
              (match tail with [] => None | _ :: _ => Some tail end),
            length bs).
Proof.
  destruct par as [ver ls wh wc td]. unfold decodable_file, write_par_body.
  cbn [version lists].
  intros [[Hver Hcnt]%andb_prop Hls]%andb_prop.
  destruct (reads_back_u32 ver Hver) as (bver & Hever & Hpver).
  destruct (reads_back_u32 _ (in_range_count _ Hcnt)) as (bcnt & Hecnt & Hpcnt).
  destruct (reads_back_u32 0 eq_refl) as (bpad & Hepad & Hppad).
  assert (Hlists : reads_back (writer_for write_list ls)
                     (read_repeat read_list (length ls)) (recode_list <$> ls)).
  { apply (reads_back_repeat _ _ recode_list).
    eapply Forall_impl; [by apply forallb_Forall|].
    intros pl Hpl. by apply reads_back_decodable_list. }
  destruct Hlists as (bls & Hels & Hpls).
  exists (PAR_MAGIC ++ bver ++ bcnt ++ bpad ++ bls). split.
  { repeat (apply emits_seq; [done || apply emits_bytes|]). done. }
  intros tail. unfold read_par_body.
  remember ((PAR_MAGIC ++ bver ++ bcnt ++ bpad ++ bls) ++ tail) as data eqn:Hdata.
  assert (Hd0 : drop 0 data = PAR_MAGIC ++ (bver ++ bcnt ++ bpad ++ bls ++ tail)).
  { rewrite Hdata. by rewrite !(assoc_L (++)). }
  read_step (parses_bytes PAR_MAGIC) Hd0 (Nat.le_0_l (length data)) Hd1 Hle1.
  rewrite decide_False by (intros Hne; by apply Hne).
  read_step Hpver Hd1 Hle1 Hd2 Hle2.
  read_step Hpcnt Hd2 Hle2 Hd3 Hle3.
  read_step Hppad Hd3 Hle3 Hd4 Hle4.
  rewrite Nat2Z.id.
  read_step Hpls Hd4 Hle4 Hd5 Hle5.
  assert (Hpos : (0 + length PAR_MAGIC + length bver + length bcnt + length bpad
                  + length bls)%nat
                 = length (PAR_MAGIC ++ bver ++ bcnt ++ bpad ++ bls)).
  { rewrite !length_app. lia. }
  rewrite Hpos in Hd5 |- *. rewrite Hd5.
  assert (Hlen : length data
                 = (length (PAR_MAGIC ++ bver ++ bcnt ++ bpad ++ bls) + length tail)%nat).
  { by rewrite Hdata, length_app. }
  rewrite Hlen. generalize (length (PAR_MAGIC ++ bver ++ bcnt ++ bpad ++ bls)).
  intros n. destruct tail as [|b t].
  - rewrite decide_False by (simpl; lia). done.
  - rewrite decide_True by (simpl; lia). done.
Qed.

(** Whatever [read_par] accepts, [write_par] can write: a model that was
    read is never refused by the writer, whatever bytes it was read from. *)
Theorem loaded_model_can_be_saved (data : list byte) (par : ParFile pyval) :
  read_par data = OK par → ∃ out, write_par par = OK out.
Proof.
  intros Hread%read_par_decodable.
  destruct (read_written_decodable_body par Hread) as (bs & He & _).
  unfold write_par. rewrite (He []).
  destruct (trailing_data par) as [[|b t]|]; by eexists.
Qed.

Lemma loaded_model_can_be_saved_witness :
  read_par (minimal_bytes x01 xe9) = OK
    (mkParFile PAR_VERSION_TW1
       [mkParList 0 0
          [mkParEntry [REPLACEMENT_CHARACTER; 101; 115; 116] 0 0 0
             [mkParField TYPE_INT32 (VAtom (AInt 42))]]]
       None false None) ∧
  ∃ out,
    write_par (mkParFile PAR_VERSION_TW1
       [mkParList 0 0
          [mkParEntry [REPLACEMENT_CHARACTER; 101; 115; 116] 0 0 0
             [mkParField TYPE_INT32 (VAtom (AInt 42))]]]
       None false None) = OK out.
Proof.
  split; [reflexivity|].
  apply (loaded_model_can_be_saved (minimal_bytes x01 xe9)). reflexivity.
Defined.

(** One trip through the codec at the level of the model: for a model the
    reader could have returned, with no NaN among its float32 payloads,
    reading what [write_par] wrote gives the model back with every
    character outside ASCII turned into a question mark, and nothing else
    changed. NaN payloads are left out for the reason given at [not_nan]:
    the embedding carries bit patterns, and what [struct] does to the bits
    of a signalling NaN is not part of it. *)
Theorem written_model_read_back (par : ParFile pyval) :
  decodable_file par = true → nan_free_file par = true →
  ∃ data,
    write_par par = OK data ∧
    read_par data
    = OK (mkParFile (version par) (recode_list <$> lists par) None false
            (trailing_data (as_decoded par))).
Proof.
  intros Hdec _. destruct (read_written_decodable_body par Hdec) as (bs & He & Hread).
  unfold write_par, read_par. rewrite (He []). cbn [app].
  unfold as_decoded. cbn [trailing_data].
  destruct (trailing_data par) as [[|b t]|].
  - exists bs. split; [done|]. rewrite <- (app_nil_r bs) at 1. by rewrite Hread.
  - exists (bs ++ b :: t). split; [done|]. by rewrite Hread.
  - exists bs. split; [done|]. rewrite <- (app_nil_r bs) at 1. by rewrite Hread.
Qed.

Lemma written_model_read_back_witness :
  let par := one_list_par [entry_named [233; 116; 233] [int_field 7]] in
  decodable_file par = true ∧ nan_free_file par = true ∧
  ∃ data,
    write_par par = OK data ∧
    read_par data
    = OK (mkParFile (version par) (recode_list <$> lists par) None false
            (trailing_data (as_decoded par))).
Proof.
  intros par. split; [reflexivity|]. split; [reflexivity|].
  apply (written_model_read_back par); reflexivity.
Defined.

(** ** Truncated files *)

Lemma cut_safe_ret {A : Type} (v : A) : cut_safe (reader_ret v).
Proof.
  intros data pos v' pos' [= <- <-]. split; [done|]. split; [done|].
  intros k Hk. by rewrite decide_True.
Qed.

Lemma cut_safe_raise {A : Type} (e : exn) : cut_safe (@reader_raise A e).
Proof. by intros data pos v pos'. Qed.

Lemma cut_safe_bind {A B : Type} (r : Reader A) (k : A → Reader B) :
  cut_safe r → (∀ a, cut_safe (k a)) → cut_safe (reader_bind r k).
Proof.
  intros Hr Hk data pos v pos' Hrun.
  apply reader_bind_inv in Hrun as (a & mid & Ha & Hb).
  destruct (Hr _ _ _ _ Ha) as (Hle1 & Hin1 & Hcut1).
  destruct (Hk a _ _ _ _ Hb) as (Hle2 & Hin2 & Hcut2).
  split; [lia|]. split; [by intros ?; apply Hin2, Hin1|].
  intros c Hc. specialize (Hcut1 c Hc). unfold reader_bind.
  destruct (decide (mid ≤ c)%nat) as [Hmid|Hmid].
  - rewrite Hcut1. apply (Hcut2 c Hmid).
  - destruct Hcut1 as (p & ->). rewrite decide_False by lia. by exists p.
Qed.

Lemma take_drop_cut {A : Type} (l : list A) (pos n k : nat) :
  (pos + n ≤ k)%nat → take n (drop pos (take k l)) = take n (drop pos l).
Proof.
  intros Hk. rewrite !take_drop_commute, take_take. do 2 f_equal. lia.
Qed.

Lemma cut_safe_packed (f : format) :
  cut_safe (reader_bind (_advance (calcsize f)) (unpack_from f)).
Proof.
  intros data pos v pos' Hrun.
  apply packed_read_inv in Hrun as (-> & Hle & -> & _).
  split; [lia|]. split; [done|]. intros k Hk.
  destruct (decide (pos + calcsize f ≤ k)%nat) as [Hin|Hout].
  - rewrite packed_read_ok by (rewrite length_take; lia).
    by rewrite take_drop_cut.
  - exists pos. unfold reader_bind, _advance.
    rewrite decide_True; [done|]. rewrite length_take. lia.
Qed.

Lemma cut_safe_bytes (n : nat) : cut_safe (read_bytes n).
Proof.
  intros data pos v pos'. unfold read_bytes.
  destruct (decide (length data < pos + n)%nat) as [|Hle]; [done|].
  intros [= <- <-]. split; [lia|]. split; [lia|]. intros k Hk.
  destruct (decide (pos + n ≤ k)%nat) as [Hin|Hout].
  - rewrite decide_False by (rewrite length_take; lia).
    by rewrite take_drop_cut.
  - exists pos. rewrite decide_True; [done|]. rewrite length_take. lia.
Qed.

Lemma cut_safe_u8 : cut_safe read_u8.
Proof. exact (cut_safe_packed fmt_B). Qed.
Lemma cut_safe_i8 : cut_safe read_i8.
Proof. exact (cut_safe_packed fmt_b). Qed.
Lemma cut_safe_u16 : cut_safe read_u16.
Proof. exact (cut_safe_packed fmt_H). Qed.
Lemma cut_safe_u32 : cut_safe read_u32.
Proof. exact (cut_safe_packed fmt_I). Qed.
Lemma cut_safe_i32 : cut_safe read_i32.
Proof. exact (cut_safe_packed fmt_i). Qed.
Lemma cut_safe_f32 : cut_safe read_f32.
Proof. exact (cut_safe_packed fmt_f). Qed.
Lemma cut_safe_u64 : cut_safe read_u64.
Proof. exact (cut_safe_packed fmt_Q). Qed.

Create HintDb cut_safe.
#[local] Hint Resolve cut_safe_ret cut_safe_raise cut_safe_bytes cut_safe_u8
  cut_safe_i8 cut_safe_u16 cut_safe_u32 cut_safe_i32 cut_safe_f32 cut_safe_u64
  : cut_safe.

(** A reader built from [reader_bind] over readers known to be safe. *)
Ltac cut_safe_steps :=
  repeat first
    [ apply cut_safe_bind; [solve [auto with cut_safe]|]; intros ?
    | solve [auto with cut_safe] ].

Lemma cut_safe_repeat {A : Type} (r : Reader A) (n : nat) :
  cut_safe r → cut_safe (read_repeat r n).
Proof.
  intros Hr. induction n as [|n IH]; cbn [read_repeat]; cut_safe_steps.
Qed.
#[local] Hint Resolve cut_safe_repeat : cut_safe.

Lemma cut_safe_delphi_string : cut_safe read_delphi_string.
Proof.
  unfold read_delphi_string. apply cut_safe_bind; [apply cut_safe_u32|].
  intros len. repeat case_decide; cut_safe_steps.
Qed.
#[local] Hint Resolve cut_safe_delphi_string : cut_safe.

Lemma cut_safe_array_item (c : fmt_char) : cut_safe (read_array_item c).
Proof. destruct c; cbn [read_array_item]; cut_safe_steps. Qed.
#[local] Hint Resolve cut_safe_array_item : cut_safe.

Lemma cut_safe_extra_array (c : fmt_char) : cut_safe (_read_extra_array c).
Proof.
  unfold _read_extra_array. apply cut_safe_bind; [apply cut_safe_u64|].
  intros check. case_decide; cut_safe_steps.
Qed.

Lemma cut_safe_extra_string_array : cut_safe _read_extra_string_array.
Proof.
  unfold _read_extra_string_array. apply cut_safe_bind; [apply cut_safe_u64|].
  intros check. case_decide; [cut_safe_steps|].
  apply cut_safe_bind; [apply cut_safe_u32|]. intros len.
  apply cut_safe_repeat. cut_safe_steps.
Qed.
#[local] Hint Resolve cut_safe_extra_array cut_safe_extra_string_array : cut_safe.

Lemma cut_safe_field_value (dt : Z) : cut_safe (read_field_value dt).
Proof.
  unfold read_field_value. repeat case_decide; cut_safe_steps.
  by intros data pos v pos'.
Qed.
#[local] Hint Resolve cut_safe_field_value : cut_safe.

Lemma cut_safe_fields (type_list : list Z) : cut_safe (read_fields type_list).
Proof.
  induction type_list as [|dt rest IH]; cbn [read_fields]; cut_safe_steps.
Qed.
#[local] Hint Resolve cut_safe_fields : cut_safe.

Lemma cut_safe_entry : cut_safe read_entry.
Proof. unfold read_entry. cut_safe_steps. Qed.
#[local] Hint Resolve cut_safe_entry : cut_safe.

Lemma cut_safe_list : cut_safe read_list.
Proof. unfold read_list. cut_safe_steps. Qed.
#[local] Hint Resolve cut_safe_list : cut_safe.


(** One step of a reader run over a cut buffer. *)
Lemma cut_step {A B : Type} (r : Reader A) (k : A → Reader B) (data : list byte)
    (pos : nat) (a : A) (mid c : nat) :
  cut_safe r → r data pos = OK (a, mid) → (pos ≤ c)%nat →
  (pos ≤ mid)%nat ∧
  ((pos ≤ length data)%nat → (mid ≤ length data)%nat) ∧
  if decide (mid ≤ c)%nat
  then reader_bind r k (take c data) pos = k a (take c data) mid
  else ∃ p, reader_bind r k (take c data) pos = Raise (ReadPastEnd p).
Proof.
  intros Hr Ha Hc. destruct (Hr _ _ _ _ Ha) as (Hle & Hin & Hcut).
  split; [done|]. split; [done|]. specialize (Hcut c Hc). unfold reader_bind.
  destruct (decide (mid ≤ c)%nat).
  - by rewrite Hcut.
  - destruct Hcut as (p & ->). by exists p.
Qed.

(** A file cut short. Let [read_par] return a model from a buffer, and cut
    the buffer at [k]. If the cut is inside the part the reader parsed
    (everything before the trailing data), [read_par] raises "Read past
    end": a truncated file is never taken for a shorter one. If the cut is
    inside the trailing data, the same model comes back with what is left
    of the trailing data. *)
Theorem truncated_file (data : list byte) (par : ParFile pyval) (k : nat) :
  read_par data = OK par →
  let parsed := (length data - length (default [] (trailing_data par)))%nat in
  if decide (k < parsed)%nat
  then ∃ p, read_par (take k data) = Raise (ReadPastEnd p)
  else read_par (take k data)
       = OK (mkParFile (version par) (lists par) None false
               (match drop parsed (take k data) with
                | [] => None
                | b :: t => Some (b :: t)
                end)).
Proof.
  unfold read_par.
  destruct (read_par_body data 0%nat) as [[par' end_pos]|e] eqn:Hbody; [|done].
  intros [= ->]. unfold read_par_body in Hbody |- *.
  apply reader_bind_inv in Hbody as (magic & p1 & Hmagic & Hbody).
  destruct (decide (magic ≠ PAR_MAGIC)) as [|Hm]; [done|].
  apply reader_bind_inv in Hbody as (ver & p2 & Hver & Hbody).
  apply reader_bind_inv in Hbody as (cnt & p3 & Hcnt & Hbody).
  apply reader_bind_inv in Hbody as (pad & p4 & Hpad & Hbody).
  apply reader_bind_inv in Hbody as (ls & p5 & Hls & Hret).
  injection Hret as <- <-. cbn [trailing_data version lists].
  set (rest := λ (magic : list byte), _) in |- *.
  destruct (cut_step (read_bytes 4) rest data 0 magic p1 k
              (cut_safe_bytes 4) Hmagic (Nat.le_0_l k)) as (Hle1 & Hin1 & Hs1).
  specialize (Hin1 (Nat.le_0_l _)).
  assert (Hparsed : (length data
                     - length (default [] (if decide (p5 < length data)%nat
                                           then Some (drop p5 data) else None))
                     = p5 ∧ p1 ≤ p2 ∧ p2 ≤ p3 ∧ p3 ≤ p4 ∧ p4 ≤ p5)%nat).
  { destruct (cut_safe_u32 _ _ _ _ Hver) as (Hle2 & Hin2 & _).
    destruct (cut_safe_u32 _ _ _ _ Hcnt) as (Hle3 & Hin3 & _).
    destruct (cut_safe_u32 _ _ _ _ Hpad) as (Hle4 & Hin4 & _).
    destruct (cut_safe_repeat read_list _ cut_safe_list _ _ _ _ Hls)
      as (Hle5 & Hin5 & _).
    split; [|lia].
    destruct (decide (p5 < length data)%nat); cbn [default id];
      [rewrite length_drop|]; simpl; lia. }
  destruct Hparsed as (-> & Hp12 & Hp23 & Hp34 & Hp45).
  destruct (decide (k < p5)%nat) as [Hcut|Hcut].
  - (* the cut is inside the parsed part *)
    destruct (decide (p1 ≤ k)%nat) as [H1|H1];
      [|destruct Hs1 as (p & ->); by exists p].
    rewrite Hs1. unfold rest. rewrite decide_False by done.
    match goal with |- context [reader_bind read_u32 ?k1 _ _] =>
      destruct (cut_step read_u32 k1 data p1 ver p2 k cut_safe_u32 Hver H1)
        as (_ & _ & Hs2) end.
    destruct (decide (p2 ≤ k)%nat) as [H2|H2];
      [|destruct Hs2 as (p & ->); by exists p].
    rewrite Hs2.
    match goal with |- context [reader_bind read_u32 ?k1 _ _] =>
      destruct (cut_step read_u32 k1 data p2 cnt p3 k cut_safe_u32 Hcnt H2)
        as (_ & _ & Hs3) end.
    destruct (decide (p3 ≤ k)%nat) as [H3|H3];
      [|destruct Hs3 as (p & ->); by exists p].
    rewrite Hs3.
    match goal with |- context [reader_bind read_u32 ?k1 _ _] =>
      destruct (cut_step read_u32 k1 data p3 pad p4 k cut_safe_u32 Hpad H3)
        as (_ & _ & Hs4) end.
    destruct (decide (p4 ≤ k)%nat) as [H4|H4];
      [|destruct Hs4 as (p & ->); by exists p].
    rewrite Hs4.
    match goal with |- context [reader_bind ?r ?k1 _ _] =>
      destruct (cut_step r k1 data p4 ls p5 k
                  (cut_safe_repeat read_list _ cut_safe_list) Hls H4)
        as (_ & _ & Hs5) end.
    rewrite decide_False in Hs5 by lia. destruct Hs5 as (p & ->). by exists p.
  - (* the cut is inside the trailing data *)
    rewrite decide_True in Hs1 by lia. rewrite Hs1. unfold rest.
    rewrite decide_False by done.
    match goal with |- context [reader_bind read_u32 ?k1 _ _] =>
      destruct (cut_step read_u32 k1 data p1 ver p2 k cut_safe_u32 Hver ltac:(lia))
        as (_ & _ & Hs2) end.
    rewrite decide_True in Hs2 by lia. rewrite Hs2.
    match goal with |- context [reader_bind read_u32 ?k1 _ _] =>
      destruct (cut_step read_u32 k1 data p2 cnt p3 k cut_safe_u32 Hcnt ltac:(lia))
        as (_ & _ & Hs3) end.
    rewrite decide_True in Hs3 by lia. rewrite Hs3.
    match goal with |- context [reader_bind read_u32 ?k1 _ _] =>
      destruct (cut_step read_u32 k1 data p3 pad p4 k cut_safe_u32 Hpad ltac:(lia))
        as (_ & _ & Hs4) end.
    rewrite decide_True in Hs4 by lia. rewrite Hs4.
    match goal with |- context [reader_bind ?r ?k1 _ _] =>
      destruct (cut_step r k1 data p4 ls p5 k
                  (cut_safe_repeat read_list _ cut_safe_list) Hls ltac:(lia))
        as (_ & _ & Hs5) end.
    rewrite decide_True in Hs5 by lia. rewrite Hs5.
    do 3 f_equal. case_decide as Hlt.
    + destruct (drop p5 (take k data)) as [|b t] eqn:Hd; [|done].
      apply (f_equal length) in Hd. rewrite length_drop in Hd. simpl in Hd. lia.
    + by rewrite drop_ge by lia.
Qed.

Lemma truncated_file_witness :
  read_par (minimal_bytes x00 x54 ++ [x2a; x2b]) =
    OK (mkParFile (version minimal_par) (lists minimal_par) None false
          (Some [x2a; x2b])) ∧
  (∃ p, read_par (take 30 (minimal_bytes x00 x54 ++ [x2a; x2b])) = Raise (ReadPastEnd p)) ∧
  read_par (take 49 (minimal_bytes x00 x54 ++ [x2a; x2b]))
  = OK (mkParFile (version minimal_par) (lists minimal_par) None false (Some [x2a])).
Proof.
  split; [reflexivity|]. split.
  - apply (truncated_file (minimal_bytes x00 x54 ++ [x2a; x2b])
             (mkParFile (version minimal_par) (lists minimal_par) None false
                (Some [x2a; x2b])) 30 eq_refl).
  - apply (truncated_file (minimal_bytes x00 x54 ++ [x2a; x2b])
             (mkParFile (version minimal_par) (lists minimal_par) None false
                (Some [x2a; x2b])) 49 eq_refl).
Defined.

(** ** The check marks and the selection *)

Lemma select_all_lookup (l : list Diff) (k idx : nat) (checks : gmap nat bool) :
  foldl (λ checks '(i, d),
           if decide (type d ≠ source_only) then <[i := true]> checks else checks)
        checks (imap (λ i, pair (k + i)%nat) l) !! idx
  = match (if decide (k ≤ idx)%nat then l !! (idx - k)%nat else None) with
    | Some d => if decide (type d ≠ source_only) then Some true else checks !! idx
    | None => checks !! idx
    end.
Proof.
  revert k checks. induction l as [|d l IH]; intros k checks.
  { cbn [imap foldl]. by case_decide. }
  rewrite imap_cons. cbn [foldl].
  rewrite (imap_ext _ (λ i, pair (S k + i)%nat))
    by (intros i x _; simpl; f_equal; lia).
  rewrite (IH (S k)). rewrite Nat.add_0_r.
  destruct (decide (S k ≤ idx)%nat) as [Hlt|Hge].
  - rewrite (decide_True (P := (k ≤ idx)%nat)) by lia.
    replace (idx - k)%nat with (S (idx - S k)) by lia. cbn [lookup list_lookup].
    assert (Hk : (if decide (type d ≠ source_only) then <[k := true]> checks
                  else checks) !! idx = checks !! idx).
    { destruct (decide (type d ≠ source_only)); [|done].
      by rewrite lookup_insert_ne by lia. }
    by rewrite Hk.
  - destruct (decide (k ≤ idx)%nat) as [Hle|Hgt].
    + assert (idx = k) as -> by lia. rewrite Nat.sub_diag. cbn [lookup list_lookup].
      destruct (decide (type d ≠ source_only)); [|done].
      by rewrite lookup_insert_eq.
    + destruct (decide (type d ≠ source_only)); [|done].
      by rewrite lookup_insert_ne by lia.
Qed.

Lemma cmp_select_all_lookup (cmp_diffs : list Diff) (cmp_checks : gmap nat bool)
    (idx : nat) :
  _cmp_select_all cmp_diffs cmp_checks !! idx
  = match cmp_diffs !! idx with
    | Some d => if decide (type d ≠ source_only) then Some true
                else cmp_checks !! idx
    | None => cmp_checks !! idx
    end.
Proof.
  unfold _cmp_select_all.
  rewrite (imap_ext pair (λ i, pair (0 + i)%nat)) by done.
  rewrite select_all_lookup. rewrite decide_True by lia. by rewrite Nat.sub_0_r.
Qed.

Lemma initial_checks_lookup (cmp_diffs : list Diff) (idx : nat) :
  initial_checks cmp_diffs !! idx
  = if decide (idx < length cmp_diffs)%nat then Some false else None.
Proof.
  unfold initial_checks. generalize (length cmp_diffs). intros n.
  induction n as [|n IH].
  - cbn [seq foldl]. rewrite lookup_empty. by rewrite decide_False by lia.
  - rewrite seq_S, foldl_app. cbn [foldl Nat.add].
    destruct (decide (idx = n)) as [->|Hne].
    + rewrite lookup_insert_eq. by rewrite decide_True by lia.
    + rewrite lookup_insert_ne by done. rewrite IH.
      destruct (decide (idx < n)%nat), (decide (idx < S n)%nat); (done || lia).
Qed.

Lemma selected_diffs_spec (cmp_diffs : list Diff) (cmp_checks : gmap nat bool)
    (p : nat * Diff) :
  p ∈ selected_diffs cmp_diffs cmp_checks ↔
  cmp_diffs !! p.1 = Some p.2 ∧ cmp_checks !! p.1 = Some true.
Proof.
  unfold selected_diffs. rewrite list_elem_of_filter.
  destruct p as [i d]. cbn [fst snd].
  rewrite list_elem_of_lookup. split.
  - intros [Hchk (j & Hj)]. rewrite list_lookup_imap in Hj.
    destruct (cmp_diffs !! j) as [d'|] eqn:Hd; [|done]. injection Hj as <- <-.
    split; [done|]. by destruct (cmp_checks !! j) as [[|]|].
  - intros [Hd Hchk]. split; [by rewrite Hchk|]. exists i.
    by rewrite list_lookup_imap, Hd.
Qed.

Lemma act_keeps_source_only (cmp_diffs : list Diff) (cmp_checks : gmap nat bool)
    (a : cmp_action) :
  no_source_only_checked cmp_diffs cmp_checks →
  no_source_only_checked cmp_diffs (cmp_act cmp_diffs cmp_checks a).
Proof.
  intros Hinv i d Hd Hso. destruct a as [idx| |]; cbn [cmp_act].
  - unfold _cmp_on_tree_click. destruct (cmp_diffs !! idx) as [d'|] eqn:Hd';
      [|by apply (Hinv i d)].
    destruct (decide (type d' = source_only)) as [|Hty]; [by apply (Hinv i d)|].
    destruct (decide (idx = i)) as [->|Hne]; [congruence|].
    rewrite lookup_insert_ne by done. by apply (Hinv i d).
  - rewrite cmp_select_all_lookup, Hd.
    rewrite decide_False by (intros Hne; by apply Hne). by apply (Hinv i d).
  - unfold _cmp_deselect_all. rewrite lookup_fmap.
    by destruct (cmp_checks !! i).
Qed.

(** Whatever the user does with the check marks after a compare (clicks on
    check boxes, "Select All", "Deselect All", in any order and number),
    no [source_only] record is in the selection that [_cmp_merge] reads. *)
Theorem source_only_never_selected (cmp_diffs : list Diff)
    (actions : list cmp_action) :
  Forall (λ p, type p.2 ≠ source_only)
         (selected_diffs cmp_diffs
            (foldl (cmp_act cmp_diffs) (initial_checks cmp_diffs) actions)).
Proof.
  assert (Hinv : no_source_only_checked cmp_diffs
                   (foldl (cmp_act cmp_diffs) (initial_checks cmp_diffs) actions)).
  { assert (Hinit : no_source_only_checked cmp_diffs (initial_checks cmp_diffs)).
    { intros i d Hd _. rewrite initial_checks_lookup. by case_decide. }
    revert Hinit. generalize (initial_checks cmp_diffs).
    induction actions as [|a actions IH]; intros checks Hchecks; [done|].
    cbn [foldl]. by apply IH, act_keeps_source_only. }
  apply Forall_forall. intros p [Hd Hchk]%selected_diffs_spec Hso.
  by apply (Hinv p.1 p.2).
Qed.

(** After "Deselect All" nothing is selected, and [_cmp_merge] returns
    without touching the source model ("No entries selected"). *)
Theorem deselect_all_then_merge {V Store : Type} (int_zero : V)
    (copy_value : V → Store → V * Store) (confirm : bool) (src inp : ParFile V)
    (cmp_diffs : list Diff) (cmp_checks : gmap nat bool) (h : Store) :
  _cmp_merge int_zero copy_value confirm src inp cmp_diffs
             (_cmp_deselect_all cmp_checks) h
  = OK (src, h, None).
Proof.
  unfold _cmp_merge.
  assert (Hsel : selected_diffs cmp_diffs (_cmp_deselect_all cmp_checks) = []).
  { apply elem_of_nil_inv. intros p [_ Hchk]%selected_diffs_spec.
    unfold _cmp_deselect_all in Hchk. rewrite lookup_fmap in Hchk.
    by destruct (cmp_checks !! p.1). }
  by rewrite Hsel.
Qed.

(** "Select All" right after a compare selects every record that is not
    [source_only], in the order of the records, and nothing else. *)
Theorem select_all_selects_the_rest (cmp_diffs : list Diff) :
  selected_diffs cmp_diffs (_cmp_select_all cmp_diffs (initial_checks cmp_diffs))
  = filter (λ p, type p.2 ≠ source_only) (imap pair cmp_diffs).
Proof.
  unfold selected_diffs. apply filter_ext_elem. intros [i d] Hin.
  apply list_elem_of_lookup in Hin as (j & Hj). rewrite list_lookup_imap in Hj.
  destruct (cmp_diffs !! j) as [d'|] eqn:Hd; [|done]. injection Hj as <- <-.
  cbn [fst snd]. rewrite cmp_select_all_lookup, Hd, initial_checks_lookup.
  rewrite (decide_True (P := (j < length cmp_diffs)%nat))
    by (by eapply lookup_lt_Some).
  by destruct (decide (type d' ≠ source_only)).
Qed.

(** ** What a merge does to the source model as a whole *)

Lemma sum_list_insert (l : list nat) (i x y : nat) :
  l !! i = Some x → (sum_list (<[i := y]> l) + x = sum_list l + y)%nat.
Proof.
  revert i. induction l as [|z l IH]; intros [|i]; try done; simpl.
  - intros [= ->]. lia.
  - intros Hi. specialize (IH i Hi). simpl in IH. lia.
Qed.

Lemma sum_list_append (l1 l2 : list nat) :
  sum_list (l1 ++ l2) = (sum_list l1 + sum_list l2)%nat.
Proof. induction l1 as [|x l1 IH]; simpl; [done|]. rewrite IH. lia. Qed.

Lemma total_entries_insert {V : Type} (par : ParFile V) (li : nat)
    (pl pl' : ParList V) :
  lists par !! li = Some pl →
  (total_entries (set_lists par (<[li := pl']> (lists par))) + length (entries pl)
   = total_entries par + length (entries pl'))%nat.
Proof.
  intros Hpl. unfold total_entries, set_lists. cbn [lists].
  rewrite list_fmap_insert. apply sum_list_insert.
  by rewrite list_lookup_fmap, Hpl.
Qed.

Lemma total_entries_padded {V : Type} (par : ParFile V) (n : nat) :
  total_entries (set_lists par (lists par ++ replicate n (mkParList 0 0 [])))
  = total_entries par.
Proof.
  unfold total_entries, set_lists. cbn [lists].
  rewrite fmap_app, sum_list_append, fmap_replicate, sum_list_replicate.
  cbn [entries length]. lia.
Qed.

(** One record of the loop, applied to any source model: what comes out
    keeps every list and every entry of the source where it was, under its
    name, and holds one entry more exactly when the count of added entries
    went up by one. *)
Lemma merge_record_keeps (inp : ParFile pyval) (d : Diff) (src : ParFile pyval)
    (c a : nat) (st' : MergeState (V := pyval) (Store := unit)) :
  merge_record pyval_zero copy_pyval inp d (mkMergeState src tt c a) = OK st' →
  grows src (st_src st') ∧
  (total_entries (st_src st') + a = total_entries src + added_count st')%nat ∧
  (a ≤ added_count st' ≤ S a)%nat ∧ (c ≤ changed_count st' ≤ S c)%nat.
Proof.
  assert (Hskip : grows src src ∧
            (total_entries src + a = total_entries src + a)%nat ∧
            (a ≤ a ≤ S a)%nat ∧ (c ≤ c ≤ S c)%nat).
  { split; [apply grows_refl|]. lia. }
  unfold merge_record. destruct (type d).
  - (* changed *)
    unfold merge_changed. cbn [st_src st_heap changed_count added_count].
    destruct (guarded_lookup (lists src) (src_li d)) as [sl|] eqn:Hsl;
      [|by intros [= <-]].
    destruct (guarded_lookup (entries sl) (src_ei d)) as [se|] eqn:Hse;
      [|by intros [= <-]].
    destruct (guarded_lookup (lists inp) (inp_li d)) as [il|]; [|by intros [= <-]].
    destruct (guarded_lookup (entries il) (inp_ei d)) as [ie|]; [|by intros [= <-]].
    case_decide; [|by intros [= <-]].
    destruct (py_getitem (fields ie) (field_idx d)) as [inp_f|e]; [|done].
    cbn [res_bind copy_pyval].
    destruct (py_setitem _ (field_idx d) _) as [new_fields|e]; [|done].
    cbn [res_bind]. intros [= <-].
    cbn [st_src st_heap changed_count added_count].
    apply guarded_lookup_Some in Hsl as [_ Hsl].
    apply guarded_lookup_Some in Hse as [_ Hse].
    split; [|split; [|lia]].
    + apply (grows_with_entry_fields src _ _ sl se new_fields Hsl Hse).
    + pose proof (total_entries_insert src (Z.to_nat (src_li d)) sl
                    (set_entries sl (<[Z.to_nat (src_ei d) := set_fields se new_fields]>
                                       (entries sl))) Hsl) as Htot.
      cbn [entries set_entries] in Htot. rewrite length_insert in Htot. lia.
  - (* input_only *)
    unfold merge_input_only. cbn [st_src st_heap changed_count added_count].
    destruct (bool_decide (0 ≤ inp_li d) && bool_decide (0 ≤ inp_ei d)) eqn:Hguard;
      [|by intros [= <-]].
    apply andb_prop in Hguard as [H1%bool_decide_eq_true H2%bool_decide_eq_true].
    destruct (lists inp !! Z.to_nat (inp_li d)) as [il|]; [|by intros [= <-]].
    destruct (py_getitem (entries il) (inp_ei d)) as [ie|e]; [|done].
    cbn [res_bind]. rewrite copy_fields_pure, entry_copy_eta.
    set (n := Z.to_nat (inp_li d + 1 - Z.of_nat (length (lists src)))).
    set (src_lists := lists src ++ replicate n (mkParList 0 0 [])).
    destruct (py_getitem src_lists (inp_li d)) as [target|e] eqn:Htarget; [|done].
    cbn [res_bind].
    unfold py_getitem, py_index in Htarget. rewrite decide_False in Htarget by lia.
    destruct (guarded_lookup src_lists (inp_li d)) as [t|] eqn:Ht; [|done].
    injection Htarget as ->. apply guarded_lookup_Some in Ht as [_ Ht].
    assert (Hold : ∀ li sl, lists src !! li = Some sl → src_lists !! li = Some sl).
    { intros li sl Hsl. unfold src_lists. by apply lookup_app_l_Some. }
    assert (Hlen : (length (lists src) ≤ length src_lists)%nat).
    { unfold src_lists. rewrite length_app. lia. }
    pose proof (total_entries_padded src n) as Hpad. fold src_lists in Hpad.
    pose proof (lookup_lt_Some _ _ _ Ht) as Hlt.
    destruct (existsb _ (entries target)); intros [= <-];
      cbn [st_src st_heap changed_count added_count].
    + split; [|split; [|lia]]; [|lia].
      apply kept_entries_grow; [done|]. cbn [lists set_lists].
      intros li sl Hsl. exists sl. split; [by apply Hold | done].
    + split; [|split; [|lia]].
      * apply kept_entries_grow; cbn [lists set_lists];
          [by rewrite length_insert|].
        intros li sl Hsl. apply Hold in Hsl.
        destruct (decide (li = Z.to_nat (inp_li d))) as [->|Hne].
        -- rewrite Ht in Hsl. injection Hsl as <-.
           eexists. split; [by apply list_lookup_insert_eq|].
           intros ei se Hse. cbn [entries set_entries]. by apply lookup_app_l_Some.
        -- exists sl. by rewrite list_lookup_insert_ne.
      * pose proof (total_entries_insert (set_lists src src_lists)
                      (Z.to_nat (inp_li d)) target
                      (set_entries target (entries target ++ [ie])) Ht) as Htot.
        cbn [entries set_entries lists set_lists] in Htot.
        rewrite length_app in Htot. cbn [length] in Htot.
        unfold set_lists in Htot, Hpad |- *. cbn [version lists wrapper_header
          was_compressed trailing_data] in Htot, Hpad |- *. lia.
  - (* source_only *)
    by intros [= <-].
Qed.

Lemma merge_loop_keeps (inp : ParFile pyval) (ds : list (nat * Diff))
    (src : ParFile pyval) (c a : nat)
    (st' : MergeState (V := pyval) (Store := unit)) :
  res_for (merge_step inp) ds (mkMergeState src tt c a) = OK st' →
  grows src (st_src st') ∧
  (total_entries (st_src st') + a = total_entries src + added_count st')%nat ∧
  (a ≤ added_count st')%nat ∧ (changed_count st' ≤ c + length ds)%nat.
Proof.
  revert src c a. induction ds as [|p ds IH]; intros src c a.
  - intros [= <-]. cbn. split; [apply grows_refl|]. lia.
  - cbn [res_for]. unfold merge_step at 1.
    destruct (merge_record pyval_zero copy_pyval inp p.2 (mkMergeState src tt c a))
      as [[src1 [] c1 a1]|e] eqn:Hstep; [|done].
    apply merge_record_keeps in Hstep as (Hg1 & Ht1 & Ha1 & Hc1).
    cbn [st_src added_count changed_count] in *.
    intros Hrest. apply IH in Hrest as (Hg2 & Ht2 & Ha2 & Hc2).
    split; [by eapply grows_trans|]. cbn [length]. lia.
Qed.

(** A merge never removes, moves or renames anything: every list of the
    source and every entry of it is afterwards where it was, under the name
    it had. The number of entries the source holds goes up by exactly the
    number the report gives as added, and the number of fields reported as
    updated is at most the number of selected records. This holds for any
    records, also ones that did not come from a compare of these models. *)
Theorem merge_only_adds (src inp : ParFile pyval) (cmp_diffs : list Diff)
    (cmp_checks : gmap nat bool) (src1 : ParFile pyval) (changed_n added_n : nat) :
  _cmp_merge pyval_zero copy_pyval true src inp cmp_diffs cmp_checks tt
  = OK (src1, tt, Some (changed_n, added_n)) →
  grows src src1 ∧
  total_entries src1 = (total_entries src + added_n)%nat ∧
  (changed_n ≤ length (selected_diffs cmp_diffs cmp_checks))%nat.
Proof.
  unfold _cmp_merge.
  destruct (selected_diffs cmp_diffs cmp_checks) as [|p ds] eqn:Hsel; [done|].
  cbn [negb].
  change (λ p : nat * Diff, merge_record pyval_zero copy_pyval inp p.2)
    with (merge_step inp).
  destruct (res_for (merge_step inp) (p :: ds) (mkMergeState src tt 0 0))
    as [st|e] eqn:Hloop; [|done].
  cbn [res_bind]. intros Heq. injection Heq as <- _ <- <-.
  apply merge_loop_keeps in Hloop as (Hg & Ht & _ & Hc).
  split; [done|]. cbn [length] in *. split; lia.
Qed.

Lemma merge_only_adds_witness :
  let diffs := [sample_changed 0;
                input_only_record 0 [66] 1 (entry_named [66] [int_field 1])] in
  let checks : gmap nat bool := {[ 0%nat := true; 1%nat := true ]} in
  let src1 := one_list_par [entry_named [65] [int_field 12];
                            entry_named [66] [int_field 1]] in
  _cmp_merge pyval_zero copy_pyval true orc_source orc_input diffs checks tt
  = OK (src1, tt, Some (1%nat, 1%nat)) ∧
  grows orc_source src1 ∧
  total_entries src1 = (total_entries orc_source + 1)%nat ∧
  (1 ≤ length (selected_diffs diffs checks))%nat.
Proof.
  intros diffs checks src1.
  assert (Hm : _cmp_merge pyval_zero copy_pyval true orc_source orc_input diffs
                 checks tt = OK (src1, tt, Some (1%nat, 1%nat)))
    by (vm_compute; reflexivity).
  split; [exact Hm|].
  exact (merge_only_adds orc_source orc_input diffs checks src1 1 1 Hm).
Defined.

(** ** The compare engine: the baseline and the exceptions *)

(** The baseline model only feeds the "original" column: two compares of
    the same source and input that both return, with any two baselines (or
    none), return the same number of records, and the records agree pair
    by pair on everything but [original_val]. *)
Theorem baseline_changes_only_original_val (field_labels : gmap Z (gmap Z string))
    (src inp : ParFile pyval) (orig1 orig2 : option (ParFile pyval))
    (diffs1 diffs2 : list Diff) :
  _cmp_run_compare field_labels src inp orig1 = OK diffs1 →
  _cmp_run_compare field_labels src inp orig2 = OK diffs2 →
  length diffs1 = length diffs2 ∧ Forall2 same_but_original diffs1 diffs2.
Proof.
  intros H1 H2.
  pose proof (baseline_only_in_original_val _ _ _ _ _ _ _ H1 H2) as Hsame.
  split; [by eapply Forall2_length | done].
Qed.

Lemma baseline_changes_only_original_val_witness :
  let src := one_list_par [entry_named [65] [int_field 10]] in
  let inp := one_list_par [entry_named [65] [int_field 12]] in
  let orig := one_list_par [entry_named [65] [int_field 11]] in
  ∃ diffs1 diffs2,
    _cmp_run_compare ∅ src inp None = OK diffs1 ∧
    _cmp_run_compare ∅ src inp (Some orig) = OK diffs2 ∧
    length diffs1 = length diffs2 ∧ Forall2 same_but_original diffs1 diffs2.
Proof.
  intros src inp orig. eexists _, _.
  split; [reflexivity|]. split; [reflexivity|].
  apply (baseline_changes_only_original_val ∅ src inp None (Some orig));
    reflexivity.
Defined.

Lemma res_for_raise {A S : Type} (body : A → S → res S) (l : list A) (s : S)
    (e : exn) :
  res_for body l s = Raise e → ∃ x s', x ∈ l ∧ body x s' = Raise e.
Proof.
  revert s. induction l as [|x l IH]; intros s; [done|]. cbn [res_for].
  destruct (body x s) as [s'|e'] eqn:Hx.
  - intros (y & s'' & Hy & Hraise)%IH. exists y, s''. split; [by right | done].
  - intros [= ->]. exists x, s. split; [by left | done].
Qed.

Lemma field_value_str_raise (field : option (ParField pyval)) (e : exn) :
  _cmp_field_value_str field = Raise e → e = OverflowError ∨ e = NanToInt.
Proof.
  unfold _cmp_field_value_str. destruct field as [[dt [[z|b|s]|l]]|]; try done.
  - cbn [value]. unfold float_to_int.
    destruct (f32_is_inf b); [intros [= <-]; by left|].
    destruct (f32_is_nan b); [intros [= <-]; by right|].
    by destruct (f32_finite_parts b).
  - cbn [value]. by case_decide.
Qed.

(** The only exceptions a compare can end in are the ones [int(v)] raises
    while a float value is formatted: [OverflowError] for an infinite
    value and [ValueError] for a NaN. A list index is always inside the
    list it is used on and every name looked up is in the dictionary. *)
Theorem compare_raises_only_on_float (field_labels : gmap Z (gmap Z string))
    (src inp : ParFile pyval) (orig : option (ParFile pyval)) (e : exn) :
  _cmp_run_compare field_labels src inp orig = Raise e →
  e = OverflowError ∨ e = NanToInt.
Proof.
  unfold _cmp_run_compare.
  intros (li & acc & Hli & Hlist)%res_for_raise.
  apply elem_of_seq in Hli as [_ Hli]. simpl in Hli.
  unfold compare_list in Hlist.
  destruct (lists src !! li) as [sl|] eqn:Hsl;
    destruct (lists inp !! li) as [il|] eqn:Hil; try done.
  - apply res_for_raise in Hlist as (nm & acc' & Hnm & Hname).
    rewrite merge_sort_Permutation in Hnm.
    apply elem_of_elements, elem_of_union in Hnm.
    unfold compare_name in Hname.
    destruct (enumerate_by_name 0 (entries sl) ∅ !! nm) as [[sei se]|] eqn:Hs;
      destruct (enumerate_by_name 0 (entries il) ∅ !! nm) as [[iei ie]|] eqn:Hi;
      try done.
    + apply res_for_raise in Hname as (fi & acc'' & _ & Hfield).
      unfold compare_field in Hfield.
      destruct (fields_identical _ _); [done|].
      destruct (_cmp_field_value_str (fields se !! fi)) as [sv|e1] eqn:H1;
        [|injection Hfield as <-; by eapply field_value_str_raise].
      destruct (_cmp_field_value_str (fields ie !! fi)) as [iv|e2] eqn:H2;
        [|injection Hfield as <-; by eapply field_value_str_raise].
      cbn [res_bind] in Hfield.
      destruct (oe' ← _; fields oe' !! fi) as [orig_f|] eqn:Ho; [|done].
      destruct (_cmp_field_value_str (Some orig_f)) as [ov|e3] eqn:H3; [done|].
      injection Hfield as <-. by eapply field_value_str_raise.
    + exfalso. destruct Hnm as [Hd|Hd]; apply elem_of_dom in Hd as [x Hx];
        congruence.
  - exfalso. apply lookup_ge_None in Hsl, Hil. lia.
Qed.

Lemma compare_raises_only_on_float_witness :
  _cmp_run_compare ∅ inf_par inf_par None = Raise OverflowError ∧
  (OverflowError = OverflowError ∨ OverflowError = NanToInt).
Proof.
  split; [reflexivity|].
  apply (compare_raises_only_on_float ∅ inf_par inf_par None). reflexivity.
Defined.

(** ** A model compared with itself *)

Lemma finite_float_form (x : float) :
  PrimFloat.is_finite x = true →
  (∃ s, Prim2SF x = S754_zero s) ∨ (∃ s m e, Prim2SF x = S754_finite s m e).
Proof.
  unfold PrimFloat.is_finite, PrimFloat.is_nan, PrimFloat.is_infinity.
  rewrite !FloatAxioms.eqb_spec, FloatAxioms.abs_spec.
  destruct (Prim2SF x) as [s|s| |s m e] eqn:Hx.
  - intros _. left. by exists s.
  - change (Prim2SF infinity) with (S754_infinity false). cbn. by destruct s.
  - cbn. done.
  - intros _. right. by exists s, m, e.
Qed.

Lemma finite_float_tolerance (x : float) :
  PrimFloat.is_finite x = true →
  PrimFloat.ltb (PrimFloat.abs (x - x)) TOLERANCE = true.
Proof.
  intros Hfin. rewrite FloatAxioms.ltb_spec, FloatAxioms.abs_spec, FloatAxioms.sub_spec.
  assert (Hzero : ∃ s, SF64sub (Prim2SF x) (Prim2SF x) = S754_zero s).
  { destruct (finite_float_form x Hfin) as [(s & ->)|(s & m & e & ->)].
    - destruct s; by eexists.
    - unfold SF64sub, SFsub. rewrite Z.sub_diag. by eexists. }
  destruct Hzero as (s & ->). reflexivity.
Qed.

Lemma atom_eq_refl (a : atom) :
  match a with
  | AFloat b => PrimFloat.is_nan (f32_to_float b) = false
  | _ => True
  end →
  atom_eq a a = true.
Proof.
  destruct a as [z|b|s]; cbn [atom_eq].
  - intros _. by apply bool_decide_eq_true.
  - unfold PrimFloat.is_nan. by intros ->%negb_false_iff.
  - intros _. by apply bool_decide_eq_true.
Qed.

Lemma finite_floats_equal (f : ParField pyval) :
  finite_floats (value f) = true → _cmp_fields_equal f f = true.
Proof.
  unfold _cmp_fields_equal. rewrite decide_False by (intros Hne; by apply Hne).
  destruct (value f) as [[z|b|s]|l]; cbn [finite_floats pyval_eq].
  - intros _. by apply (atom_eq_refl (AInt z)).
  - apply finite_float_tolerance.
  - intros _. by apply (atom_eq_refl (AStr s)).
  - induction l as [|a l IH]; [done|]. cbn [forallb list_eq_elementwise].
    intros [Ha Hl]%andb_prop. rewrite IH by done. rewrite atom_eq_refl; [done|].
    destruct a; [done| |done]. by apply negb_true_iff.
Qed.

(** Diff reflexivity, where it holds. A model in which no float32 field
    holds an infinity or a NaN and no float32 array holds a NaN has no
    difference with itself: the compare returns no record, with any
    baseline and any labels. *)
Theorem compare_with_itself (field_labels : gmap Z (gmap Z string))
    (par : ParFile pyval) (orig : option (ParFile pyval)) :
  finite_floats_file par = true →
  _cmp_run_compare field_labels par par orig = OK [].
Proof.
  intros Hfin. apply compare_self_no_records. intros pl e f Hpl He Hf.
  apply finite_floats_equal. unfold finite_floats_file in Hfin.
  rewrite forallb_forall in Hfin.
  specialize (Hfin pl (proj1 (list_elem_of_In _ _) Hpl)).
  rewrite forallb_forall in Hfin.
  specialize (Hfin e (proj1 (list_elem_of_In _ _) He)).
  rewrite forallb_forall in Hfin.
  exact (Hfin f (proj1 (list_elem_of_In _ _) Hf)).
Qed.

(** An entry with the float 1.5, an int, a string and a float array that
    holds 1.5 and [+inf]. *)
Lemma compare_with_itself_witness :
  let par := one_list_par
               [entry_named [65]
                  [float_field 0x3FC00000; int_field 7;
                   mkParField TYPE_STRING (VAtom (AStr [97; 98]));
                   mkParField TYPE_ARRAY_FLOAT
                     (VList [AFloat 0x3FC00000; AFloat F32_INFINITY])]] in
  finite_floats_file par = true ∧
  _cmp_run_compare ∅ par par None = OK [].
Proof.
  intros par. split; [vm_compute; reflexivity|].
  apply (compare_with_itself ∅ par None). vm_compute. reflexivity.
Defined.

(** ** The label store *)

(** Labels are kept per field count and field index: after [set] the
    label is what [get] returns for that pair, after [remove] the pair has
    no label, and in both cases every other pair has the label it had.
    Removing a label that is not there changes nothing. *)
Theorem labels_set_get_remove (labels : gmap Z (gmap Z string))
    (field_count field_idx : Z) (label : string) (fc fi : Z) :
  FieldLabels_get (FieldLabels_set labels field_count field_idx label) fc fi
  = (if decide (fc = field_count ∧ fi = field_idx) then Some label
     else FieldLabels_get labels fc fi) ∧
  FieldLabels_get (FieldLabels_remove labels field_count field_idx) fc fi
  = (if decide (fc = field_count ∧ fi = field_idx) then None
     else FieldLabels_get labels fc fi) ∧
  (FieldLabels_get labels field_count field_idx = None →
   FieldLabels_remove labels field_count field_idx = labels).
Proof.
  unfold FieldLabels_get, FieldLabels_set, FieldLabels_remove. split; [|split].
  - destruct (decide (fc = field_count ∧ fi = field_idx)) as [[-> ->]|Hne].
    + rewrite lookup_insert_eq. cbn [mbind option_bind]. by rewrite lookup_insert_eq.
    + destruct (decide (fc = field_count)) as [->|Hfc].
      * rewrite lookup_insert_eq. cbn [mbind option_bind].
        rewrite lookup_insert_ne by (intros ->; by apply Hne).
        destruct (decide (is_Some (labels !! field_count))) as [[m Hm]|Hno].
        -- by rewrite Hm.
        -- rewrite lookup_insert_eq. cbn [default].
           apply eq_None_not_Some in Hno. rewrite Hno. cbn [mbind option_bind].
           by rewrite ?lookup_empty.
      * rewrite lookup_insert_ne by done.
        destruct (decide (is_Some (labels !! field_count))); [done|].
        by rewrite lookup_insert_ne by done.
  - destruct (decide (fc = field_count ∧ fi = field_idx)) as [[-> ->]|Hne].
    + destruct (labels !! field_count) as [m|] eqn:Hm; [|by rewrite Hm].
      destruct (decide (is_Some (m !! field_idx))) as [Hsome|Hnone].
      * rewrite lookup_insert_eq. cbn [mbind option_bind]. by rewrite lookup_delete_eq.
      * rewrite Hm. cbn [mbind option_bind]. by apply eq_None_not_Some.
    + destruct (labels !! field_count) as [m|] eqn:Hm; [|done].
      destruct (decide (is_Some (m !! field_idx))) as [Hsome|Hnone]; [|done].
      destruct (decide (fc = field_count)) as [->|Hfc].
      * rewrite lookup_insert_eq, Hm. cbn [mbind option_bind].
        by rewrite lookup_delete_ne by (intros ->; by apply Hne).
      * by rewrite lookup_insert_ne by done.
  - destruct (labels !! field_count) as [m|]; [|done]. cbn [mbind option_bind].
    intros Hnone. destruct (decide (is_Some (m !! field_idx))) as [Hsome|]; [|done].
    rewrite Hnone in Hsome. by destruct Hsome.
Qed.

Lemma labels_set_get_remove_witness :
  let labels : gmap Z (gmap Z string) := {[ 65 := {[ 1 := "mesh"%string ]} ]} in
  FieldLabels_get labels 6 0 = None ∧ FieldLabels_remove labels 6 0 = labels.
Proof.
  intros labels.
  assert (Hnone : FieldLabels_get labels 6 0 = None) by (vm_compute; reflexivity).
  split; [exact Hnone|].
  exact (proj2 (proj2 (labels_set_get_remove labels 6 0 EmptyString 0 0)) Hnone).
Defined.

(** ** JSON export and import *)

Lemma res_map_imap_ok {A B C : Type} (f : B → res C) (h : nat → A → B)
    (g : A → C) (l : list A) :
  (∀ i x, l !! i = Some x → f (h i x) = OK (g x)) →
  res_map f (imap h l) = OK (g <$> l).
Proof.
  revert h. induction l as [|x l IH]; intros h Hok; [done|].
  rewrite imap_cons, fmap_cons. cbn [res_map].
  rewrite (Hok 0%nat x eq_refl). cbn [res_bind].
  rewrite (IH (h ∘ S)) by (intros i y Hy; apply (Hok (S i) y Hy)). done.
Qed.

Lemma res_map_fmap_ok {A B C : Type} (f : B → res C) (h : A → B) (g : A → C)
    (l : list A) :
  (∀ x, x ∈ l → f (h x) = OK (g x)) → res_map f (h <$> l) = OK (g <$> l).
Proof.
  induction l as [|x l IH]; intros Hok; [done|].
  rewrite !fmap_cons. cbn [res_map]. rewrite (Hok x) by left. cbn [res_bind].
  rewrite IH by (intros y Hy; apply Hok; by right). done.
Qed.

Section json_codec.
Context {V : Type}.
Variable b64encode : list byte → pystr.
Variable b64decode : pystr → res (list byte).
Variable py_none : V.
Variable is_none : V → bool.
Variable py_int : V → res V.
Variable py_float : V → res V.
Variable py_str : V → res V.

(** Decoding undoes encoding. *)
Hypothesis b64_round_trip : ∀ b, b64decode (b64encode b) = OK b.

Lemma import_exported_envelope (b : option (list byte)) :
  match b64encode <$> truthy_bytes b with
  | Some s => res_bind (b64decode s) (λ x, OK (Some x))
  | None => OK None
  end = OK (truthy_bytes b).
Proof.
  destruct b as [[|x t]|]; cbn [truthy_bytes fmap option_fmap option_map]; try done.
  by rewrite b64_round_trip.
Qed.

(** Export to JSON and import again. If every field value of a model is
    of the Python type its tag asks for, so that [int()], [float()] and
    [str()] return it as it is, then [import_json] of the document
    [par_to_dict] built gives the model back: every list, entry and field,
    with or without labels in the document. Of the envelope it keeps what
    the document records: the trailing data and the wrapper if they are
    not empty, and the compression mark only together with a wrapper. *)
Theorem json_round_trip (par : ParFile V)
    (field_labels : option (gmap Z (gmap Z string))) :
  (∀ pl e f, pl ∈ lists par → e ∈ entries pl → f ∈ fields e →
             import_neutral is_none py_int py_float py_str f) →
  import_json b64decode py_none is_none py_int py_float py_str
              (par_to_dict b64encode par field_labels)
  = OK (mkParFile (version par) (lists par)
          (truthy_bytes (wrapper_header par))
          (bool_decide (is_Some (truthy_bytes (wrapper_header par))))
          (truthy_bytes (trailing_data par))).
Proof.
  intros Hneutral. unfold import_json, par_to_dict. cbv zeta.
  cbn [j_trailing_data j_wrapper_header j_was_compressed j_lists j_version default from_option id].
  rewrite import_exported_envelope. cbn [res_bind].
  assert (Henv : match b64encode <$> truthy_bytes (wrapper_header par) with
                 | Some s =>
                     res_bind (b64decode s) (λ w,
                       OK (Some w,
                           default true
                             match truthy_bytes (wrapper_header par) with
                             | Some _ => Some true
                             | None => None
                             end))
                 | None => OK (None, false)
                 end
                 = OK (truthy_bytes (wrapper_header par),
                       bool_decide (is_Some (truthy_bytes (wrapper_header par))))).
  { destruct (wrapper_header par) as [[|x t]|];
      cbn [truthy_bytes fmap option_fmap option_map]; try done.
    rewrite b64_round_trip. cbn [res_bind default from_option id].
    by rewrite bool_decide_eq_true_2. }
  rewrite Henv. cbn [res_bind fst snd].
  rewrite (res_map_imap_ok _ _ id).
  { by rewrite list_fmap_id. }
  intros li pl Hpl. unfold import_list. cbn [j_entries j_unknown1 j_unknown2 default from_option id].
  rewrite (res_map_fmap_ok _ _ id).
  { rewrite list_fmap_id. cbn [res_bind]. by destruct pl. }
  intros e He. unfold import_entry.
  cbn [j_fields j_name j_unknown_byte j_unknown_u16a j_unknown_u16b default from_option id].
  rewrite (res_map_imap_ok _ _ id).
  { rewrite list_fmap_id. cbn [res_bind]. by destruct e. }
  intros fi f Hf. unfold import_field, field_to_dict.
  cbn [j_type_id j_value default from_option id].
  assert (Hn : import_neutral is_none py_int py_float py_str f).
  { apply (Hneutral pl e f); [by eapply list_elem_of_lookup_2 | done |
                              by eapply list_elem_of_lookup_2]. }
  unfold import_neutral in Hn. rewrite Hn. cbn [res_bind]. by destruct f.
Qed.
End json_codec.

Lemma decodable_import_neutral (f : ParField pyval) :
  decodable_field f = true →
  import_neutral (λ _, false) int_only float_only str_only f.
Proof.
  unfold decodable_field, import_neutral, import_value.
  destruct f as [dt [a|l]]; cbn [dtype value].
  - intros Hwf. repeat (apply orb_prop in Hwf as [Hwf|Hwf]);
      apply andb_prop in Hwf as [->%bool_decide_eq_true Hitem];
      destruct a; try done.
  - intros [_ Hwf]%andb_prop. repeat (apply orb_prop in Hwf as [Hwf|Hwf]);
      apply andb_prop in Hwf as [->%bool_decide_eq_true _]; done.
Qed.

(** The minimal file with a wrapper, exported with a label for its field. *)
Lemma json_round_trip_witness :
  let par := mkParFile (version minimal_par) (lists minimal_par) (Some [x2a]) true
               (Some [x07]) in
  let labels : gmap Z (gmap Z string) := {[ 1 := {[ 0 := "hp"%string ]} ]} in
  import_json plain_decode (VList []) (λ _, false) int_only float_only str_only
              (par_to_dict plain_encode par (Some labels))
  = OK (mkParFile (version par) (lists par)
          (truthy_bytes (wrapper_header par))
          (bool_decide (is_Some (truthy_bytes (wrapper_header par))))
          (truthy_bytes (trailing_data par))).
Proof.
  intros par labels.
  apply (json_round_trip plain_encode plain_decode (VList []) (λ _, false)
           int_only float_only str_only).
  - intros b. unfold plain_decode, plain_encode. f_equal.
    rewrite <- list_fmap_compose. rewrite <- (list_fmap_id b) at 2.
    apply list_fmap_ext. intros i x _. apply byte_of_Z_of_byte.
  - intros pl e f Hpl He Hf. apply decodable_import_neutral.
    apply list_elem_of_singleton in Hpl as ->.
    apply list_elem_of_singleton in He as ->.
    by apply list_elem_of_singleton in Hf as ->.
Defined.

Lemma read_par_envelope (data : list byte) (par : ParFile pyval) :
  read_par data = OK par → wrapper_header par = None ∧ was_compressed par = false.
Proof.
  unfold read_par.
  destruct (read_par_body data 0%nat) as [[par' end_pos]|e] eqn:Hbody; [|done].
  intros [= ->]. unfold read_par_body in Hbody.
  apply reader_bind_inv in Hbody as (magic & p1 & _ & Hbody).
  destruct (decide (magic ≠ PAR_MAGIC)); [done|].
  apply reader_bind_inv in Hbody as (ver & p2 & _ & Hbody).
  apply reader_bind_inv in Hbody as (cnt & p3 & _ & Hbody).
  apply reader_bind_inv in Hbody as (pad & p4 & _ & Hbody).
  apply reader_bind_inv in Hbody as (ls & p5 & _ & Hret).
  by injection Hret as <- <-.
Qed.

(** The command-line export forgets the envelope. [cli_export] does not
    put the wrapper and the compression mark that [decompress_par_file]
    returned on the model, so the document it writes has neither
    ["_wrapper_header"] nor ["_was_compressed"], also for a compressed
    file; a model imported from that document is marked as not compressed
    and has no wrapper. *)
Theorem cli_export_forgets_envelope
    (zlib_decompressobj : list byte → res (list byte * list byte))
    (b64encode : list byte → pystr) (b64decode : pystr → res (list byte))
    (py_none : pyval) (is_none : pyval → bool)
    (py_int py_float py_str : pyval → res pyval)
    (raw_data : list byte) (data : json_doc pyval) :
  cli_export zlib_decompressobj b64encode raw_data = OK data →
  j_wrapper_header data = None ∧ j_was_compressed data = None ∧
  ∀ par, import_json b64decode py_none is_none py_int py_float py_str data = OK par →
         wrapper_header par = None ∧ was_compressed par = false.
Proof.
  unfold cli_export.
  destruct (decompress_par_file zlib_decompressobj raw_data) as [[[d w] c]|e]; [|done].
  cbn [res_bind fst]. destruct (read_par d) as [par0|e] eqn:Hread; [|done].
  cbn [res_bind]. intros [= <-].
  apply read_par_envelope in Hread as [Hw Hc].
  unfold par_to_dict. cbv zeta. cbn [j_wrapper_header j_was_compressed].
  rewrite Hw. cbn [truthy_bytes fmap option_fmap option_map].
  split; [done|]. split; [done|].
  intros par. unfold import_json.
  cbn [j_trailing_data j_wrapper_header j_was_compressed j_lists j_version].
  destruct (match b64encode <$> truthy_bytes (trailing_data par0) with
            | Some s => _ | None => _ end) as [td|e]; [|done].
  cbn [res_bind fst snd]. destruct (res_map _ _) as [ls|e]; [|done].
  cbn [res_bind]. by intros [= <-].
Qed.

(** The minimal file behind a wrapper, compressed. *)
Lemma cli_export_forgets_envelope_witness :
  let raw := framed_compress [x2a] ++ framed_compress (minimal_bytes x00 x54) in
  decompress_par_file framed_decompressobj raw
  = OK (minimal_bytes x00 x54, Some [x2a], true) ∧
  ∃ data,
    cli_export framed_decompressobj plain_encode raw = OK data ∧
    j_wrapper_header data = None ∧ j_was_compressed data = None ∧
    ∀ par, import_json plain_decode (VList []) (λ _, false) int_only float_only
                       str_only data = OK par →
           wrapper_header par = None ∧ was_compressed par = false.
Proof.
  intros raw. split; [reflexivity|].
  exists (par_to_dict plain_encode minimal_par None).
  assert (Hexp : cli_export framed_decompressobj plain_encode raw
                 = OK (par_to_dict plain_encode minimal_par None)) by reflexivity.
  split; [exact Hexp|].
  exact (cli_export_forgets_envelope framed_decompressobj plain_encode plain_decode
           (VList []) (λ _, false) int_only float_only str_only raw _ Hexp).
Defined.

(** ** Adding an entry *)

Lemma template_field_decodable (f : ParField pyval) :
  decodable_field f = true →
  ∃ nf, template_field f = map_field Some nf ∧ dtype nf = dtype f ∧
        decodable_field nf = true.
Proof.
  unfold decodable_field, template_field, map_field.
  destruct f as [dt [a|l]]; cbn [dtype value].
  - intros Hwf. repeat (apply orb_prop in Hwf as [Hwf|Hwf]);
      apply andb_prop in Hwf as [->%bool_decide_eq_true _].
    + by exists (mkParField TYPE_INT32 (VAtom (AInt 0))).
    + by exists (mkParField TYPE_FLOAT32 (VAtom (AFloat 0))).
    + by exists (mkParField TYPE_UINT32 (VAtom (AInt 0))).
    + by exists (mkParField TYPE_STRING (VAtom (AStr []))).
  - intros [_ Hwf]%andb_prop. repeat (apply orb_prop in Hwf as [Hwf|Hwf]);
      apply andb_prop in Hwf as [->%bool_decide_eq_true _].
    + by exists (mkParField TYPE_ARRAY_INT32 (VList [])).
    + by exists (mkParField TYPE_ARRAY_FLOAT (VList [])).
    + by exists (mkParField TYPE_ARRAY_UINT32 (VList [])).
    + by exists (mkParField TYPE_ARRAY_STR (VList [])).
Qed.

Lemma template_fields_decodable (fs : list (ParField pyval)) :
  forallb decodable_field fs = true →
  ∃ nfs, template_field <$> fs = map_field Some <$> nfs ∧
         dtype <$> nfs = dtype <$> fs ∧
         forallb decodable_field nfs = true.
Proof.
  induction fs as [|f fs IH]; [by exists []|].
  cbn [forallb]. intros [Hf Hfs]%andb_prop.
  destruct (template_field_decodable f Hf) as (nf & Hnf & Hdt & Hdec).
  destruct (IH Hfs) as (nfs & Hnfs & Hdts & Hdecs).
  exists (nf :: nfs). rewrite !fmap_cons, Hnf, Hnfs, Hdt, Hdts. cbn [forallb].
  by rewrite Hdec, Hdecs.
Qed.

Lemma forallb_lookup {A : Type} (p : A → bool) (l : list A) (i : nat) (x : A) :
  forallb p l = true → l !! i = Some x → p x = true.
Proof.
  intros Hall Hx. rewrite forallb_forall in Hall. apply Hall.
  apply list_elem_of_In. by eapply list_elem_of_lookup_2.
Qed.

Lemma forallb_insert {A : Type} (p : A → bool) (l : list A) (i : nat) (x : A) :
  forallb p l = true → p x = true → forallb p (<[i := x]> l) = true.
Proof.
  revert i. induction l as [|y l IH]; intros i; [done|].
  cbn [forallb]. intros [Hy Hl]%andb_prop Hx. destruct i as [|i]; cbn.
  - by rewrite Hx, Hl.
  - by rewrite Hy, IH.
Qed.

Lemma map_file_set_lists {V W : Type} (g : V → W) (par : ParFile V)
    (ls : list (ParList V)) :
  set_lists (map_file g par) (map_list g <$> ls) = map_file g (set_lists par ls).
Proof. done. Qed.

Section added_entry.
Variable py_strip : pystr → pystr.

(** What [_add_entry_to_list] does to a model that was read: the new entry
    and the model with it, over [pyval]. *)
Lemma add_entry_decodable (par : ParFile pyval) (li : nat) (pl : ParList pyval)
    (typed : pystr) :
  decodable_file par = true →
  lists par !! li = Some pl →
  typed ≠ [] → py_strip typed ≠ [] →
  Z.of_nat (length (py_strip typed)) ≤ 1000000 →
  Z.of_nat (length (entries pl)) < 4294967295 →
  ∃ new_entry,
    let par' := set_lists par
                  (<[li := set_entries pl (entries pl ++ [new_entry])]> (lists par)) in
    _add_entry_to_list py_strip (map_file Some par) li (Some typed)
    = map_file Some par' ∧
    name new_entry = py_strip typed ∧
    dtype <$> fields new_entry = dtype <$> fields (default new_entry (head (entries pl))) ∧
    decodable_file par' = true.
Proof.
  intros Hdec Hpl Htyped Hstrip Hlen Hcount.
  unfold decodable_file in Hdec.
  apply andb_prop in Hdec as [[Hver Hcnt]%andb_prop Hls].
  pose proof (forallb_lookup _ _ _ _ Hls Hpl) as Hdl. unfold decodable_list in Hdl.
  apply andb_prop in Hdl as [[[Hu1 Hu2]%andb_prop Hn]%andb_prop Hes].
  assert (Hnew : ∃ new_entry,
            match map_entry Some <$> entries pl with
            | template :: _ =>
                mkParEntry (py_strip typed) (unknown_byte template)
                  (unknown_u16a template) (unknown_u16b template)
                  (template_field <$> fields template)
            | [] => mkParEntry (py_strip typed) 0 0 0 []
            end = map_entry Some new_entry ∧
            name new_entry = py_strip typed ∧
            dtype <$> fields new_entry
            = dtype <$> fields (default new_entry (head (entries pl))) ∧
            decodable_entry new_entry = true).
  { destruct (entries pl) as [|template rest] eqn:Hentries.
    - exists (mkParEntry (py_strip typed) 0 0 0 []). repeat split.
      unfold decodable_entry. cbn [name unknown_byte unknown_u16a unknown_u16b fields].
      by rewrite bool_decide_eq_true_2 by done.
    - cbn [forallb] in Hes. apply andb_prop in Hes as [Ht _].
      unfold decodable_entry in Ht.
      apply andb_prop in Ht as [[[[[_ Hb]%andb_prop Ha]%andb_prop Hbb]%andb_prop
                                  Hfc]%andb_prop Hfs].
      destruct (template_fields_decodable _ Hfs) as (nfs & Hnfs & Hdts & Hdecs).
      exists (mkParEntry (py_strip typed) (unknown_byte template)
                (unknown_u16a template) (unknown_u16b template) nfs).
      rewrite fmap_cons. unfold map_entry at 1 2 3 4.
      cbn [name unknown_byte unknown_u16a unknown_u16b fields head default from_option id].
      rewrite <- list_fmap_compose.
      assert (Hcomp : template_field <$> fields template
                      = (template_field ∘ map_field Some) <$> fields template).
      { apply list_fmap_ext. by intros i [dt v] _. }
      rewrite <- Hcomp, Hnfs. repeat split; [done|].
      unfold decodable_entry. cbn [name unknown_byte unknown_u16a unknown_u16b fields].
      rewrite bool_decide_eq_true_2 by done. rewrite Hb, Ha, Hbb, Hdecs.
      assert (Hl : length nfs = length (fields template)).
      { by rewrite <- (length_fmap dtype nfs), Hdts, length_fmap. }
      by rewrite Hl, Hfc. }
  destruct Hnew as (new_entry & Hstep & Hname & Hdts & Hdecn).
  exists new_entry. cbv zeta. split; [|split; [done|split; [done|]]].
  - unfold _add_entry_to_list. cbn [map_file lists].
    rewrite list_lookup_fmap, Hpl. cbn [fmap option_fmap option_map].
    rewrite decide_False by (intros [?|?]; done).
    cbn [map_list entries]. rewrite Hstep.
    change (mkParFile (version par) (map_list Some <$> lists par) (wrapper_header par)
              (was_compressed par) (trailing_data par)) with (map_file Some par).
    rewrite <- map_file_set_lists. f_equal.
    rewrite list_fmap_insert. f_equal. unfold set_entries, map_list.
    cbn [unknown1 unknown2 entries]. f_equal. by rewrite fmap_app.
  - unfold decodable_file, set_lists. cbn [version lists].
    rewrite Hver, length_insert, Hcnt. cbn [andb].
    apply forallb_insert; [done|]. unfold decodable_list, set_entries.
    cbn [unknown1 unknown2 entries]. rewrite Hu1, Hu2. cbn [andb].
    apply andb_true_intro. split.
    + unfold wf_count. apply bool_decide_eq_true_2. rewrite length_app. cbn [length].
      change (fmt_max fmt_I) with 4294967295. lia.
    + rewrite forallb_app, Hes. cbn [forallb]. by rewrite Hdecn.
Qed.

(** Add an entry, save, load. In a model the reader could have returned,
    [_add_entry_to_list] with a name of at most 1000000 characters puts one
    entry with that name behind the entries of the list and changes nothing
    else; the entry has the field types of the first entry of the list,
    and no field of it holds [None]. [write_par] writes the model, and
    [read_par] reads it back with the new entry in it, every character
    outside ASCII turned into a question mark. *)
Theorem added_entry_is_saved (par : ParFile pyval) (li : nat) (pl : ParList pyval)
    (typed : pystr) :
  decodable_file par = true →
  lists par !! li = Some pl →
  typed ≠ [] → py_strip typed ≠ [] →
  Z.of_nat (length (py_strip typed)) ≤ 1000000 →
  Z.of_nat (length (entries pl)) < 4294967295 →
  ∃ new_entry data,
    let par' := set_lists par
                  (<[li := set_entries pl (entries pl ++ [new_entry])]> (lists par)) in
    _add_entry_to_list py_strip (map_file Some par) li (Some typed)
    = map_file Some par' ∧
    name new_entry = py_strip typed ∧
    dtype <$> fields new_entry = dtype <$> fields (default new_entry (head (entries pl))) ∧
    write_par par' = OK data ∧
    read_par data
    = OK (mkParFile (version par) (recode_list <$> lists par') None false
            (trailing_data (as_decoded par))).
Proof.
  intros Hdec Hpl Htyped Hstrip Hlen Hcount.
  destruct (add_entry_decodable par li pl typed Hdec Hpl Htyped Hstrip Hlen Hcount)
    as (new_entry & Hadd & Hname & Hdts & Hdec').
  cbv zeta in Hadd, Hdec'.
  destruct (read_written_decodable_body _ Hdec') as (bs & He & Hread).
  exists new_entry. cbv zeta.
  set (par' := set_lists par
                 (<[li := set_entries pl (entries pl ++ [new_entry])]> (lists par))) in *.
  assert (Hio : ∃ data, write_par par' = OK data ∧
            read_par data
            = OK (mkParFile (version par) (recode_list <$> lists par') None false
                    (trailing_data (as_decoded par)))).
  { unfold write_par, read_par. rewrite (He []). cbn [app].
    unfold as_decoded. cbn [trailing_data].
    change (trailing_data par') with (trailing_data par).
    change (version par') with (version par) in Hread.
    destruct (trailing_data par) as [[|b t]|].
    - exists bs. split; [done|]. rewrite <- (app_nil_r bs) at 1. by rewrite Hread.
    - exists (bs ++ b :: t). split; [done|]. by rewrite Hread.
    - exists bs. split; [done|]. rewrite <- (app_nil_r bs) at 1. by rewrite Hread. }
  destruct Hio as (data & Hw & Hr). by exists data.
Qed.
End added_entry.

(** A second entry for the minimal file, its name typed with blanks around
    it. *)
Lemma added_entry_is_saved_witness :
  let pl := mkParList 0 0
              [mkParEntry [84; 101; 115; 116] 0 0 0
                 [mkParField TYPE_INT32 (VAtom (AInt 42))]] in
  let typed := [32; 66; 50; 32] in
  decodable_file minimal_par = true ∧
  lists minimal_par !! 0%nat = Some pl ∧
  strip_spaces typed = [66; 50] ∧
  ∃ new_entry data,
    let par' := set_lists minimal_par
                  (<[0%nat := set_entries pl (entries pl ++ [new_entry])]>
                     (lists minimal_par)) in
    _add_entry_to_list strip_spaces (map_file Some minimal_par) 0 (Some typed)
    = map_file Some par' ∧
    name new_entry = strip_spaces typed ∧
    dtype <$> fields new_entry
    = dtype <$> fields (default new_entry (head (entries pl))) ∧
    write_par par' = OK data ∧
    read_par data
    = OK (mkParFile (version minimal_par) (recode_list <$> lists par') None false
            (trailing_data (as_decoded minimal_par))).
Proof.
  intros pl typed. split; [reflexivity|]. split; [reflexivity|].
  split; [reflexivity|].
  apply (added_entry_is_saved strip_spaces minimal_par 0 pl typed).
  - reflexivity.
  - reflexivity.
  - discriminate.
  - discriminate.
  - vm_compute. discriminate.
  - vm_compute. reflexivity.
Defined.
